(** * Airman telemetry transmitter: checksums, frame encoding and the AHRS filter

    A shallow embedding of [level1] (XOR-checksummed frames) and [level2]
    ([ahrs_filter.c]: CRC16-CCITT frames around a quaternion filter), and the
    properties of the design document checked against it.

    Conventions of the embedding:
    - a [char] buffer is the list of the bytes stored in it; the byte that
      follows the last listed one is the terminating NUL;
    - [unsigned short] and [unsigned char] values are integers of [Z] with the
      wrap-around of every conversion written out;
    - [float] is IEEE-754 binary32 and [double] binary64, both carried by
      [spec_float] with the operations of [SpecFloat] at the matching
      precision;
    - [spec_float] has a single NaN: the sign bit of a NaN, which printf
      shows, is an argument of the formatting functions ([nan_sign] gives it
      for each formatted field). *)

From Stdlib Require Import ZArith NArith QArith List Permutation Bool Lia SpecFloat.
From Stdlib Require Import Reals Qreals Lra Psatz Machin.
From Stdlib Require Import Strings.Byte Strings.Ascii Strings.String.
Import ListNotations.

Local Open Scope Z_scope.

(** ** C integer conversions *)

Module CInt.

(** Conversion to [unsigned short] (16 bits). *)
Definition to_ushort (z : Z) : Z := z mod 65536.

(** Conversion to [unsigned char] (8 bits). *)
Definition to_uchar (z : Z) : Z := z mod 256.

(** The stored byte, as a number in 0..255. *)
Definition byte_val (b : byte) : Z := Z.of_N (Byte.to_N b).

(** The value of a plain [char] holding byte [b]: plain [char] is signed on
    some targets and unsigned on others. *)
Definition char_value (char_signed : bool) (b : byte) : Z :=
  if char_signed && (128 <=? byte_val b) then byte_val b - 256 else byte_val b.

(** The loop test of both checksum loops: the current character is NUL. *)
Definition is_nul (b : byte) : bool := byte_val b =? 0.

End CInt.
Import CInt.

(** ** The string loop shared by both checksum functions *)

(** [while (c = *p, c != 0) { st = body(st, c); p++; }]: the loop of
    [crc16_ccitt] and of [calculate_checksum], with the register(s) updated
    by the loop body as the state. *)
Fixpoint while_char {S : Type} (body : S -> byte -> S) (st : S) (p : list byte) : S :=
  match p with
  | [] => st
  | c :: rest => if is_nul c then st else while_char body (body st c) rest
  end.

(** ** Level 2: CRC16-CCITT ([crc16_ccitt], ahrs_filter.c) *)

Section Checksums.

Variable char_signed : bool.

(** One iteration of [for (int i = 0; i < 8; i++)]. *)
Definition crc16_round (crc : Z) : Z :=
  if negb (Z.land crc 0x8000 =? 0)
  then to_ushort (Z.lxor (Z.shiftl crc 1) 0x1021)
  else to_ushort (Z.shiftl crc 1).

Fixpoint crc16_rounds (n : nat) (crc : Z) : Z :=
  match n with
  | O => crc
  | S n' => crc16_rounds n' (crc16_round crc)
  end.

(** The body of the [while]: fold one character into the register. *)
Definition crc16_byte (crc : Z) (c : byte) : Z :=
  let crc := to_ushort (Z.lxor crc (Z.shiftl (to_ushort (char_value char_signed c)) 8)) in
  crc16_rounds 8 crc.

Definition crc16_ccitt (data : list byte) : Z := while_char crc16_byte 0xFFFF data.

(** ** Level 1: XOR checksum ([calculate_checksum]) *)

Definition xor_byte (chk : Z) (c : byte) : Z :=
  to_uchar (Z.lxor chk (to_uchar (char_value char_signed c))).

Definition calculate_checksum (buf : list byte) : Z := while_char xor_byte 0 buf.

End Checksums.

(** The bytes of a C string literal. *)
Definition cstr (s : string) : list byte := list_byte_of_string s.

(** The part of a buffer that a C string function reads: everything before
    the first NUL. *)
Fixpoint before_nul (s : list byte) : list byte :=
  match s with
  | [] => []
  | c :: rest => if is_nul c then [] else c :: before_nul rest
  end.

(** A buffer without NUL bytes. *)
Definition nul_free (s : list byte) : bool := forallb (fun c => negb (is_nul c)) s.

(** The shift-and-xor round undone: the bit shifted out is the low bit of the
    result, because the polynomial is odd. *)
Definition crc16_round_inv (y : Z) : Z :=
  if Z.odd y then Z.shiftr (Z.lxor y 0x1021) 1 + 0x8000 else Z.shiftr y 1.

(** [f] holds on [x, x+1, ..., x+n-1]. *)
Fixpoint forall_range (f : Z -> bool) (n : nat) (x : Z) : bool :=
  match n with
  | O => true
  | S n' => f x && forall_range f n' (x + 1)
  end.

(** ** Single-bit corruption of a payload *)

(** Bit [k] of byte [b] inverted. *)
Definition flip_bit (k : nat) (b : byte) : byte :=
  match Byte.of_N (N.lxor (Byte.to_N b) (N.shiftl 1 (N.of_nat k))) with
  | Some b' => b'
  | None => b
  end.

(** Bit [k] of the byte at index [i] inverted, all other bytes kept. *)
Fixpoint flip_at (i k : nat) (p : list byte) : list byte :=
  match p, i with
  | [], _ => []
  | b :: rest, O => flip_bit k b :: rest
  | b :: rest, S i' => b :: flip_at i' k rest
  end.

(** ** printf conversions used by the frame encoders *)

Module Printf.

Local Open Scope byte_scope.

(** The character of a digit value, for bases up to 16 (upper case, as %X). *)
Definition digit_char (d : Z) : byte :=
  nth (Z.to_nat d) (cstr "0123456789ABCDEF") "0".

(** Digit values of [n] in [base], most significant first. *)
Fixpoint to_digits (base : Z) (fuel : nat) (n : Z) : list Z :=
  match fuel with
  | O => []
  | S fuel' =>
      if n <? base then [n]
      else to_digits base fuel' (n / base) ++ [n mod base]
  end.

Definition digits (base : Z) (n : Z) : list Z :=
  to_digits base (S (Z.to_nat (Z.log2 n))) n.

Definition dec_text (n : Z) : list byte := map digit_char (digits 10 n).
Definition hex_text (n : Z) : list byte := map digit_char (digits 16 n).

(** [%lld] *)
Definition fmt_lld (n : Z) : list byte :=
  if n <? 0 then "-" :: dec_text (- n) else dec_text n.

(** [%04X]: upper-case hexadecimal, zero-padded to a minimum width of 4. *)
Definition fmt_04X (n : Z) : list byte :=
  let d := hex_text n in
  repeat "0" (4 - List.length d) ++ d.

(** [%02X] *)
Definition fmt_02X (n : Z) : list byte :=
  let d := hex_text n in
  repeat "0" (2 - List.length d) ++ d.

(** [n / d] rounded to the nearest integer, ties to even ([0 <= n], [0 < d]). *)
Definition div_nearest_even (n d : Z) : Z :=
  let q := n / d in
  match 2 * (n mod d) ?= d with
  | Lt => q
  | Gt => q + 1
  | Eq => if Z.even q then q else q + 1
  end.

(** The magnitude [m * 2^e] in hundredths, correctly rounded. *)
Definition hundredths (m : positive) (e : Z) : Z :=
  if 0 <=? e then Zpos m * 100 * 2 ^ e
  else div_nearest_even (Zpos m * 100) (2 ^ (- e)).

Definition sign_text (s : bool) : list byte := if s then ["-"] else [].

(** Sign, integer part, point, two decimals. *)
Definition fixed2_text (s : bool) (h : Z) : list byte :=
  sign_text s ++ dec_text (h / 100)
    ++ "." :: digit_char ((h mod 100) / 10) :: digit_char (h mod 10) :: [].

(** [%.2f] of a [float] argument (promoted to [double] without change of
    value).  [spec_float] has a single NaN, while printf shows the sign bit
    of a NaN argument ("nan" or "-nan"): [neg] is that bit, read only when
    the argument is a NaN. *)
Definition fmt_2f (neg : bool) (x : spec_float) : list byte :=
  match x with
  | S754_zero s => fixed2_text s 0
  | S754_infinity s => sign_text s ++ cstr "inf"
  | S754_nan => sign_text neg ++ cstr "nan"
  | S754_finite s m e => fixed2_text s (hundredths m e)
  end.

(** [snprintf(buf, size, ...)]: at most [size - 1] characters are stored. *)
Definition snprintf (size : nat) (text : list byte) : list byte :=
  firstn (size - 1) text.

End Printf.
Import Printf.

(** ** IEEE-754 arithmetic of [float] and [double] *)

Module F32.
Definition prec : Z := 24.
Definition emax : Z := 128.
Definition add := SFadd prec emax.
Definition sub := SFsub prec emax.
Definition mul := SFmul prec emax.
Definition div := SFdiv prec emax.
Definition sqrtf := SFsqrt prec emax.
Definition neg := SFopp.
Definition eqb := SFeqb.
(** Conversion of an [int] to [float]. *)
Definition of_int (z : Z) : spec_float := binary_normalize prec emax z 0 false.
(** A decimal literal [n/d] with suffix [f], rounded to nearest. *)
Definition lit (n d : positive) : spec_float :=
  SFdiv prec emax (S754_finite false n 0) (S754_finite false d 0).
(** Conversion of a [double] to [float], rounded to nearest. *)
Definition of_double (x : spec_float) : spec_float :=
  match x with
  | S754_finite s m e => binary_round prec emax s m e
  | _ => x
  end.
Definition valid (x : spec_float) : bool := valid_binary prec emax x.
End F32.

Module F64.
Definition prec : Z := 53.
Definition emax : Z := 1024.
Definition mul := SFmul prec emax.
Definition div := SFdiv prec emax.
Definition lit (n d : positive) : spec_float :=
  SFdiv prec emax (S754_finite false n 0) (S754_finite false d 0).
(** Conversion of a [float] to [double]: exact, renormalised. *)
Definition of_float (x : spec_float) : spec_float :=
  match x with
  | S754_finite s m e => binary_round prec emax s m e
  | _ => x
  end.
End F64.

Declare Scope f32_scope.
Delimit Scope f32_scope with f32.
Infix "+" := F32.add : f32_scope.
Infix "-" := F32.sub : f32_scope.
Infix "*" := F32.mul : f32_scope.
Infix "/" := F32.div : f32_scope.
Notation "- x" := (F32.neg x) : f32_scope.
Infix "==" := F32.eqb (at level 70, no associativity) : f32_scope.

(** ** Level 2: the AHRS layer of ahrs_filter.c *)

Definition LOOP_HZ : Z := 20.
Definition LOOP_DT_SEC : spec_float := Eval vm_compute in
  F32.div (F32.lit 1 1) (F32.of_int LOOP_HZ).

(** [M_PI] of <math.h>, 3.14159265358979323846 as a [double]. *)
Definition M_PI : spec_float := Eval vm_compute in
  F64.lit 314159265358979323846 100000000000000000000.

Definition f0_0 : spec_float := S754_zero false.
Definition f0_5 : spec_float := Eval vm_compute in F32.lit 1 2.
Definition f1_0 : spec_float := Eval vm_compute in F32.lit 1 1.
Definition f180_0 : spec_float := Eval vm_compute in F32.lit 180 1.

Definition deg2rad (d : spec_float) : spec_float :=
  F32.of_double (F64.mul (F64.of_float d) (F64.div M_PI (F64.of_float f180_0))).

Definition rad2deg (r : spec_float) : spec_float :=
  F32.of_double (F64.mul (F64.of_float r) (F64.div (F64.of_float f180_0) M_PI)).

Record imu_sample_t := {
  ax : spec_float; ay : spec_float; az : spec_float;
  gx : spec_float; gy : spec_float; gz : spec_float;
  mx : spec_float; my : spec_float; mz : spec_float
}.

(** The file-scope variables [q0], [q1], [q2], [q3]: the only state the
    program keeps between ticks. *)
Record quat := { q0 : spec_float; q1 : spec_float; q2 : spec_float; q3 : spec_float }.

(** Their initialisers. *)
Definition q_init : quat :=
  {| q0 := f1_0; q1 := f0_0; q2 := f0_0; q3 := f0_0 |}.

Definition inv_sqrt (x : spec_float) : spec_float := (f1_0 / F32.sqrtf x)%f32.

(** Functions that touch the file-scope state: a state monad over [quat]. *)
Definition M (A : Type) : Type := quat -> A * quat.
Definition ret {A} (a : A) : M A := fun s => (a, s).
Definition bind {A B} (m : M A) (k : A -> M B) : M B :=
  fun s => let (a, s') := m s in k a s'.
Definition get : M quat := fun s => (s, s).
Definition put (s : quat) : M unit := fun _ => (tt, s).
Notation "x <- m ;; k" := (bind m (fun x => k))
  (at level 61, m at next level, right associativity).
Notation "m ;;; k" := (bind m (fun _ => k))
  (at level 61, right associativity).

Local Open Scope f32_scope.

(** The quaternion derivative [qDot0..qDot3] of [madgwick_update], from the
    state and the angular rate in rad/s. *)
Definition qDot (q : quat) (gx gy gz : spec_float) : quat :=
  {| q0 := f0_5 * (- q1 q * gx - q2 q * gy - q3 q * gz);
     q1 := f0_5 * (q0 q * gx + q2 q * gz - q3 q * gy);
     q2 := f0_5 * (q0 q * gy - q1 q * gz + q3 q * gx);
     q3 := f0_5 * (q0 q * gz + q1 q * gy - q2 q * gx) |}.

(** [q0 += qDot0 * dt; ...] *)
Definition integrate (q qd : quat) (dt : spec_float) : quat :=
  {| q0 := q0 q + q0 qd * dt;
     q1 := q1 q + q1 qd * dt;
     q2 := q2 q + q2 qd * dt;
     q3 := q3 q + q3 qd * dt |}.

(** The argument of [inv_sqrt] in [madgwick_update]:
    [q0*q0 + q1*q1 + q2*q2 + q3*q3]. *)
Definition sum_sq (q : quat) : spec_float :=
  q0 q * q0 q + q1 q * q1 q + q2 q * q2 q + q3 q * q3 q.

(** [norm = inv_sqrt(q0*q0 + q1*q1 + q2*q2 + q3*q3); q0 *= norm; ...] *)
Definition renormalize (q : quat) : quat :=
  let norm := inv_sqrt (sum_sq q) in
  {| q0 := q0 q * norm; q1 := q1 q * norm; q2 := q2 q * norm; q3 := q3 q * norm |}.

Definition vec_norm (x y z : spec_float) : spec_float :=
  F32.sqrtf (x * x + y * y + z * z).

Definition madgwick_update (imu : imu_sample_t) (dt : spec_float) : M unit :=
  let ax := ax imu in let ay := ay imu in let az := az imu in
  let gx := deg2rad (gx imu) in
  let gy := deg2rad (gy imu) in
  let gz := deg2rad (gz imu) in
  let mx := mx imu in let my := my imu in let mz := mz imu in
  let norm := vec_norm ax ay az in
  if norm == f0_0 then ret tt else
  let ax := ax / norm in let ay := ay / norm in let az := az / norm in
  let norm := vec_norm mx my mz in
  if norm == f0_0 then ret tt else
  let mx := mx / norm in let my := my / norm in let mz := mz / norm in
  q <- get ;;
  let qd := qDot q gx gy gz in
  let q := integrate q qd dt in
  put (renormalize q).

Section Libm.

(** [atan2f] and [asinf] of the C library. *)
Variable atan2f : spec_float -> spec_float -> spec_float.
Variable asinf : spec_float -> spec_float.

Definition f2 : spec_float := F32.of_int 2.
Definition f1 : spec_float := F32.of_int 1.

Definition ahrs_get_euler : M (spec_float * spec_float * spec_float) :=
  q <- get ;;
  let q0 := q0 q in let q1 := q1 q in let q2 := q2 q in let q3 := q3 q in
  let roll := rad2deg (atan2f (f2 * (q0 * q1 + q2 * q3))
                              (f1 - f2 * (q1 * q1 + q2 * q2))) in
  let pitch := rad2deg (asinf (f2 * (q0 * q2 - q3 * q1))) in
  let yaw := rad2deg (atan2f (f2 * (q0 * q3 + q1 * q2))
                             (f1 - f2 * (q2 * q2 + q3 * q3))) in
  ret (roll, pitch, yaw).

End Libm.

Local Close Scope f32_scope.

(** ** Level 2: frame encoding in [main] *)

Section Frame.

Variable char_signed : bool.

(** The sign bits of the five [float] arguments of the payload, in the order
    of the format; each is read only when that argument is a NaN. *)
Variable nan_sign : nat -> bool.

Local Open Scope byte_scope.

(** The text produced by the format "L2,%lld,%.2f,%.2f,%.2f,%.2f,%.2f". *)
Definition l2_payload_text (ts : Z) (roll pitch yaw altitude temperature : spec_float)
  : list byte :=
  cstr "L2," ++ fmt_lld ts
    ++ "," :: fmt_2f (nan_sign 0%nat) roll
    ++ "," :: fmt_2f (nan_sign 1%nat) pitch
    ++ "," :: fmt_2f (nan_sign 2%nat) yaw
    ++ "," :: fmt_2f (nan_sign 3%nat) altitude
    ++ "," :: fmt_2f (nan_sign 4%nat) temperature.

(** [snprintf] into [char payload[200]], [crc16_ccitt(payload)], then
    [printf("$%s*%04X\n", payload, crc)]: the bytes written to stdout. *)
Definition l2_frame (ts : Z) (roll pitch yaw altitude temperature : spec_float)
  : list byte :=
  let payload := snprintf 200 (l2_payload_text ts roll pitch yaw altitude temperature) in
  let crc := crc16_ccitt char_signed payload in
  "$" :: before_nul payload ++ "*" :: fmt_04X crc ++ ["010"].

Variable atan2f : spec_float -> spec_float -> spec_float.
Variable asinf : spec_float -> spec_float.

(** One iteration of the control loop of [main], given the sample returned by
    [imu_read], the value [ts] of [millis_since] and the tick counter [t]. *)
Definition main_tick (imu : imu_sample_t) (ts : Z) (t : Z) : M (list byte) :=
  madgwick_update imu LOOP_DT_SEC ;;;
  rpy <- ahrs_get_euler atan2f asinf ;;
  let '(roll, pitch, yaw) := rpy in
  let altitude := (F32.lit 100 1 + F32.lit 5 100 * F32.of_int t)%f32 in
  let temperature := F32.lit 30 1 in
  ret (l2_frame ts roll pitch yaw altitude temperature).

End Frame.

(** ** The shape of a frame, as a receiver checks it *)

Module Wire.

Local Open Scope byte_scope.

Definition is_digit (b : byte) : bool :=
  (48 <=? byte_val b) && (byte_val b <=? 57).

Definition strip_sign (t : list byte) : list byte :=
  match t with
  | "-" :: r => r
  | _ => t
  end.

(** An optional minus sign and at least one decimal digit. *)
Definition is_int_text (t : list byte) : bool :=
  match strip_sign t with
  | [] => false
  | d => forallb is_digit d
  end.

(** An optional minus sign, at least one digit, a point, exactly two digits. *)
Definition is_fixed2 (t : list byte) : bool :=
  match rev (strip_sign t) with
  | d2 :: d1 :: "." :: i :: int_rev =>
      is_digit d2 && is_digit d1 && forallb is_digit (i :: int_rev)
  | _ => false
  end.

(** The characters a numeric field is made of. *)
Definition is_field_char (b : byte) : bool :=
  is_digit b || Byte.eqb b "-" || Byte.eqb b ".".

(** The fields of [s] separated by [sep]. *)
Fixpoint split_on (sep : byte) (s : list byte) : list (list byte) :=
  match s with
  | [] => [[]]
  | c :: rest =>
      if Byte.eqb c sep then [] :: split_on sep rest
      else match split_on sep rest with
           | f :: fs => (c :: f) :: fs
           | [] => [[c]]
           end
  end.

(** Four hexadecimal digit values of a 16-bit number, most significant first. *)
Definition nibbles (n : Z) : list Z :=
  [n / 4096; (n / 256) mod 16; (n / 16) mod 16; n mod 16].

Definition list_byte_eqb (a b : list byte) : bool :=
  (List.length a =? List.length b)%nat
  && forallb (fun xy => Byte.eqb (fst xy) (snd xy)) (combine a b).

End Wire.
Import Wire.

(** Neither infinite nor NaN. *)
Definition is_finite (x : spec_float) : bool :=
  match x with
  | S754_zero _ | S754_finite _ _ _ => true
  | _ => false
  end.

(** ** Real-number reading of the floating-point state *)

Definition bpow (e : Z) : R := powerRZ 2 e.

Definition sign_factor (s : bool) : R := if s then (-1)%R else 1%R.

(** The real number a finite float stands for (0 for infinities and NaN). *)
Definition B2R (x : spec_float) : R :=
  match x with
  | S754_finite s m e =>
      ((if s then -1 else 1) * IZR (Zpos m) * bpow e)%R
  | _ => 0%R
  end.

(** Where a real [x] lies in the cell [m, m+1): the meaning of a rounding
    [location]. *)
Definition inbetween_int (m : Z) (x : R) (l : location) : Prop :=
  match l with
  | loc_Exact => x = IZR m
  | loc_Inexact Lt => (IZR m < x < IZR m + / 2)%R
  | loc_Inexact Eq => x = (IZR m + / 2)%R
  | loc_Inexact Gt => (IZR m + / 2 < x < IZR m + 1)%R
  end.

(** Unit roundoff and underflow threshold of a format. *)
Definition u_of (prec : Z) : R := bpow (- prec).
Definition eta_of (prec emax : Z) : R := bpow (emin prec emax - 1).

(** Those of binary32, and the tolerance on the magnitude: 2^-24, 2^-150
    and 2^-20. *)
Definition u32 : R := (/ 16777216)%R.
Definition eta32 : R := (/ IZR (2 ^ 150))%R.
Definition tol32 : R := (/ 1048576)%R.

Definition quat_valid (q : quat) : bool :=
  F32.valid (q0 q) && F32.valid (q1 q) && F32.valid (q2 q) && F32.valid (q3 q).

Definition quat_finite (q : quat) : bool :=
  is_finite (q0 q) && is_finite (q1 q) && is_finite (q2 q) && is_finite (q3 q).

(** The squared magnitude and the magnitude of the quaternion state. *)
Definition norm2 (q : quat) : R :=
  (B2R (q0 q) * B2R (q0 q) + B2R (q1 q) * B2R (q1 q)
   + B2R (q2 q) * B2R (q2 q) + B2R (q3 q) * B2R (q3 q))%R.

Definition magnitude (q : quat) : R := sqrt (norm2 q).

(** The floats 2^-64 and 2^64. *)
Definition range_lo : spec_float := S754_finite false 8388608 (-87).
Definition range_hi : spec_float := S754_finite false 8388608 41.

(** The sum of squares that [renormalize] divides by neither overflowed nor
    underflowed. *)
Definition in_range (q : quat) : bool :=
  quat_valid q && SFleb range_lo (sum_sq q) && SFleb (sum_sq q) range_hi.

(** [madgwick_update] returns early on this sample. *)
Definition degenerate (imu : imu_sample_t) : bool :=
  F32.eqb (vec_norm (ax imu) (ay imu) (az imu)) f0_0
  || F32.eqb (vec_norm (mx imu) (my imu) (mz imu)) f0_0.

(** The integrated, not yet renormalised quaternion of an update. *)
Definition euler_of (q : quat) (imu : imu_sample_t) (dt : spec_float) : quat :=
  integrate q (qDot q (deg2rad (gx imu)) (deg2rad (gy imu)) (deg2rad (gz imu))) dt.

(** An update call whose floating-point computation stays in range. *)
Definition update_in_range (q : quat) (imu : imu_sample_t) (dt : spec_float) : bool :=
  degenerate imu
  || (F32.valid dt
      && SFleb range_lo (sum_sq (euler_of q imu dt))
      && SFleb (sum_sq (euler_of q imu dt)) range_hi).

(** The states after each of a sequence of update calls. *)
Fixpoint run_updates (q : quat) (calls : list (imu_sample_t * spec_float)) : list quat :=
  match calls with
  | [] => []
  | (imu, dt) :: rest =>
      snd (madgwick_update imu dt q)
      :: run_updates (snd (madgwick_update imu dt q)) rest
  end.

Fixpoint all_in_range (q : quat) (calls : list (imu_sample_t * spec_float)) : bool :=
  match calls with
  | [] => true
  | (imu, dt) :: rest =>
      update_in_range q imu dt && all_in_range (snd (madgwick_update imu dt q)) rest
  end.

(** A sample with an absurd roll rate of 1e30 deg/s. *)
Definition imu_spin : imu_sample_t :=
  {| ax := S754_zero false; ay := F32.lit 6 10; az := F32.lit 981 100;
     gx := F32.lit 1000000000000000000000000000000 1;
     gy := S754_zero false; gz := S754_zero false;
     mx := F32.lit 3 10; my := S754_zero false; mz := F32.lit 5 10 |}.

(** The scenario sample: no roll or pitch rate, 10 deg/s of yaw rate, the
    nominal accelerometer and magnetometer readings of [imu_read]. *)
Definition imu_yaw : imu_sample_t :=
  {| ax := S754_zero false; ay := F32.lit 6 10; az := F32.lit 981 100;
     gx := S754_zero false; gy := S754_zero false; gz := F32.lit 10 1;
     mx := F32.lit 3 10; my := S754_zero false; mz := F32.lit 5 10 |}.

(** A state next to the pitch singularity, of magnitude 1 up to 2^-20. *)
Definition q_lock : quat :=
  {| q0 := S754_finite false 11870881 (-24); q1 := S754_finite true 9275856 (-31);
     q2 := S754_finite false 11855350 (-24); q3 := S754_finite true 13251222 (-32) |}.

(** The sample of [imu_read] at tick 0 without the noise terms. *)
Definition imu_level : imu_sample_t :=
  {| ax := S754_zero false; ay := F32.lit 6 10; az := F32.lit 981 100;
     gx := F32.lit 2 1; gy := F32.lit 15 10; gz := F32.lit 12 1;
     mx := F32.lit 3 10; my := S754_zero false; mz := F32.lit 5 10 |}.

(** ** The update as the specification states it, over the real numbers *)

(** These definitions follow the words of the design document, not the
    source: the renormalisation of [q + dt * qDot], where [qDot] is half the
    Hamilton product of [q] and the angular rate, a pure quaternion in rad/s.
    The update of the source is compared with them below. *)

(** A quaternion with real components. *)
Record rquat : Type := { rw : R; rx : R; ry : R; rz : R }.

(** The Hamilton product of [a] and [b]. *)
Definition hamilton (a b : rquat) : rquat :=
  {| rw := rw a * rw b - rx a * rx b - ry a * ry b - rz a * rz b;
     rx := rw a * rx b + rx a * rw b + ry a * rz b - rz a * ry b;
     ry := rw a * ry b - rx a * rz b + ry a * rw b + rz a * rx b;
     rz := rw a * rz b + rx a * ry b - ry a * rx b + rz a * rw b |}%R.

Definition rscale (k : R) (a : rquat) : rquat :=
  {| rw := k * rw a; rx := k * rx a; ry := k * ry a; rz := k * rz a |}%R.

Definition rplus (a b : rquat) : rquat :=
  {| rw := rw a + rw b; rx := rx a + rx b; ry := ry a + ry b; rz := rz a + rz b |}%R.

Definition rnorm (a : rquat) : R :=
  sqrt (rw a * rw a + rx a * rx a + ry a * ry a + rz a * rz a).

(** [a / |a|]. *)
Definition normalized (a : rquat) : rquat := rscale (/ rnorm a) a.

(** Degrees to radians. *)
Definition radians (d : R) : R := (d * PI / 180)%R.

(** The angular rate as a pure quaternion, from the gyroscope readings in
    degrees per second. *)
Definition rate_quat (gx gy gz : R) : rquat :=
  {| rw := 0; rx := radians gx; ry := radians gy; rz := radians gz |}.

(** The quaternion derivative [0.5 * (q (x) w)]. *)
Definition spec_qDot (q : rquat) (gx gy gz : R) : rquat :=
  rscale (1 / 2) (hamilton q (rate_quat gx gy gz)).

(** The renormalisation of [q + dt * qDot]. *)
Definition spec_update (q : rquat) (gx gy gz dt : R) : rquat :=
  normalized (rplus q (rscale dt (spec_qDot q gx gy gz))).

(** The real quaternion that a state stands for. *)
Definition quat_R (q : quat) : rquat :=
  {| rw := B2R (q0 q); rx := B2R (q1 q); ry := B2R (q2 q); rz := B2R (q3 q) |}.

(** A time step of 1e30 seconds. *)
Definition dt_huge : spec_float := F32.lit 1000000000000000000000000000000 1.

(** ** The heading read back after each tick *)

(** The two arguments of the [atan2f] call that gives the yaw angle:
    [2*(q0*q3 + q1*q2)] and [1 - 2*(q2*q2 + q3*q3)]. *)
Definition yaw_args (q : quat) : spec_float * spec_float :=
  ((f2 * (q0 q * q3 q + q1 q * q2 q))%f32,
   (f1 - f2 * (q2 q * q2 q + q3 q * q3 q))%f32).

(** The heading that [ahrs_get_euler] stores through its third pointer. *)
Definition yaw_of (atan2f : spec_float -> spec_float -> spec_float)
    (asinf : spec_float -> spec_float) (q : quat) : spec_float :=
  snd (fst (ahrs_get_euler atan2f asinf q)).

(** What is asked of the C library: on the sector [0 <= 4y <= x] of the
    first quadrant, where the exact angle is below 0.25 rad and one ulp of
    the result is at most 2^-26, [atan2f] returns a finite float within
    2^-22 of the exact angle. *)
Definition atan2f_accurate (atan2f : spec_float -> spec_float -> spec_float) : Prop :=
  forall y x : spec_float,
    is_finite y = true -> is_finite x = true ->
    (0 <= B2R y)%R -> (0 < B2R x)%R -> (4 * B2R y <= B2R x)%R ->
    is_finite (atan2f y x) = true
    /\ (Rabs (B2R (atan2f y x) - atan (B2R y / B2R x)) <= / 4194304)%R.

(** The rational number a finite float stands for. *)
Definition F2Q (x : spec_float) : Q :=
  match x with
  | S754_finite s m e => ((if s then -1 else 1) * inject_Z (Zpos m) * 2 ^ e)%Q
  | _ => 0%Q
  end.

(** Partial sums of the arctangent series, in Horner form: below and above
    the arctangent on [0, 1). *)
Definition atan_lo (t : Q) : Q :=
  (t * (1 - t * t * ((1#3) - t * t * ((1#5) - t * t * ((1#7)
        - t * t * ((1#9) - t * t * (1#11)))))))%Q.

Definition atan_hi (t : Q) : Q :=
  (t * (1 - t * t * ((1#3) - t * t * ((1#5) - t * t * ((1#7)
        - t * t * (1#9))))))%Q.

(** The [double] factor [180.0f / M_PI] of [rad2deg], as a rational. *)
Definition rad2deg_q : Q := 8063664102031864 # 140737488355328.

(** The distance allowed between a heading and the exact angle in degrees:
    2^-22 rad from [atan2f], 2^-20 degrees from the roundings of [rad2deg]. *)
Definition heading_err : Q := (rad2deg_q * (1 # 4194304) + (1 # 1048576))%Q.

(** The [atan2f] arguments of a state lie in the sector [0 <= 4y <= x]. *)
Definition in_sector (q : quat) : bool :=
  let (y, x) := yaw_args q in
  is_finite y && is_finite x
  && Qle_bool 0 (F2Q y) && negb (Qle_bool (F2Q x) 0)
  && Qle_bool (4 * F2Q y) (F2Q x).

Definition tan_yaw (q : quat) : Q := let (y, x) := yaw_args q in (F2Q y / F2Q x)%Q.

(** Rational bounds on the heading of a state. *)
Definition heading_lo (q : quat) : Q := (rad2deg_q * atan_lo (tan_yaw q) - heading_err)%Q.
Definition heading_hi (q : quat) : Q := (rad2deg_q * atan_hi (tan_yaw q) + heading_err)%Q.

(** From state [q] to state [q'] the heading grows by 0.5 +- 0.0001 degrees
    whatever the library does within its tolerance. *)
Definition step_ok (q q' : quat) : bool :=
  in_sector q && in_sector q'
  && Qle_bool ((1#2) - (1#10000)) (heading_lo q' - heading_hi q)
  && Qle_bool (heading_hi q' - heading_lo q) ((1#2) + (1#10000)).

Fixpoint steps_ok (l : list quat) : bool :=
  match l with
  | q :: ((q' :: _) as rest) => step_ok q q' && steps_ok rest
  | _ => true
  end.

(** A reference [atan2f] for the sector: the partial sum [atan_hi] of the
    series at [y/x], computed exactly as a quotient of integers and rounded
    once, by a float division. *)
Definition atan2f_series (y x : spec_float) : spec_float :=
  match y, x with
  | S754_finite false my ey, S754_finite false mx ex =>
      let e := Z.min ey ex in
      let a := Zpos my * 2 ^ (ey - e) in
      let b := Zpos mx * 2 ^ (ex - e) in
      let num := 315 * a * b ^ 8 - 105 * a ^ 3 * b ^ 6 + 63 * a ^ 5 * b ^ 4
                 - 45 * a ^ 7 * b ^ 2 + 35 * a ^ 9 in
      let den := 315 * b ^ 9 in
      match num with
      | Zpos n => SFdiv 24 128 (S754_finite false n 0)
                    (S754_finite false (Z.to_pos den) 0)
      | _ => S754_zero false
      end
  | _, _ => S754_zero false
  end.

(** ** Burst errors and the CRC16 *)

Fixpoint crc16_rounds_inv (n : nat) (y : Z) : Z :=
  match n with
  | O => y
  | S n' => crc16_round_inv (crc16_rounds_inv n' y)
  end.

(** A 24-bit error pattern is not a burst of at most 16 bits: it is not
    [m * 2^k] with [m < 2^16] and [k <= 8]. *)
Definition crc16_no_burst (D : Z) : bool :=
  forallb (fun k => negb ((D mod 2 ^ k =? 0) && (D / 2 ^ k <? 65536)))
    [0; 1; 2; 3; 4; 5; 6; 7; 8].

(** 0, 1, ..., n-1. *)
Definition zrange (n : nat) : list Z := map Z.of_nat (seq 0 n).

(** For error bytes [d1] and [d3] in the first and third of three
    consecutive positions, the only error byte [d2] in the middle that brings
    the two registers together again, if there is one, does not complete a
    burst. *)
Definition crc16_burst_check_on (firsts thirds : list Z) : bool :=
  let back := map (fun d3 => (d3, crc16_rounds_inv 8 (d3 * 256))) thirds in
  forallb (fun d1 =>
    let t := crc16_rounds 8 (d1 * 256) in
    forallb (fun du : Z * Z =>
      let w := Z.lxor t (snd du) in
      if w mod 256 =? 0
      then let D := d1 * 65536 + w + fst du in (D =? 0) || crc16_no_burst D
      else true) back) firsts.

(** ** The time base ([millis_since], ahrs_filter.c) *)

(** [struct timeval]: seconds and microseconds. *)
Record timeval := { tv_sec : Z; tv_usec : Z }.

(** The result of a signed 64-bit operation ([long], [long long]), defined
    only when it is representable: signed overflow is undefined behaviour. *)
Definition llong (z : Z) : option Z :=
  if (- 2 ^ 63 <=? z) && (z <? 2 ^ 63) then Some z else None.

(** [millis_since(start)], given the value [now] that [gettimeofday] stores:
    [(now.tv_sec - start->tv_sec) * 1000LL
     + (now.tv_usec - start->tv_usec) / 1000LL], the division truncating
    towards zero. *)
Definition millis_since (start now : timeval) : option Z :=
  match llong (tv_sec now - tv_sec start) with
  | None => None
  | Some ds =>
      match llong (ds * 1000) with
      | None => None
      | Some ms =>
          match llong (tv_usec now - tv_usec start) with
          | None => None
          | Some du => llong (ms + Z.quot du 1000)
          end
      end
  end.

(** A clock reading as [gettimeofday] returns it. *)
Definition timeval_ok (t : timeval) : Prop :=
  0 <= tv_sec t < 2 ^ 50 /\ 0 <= tv_usec t < 1000000.

(** The instant of a clock reading, in microseconds. *)
Definition micros (t : timeval) : Z := tv_sec t * 1000000 + tv_usec t.

(** ** The numbers written in a frame *)

(** The digit a character stands for, in bases up to 16 (upper case). *)
Definition digit_value (c : byte) : option Z :=
  let v := byte_val c in
  if (48 <=? v) && (v <=? 57) then Some (v - 48)
  else if (65 <=? v) && (v <=? 70) then Some (v - 55)
  else None.

(** The number written by a string of digits, most significant first,
    continuing from [acc]. *)
Fixpoint number_from (base acc : Z) (t : list byte) : option Z :=
  match t with
  | [] => Some acc
  | c :: r =>
      match digit_value c with
      | Some d => if d <? base then number_from base (acc * base + d) r else None
      | None => None
      end
  end.

(** The number written by a non-empty string of digits. *)
Definition number_of (base : Z) (t : list byte) : option Z :=
  match t with
  | [] => None
  | _ => number_from base 0 t
  end.

(** The integer written by an optional minus sign and decimal digits. *)
Definition int_of_text (t : list byte) : option Z :=
  match t with
  | "-"%byte :: r => option_map Z.opp (number_of 10 r)
  | _ => number_of 10 t
  end.

(** The sign and the number of hundredths written by an optional minus sign,
    decimal digits, a point and two decimals. *)
Definition fixed2_of_text (t : list byte) : option (bool * Z) :=
  let sr := match t with
            | "-"%byte :: r => (true, r)
            | _ => (false, t)
            end in
  match rev (snd sr) with
  | d2 :: d1 :: "."%byte :: int_rev =>
      match number_of 10 (rev int_rev), number_of 10 [d1; d2] with
      | Some i, Some f => Some (fst sr, i * 100 + f)
      | _, _ => None
      end
  | _ => None
  end.

(** ** Reading a Level-2 frame back *)

(** What a receiver makes of a line: the start marker, the payload up to the
    only '*', four hexadecimal digits equal to the CRC16 of the payload, the
    end of line; in the payload the tag L2, an integer and five numbers with
    two decimals, separated by commas.  The result is the timestamp and the
    five numbers as sign and hundredths. *)
Definition decode_l2 (char_signed : bool) (frame : list byte)
  : option (Z * list (bool * Z)) :=
  match frame with
  | "$"%byte :: rest =>
      match split_on "*"%byte rest with
      | [payload; tail] =>
          match split_on "010"%byte tail with
          | [hex; []] =>
              match number_of 16 hex with
              | Some crc =>
                  if (List.length hex =? 4)%nat && (crc =? crc16_ccitt char_signed payload)
                  then
                    match split_on ","%byte payload with
                    | [tag; f1; f2; f3; f4; f5; f6] =>
                        if list_byte_eqb tag (cstr "L2") then
                          match int_of_text f1, fixed2_of_text f2, fixed2_of_text f3,
                                fixed2_of_text f4, fixed2_of_text f5, fixed2_of_text f6 with
                          | Some ts, Some a, Some b, Some c, Some d, Some e =>
                              Some (ts, [a; b; c; d; e])
                          | _, _, _, _, _, _ => None
                          end
                        else None
                    | _ => None
                    end
                  else None
              | None => None
              end
          | _ => None
          end
      | _ => None
      end
  | _ => None
  end.

(** The number written as sign [s] and [h] hundredths is the value of [x]
    rounded to two decimals. *)
Definition rounds_to (x : spec_float) (sh : bool * Z) : Prop :=
  (Rabs (sign_factor (fst sh) * IZR (snd sh) / 100 - B2R x) <= / 200)%R.

(** ** Level 1: frame encoding in [main] *)

(** The result of an [int] operation, defined only when it is representable. *)
Definition cint (z : Z) : option Z :=
  if (- 2 ^ 31 <=? z) && (z <? 2 ^ 31) then Some z else None.

(** [sprintf(buf, ...)] into a buffer of [size] bytes: the text and its
    terminating NUL must fit, writing past the end is undefined. *)
Definition sprintf (size : nat) (text : list byte) : option (list byte) :=
  if (List.length text <? size)%nat then Some text else None.

(** [%d] *)
Definition fmt_d (n : Z) : list byte := fmt_lld n.

(** The magnitude [m * 2^e] in thousandths, correctly rounded. *)
Definition thousandths (m : positive) (e : Z) : Z :=
  if 0 <=? e then Zpos m * 1000 * 2 ^ e
  else div_nearest_even (Zpos m * 1000) (2 ^ (- e)).

(** Sign, integer part, point, three decimals. *)
Definition fixed3_text (s : bool) (h : Z) : list byte :=
  sign_text s ++ dec_text (h / 1000)
    ++ "."%byte :: digit_char ((h mod 1000) / 100) :: digit_char ((h mod 100) / 10)
    :: digit_char (h mod 10) :: [].

(** [%.3f] of a [float] argument; [neg] is the sign bit of a NaN
    argument, as for [fmt_2f]. *)
Definition fmt_3f (neg : bool) (x : spec_float) : list byte :=
  match x with
  | S754_zero s => fixed3_text s 0
  | S754_infinity s => sign_text s ++ cstr "inf"
  | S754_nan => sign_text neg ++ cstr "nan"
  | S754_finite s m e => fixed3_text s (thousandths m e)
  end.

(** An optional minus sign, at least one digit, a point, exactly three digits. *)
Definition is_fixed3 (t : list byte) : bool :=
  match rev (strip_sign t) with
  | d3 :: d2 :: d1 :: "."%byte :: i :: int_rev =>
      is_digit d3 && is_digit d2 && is_digit d1 && forallb is_digit (i :: int_rev)
  | _ => false
  end.

Section FrameL1.

Variable char_signed : bool.

(** The sign bits of the eight [float] arguments of the payload, in the
    order of the format; each is read only when that argument is a NaN. *)
Variable nan_sign : nat -> bool.

(** The text produced by the format
    "L1,%d,%.3f,%.3f,%.3f,%.3f,%.3f,%.3f,%.2f,%.2f". *)
Definition l1_payload_text (ms : Z) (ax ay az gx gy gz alt temp : spec_float) : list byte :=
  cstr "L1," ++ fmt_d ms
    ++ ","%byte :: fmt_3f (nan_sign 0%nat) ax
    ++ ","%byte :: fmt_3f (nan_sign 1%nat) ay
    ++ ","%byte :: fmt_3f (nan_sign 2%nat) az
    ++ ","%byte :: fmt_3f (nan_sign 3%nat) gx
    ++ ","%byte :: fmt_3f (nan_sign 4%nat) gy
    ++ ","%byte :: fmt_3f (nan_sign 5%nat) gz
    ++ ","%byte :: fmt_2f (nan_sign 6%nat) alt
    ++ ","%byte :: fmt_2f (nan_sign 7%nat) temp.

(** The frame part of the Level-1 loop body: [sprintf] of the payload into
    [char payload[256]] with the timestamp [t * 50], [calculate_checksum],
    [sprintf(frame, "$%s*%02X", payload, chk)] into [char frame[300]], then
    [printf("%s\n", frame)]: the bytes written to stdout. *)
Definition l1_frame (t : Z) (ax ay az gx gy gz alt temp : spec_float)
  : option (list byte) :=
  match cint (t * 50) with
  | None => None
  | Some ms =>
      match sprintf 256 (l1_payload_text ms ax ay az gx gy gz alt temp) with
      | None => None
      | Some payload =>
          let chk := calculate_checksum char_signed payload in
          match sprintf 300 ("$"%byte :: before_nul payload ++ "*"%byte :: fmt_02X chk) with
          | None => None
          | Some frame => Some (before_nul frame ++ ["010"%byte])
          end
      end
  end.

End FrameL1.

(** ** A state that has left the numbers *)

Definition is_nan (x : spec_float) : bool :=
  match x with
  | S754_nan => true
  | _ => false
  end.

(** Some component of the state is NaN. *)
Definition has_nan (q : quat) : bool :=
  is_nan (q0 q) || is_nan (q1 q) || is_nan (q2 q) || is_nan (q3 q).

(** All four components are NaN. *)
Definition nan_quat : quat :=
  {| q0 := S754_nan; q1 := S754_nan; q2 := S754_nan; q3 := S754_nan |}.

(** ** Bounded floats *)

(** A well-formed, finite [float] of magnitude at most [a]. *)
Definition fin32 (x : spec_float) (a : R) : Prop :=
  F32.valid x = true /\ is_finite x = true /\ (Rabs (B2R x) <= a)%R.

(** A well-formed, finite [float] between [lo] and [hi]. *)
Definition within (x : spec_float) (lo hi : R) : Prop :=
  F32.valid x = true /\ is_finite x = true /\ (lo <= B2R x <= hi)%R.

(** ** The sensor layer ([noise], [imu_read]) and the loop of [main] *)

Section Sensors.

(** [RAND_MAX] and [rand] of <stdlib.h>: the generator is a state that each
    call reads and advances; [srand] chooses the state the loop starts in. *)
Variable RAND_MAX : Z.
Variable rand_state : Type.
Variable rand : rand_state -> Z * rand_state.

(** [sinf] and [cosf] of the C library. *)
Variables sinf cosf : spec_float -> spec_float.

Local Open Scope f32_scope.

(** [noise(amp)]: [((float)rand() / RAND_MAX) * 2.0f * amp - amp]. *)
Definition noise (amp : spec_float) (s : rand_state) : spec_float * rand_state :=
  let (r, s') := rand s in
  (F32.of_int r / F32.of_int RAND_MAX * F32.lit 2 1 * amp - amp, s').

(** [imu_read(&imu, t)]: nine calls of [noise], in the order of the
    assignments. *)
Definition imu_read (t : Z) (s0 : rand_state) : imu_sample_t * rand_state :=
  let phase := F32.of_int t * F32.lit 2 100 in
  let (n1, s1) := noise (F32.lit 5 100) s0 in
  let (n2, s2) := noise (F32.lit 5 100) s1 in
  let (n3, s3) := noise (F32.lit 8 100) s2 in
  let (n4, s4) := noise (F32.lit 2 10) s3 in
  let (n5, s5) := noise (F32.lit 2 10) s4 in
  let (n6, s6) := noise (F32.lit 3 10) s5 in
  let (n7, s7) := noise (F32.lit 2 100) s6 in
  let (n8, s8) := noise (F32.lit 2 100) s7 in
  let (n9, s9) := noise (F32.lit 2 100) s8 in
  ({| ax := F32.lit 6 10 * sinf phase + n1;
      ay := F32.lit 6 10 * cosf phase + n2;
      az := F32.lit 981 100 + n3;
      gx := F32.lit 2 1 + n4;
      gy := F32.lit 15 10 + n5;
      gz := F32.lit 12 1 + n6;
      mx := F32.lit 3 10 + n7;
      my := f0_0 + n8;
      mz := F32.lit 5 10 + n9 |}, s9).

Local Close Scope f32_scope.

Variable char_signed : bool.

(** The sign bits of the [float] arguments of the payload in the iteration
    with tick counter [t]. *)
Variable nan_sign : Z -> nat -> bool.

Variable atan2f : spec_float -> spec_float -> spec_float.
Variable asinf : spec_float -> spec_float.

(** The value that [millis_since] returns in the iteration with tick
    counter [t]. *)
Variable clock : Z -> Z.

(** One iteration of [while (1)] in [main], on the tick counter [t], the
    filter state and the state of the generator: the frame written and the
    three after [t++]. *)
Definition main_iteration (st : Z * quat * rand_state)
  : list byte * (Z * quat * rand_state) :=
  let '(t, q, s) := st in
  let (imu, s') := imu_read t s in
  let (frame, q') := main_tick char_signed (nan_sign t) atan2f asinf imu (clock t) t q in
  (frame, (t + 1, q', s')).

(** The first [n] iterations. *)
Fixpoint main_loop (n : nat) (st : Z * quat * rand_state)
  : list (list byte * (Z * quat * rand_state)) :=
  match n with
  | O => []
  | S n' => main_iteration st :: main_loop n' (snd (main_iteration st))
  end.

End Sensors.

(** The filter state of a loop state. *)
Definition loop_quat {S : Type} (st : Z * quat * S) : quat := snd (fst st).

(** The generator that the C standard gives as an example of [rand], with
    [RAND_MAX] 32767. *)
Definition rand_example (next : Z) : Z * Z :=
  let next' := (next * 1103515245 + 12345) mod 4294967296 in
  ((next' / 65536) mod 32768, next').

(** ** The all-zero state *)

Definition is_zero (x : spec_float) : bool :=
  match x with S754_zero _ => true | _ => false end.

(** Every component of the state is [0.0f] or [-0.0f]. *)
Definition zero_state (q : quat) : bool :=
  is_zero (q0 q) && is_zero (q1 q) && is_zero (q2 q) && is_zero (q3 q).

(** ** The arguments that [ahrs_get_euler] hands to the C library *)

(** The two arguments of the [atan2f] call that gives the roll angle:
    [2*(q0*q1 + q2*q3)] and [1 - 2*(q1*q1 + q2*q2)]. *)
Definition roll_args (q : quat) : spec_float * spec_float :=
  ((f2 * (q0 q * q1 q + q2 q * q3 q))%f32,
   (f1 - f2 * (q1 q * q1 q + q2 q * q2 q))%f32).

(** The argument of the [asinf] call that gives the pitch angle:
    [2*(q0*q2 - q3*q1)]. *)
Definition pitch_arg (q : quat) : spec_float :=
  (f2 * (q0 q * q2 q - q3 q * q1 q))%f32.

(** ** Level 1: the simulated sensors and the loop of [main] *)

(** A well-formed, finite [double] of magnitude at most [a]. *)
Definition fin64 (x : spec_float) (a : R) : Prop :=
  valid_binary 53 1024 x = true /\ is_finite x = true /\ (Rabs (B2R x) <= a)%R.

Module Level1.

(** Addition of [double]s and the conversion of an [int] to [double]. *)
Definition F64_add := SFadd F64.prec F64.emax.
Definition F64_of_int (z : Z) : spec_float :=
  binary_normalize F64.prec F64.emax z 0 false.

(** A [double] constant assigned or passed to a [float]. *)
Definition flt (n d : positive) : spec_float := F32.of_double (F64.lit n d).

Section Sensors.

Variable RAND_MAX : Z.
Variable rand_state : Type.
Variable rand : rand_state -> Z * rand_state.

(** [sin] and [cos] of the C library, on [double]. *)
Variables sin cos : spec_float -> spec_float.

Local Open Scope f32_scope.

(** [noise(amp)]: [((float)rand() / RAND_MAX) * (2 * amp) - amp]. *)
Definition noise (amp : spec_float) (s : rand_state) : spec_float * rand_state :=
  let (r, s') := rand s in
  (F32.of_int r / F32.of_int RAND_MAX * (F32.of_int 2 * amp) - amp, s').

(** [c * sin(t * k)] and [c * cos(t * k)], computed in [double] and stored
    in a [float] variable. *)
Definition sin_wave (c k : spec_float) (t : Z) : spec_float :=
  F32.of_double (F64.mul c (sin (F64.mul (F64_of_int t) k))).
Definition cos_wave (c k : spec_float) (t : Z) : spec_float :=
  F32.of_double (F64.mul c (cos (F64.mul (F64_of_int t) k))).

Definition simulate_accel_x (t : Z) (s : rand_state) : spec_float * rand_state :=
  let primary := sin_wave (F64.lit 8 10) (F64.lit 2 100) t in
  let secondary := sin_wave (F64.lit 3 10) (F64.lit 5 1000) t in
  let vibration := sin_wave (F64.lit 5 100) (F64.lit 50 100) t in
  let (n, s') := noise (flt 1 10) s in
  (primary + secondary + vibration + n, s').

Definition simulate_accel_y (t : Z) (s : rand_state) : spec_float * rand_state :=
  let primary :=
    F32.of_double
      (F64.mul (F64.lit 8 10)
         (cos (F64_add (F64.mul (F64_of_int t) (F64.lit 18 1000)) (F64.lit 1 1)))) in
  let secondary := sin_wave (F64.lit 2 10) (F64.lit 8 1000) t in
  let vibration := sin_wave (F64.lit 5 100) (F64.lit 45 100) t in
  let (n, s') := noise (flt 1 10) s in
  (primary + secondary + vibration + n, s').

Definition simulate_accel_z (t : Z) (s : rand_state) : spec_float * rand_state :=
  let gravity := flt 981 100 in
  let vibration := sin_wave (F64.lit 3 100) (F64.lit 40 100) t in
  let (n, s') := noise (flt 5 100) s in
  (gravity + vibration + n, s').

Definition simulate_gyro_x (t : Z) (s : rand_state) : spec_float * rand_state :=
  let rotation := sin_wave (F64.lit 3 1) (F64.lit 8 1000) t in
  let drift := sin_wave (F64.lit 2 10) (F64.lit 5 10000) t in
  let (spike, s1) :=
    if Z.rem t 500 =? 0 then noise (flt 1 1) s else (F32.of_int 0, s) in
  let (n, s2) := noise (flt 2 10) s1 in
  (rotation + drift + spike + n, s2).

Definition simulate_gyro_y (t : Z) (s : rand_state) : spec_float * rand_state :=
  let rotation := cos_wave (F64.lit 3 1) (F64.lit 7 1000) t in
  let drift := sin_wave (F64.lit 2 10) (F64.lit 7 10000) t in
  let (spike, s1) :=
    if Z.rem t 700 =? 0 then noise (flt 8 10) s else (F32.of_int 0, s) in
  let (n, s2) := noise (flt 2 10) s1 in
  (rotation + drift + spike + n, s2).

Definition simulate_gyro_z (t : Z) (s : rand_state) : spec_float * rand_state :=
  let rotation := sin_wave (F64.lit 20 1) (F64.lit 1 100) t in
  let drift := sin_wave (F64.lit 5 10) (F64.lit 4 10000) t in
  let (n, s') := noise (flt 3 10) s in
  (rotation + drift + n, s').

Definition simulate_altitude (t : Z) (s : rand_state) : spec_float * rand_state :=
  let climb :=
    F32.of_double (F64_add (F64_of_int 100) (F64.mul (F64_of_int t) (F64.lit 2 100))) in
  let wobble := sin_wave (F64.lit 3 10) (F64.lit 4 100) t in
  let (n, s') := noise (flt 2 10) s in
  (climb + wobble + n, s').

Definition simulate_temperature (t : Z) (prev_temp : spec_float) (s : rand_state)
  : spec_float * rand_state :=
  let base := flt 30 1 in
  let heating := F32.of_double (F64.mul (F64.lit 8 10000) (F64_of_int t)) in
  let (fluct, s') := noise (flt 2 10) s in
  let raw := base + heating + fluct in
  (F32.of_double
     (F64_add (F64.mul (F64.of_float prev_temp) (F64.lit 95 100))
              (F64.mul (F64.of_float raw) (F64.lit 5 100))), s').

Local Close Scope f32_scope.

Variable char_signed : bool.

(** The sign bits of the [float] arguments of the payload in the iteration
    with tick counter [t]. *)
Variable nan_sign : Z -> nat -> bool.

(** One iteration of [while (1)] in [main], on the tick counter, the
    filtered temperature and the state of the generator: the line written
    (none when a [sprintf] overruns or [t * 50] overflows) and the three
    after [t++]. *)
Definition main_iteration (st : Z * spec_float * rand_state)
  : option (list byte) * (Z * spec_float * rand_state) :=
  let '(t, temp, s) := st in
  let (ax, s1) := simulate_accel_x t s in
  let (ay, s2) := simulate_accel_y t s1 in
  let (az, s3) := simulate_accel_z t s2 in
  let (gx, s4) := simulate_gyro_x t s3 in
  let (gy, s5) := simulate_gyro_y t s4 in
  let (gz, s6) := simulate_gyro_z t s5 in
  let (alt, s7) := simulate_altitude t s6 in
  let (temp', s8) := simulate_temperature t temp s7 in
  (l1_frame char_signed (nan_sign t) t ax ay az gx gy gz alt temp', (t + 1, temp', s8)).

(** The first [n] iterations. *)
Fixpoint main_loop (n : nat) (st : Z * spec_float * rand_state)
  : list (option (list byte) * (Z * spec_float * rand_state)) :=
  match n with
  | O => []
  | S n' => main_iteration st :: main_loop n' (snd (main_iteration st))
  end.

End Sensors.

(** [int t = 0; float temp = 30.0;] *)
Definition main_init {S : Type} (s0 : S) : Z * spec_float * S := (0, flt 30 1, s0).

End Level1.

(** ** Level 1: the accelerometer program acc.c *)

Module Acc.

(** [printf("AX: %.3f  AY: %.3f  AZ: %.3f\n", ax, ay, az)]: the bytes written
    to stdout; [nan_sign] gives the sign bits of the three arguments, each
    read only when that argument is a NaN. *)
Definition acc_line (nan_sign : nat -> bool) (ax ay az : spec_float) : list byte :=
  cstr "AX: " ++ fmt_3f (nan_sign 0%nat) ax ++ cstr "  AY: " ++ fmt_3f (nan_sign 1%nat) ay
    ++ cstr "  AZ: " ++ fmt_3f (nan_sign 2%nat) az ++ ["010"%byte].

Section Loop.

Variable RAND_MAX : Z.
Variable rand_state : Type.
Variable rand : rand_state -> Z * rand_state.
Variables sin cos : spec_float -> spec_float.

(** The sign bits of the three arguments of the line in the iteration with
    tick counter [t]. *)
Variable nan_sign : Z -> nat -> bool.

(** One iteration of [while (1)] in [main] of acc.c, whose [noise] and
    [simulate_accel_x], [_y], [_z] are those of the telemetry program. *)
Definition main_iteration (st : Z * rand_state) : list byte * (Z * rand_state) :=
  let (t, s) := st in
  let (ax, s1) := Level1.simulate_accel_x RAND_MAX rand_state rand sin t s in
  let (ay, s2) := Level1.simulate_accel_y RAND_MAX rand_state rand sin cos t s1 in
  let (az, s3) := Level1.simulate_accel_z RAND_MAX rand_state rand sin t s2 in
  (acc_line (nan_sign t) ax ay az, (t + 1, s3)).

End Loop.

End Acc.

(** * Properties *)

(** ** Checksums *)

Lemma byte_val_range (b : byte) : 0 <= byte_val b < 256.
Proof.
  unfold byte_val. pose proof (Byte.to_N_bounded b) as H. lia.
Qed.

Lemma byte_val_inj (a b : byte) : byte_val a = byte_val b -> a = b.
Proof.
  unfold byte_val. intros H. apply N2Z.inj in H.
  assert (Some a = Some b) as E
    by (rewrite <- (Byte.of_to_N a), <- (Byte.of_to_N b), H; reflexivity).
  now inversion E.
Qed.

(** C4: the CRC16 check value of the nine characters 123456789. *)
Theorem crc16_check_value (char_signed : bool) :
  crc16_ccitt char_signed (cstr "123456789") = 0x29B1.
Proof. destruct char_signed; vm_compute; reflexivity. Qed.

(** C9: the XOR checksum of the payload AB is 0x41 xor 0x42 = 0x03. *)
Theorem xor_checksum_AB (char_signed : bool) :
  calculate_checksum char_signed (cstr "AB") = 0x03
  /\ 0x03 = Z.lxor 0x41 0x42.
Proof. split; [destruct char_signed; vm_compute; reflexivity | reflexivity]. Qed.

Lemma while_char_before_nul {S} (body : S -> byte -> S) (s : list byte) :
  forall st, while_char body st s = while_char body st (before_nul s).
Proof.
  induction s as [|c rest IH]; intros st; simpl; [reflexivity|].
  destruct (is_nul c) eqn:E; simpl; [reflexivity|].
  rewrite E. apply IH.
Qed.

Lemma before_nul_app_nul (pre rest : list byte) :
  before_nul (pre ++ "000"%byte :: rest) = before_nul pre.
Proof.
  induction pre as [|c pre IH]; simpl; [reflexivity|].
  destruct (is_nul c); [reflexivity|]. now rewrite IH.
Qed.

(** C10: both checksums read their argument as a NUL-terminated string: the
    result is that of the prefix before the first zero byte, the empty string
    gives the initial register (0xFFFF, resp. 0x00), and whatever follows a
    zero byte has no effect. *)
Theorem checksums_nul_terminated (char_signed : bool) :
  (forall s, crc16_ccitt char_signed s = crc16_ccitt char_signed (before_nul s))
  /\ (forall s, calculate_checksum char_signed s
                = calculate_checksum char_signed (before_nul s))
  /\ crc16_ccitt char_signed [] = 0xFFFF
  /\ calculate_checksum char_signed [] = 0x00
  /\ (forall pre rest,
        crc16_ccitt char_signed (pre ++ "000"%byte :: rest)
        = crc16_ccitt char_signed pre)
  /\ (forall pre rest,
        calculate_checksum char_signed (pre ++ "000"%byte :: rest)
        = calculate_checksum char_signed pre).
Proof.
  unfold crc16_ccitt, calculate_checksum.
  repeat split; intros.
  - apply while_char_before_nul.
  - apply while_char_before_nul.
  - rewrite while_char_before_nul, before_nul_app_nul.
    symmetry. apply while_char_before_nul.
  - rewrite while_char_before_nul, before_nul_app_nul.
    symmetry. apply while_char_before_nul.
Qed.

Lemma forall_range_spec (f : Z -> bool) (n : nat) : forall x,
  forall_range f n x = true ->
  forall y, x <= y < x + Z.of_nat n -> f y = true.
Proof.
  induction n as [|n IH]; intros x H y Hy; [lia|].
  simpl in H. apply andb_true_iff in H as [Hx Hr].
  destruct (Z.eq_dec y x) as [->|Hne]; [assumption|].
  apply (IH (x + 1) Hr). lia.
Qed.

Lemma to_ushort_range z : 0 <= to_ushort z < 65536.
Proof. unfold to_ushort. apply Z.mod_pos_bound. lia. Qed.

Lemma crc16_round_range crc : 0 <= crc16_round crc < 65536.
Proof. unfold crc16_round. destruct (negb _); apply to_ushort_range. Qed.

Lemma crc16_round_inv_ok crc :
  0 <= crc < 65536 -> crc16_round_inv (crc16_round crc) = crc.
Proof.
  intros H.
  assert (forall_range (fun x => crc16_round_inv (crc16_round x) =? x)
            (Z.to_nat 65536) 0 = true) as A by (vm_compute; reflexivity).
  apply Z.eqb_eq. apply (forall_range_spec _ _ _ A). lia.
Qed.

Lemma crc16_rounds_range n crc :
  0 <= crc < 65536 -> 0 <= crc16_rounds n crc < 65536.
Proof.
  revert crc. induction n as [|n IH]; intros crc H; simpl; [assumption|].
  apply IH, crc16_round_range.
Qed.

Lemma crc16_rounds_inj n : forall a b,
  0 <= a < 65536 -> 0 <= b < 65536 ->
  crc16_rounds n a = crc16_rounds n b -> a = b.
Proof.
  induction n as [|n IH]; intros a b Ha Hb E; simpl in E; [assumption|].
  apply IH in E; try apply crc16_round_range.
  rewrite <- (crc16_round_inv_ok a Ha), <- (crc16_round_inv_ok b Hb).
  now rewrite E.
Qed.

Lemma char_value_mod sgn c : char_value sgn c mod 256 = byte_val c.
Proof.
  pose proof (byte_val_range c) as R. unfold char_value.
  destruct (sgn && (128 <=? byte_val c)) eqn:E.
  - replace (byte_val c - 256) with (byte_val c + (-1) * 256) by lia.
    rewrite Z.mod_add by lia. apply Z.mod_small; lia.
  - apply Z.mod_small; lia.
Qed.

Lemma lxor_range n a b :
  0 <= n -> 0 <= a < 2 ^ n -> 0 <= b < 2 ^ n -> 0 <= Z.lxor a b < 2 ^ n.
Proof.
  intros Hn Ha Hb.
  assert (0 <= Z.lxor a b) as P by (apply Z.lxor_nonneg; lia).
  split; [assumption|].
  destruct (Z.eq_dec (Z.lxor a b) 0) as [->|NZ]; [lia|].
  apply Z.log2_lt_pow2; [lia|].
  pose proof (Z.log2_lxor a b ltac:(lia) ltac:(lia)) as L.
  assert (a = 0 \/ 0 < a) as [->|Pa] by lia;
  assert (b = 0 \/ 0 < b) as [->|Pb] by lia.
  - rewrite Z.lxor_0_l in NZ. lia.
  - rewrite Z.lxor_0_l. apply Z.log2_lt_pow2; lia.
  - rewrite Z.lxor_0_r. apply Z.log2_lt_pow2; lia.
  - destruct Ha as [_ Ha], Hb as [_ Hb].
    apply Z.log2_lt_pow2 in Ha; [|lia]. apply Z.log2_lt_pow2 in Hb; [|lia]. lia.
Qed.

Lemma lxor_cancel_r a b c : Z.lxor a c = Z.lxor b c -> a = b.
Proof.
  intros H.
  assert (Z.lxor (Z.lxor a c) c = Z.lxor (Z.lxor b c) c) as E by now rewrite H.
  now rewrite !Z.lxor_assoc, !Z.lxor_nilpotent, !Z.lxor_0_r in E.
Qed.

Lemma lxor_cancel_l a b c : Z.lxor c a = Z.lxor c b -> a = b.
Proof. rewrite !(Z.lxor_comm c). apply lxor_cancel_r. Qed.

Lemma lxor_mod_pow2 n a b :
  0 <= n -> Z.lxor a b mod 2 ^ n = Z.lxor (a mod 2 ^ n) (b mod 2 ^ n).
Proof.
  intros Hn. rewrite <- !Z.land_ones by assumption.
  apply Z.bits_inj'. intros k Hk.
  rewrite Z.lxor_spec, !Z.land_spec, Z.lxor_spec.
  destruct (Z.testbit (Z.ones n) k); now rewrite ?andb_true_r, ?andb_false_r.
Qed.

(** The XOR body on registers in range is a plain exclusive or. *)
Lemma xor_byte_eq sgn chk c :
  0 <= chk < 256 -> xor_byte sgn chk c = Z.lxor chk (byte_val c).
Proof.
  intros H. unfold xor_byte, to_uchar. rewrite char_value_mod.
  apply Z.mod_small. apply (lxor_range 8); try lia. apply byte_val_range.
Qed.

(** The register of [crc16_ccitt] before the eight rounds. *)
Lemma crc16_pre_eq sgn crc c :
  0 <= crc < 65536 ->
  to_ushort (Z.lxor crc (Z.shiftl (to_ushort (char_value sgn c)) 8))
  = Z.lxor crc (byte_val c * 256).
Proof.
  intros H. pose proof (byte_val_range c) as R. unfold to_ushort.
  change 65536 with (2 ^ 16). rewrite lxor_mod_pow2 by lia.
  rewrite (Z.mod_small crc) by lia. f_equal.
  rewrite Z.shiftl_mul_pow2 by lia.
  change (2 ^ 16) with (2 ^ 8 * 2 ^ 8). change (2 ^ 8) with 256.
  rewrite Z.mul_mod_distr_r by lia. f_equal.
  rewrite <- (char_value_mod sgn c).
  apply Z.mod_mod_divide. exists 256. reflexivity.
Qed.

Section WhileCharInjective.

Variable body : Z -> byte -> Z.
Variable bound : Z.
Hypothesis body_range : forall st c, 0 <= st < bound -> 0 <= body st c < bound.
Hypothesis body_inj_state : forall st st' c,
  0 <= st < bound -> 0 <= st' < bound -> body st c = body st' c -> st = st'.
Hypothesis body_inj_char : forall st c c',
  0 <= st < bound -> body st c = body st c' -> c = c'.

Lemma while_char_inj_state (p : list byte) : forall st st',
  0 <= st < bound -> 0 <= st' < bound -> nul_free p = true ->
  while_char body st p = while_char body st' p -> st = st'.
Proof.
  induction p as [|c rest IH]; intros st st' H H' NF E; simpl in *; [assumption|].
  apply andb_true_iff in NF as [Nc NF]. apply negb_true_iff in Nc.
  rewrite Nc in E. apply IH in E; auto.
  eapply body_inj_state; eauto.
Qed.

Lemma while_char_flip_differs (k : nat) (p : list byte) : forall i st,
  0 <= st < bound -> (i < List.length p)%nat ->
  (forall b, flip_bit k b <> b) ->
  nul_free p = true -> nul_free (flip_at i k p) = true ->
  while_char body st (flip_at i k p) <> while_char body st p.
Proof.
  induction p as [|c rest IH]; intros i st H Hi Hk NF NF'; simpl in Hi; [lia|].
  simpl in NF. apply andb_true_iff in NF as [Nc NF]. apply negb_true_iff in Nc.
  destruct i as [|i]; simpl in NF' |- *;
    apply andb_true_iff in NF' as [Nc' NF']; apply negb_true_iff in Nc'.
  - rewrite Nc, Nc'. intros E.
    apply while_char_inj_state in E; auto.
    apply body_inj_char in E; auto. exact (Hk c E).
  - rewrite Nc. apply IH; auto. lia.
Qed.

End WhileCharInjective.

Lemma flip_bit_differs (k : nat) (b : byte) : (k < 8)%nat -> flip_bit k b <> b.
Proof.
  intros Hk. unfold flip_bit.
  set (x := N.lxor (Byte.to_N b) (N.shiftl 1 (N.of_nat k))).
  assert (x <> Byte.to_N b) as Hx.
  { unfold x. intros E.
    assert (N.lxor (Byte.to_N b) (N.lxor (Byte.to_N b) (N.shiftl 1 (N.of_nat k)))
            = N.lxor (Byte.to_N b) (Byte.to_N b)) as E' by now rewrite E.
    rewrite <- N.lxor_assoc, N.lxor_nilpotent, N.lxor_0_l in E'.
    rewrite N.shiftl_1_l in E'. pose proof (N.pow_nonzero 2 (N.of_nat k)). lia. }
  destruct (Byte.of_N x) as [b'|] eqn:E.
  - intros ->. apply Byte.to_of_N in E. congruence.
  - apply Byte.of_N_None_iff in E. exfalso.
    assert (x < 2 ^ 8)%N; [|change (2 ^ 8)%N with 256%N in *; lia].
    pose proof (Byte.to_N_bounded b) as Hb.
    destruct (N.eq_dec x 0) as [->|NZ]; [reflexivity|].
    apply N.log2_lt_pow2; [lia|].
    pose proof (N.log2_lxor (Byte.to_N b) (N.shiftl 1 (N.of_nat k))) as L.
    fold x in L.
    assert (N.log2 (Byte.to_N b) < 8)%N.
    { destruct (N.eq_dec (Byte.to_N b) 0) as [->|]; [reflexivity|].
      apply N.log2_lt_pow2; [lia|]. change (2 ^ 8)%N with 256%N. lia. }
    assert (N.log2 (N.shiftl 1 (N.of_nat k)) < 8)%N.
    { rewrite N.shiftl_1_l, N.log2_pow2 by lia. lia. }
    lia.
Qed.

(** C5 (counterexample): a bit flip that turns a payload byte into NUL cuts
    the string short, and the shortened string can have the checksum of the
    original. *)
Lemma flip_to_nul_undetected :
  calculate_checksum true (flip_at 0 6 (cstr "@@")) = calculate_checksum true (cstr "@@")
  /\ calculate_checksum false (flip_at 0 6 (cstr "@@")) = calculate_checksum false (cstr "@@")
  /\ crc16_ccitt true (flip_at 0 5 (cstr " A]")) = crc16_ccitt true (cstr " A]")
  /\ crc16_ccitt false (flip_at 0 5 (cstr " A]")) = crc16_ccitt false (cstr " A]")
  /\ flip_at 0 6 (cstr "@@") <> cstr "@@"
  /\ flip_at 0 5 (cstr " A]") <> cstr " A]".
Proof. repeat split; try (vm_compute; reflexivity); vm_compute; discriminate. Qed.

(** C5 (amended): when neither the payload nor its corrupted copy contains a
    NUL byte, inverting one bit of one payload byte changes both the XOR
    checksum and the CRC16. *)
Theorem single_bit_flip_detected (char_signed : bool) (p : list byte) (i k : nat) :
  (i < List.length p)%nat -> (k < 8)%nat ->
  nul_free p = true -> nul_free (flip_at i k p) = true ->
  calculate_checksum char_signed (flip_at i k p) <> calculate_checksum char_signed p
  /\ crc16_ccitt char_signed (flip_at i k p) <> crc16_ccitt char_signed p.
Proof.
  intros Hi Hk NF NF'. split.
  - unfold calculate_checksum.
    apply (while_char_flip_differs (xor_byte char_signed) 256); auto; try lia.
    + intros st c H. rewrite xor_byte_eq by assumption.
      apply (lxor_range 8); try lia. apply byte_val_range.
    + intros st st' c H H'. rewrite !xor_byte_eq by assumption. apply lxor_cancel_r.
    + intros st c c' H. rewrite !xor_byte_eq by assumption.
      intros E. apply lxor_cancel_l in E. now apply byte_val_inj.
    + intros b. now apply flip_bit_differs.
  - unfold crc16_ccitt.
    apply (while_char_flip_differs (crc16_byte char_signed) 65536); auto; try lia.
    + intros st c H. unfold crc16_byte. apply crc16_rounds_range, to_ushort_range.
    + intros st st' c H H'. unfold crc16_byte. intros E.
      apply crc16_rounds_inj in E; try apply to_ushort_range.
      rewrite !crc16_pre_eq in E by assumption. now apply lxor_cancel_r in E.
    + intros st c c' H. unfold crc16_byte. intros E.
      apply crc16_rounds_inj in E; try apply to_ushort_range.
      rewrite !crc16_pre_eq in E by assumption. apply lxor_cancel_l in E.
      apply byte_val_inj. lia.
    + intros b. now apply flip_bit_differs.
Qed.

Lemma single_bit_flip_detected_witness :
  calculate_checksum true (flip_at 3 0 (cstr "L2,1,0.50")) <> calculate_checksum true (cstr "L2,1,0.50")
  /\ crc16_ccitt true (flip_at 3 0 (cstr "L2,1,0.50")) <> crc16_ccitt true (cstr "L2,1,0.50").
Proof.
  apply (single_bit_flip_detected true (cstr "L2,1,0.50") 3 0).
  - simpl. lia.
  - lia.
  - reflexivity.
  - reflexivity.
Defined.

(** ** Frame encoding *)

Lemma digit_char_is_digit d : 0 <= d < 10 -> is_digit (digit_char d) = true.
Proof.
  intros H.
  assert (d = 0 \/ d = 1 \/ d = 2 \/ d = 3 \/ d = 4 \/ d = 5 \/ d = 6
          \/ d = 7 \/ d = 8 \/ d = 9) as C by lia.
  repeat (destruct C as [->|C]; [reflexivity|]). subst d. reflexivity.
Qed.

Lemma to_digits_range base fuel : forall n,
  1 < base -> 0 <= n -> Forall (fun d => 0 <= d < base) (to_digits base fuel n).
Proof.
  induction fuel as [|fuel IH]; intros n Hb Hn; simpl; [constructor|].
  destruct (n <? base) eqn:E.
  - apply Z.ltb_lt in E. repeat constructor; lia.
  - apply Forall_app. split.
    + apply IH; [assumption|]. apply Z.div_pos; lia.
    + repeat constructor; apply Z.mod_pos_bound; lia.
Qed.

Lemma to_digits_nonempty base fuel n : to_digits base (S fuel) n <> [].
Proof.
  simpl. destruct (n <? base); [discriminate|].
  intros E. apply app_eq_nil in E as [_ E]. discriminate.
Qed.

Lemma dec_text_digits n : 0 <= n -> forallb is_digit (dec_text n) = true.
Proof.
  intros H. unfold dec_text, digits. apply forallb_forall. intros c Hc.
  apply in_map_iff in Hc as [d [<- Hd]].
  pose proof (to_digits_range 10 (S (Z.to_nat (Z.log2 n))) n ltac:(lia) H) as F.
  rewrite Forall_forall in F. apply digit_char_is_digit, F, Hd.
Qed.

Lemma dec_text_nonempty n : dec_text n <> [].
Proof.
  unfold dec_text, digits. intros E. apply map_eq_nil in E.
  exact (to_digits_nonempty _ _ _ E).
Qed.

Lemma strip_sign_digit c r : is_digit c = true -> strip_sign (c :: r) = c :: r.
Proof. destruct c; try discriminate; reflexivity. Qed.

Lemma strip_sign_digits t :
  t <> [] -> forallb is_digit t = true -> strip_sign t = t.
Proof.
  destruct t as [|c r]; [congruence|]. simpl. intros _ H.
  apply andb_true_iff in H as [H _]. now apply strip_sign_digit.
Qed.

Lemma fmt_lld_is_int ts : is_int_text (fmt_lld ts) = true.
Proof.
  unfold is_int_text, fmt_lld. destruct (ts <? 0) eqn:E.
  - apply Z.ltb_lt in E. simpl.
    pose proof (dec_text_nonempty (- ts)) as NE.
    pose proof (dec_text_digits (- ts) ltac:(lia)) as D.
    destruct (dec_text (- ts)); [congruence|exact D].
  - apply Z.ltb_ge in E.
    pose proof (dec_text_nonempty ts) as NE.
    pose proof (dec_text_digits ts E) as D.
    rewrite strip_sign_digits by assumption.
    destruct (dec_text ts); [congruence|exact D].
Qed.

Lemma forallb_rev {A} (f : A -> bool) l : forallb f (rev l) = forallb f l.
Proof.
  induction l as [|a l IH]; [reflexivity|]. simpl.
  rewrite forallb_app, IH. simpl. rewrite andb_true_r. apply andb_comm.
Qed.

Lemma fixed2_text_is_fixed2 s h : 0 <= h -> is_fixed2 (fixed2_text s h) = true.
Proof.
  intros H. unfold is_fixed2, fixed2_text.
  assert (0 <= h / 100) as Hq by (apply Z.div_pos; lia).
  pose proof (dec_text_nonempty (h / 100)) as NE.
  pose proof (dec_text_digits (h / 100) Hq) as D.
  set (tl := ["."%byte; digit_char (h mod 100 / 10); digit_char (h mod 10)]).
  assert (strip_sign (sign_text s ++ dec_text (h / 100) ++ tl)
          = dec_text (h / 100) ++ tl) as ->.
  { destruct s; simpl; [reflexivity|].
    destruct (dec_text (h / 100)) as [|c r]; [congruence|].
    simpl in D. apply andb_true_iff in D as [D _]. now apply strip_sign_digit. }
  rewrite rev_app_distr. simpl.
  rewrite <- forallb_rev in D.
  assert (rev (dec_text (h / 100)) <> []) as NE'.
  { intros E. apply NE. rewrite <- (rev_involutive (dec_text (h / 100))), E. reflexivity. }
  destruct (rev (dec_text (h / 100))) as [|i r]; [congruence|].
  cbv beta iota. change (is_digit i && forallb is_digit r) with (forallb is_digit (i :: r)).
  rewrite D, andb_true_r.
  rewrite !digit_char_is_digit; [reflexivity| |].
  - assert (0 <= h mod 100 < 100) by (apply Z.mod_pos_bound; lia).
    split; [apply Z.div_pos; lia | apply Z.div_lt_upper_bound; lia].
  - apply Z.mod_pos_bound; lia.
Qed.

Lemma div_nearest_even_nonneg n d : 0 <= n -> 0 < d -> 0 <= div_nearest_even n d.
Proof.
  intros Hn Hd. unfold div_nearest_even.
  assert (0 <= n / d) by (apply Z.div_pos; lia).
  destruct (2 * (n mod d) ?= d); [destruct (Z.even (n / d))| |]; lia.
Qed.

Lemma hundredths_nonneg m e : 0 <= hundredths m e.
Proof.
  unfold hundredths. destruct (0 <=? e) eqn:E.
  - apply Z.leb_le in E. pose proof (Z.pow_pos_nonneg 2 e). lia.
  - apply Z.leb_gt in E. apply div_nearest_even_nonneg; [lia|].
    apply Z.pow_pos_nonneg; lia.
Qed.

Lemma fmt_2f_is_fixed2 (neg : bool) x : is_finite x = true -> is_fixed2 (fmt_2f neg x) = true.
Proof.
  destruct x; simpl; try discriminate; intros _.
  - now apply fixed2_text_is_fixed2.
  - apply fixed2_text_is_fixed2, hundredths_nonneg.
Qed.

Lemma is_digit_field c : is_digit c = true -> is_field_char c = true.
Proof. unfold is_field_char. now intros ->. Qed.

Lemma fmt_lld_field_chars ts : forallb is_field_char (fmt_lld ts) = true.
Proof.
  assert (forall n, 0 <= n -> forallb is_field_char (dec_text n) = true) as D.
  { intros n Hn. pose proof (dec_text_digits n Hn) as H.
    rewrite forallb_forall in *. intros c Hc. now apply is_digit_field, H. }
  unfold fmt_lld. destruct (ts <? 0) eqn:E.
  - apply Z.ltb_lt in E. simpl. apply D. lia.
  - apply Z.ltb_ge in E. now apply D.
Qed.

Lemma fixed2_text_field_chars s h :
  0 <= h -> forallb is_field_char (fixed2_text s h) = true.
Proof.
  intros H. unfold fixed2_text.
  assert (0 <= h mod 100 < 100) by (apply Z.mod_pos_bound; lia).
  rewrite !forallb_app. simpl.
  rewrite !is_digit_field.
  - rewrite andb_true_r. apply andb_true_iff. split; [now destruct s|].
    pose proof (dec_text_digits (h / 100) ltac:(apply Z.div_pos; lia)) as D.
    rewrite forallb_forall in *. intros c Hc. now apply is_digit_field, D.
  - apply digit_char_is_digit. apply Z.mod_pos_bound; lia.
  - apply digit_char_is_digit.
    split; [apply Z.div_pos; lia | apply Z.div_lt_upper_bound; lia].
Qed.

Lemma fmt_2f_field_chars (neg : bool) x :
  is_finite x = true -> forallb is_field_char (fmt_2f neg x) = true.
Proof.
  destruct x; simpl; try discriminate; intros _.
  - now apply fixed2_text_field_chars.
  - apply fixed2_text_field_chars, hundredths_nonneg.
Qed.

(** What matters about field characters: none of them is NUL or a delimiter. *)
Lemma field_char_plain c :
  is_field_char c = true ->
  is_nul c = false /\ c <> ","%byte /\ c <> "$"%byte /\ c <> "*"%byte.
Proof. destruct c; try discriminate; intros _; repeat split; discriminate. Qed.

Lemma split_on_field sep (f rest : list byte) :
  ~ In sep f -> split_on sep (f ++ sep :: rest) = f :: split_on sep rest.
Proof.
  induction f as [|c f IH]; intros NI; simpl.
  - now rewrite (Byte.byte_dec_lb (eq_refl sep)).
  - destruct (Byte.eqb c sep) eqn:E.
    + apply Byte.byte_dec_bl in E. exfalso. apply NI. now left.
    + rewrite IH; [reflexivity|]. intros I. apply NI. now right.
Qed.

Lemma split_on_last sep (f : list byte) : ~ In sep f -> split_on sep f = [f].
Proof.
  induction f as [|c f IH]; intros NI; simpl; [reflexivity|].
  destruct (Byte.eqb c sep) eqn:E.
  - apply Byte.byte_dec_bl in E. exfalso. apply NI. now left.
  - rewrite IH; [reflexivity|]. intros I. apply NI. now right.
Qed.

Lemma before_nul_nul_free s : nul_free s = true -> before_nul s = s.
Proof.
  induction s as [|c s IH]; simpl; [reflexivity|]. intros H.
  apply andb_true_iff in H as [Hc H]. apply negb_true_iff in Hc.
  rewrite Hc. now rewrite IH.
Qed.

Lemma list_byte_eqb_eq a : forall b, list_byte_eqb a b = true -> a = b.
Proof.
  unfold list_byte_eqb.
  induction a as [|x a IH]; intros [|y b] H; simpl in H; try discriminate; [reflexivity|].
  apply andb_true_iff in H as [L H]. apply andb_true_iff in H as [XY H].
  apply Byte.byte_dec_bl in XY. simpl in XY. subst y. f_equal.
  apply IH. now rewrite L, H.
Qed.

Lemma fmt_04X_nibbles n :
  0 <= n < 65536 -> fmt_04X n = map digit_char (nibbles n).
Proof.
  intros H.
  assert (forall_range (fun x => list_byte_eqb (fmt_04X x) (map digit_char (nibbles x)))
            (Z.to_nat 65536) 0 = true) as A by (vm_compute; reflexivity).
  apply list_byte_eqb_eq. apply (forall_range_spec _ _ _ A). lia.
Qed.

Lemma while_char_range (body : Z -> byte -> Z) bound :
  (forall st c, 0 <= st < bound -> 0 <= body st c < bound) ->
  forall p st, 0 <= st < bound -> 0 <= while_char body st p < bound.
Proof.
  intros Hb. induction p as [|c p IH]; intros st H; simpl; [assumption|].
  destruct (is_nul c); [assumption|]. apply IH, Hb, H.
Qed.

Lemma crc16_ccitt_range sgn data : 0 <= crc16_ccitt sgn data < 65536.
Proof.
  unfold crc16_ccitt. apply while_char_range; [|lia].
  intros st c _. unfold crc16_byte. apply crc16_rounds_range, to_ushort_range.
Qed.

Lemma calculate_checksum_range sgn buf : 0 <= calculate_checksum sgn buf < 256.
Proof.
  unfold calculate_checksum. apply while_char_range; [|lia].
  intros st c _. unfold xor_byte, to_uchar. apply Z.mod_pos_bound. lia.
Qed.

Lemma field_chars_plain t :
  forallb is_field_char t = true ->
  nul_free t = true /\ ~ In ","%byte t /\ ~ In "$"%byte t /\ ~ In "*"%byte t.
Proof.
  intros H. rewrite forallb_forall in H. repeat split.
  - apply forallb_forall. intros c Hc.
    now destruct (field_char_plain c (H c Hc)) as [-> _].
  - intros I. now destruct (field_char_plain _ (H _ I)) as (_ & N & _).
  - intros I. now destruct (field_char_plain _ (H _ I)) as (_ & _ & N & _).
  - intros I. now destruct (field_char_plain _ (H _ I)) as (_ & _ & _ & N).
Qed.

Lemma nul_free_cons c t : nul_free (c :: t) = negb (is_nul c) && nul_free t.
Proof. reflexivity. Qed.

Lemma nul_free_app a b : nul_free (a ++ b) = nul_free a && nul_free b.
Proof. apply forallb_app. Qed.

(** No text of [%.2f] holds a NUL, a comma or a frame delimiter. *)
Lemma fmt_2f_plain (neg : bool) x :
  nul_free (fmt_2f neg x) = true /\ ~ In ","%byte (fmt_2f neg x)
  /\ ~ In "$"%byte (fmt_2f neg x) /\ ~ In "*"%byte (fmt_2f neg x).
Proof.
  destruct (is_finite x) eqn:Fx.
  - apply field_chars_plain. now apply fmt_2f_field_chars.
  - destruct x as [s|s| |s m e]; try discriminate; cbn [fmt_2f].
    + destruct s; (split; [reflexivity|]); simpl; intuition discriminate.
    + destruct neg; (split; [reflexivity|]); simpl; intuition discriminate.
Qed.

(** The payload, whatever the values: free of NUL and of the delimiters, and
    made of the tag and six fields. *)
Lemma l2_payload_plain nan_sign ts roll pitch yaw altitude temperature :
  nul_free (l2_payload_text nan_sign ts roll pitch yaw altitude temperature) = true
  /\ ~ In "$"%byte (l2_payload_text nan_sign ts roll pitch yaw altitude temperature)
  /\ ~ In "*"%byte (l2_payload_text nan_sign ts roll pitch yaw altitude temperature)
  /\ split_on ","%byte (l2_payload_text nan_sign ts roll pitch yaw altitude temperature)
     = [cstr "L2"; fmt_lld ts; fmt_2f (nan_sign 0%nat) roll; fmt_2f (nan_sign 1%nat) pitch;
        fmt_2f (nan_sign 2%nat) yaw; fmt_2f (nan_sign 3%nat) altitude;
        fmt_2f (nan_sign 4%nat) temperature].
Proof.
  destruct (field_chars_plain _ (fmt_lld_field_chars ts)) as (Z0 & C0 & D0 & S0).
  destruct (fmt_2f_plain (nan_sign 0%nat) roll) as (Z1 & C1 & D1 & S1).
  destruct (fmt_2f_plain (nan_sign 1%nat) pitch) as (Z2 & C2 & D2 & S2).
  destruct (fmt_2f_plain (nan_sign 2%nat) yaw) as (Z3 & C3 & D3 & S3).
  destruct (fmt_2f_plain (nan_sign 3%nat) altitude) as (Z4 & C4 & D4 & S4).
  destruct (fmt_2f_plain (nan_sign 4%nat) temperature) as (Z5 & C5 & D5 & S5).
  assert (forall c, In c (l2_payload_text nan_sign ts roll pitch yaw altitude temperature) ->
                    c <> "$"%byte /\ c <> "*"%byte) as PC.
  { intros c. unfold l2_payload_text.
    change (cstr "L2,") with ["L"; "2"; ","]%byte.
    intros H.
    repeat match type of H with
           | _ \/ _ => destruct H as [H|H]
           | _ = c => subst c; split; discriminate
           | In c (_ ++ _) => apply in_app_or in H
           | In c (_ :: _) => apply in_inv in H
           | In c _ => split; intros ->; tauto
           end. }
  split; [|split; [|split]].
  - unfold l2_payload_text.
    repeat (rewrite nul_free_app || rewrite nul_free_cons).
    rewrite Z0, Z1, Z2, Z3, Z4, Z5. reflexivity.
  - intros I. now destruct (PC _ I).
  - intros I. now destruct (PC _ I).
  - unfold l2_payload_text.
    change (cstr "L2," ++ ?x) with (cstr "L2" ++ ","%byte :: x).
    rewrite split_on_field by (simpl; intros [H|[H|[]]]; discriminate).
    repeat (rewrite split_on_field by assumption).
    now rewrite split_on_last by assumption.
Qed.

(** A payload that fits its buffer is framed whole. *)
Lemma l2_frame_whole char_signed nan_sign ts roll pitch yaw altitude temperature :
  (List.length (l2_payload_text nan_sign ts roll pitch yaw altitude temperature) < 200)%nat ->
  l2_frame char_signed nan_sign ts roll pitch yaw altitude temperature
  = "$"%byte :: l2_payload_text nan_sign ts roll pitch yaw altitude temperature
      ++ "*"%byte
      :: map digit_char
           (nibbles (crc16_ccitt char_signed
                       (l2_payload_text nan_sign ts roll pitch yaw altitude temperature)))
      ++ ["010"%byte].
Proof.
  intros Hlen. destruct (l2_payload_plain nan_sign ts roll pitch yaw altitude temperature)
    as (NF & _).
  unfold l2_frame, snprintf.
  rewrite firstn_all2 by lia.
  rewrite before_nul_nul_free by assumption.
  rewrite fmt_04X_nibbles by apply crc16_ccitt_range. reflexivity.
Qed.

(** The frame of five finite numbers whose text fits the 200-byte buffer:
    '$', the payload, '*', four upper-case zero-padded hexadecimal digits and
    a newline; the payload is the tag L2 and six comma-separated fields, an
    integer timestamp followed by five numbers with exactly two decimals; the
    four digits are the CRC16 of the payload, which holds neither
    delimiter. *)
Lemma l2_frame_shape (char_signed : bool) (nan_sign : nat -> bool) (ts : Z)
    (roll pitch yaw altitude temperature : spec_float) :
  (List.length (l2_payload_text nan_sign ts roll pitch yaw altitude temperature) < 200)%nat ->
  is_finite roll = true -> is_finite pitch = true -> is_finite yaw = true ->
  is_finite altitude = true -> is_finite temperature = true ->
  l2_frame char_signed nan_sign ts roll pitch yaw altitude temperature
  = "$"%byte :: l2_payload_text nan_sign ts roll pitch yaw altitude temperature
      ++ "*"%byte
      :: map digit_char
           (nibbles (crc16_ccitt char_signed
                       (l2_payload_text nan_sign ts roll pitch yaw altitude temperature)))
      ++ ["010"%byte]
  /\ 0 <= crc16_ccitt char_signed
            (l2_payload_text nan_sign ts roll pitch yaw altitude temperature) < 65536
  /\ ~ In "$"%byte (l2_payload_text nan_sign ts roll pitch yaw altitude temperature)
  /\ ~ In "*"%byte (l2_payload_text nan_sign ts roll pitch yaw altitude temperature)
  /\ split_on ","%byte (l2_payload_text nan_sign ts roll pitch yaw altitude temperature)
     = [cstr "L2"; fmt_lld ts; fmt_2f (nan_sign 0%nat) roll; fmt_2f (nan_sign 1%nat) pitch;
        fmt_2f (nan_sign 2%nat) yaw; fmt_2f (nan_sign 3%nat) altitude;
        fmt_2f (nan_sign 4%nat) temperature]
  /\ is_int_text (fmt_lld ts) = true
  /\ is_fixed2 (fmt_2f (nan_sign 0%nat) roll) = true
  /\ is_fixed2 (fmt_2f (nan_sign 1%nat) pitch) = true
  /\ is_fixed2 (fmt_2f (nan_sign 2%nat) yaw) = true
  /\ is_fixed2 (fmt_2f (nan_sign 3%nat) altitude) = true
  /\ is_fixed2 (fmt_2f (nan_sign 4%nat) temperature) = true.
Proof.
  intros Hlen Fr Fp Fy Fa Ft.
  destruct (l2_payload_plain nan_sign ts roll pitch yaw altitude temperature)
    as (_ & ND & NS & Fields).
  split; [now apply l2_frame_whole|].
  split; [apply crc16_ccitt_range|].
  repeat apply conj; try assumption; try (now apply fmt_2f_is_fixed2).
  apply fmt_lld_is_int.
Qed.

(** ** The filter state *)

(** C3: when the computed norm of the accelerometer vector or of the
    magnetometer vector compares equal to zero, [madgwick_update] returns
    with all four quaternion components untouched. *)
Theorem madgwick_update_degenerate (q : quat) (imu : imu_sample_t) (dt : spec_float) :
  F32.eqb (vec_norm (ax imu) (ay imu) (az imu)) f0_0 = true
  \/ F32.eqb (vec_norm (mx imu) (my imu) (mz imu)) f0_0 = true ->
  madgwick_update imu dt q = (tt, q).
Proof.
  intros H. unfold madgwick_update.
  destruct (F32.eqb (vec_norm (ax imu) (ay imu) (az imu)) f0_0) eqn:A; [reflexivity|].
  destruct H as [H|H]; [discriminate|]. now rewrite H.
Qed.

Lemma madgwick_update_degenerate_witness :
  madgwick_update
    {| ax := S754_zero false; ay := S754_zero false; az := S754_zero true;
       gx := F32.lit 2 1; gy := F32.lit 15 10; gz := F32.lit 12 1;
       mx := F32.lit 3 10; my := S754_zero false; mz := F32.lit 5 10 |}
    LOOP_DT_SEC q_init = (tt, q_init)
  /\ madgwick_update
    {| ax := S754_zero false; ay := F32.lit 6 10; az := F32.lit 981 100;
       gx := F32.lit 2 1; gy := F32.lit 15 10; gz := F32.lit 12 1;
       mx := S754_zero false; my := S754_zero false; mz := S754_zero false |}
    LOOP_DT_SEC q_init = (tt, q_init).
Proof.
  split; apply madgwick_update_degenerate.
  - left. reflexivity.
  - right. reflexivity.
Defined.

(** C8: the state starts as the identity quaternion, reading the Euler angles
    returns it unchanged, and over a whole tick of [main] the only change to
    it is the one made by [madgwick_update]. *)
Theorem quaternion_state_frame
    (atan2f : spec_float -> spec_float -> spec_float)
    (asinf : spec_float -> spec_float) :
  q_init = {| q0 := F32.of_int 1; q1 := S754_zero false;
              q2 := S754_zero false; q3 := S754_zero false |}
  /\ (forall q : quat, snd (ahrs_get_euler atan2f asinf q) = q)
  /\ (forall (char_signed : bool) (nan_sign : nat -> bool) (imu : imu_sample_t)
             (ts t : Z) (q : quat),
        snd (main_tick char_signed nan_sign atan2f asinf imu ts t q)
        = snd (madgwick_update imu LOOP_DT_SEC q)).
Proof.
  split; [reflexivity|]. split; [reflexivity|].
  intros sgn neg imu ts t q. unfold main_tick, bind.
  destruct (madgwick_update imu LOOP_DT_SEC q) as [u q'].
  unfold ahrs_get_euler, bind, get, ret. reflexivity.
Qed.

(** ** Floating-point rounding: the standard model, derived from [SpecFloat] *)

Lemma Zdigits2_log2 (m : Z) : 0 < m -> Zdigits2 m = Z.log2 m + 1.
Proof.
  destruct m as [|p|p]; try lia. intros _.
  change (Zdigits2 (Z.pos p)) with (Z.pos (digits2_pos p)).
  induction p as [p IH|p IH|].
  - change (digits2_pos p~1) with (Pos.succ (digits2_pos p)).
    rewrite Pos2Z.inj_succ, IH, (Pos2Z.inj_xI p).
    rewrite Z.log2_succ_double by lia. lia.
  - change (digits2_pos p~0) with (Pos.succ (digits2_pos p)).
    rewrite Pos2Z.inj_succ, IH, (Pos2Z.inj_xO p).
    rewrite Z.log2_double by lia. lia.
  - reflexivity.
Qed.

Lemma Zdigits2_nonneg m : 0 <= Zdigits2 m.
Proof. destruct m; simpl; lia. Qed.

Lemma Zdigits2_bounds m : 0 < m -> 2 ^ (Zdigits2 m - 1) <= m < 2 ^ Zdigits2 m.
Proof.
  intros H. rewrite Zdigits2_log2 by assumption.
  replace (Z.log2 m + 1 - 1) with (Z.log2 m) by lia.
  apply Z.log2_spec. assumption.
Qed.

Lemma Zdigits2_unique m d : 0 < d -> 2 ^ (d - 1) <= m < 2 ^ d -> Zdigits2 m = d.
Proof.
  intros Hd H.
  assert (0 < m) by (pose proof (Z.pow_pos_nonneg 2 (d - 1)); lia).
  rewrite Zdigits2_log2 by assumption.
  rewrite (Z.log2_unique m (d - 1)); try lia.
  replace (Z.succ (d - 1)) with d by lia. assumption.
Qed.

Lemma shr_1_m mrs : 0 <= shr_m mrs -> shr_m (shr_1 mrs) = shr_m mrs / 2.
Proof.
  destruct mrs as [m r s]. simpl. intros H.
  rewrite <- Z.div2_div.
  destruct m as [|[p|p|]|p]; try reflexivity. lia.
Qed.

Lemma shr_1_inbetween mrs x :
  0 <= shr_m mrs ->
  inbetween_int (shr_m mrs) x (loc_of_shr_record mrs) ->
  inbetween_int (shr_m (shr_1 mrs)) (x / 2) (loc_of_shr_record (shr_1 mrs)).
Proof.
  destruct mrs as [m r s]. cbn [shr_m]. intros H.
  destruct m as [|[p|p|]|p]; try lia; destruct r, s;
    cbn [shr_m shr_1 loc_of_shr_record inbetween_int orb];
    rewrite ?(Pos2Z.inj_xI p), ?(Pos2Z.inj_xO p), ?plus_IZR, ?mult_IZR;
    intros; lra.
Qed.

Lemma iter_shr_1 (n : positive) : forall mrs x,
  0 <= shr_m mrs ->
  inbetween_int (shr_m mrs) x (loc_of_shr_record mrs) ->
  shr_m (SpecFloat.iter_pos shr_1 n mrs) = shr_m mrs / 2 ^ Zpos n
  /\ inbetween_int (shr_m (SpecFloat.iter_pos shr_1 n mrs))
       (x * bpow (- Zpos n)) (loc_of_shr_record (SpecFloat.iter_pos shr_1 n mrs)).
Proof.
  assert (forall mrs, 0 <= shr_m mrs -> 0 <= shr_m (shr_1 mrs)) as Pos1.
  { intros mrs H. rewrite shr_1_m by assumption. apply Z.div_pos; lia. }
  unfold bpow.
  induction n as [n IH|n IH|]; intros mrs x Hm Hx; simpl SpecFloat.iter_pos.
  - pose proof (shr_1_inbetween mrs x Hm Hx) as H1.
    destruct (IH _ _ (Pos1 _ Hm) H1) as [M2 H2].
    assert (0 <= shr_m (SpecFloat.iter_pos shr_1 n (shr_1 mrs))) as P2.
    { rewrite M2. apply Z.div_pos; [now apply Pos1|]. apply Z.pow_pos_nonneg; lia. }
    destruct (IH _ _ P2 H2) as [M3 H3]. split.
    + rewrite M3, M2, shr_1_m by assumption.
      rewrite !Z.div_div by (try apply Z.pow_pos_nonneg; lia).
      f_equal. rewrite Pos2Z.inj_xI, Z.pow_add_r, Z.pow_mul_r by lia.
      change (2 ^ 2) with 4. rewrite Z.pow_1_r.
      replace 4 with (2 * 2) by reflexivity.
      rewrite Z.pow_mul_l. lia.
    + replace (x * powerRZ 2 (- Z.pos n~1))%R
        with (x / 2 * powerRZ 2 (- Z.pos n) * powerRZ 2 (- Z.pos n))%R; [assumption|].
      replace (- Z.pos n~1) with (- (1) + (- Z.pos n + - Z.pos n)) by lia.
      rewrite !powerRZ_add by lra. simpl (powerRZ 2 (- (1))). lra.
  - destruct (IH _ _ Hm Hx) as [M2 H2].
    assert (0 <= shr_m (SpecFloat.iter_pos shr_1 n mrs)) as P2.
    { rewrite M2. apply Z.div_pos; [assumption|]. apply Z.pow_pos_nonneg; lia. }
    destruct (IH _ _ P2 H2) as [M3 H3]. split.
    + rewrite M3, M2.
      rewrite !Z.div_div by (try apply Z.pow_pos_nonneg; lia).
      f_equal. rewrite <- Z.pow_add_r by lia. f_equal. lia.
    + replace (x * powerRZ 2 (- Z.pos n~0))%R
        with (x * powerRZ 2 (- Z.pos n) * powerRZ 2 (- Z.pos n))%R; [assumption|].
      replace (- Z.pos n~0) with (- Z.pos n + - Z.pos n) by lia.
      rewrite !powerRZ_add by lra. lra.
  - split.
    + rewrite shr_1_m by assumption. reflexivity.
    + pose proof (shr_1_inbetween mrs x Hm Hx) as H1.
      replace (x * powerRZ 2 (- (1)))%R with (x / 2)%R; [assumption|].
      simpl. lra.
Qed.

Lemma bpow_add a b : bpow (a + b) = (bpow a * bpow b)%R.
Proof. apply powerRZ_add. lra. Qed.

Lemma bpow_pos e : (0 < bpow e)%R.
Proof. apply powerRZ_lt. lra. Qed.

Lemma bpow_0 : bpow 0 = 1%R.
Proof. reflexivity. Qed.

Lemma bpow_1 : bpow 1 = 2%R.
Proof. unfold bpow. simpl. lra. Qed.

Lemma bpow_opp e : bpow (- e) = (/ bpow e)%R.
Proof. apply powerRZ_neg'. Qed.

Lemma bpow_IZR n : 0 <= n -> bpow n = IZR (2 ^ n).
Proof.
  unfold bpow. destruct n as [|p|p]; intros H; try lia; [reflexivity|].
  change (2 ^ Z.pos p) with (Z.pow_pos 2 p).
  now rewrite Zpower_pos_powerRZ.
Qed.

Lemma bpow_ge_1 n : 0 <= n -> (1 <= bpow n)%R.
Proof.
  intros H. rewrite bpow_IZR by assumption. apply IZR_le.
  pose proof (Z.pow_pos_nonneg 2 n). lia.
Qed.

Lemma bpow_le a b : a <= b -> (bpow a <= bpow b)%R.
Proof.
  intros H. replace b with (a + (b - a)) by lia. rewrite bpow_add.
  pose proof (bpow_ge_1 (b - a) ltac:(lia)). pose proof (bpow_pos a). nra.
Qed.

Lemma bpow_lt a b : a < b -> (bpow a < bpow b)%R.
Proof.
  intros H. replace b with (a + 1 + (b - a - 1)) by lia. rewrite !bpow_add, bpow_1.
  pose proof (bpow_ge_1 (b - a - 1) ltac:(lia)). pose proof (bpow_pos a). nra.
Qed.

Lemma loc_of_record_of_loc m l :
  loc_of_shr_record (shr_record_of_loc m l) = l
  /\ shr_m (shr_record_of_loc m l) = m.
Proof. destruct l as [|[]]; split; reflexivity. Qed.

Lemma round_nearest_even_spec m l y :
  inbetween_int m y l ->
  (round_nearest_even m l = m \/ round_nearest_even m l = m + 1)
  /\ (Rabs (IZR (round_nearest_even m l) - y) <= / 2)%R
  /\ (l = loc_Exact -> round_nearest_even m l = m).
Proof.
  intros H. destruct l as [|[]]; simpl in *.
  - subst y. repeat split; auto.
    replace (IZR m - IZR m)%R with 0%R by lra. rewrite Rabs_R0. lra.
  - destruct (Z.even m); repeat split; auto; try discriminate; subst y;
      rewrite ?plus_IZR; apply Rabs_le; lra.
  - repeat split; auto; try discriminate. apply Rabs_le; lra.
  - repeat split; auto; try discriminate. rewrite plus_IZR. apply Rabs_le; lra.
Qed.

(** What [shr] does to the mantissa and the exponent. *)
Lemma shr_spec m l e n x :
  0 <= m -> inbetween_int m x l ->
  (0 < n ->
     shr_m (fst (shr (shr_record_of_loc m l) e n)) = m / 2 ^ n
     /\ snd (shr (shr_record_of_loc m l) e n) = e + n
     /\ inbetween_int (shr_m (fst (shr (shr_record_of_loc m l) e n)))
          (x * bpow (- n))
          (loc_of_shr_record (fst (shr (shr_record_of_loc m l) e n))))
  /\ (n <= 0 ->
      fst (shr (shr_record_of_loc m l) e n) = shr_record_of_loc m l
      /\ snd (shr (shr_record_of_loc m l) e n) = e).
Proof.
  intros Hm Hx. destruct (loc_of_record_of_loc m l) as [L M].
  destruct n as [|p|p]; simpl; split; intros H; try lia; auto.
  assert (inbetween_int (shr_m (shr_record_of_loc m l)) x
            (loc_of_shr_record (shr_record_of_loc m l))) as Hx'
    by (rewrite L, M; exact Hx).
  rewrite <- M in Hm.
  destruct (iter_shr_1 p _ x Hm Hx') as [A B]. rewrite M in A. auto.
Qed.

(** Digits of a shifted mantissa. *)
Lemma Zdigits2_div_pow2 m n :
  0 <= n -> 0 < m / 2 ^ n -> Zdigits2 (m / 2 ^ n) = Zdigits2 m - n.
Proof.
  intros Hn Hq.
  assert (0 < 2 ^ n) as P by (apply Z.pow_pos_nonneg; lia).
  assert (0 < m) as Hm.
  { destruct (Z.lt_ge_cases 0 m) as [|N]; [assumption|].
    assert (m / 2 ^ n <= 0) by (apply Z.div_le_upper_bound; lia). lia. }
  pose proof (Zdigits2_bounds m Hm) as [Lo Hi].
  assert (2 ^ n <= m) as Hge.
  { destruct (Z.lt_ge_cases m (2 ^ n)) as [S|]; [|assumption].
    rewrite Z.div_small in Hq; lia. }
  assert (n < Zdigits2 m) as Hd.
  { apply (Z.pow_lt_mono_r_iff 2); try lia. pose proof (Zdigits2_nonneg m). lia. }
  apply Zdigits2_unique; [lia|]. split.
  - apply Z.div_le_lower_bound; [assumption|].
    rewrite <- Z.pow_add_r by lia. replace (n + (Zdigits2 m - n - 1)) with (Zdigits2 m - 1) by lia.
    assumption.
  - apply Z.div_lt_upper_bound; [assumption|].
    rewrite <- Z.pow_add_r by lia. replace (n + (Zdigits2 m - n)) with (Zdigits2 m) by lia.
    assumption.
Qed.

Lemma Zdigits2_succ m :
  0 < m ->
  Zdigits2 (m + 1) = Zdigits2 m
  \/ (Zdigits2 (m + 1) = Zdigits2 m + 1 /\ m + 1 = 2 * 2 ^ (Zdigits2 m - 1)).
Proof.
  intros Hm. pose proof (Zdigits2_bounds m Hm) as [Lo Hi].
  assert (0 < Zdigits2 m) as Hd.
  { rewrite Zdigits2_log2 by assumption. pose proof (Z.log2_nonneg m). lia. }
  assert (2 ^ Zdigits2 m = 2 * 2 ^ (Zdigits2 m - 1)) as E.
  { rewrite <- Z.pow_succ_r by lia. f_equal. lia. }
  destruct (Z.eq_dec (m + 1) (2 ^ Zdigits2 m)) as [C|C].
  - right. split; [|lia]. apply Zdigits2_unique; [lia|].
    replace (Zdigits2 m + 1 - 1) with (Zdigits2 m) by lia.
    rewrite Z.pow_add_r by lia. lia.
  - left. apply Zdigits2_unique; [lia|]. lia.
Qed.

Section Rounding.

Variables prec emax : Z.
Hypothesis prec_pos : 0 < prec.

Lemma fexp_mono a b : a <= b -> fexp prec emax a <= fexp prec emax b.
Proof. unfold fexp. lia. Qed.

(** The real number [x * 2^e], located at [(m, l)], is rounded by
    [binary_round_aux] to within half a unit in the last place; when the
    input carries enough digits the result is in canonical form, and it is
    infinite only for inputs of magnitude [2^(emax-1)] or more. *)
Lemma binary_round_aux_correct s m e l x :
  0 <= m -> inbetween_int m x l ->
  l = loc_Exact \/ e <= fexp prec emax (Zdigits2 m + e) ->
  match binary_round_aux prec emax s m e l with
  | S754_nan => False
  | S754_infinity s' =>
      e <= fexp prec emax (Zdigits2 m + e) ->
      emax - prec < fexp prec emax (Z.max (Zdigits2 m + e) (emin prec emax) + 1)
  | S754_zero s' =>
      s' = s
      /\ (Rabs (0 - x * bpow e) <= / 2 * bpow (fexp prec emax (Zdigits2 m + e)))%R
  | S754_finite s' m3 e3 =>
      s' = s
      /\ (Rabs (IZR (Zpos m3) * bpow e3 - x * bpow e)
          <= / 2 * bpow (fexp prec emax (Zdigits2 m + e)))%R
      /\ (e <= fexp prec emax (Zdigits2 m + e) -> SpecFloat.bounded prec emax m3 e3 = true)
  end.
Proof.
  intros Hm Hx Hpre.
  unfold binary_round_aux, shr_fexp.
  set (l0 := Zdigits2 m + e).
  set (n1 := fexp prec emax l0 - e).
  pose proof (shr_spec m l e n1 x Hm Hx) as S1.
  destruct (shr (shr_record_of_loc m l) e n1) as [mrs1 e1]. cbn [fst snd] in S1.
  set (m2 := round_nearest_even (shr_m mrs1) (loc_of_shr_record mrs1)).
  (* first stage: m2 * 2^e1 is within half an ulp of the target *)
  assert (0 <= m2
          /\ (Rabs (IZR m2 * bpow e1 - x * bpow e) <= / 2 * bpow (fexp prec emax l0))%R
          /\ fexp prec emax (Zdigits2 m2 + e1) - e1 <= 1
          /\ (0 < fexp prec emax (Zdigits2 m2 + e1) - e1 -> exists k, m2 = 2 * k)
          /\ (e <= fexp prec emax l0 ->
              0 <= fexp prec emax (Zdigits2 m2 + e1) - e1
              /\ Zdigits2 m2 + e1 <= Z.max l0 (emin prec emax) + 1))
    as (P2 & E2 & N2 & D2 & C2).
  { destruct (loc_of_record_of_loc m l) as [L M].
    destruct (Z.lt_ge_cases n1 0) as [Neg|Nonneg].
    - (* no shift and an exact input *)
      destruct S1 as [_ S1]. destruct (S1 ltac:(lia)) as [-> ->].
      destruct Hpre as [->|Hpre]; [|unfold n1, l0 in Neg; lia].
      subst m2. rewrite L, M. simpl. simpl in Hx. subst x. repeat split.
      + assumption.
      + replace (IZR m * bpow e - IZR m * bpow e)%R with 0%R by lra.
        rewrite Rabs_R0. pose proof (bpow_pos (fexp prec emax l0)). lra.
      + fold l0. fold n1. lia.
      + fold l0. fold n1. lia.
      + unfold n1 in Neg. lia.
      + unfold n1 in Neg. lia.
    - (* the mantissa is shifted by n1 >= 0 bits *)
      assert (e1 = fexp prec emax l0
              /\ shr_m mrs1 = m / 2 ^ n1
              /\ inbetween_int (shr_m mrs1) (x * bpow (- n1)) (loc_of_shr_record mrs1))
        as (E1 & M1 & I1).
      { destruct (Z.eq_dec n1 0) as [Z|NZ].
        - destruct S1 as [_ S1]. destruct (S1 ltac:(lia)) as [-> ->].
          rewrite L, M, Z. simpl (- 0). rewrite bpow_0, Rmult_1_r, Z.pow_0_r, Z.div_1_r.
          repeat split; [unfold n1 in Z; lia | assumption].
        - destruct S1 as [S1 _]. destruct (S1 ltac:(lia)) as (A & B & C).
          repeat split; [unfold n1 in B; lia | assumption | assumption]. }
      assert (0 < 2 ^ n1) as Ppow by (apply Z.pow_pos_nonneg; lia).
      assert (0 <= shr_m mrs1) as P1 by (rewrite M1; apply Z.div_pos; lia).
      destruct (round_nearest_even_spec _ _ _ I1) as (C2 & R2 & _). fold m2 in C2, R2.
      split; [lia|]. split.
      { rewrite E1.
        replace (IZR m2 * bpow (fexp prec emax l0) - x * bpow e)%R
          with ((IZR m2 - x * bpow (- n1)) * bpow (fexp prec emax l0))%R.
        - rewrite Rabs_mult, (Rabs_pos_eq (bpow _)) by (left; apply bpow_pos).
          pose proof (bpow_pos (fexp prec emax l0)). nra.
        - assert (bpow e = bpow (- n1) * bpow (fexp prec emax l0))%R as ->
            by (rewrite <- bpow_add; f_equal; unfold n1; lia).
          ring. }
      (* digits of the rounded mantissa *)
      destruct (Z.eq_dec (shr_m mrs1) 0) as [Z1|NZ1].
      + (* everything was shifted out: the exponent is the minimal one *)
        assert (l0 <= emin prec emax /\ fexp prec emax l0 = emin prec emax) as [Lmin Emin].
        { assert (l0 <= fexp prec emax l0); [|unfold fexp in *; lia].
          destruct (Z.eq_dec m 0) as [->|NZ].
          - unfold l0, n1 in *. simpl in *. lia.
          - assert (m < 2 ^ n1).
            { destruct (Z.lt_ge_cases m (2 ^ n1)) as [|G]; [assumption|].
              assert (1 <= m / 2 ^ n1); [|lia].
              apply Z.div_le_lower_bound; lia. }
            pose proof (Zdigits2_bounds m ltac:(lia)) as [Lo _].
            assert (Zdigits2 m - 1 < n1).
            { apply (Z.pow_lt_mono_r_iff 2); lia. }
            unfold l0, n1 in *. lia. }
        assert (m2 = 0 \/ m2 = 1) as [->| ->] by lia; simpl Zdigits2;
          rewrite E1, Emin; unfold fexp, emin in *; repeat split; try lia; intros; lia.
      + assert (Zdigits2 (shr_m mrs1) + e1 = l0) as DL.
        { rewrite M1, Zdigits2_div_pow2 by lia. unfold l0, n1 in *. lia. }
        destruct C2 as [C2|C2]; rewrite C2.
        * rewrite DL, E1. repeat split; lia.
        * destruct (Zdigits2_succ (shr_m mrs1) ltac:(lia)) as [S|[S T]]; rewrite S.
          -- rewrite DL, E1. repeat split; lia.
          -- replace (Zdigits2 (shr_m mrs1) + 1 + e1) with (l0 + 1) by lia.
             rewrite E1. unfold fexp. repeat split; try lia.
             intros _. eexists. exact T. }
  (* second stage: the renormalising shift loses nothing *)
  set (l2 := Zdigits2 m2 + e1) in *.
  pose proof (shr_spec m2 loc_Exact e1 (fexp prec emax l2 - e1)
                (IZR m2) P2 eq_refl) as S2.
  destruct (shr (shr_record_of_loc m2 loc_Exact) e1 (fexp prec emax l2 - e1))
    as [mrs2 e2].
  cbn [fst snd] in S2.
  assert (0 <= shr_m mrs2
          /\ (IZR (shr_m mrs2) * bpow e2 = IZR m2 * bpow e1)%R
          /\ (e <= fexp prec emax l0 -> 0 < shr_m mrs2 ->
              e2 = fexp prec emax l2 /\ Zdigits2 (shr_m mrs2) + e2 = l2))
    as (P3 & V3 & K3).
  { destruct (Z.lt_ge_cases 0 (fexp prec emax l2 - e1)) as [Pos|NPos].
    - destruct S2 as [S2 _]. destruct (S2 Pos) as (A & B & _).
      destruct (D2 Pos) as [k K].
      assert (fexp prec emax l2 - e1 = 1) as One by lia.
      rewrite A, B, One. rewrite Z.pow_1_r.
      assert (m2 / 2 = k) as Q by (rewrite K, Z.mul_comm, Z.div_mul; lia).
      rewrite Q. split; [lia|]. split.
      + rewrite K, bpow_add, bpow_1, mult_IZR. ring.
      + intros _ Pk. split; [lia|].
        rewrite <- Q. replace 2 with (2 ^ 1) at 1 by reflexivity.
        rewrite Zdigits2_div_pow2; [unfold l2; lia | lia |].
        rewrite Z.pow_1_r, Q. assumption.
    - destruct S2 as [_ S2]. destruct (S2 NPos) as [-> ->]. simpl.
      repeat split; auto.
      destruct (C2 H) as [G _]. lia. }
  destruct (shr_m mrs2) as [|m3|m3]; [| |lia].
  - split; [reflexivity|].
    assert (IZR m2 * bpow e1 = 0)%R as Z by (rewrite <- V3; simpl; ring).
    now rewrite <- Z.
  - destruct (e2 <=? emax - prec) eqn:Le.
    + split; [reflexivity|]. split; [now rewrite V3|].
      intros H. destruct (K3 H ltac:(lia)) as [Ke Kd].
      unfold SpecFloat.bounded, canonical_mantissa.
      change (Z.pos (digits2_pos m3)) with (Zdigits2 (Z.pos m3)).
      rewrite Kd, <- Ke, Z.eqb_refl, Le. reflexivity.
    + intros H. destruct (K3 H ltac:(lia)) as [Ke Kd].
      destruct (C2 H) as [_ G]. apply Z.leb_gt in Le.
      pose proof (fexp_mono l2 (Z.max l0 (emin prec emax) + 1) G). lia.
Qed.

End Rounding.

Lemma inbetween_int_nonneg m x l : 0 <= m -> inbetween_int m x l -> (0 <= x)%R.
Proof.
  intros Hm H. apply IZR_le in Hm.
  destruct l as [|[]]; simpl in H; lra.
Qed.

Lemma inbetween_int_ge m x l : inbetween_int m x l -> (IZR m <= x)%R.
Proof. destruct l as [|[]]; simpl; lra. Qed.

Lemma B2R_finite s m e : B2R (S754_finite s m e) = (sign_factor s * (IZR (Zpos m) * bpow e))%R.
Proof. unfold B2R, sign_factor. destruct s; ring. Qed.

Lemma sign_factor_xorb a b : sign_factor (xorb a b) = (sign_factor a * sign_factor b)%R.
Proof. destruct a, b; simpl; lra. Qed.

Lemma Rabs_sign_factor s x : Rabs (sign_factor s * x) = Rabs x.
Proof. destruct s; simpl; [rewrite <- (Rabs_Ropp x); f_equal; lra | f_equal; lra]. Qed.

Section Errors.

Variables prec emax : Z.
Hypothesis prec_pos : 0 < prec.
Hypothesis emax_prec : prec < emax.

Lemma half_ulp_bound m e x l :
  0 <= m -> inbetween_int m x l ->
  0 < m \/ e <= fexp prec emax (Zdigits2 m + e) ->
  (/ 2 * bpow (fexp prec emax (Zdigits2 m + e)) <= u_of prec * (x * bpow e) + eta_of prec emax)%R.
Proof.
  intros Hm Hx H. unfold u_of, eta_of.
  pose proof (inbetween_int_nonneg _ _ _ Hm Hx) as X0.
  pose proof (inbetween_int_ge _ _ _ Hx) as XM.
  pose proof (bpow_pos e) as Pe. pose proof (bpow_pos (- prec)) as Pu.
  assert (/ 2 * bpow (emin prec emax) = bpow (emin prec emax - 1))%R as Eta.
  { replace (emin prec emax) with (emin prec emax - 1 + 1) at 1 by lia.
    rewrite bpow_add, bpow_1. field. }
  assert (0 <= bpow (- prec) * (x * bpow e))%R as NN by (apply Rmult_le_pos; nra).
  destruct (Z.eq_dec (fexp prec emax (Zdigits2 m + e)) (emin prec emax)) as [E|NE].
  - rewrite E, Eta. lra.
  - assert (fexp prec emax (Zdigits2 m + e) = Zdigits2 m + e - prec) as F
      by (unfold fexp in *; lia).
    assert (0 < m) as Pm.
    { destruct H as [|H]; [assumption|].
      destruct (Z.eq_dec m 0) as [->|]; [|lia].
      simpl in *. unfold fexp in *. lia. }
    rewrite F.
    pose proof (Zdigits2_bounds m Pm) as [Lo _].
    assert (bpow (Zdigits2 m - 1) <= IZR m)%R as LoR.
    { rewrite bpow_IZR; [now apply IZR_le|].
      rewrite Zdigits2_log2 by assumption. pose proof (Z.log2_nonneg m). lia. }
    replace (Zdigits2 m + e - prec) with (1 + ((Zdigits2 m - 1) + e + - prec)) by lia.
    rewrite !bpow_add, bpow_1.
    pose proof (bpow_pos (emin prec emax - 1)).
    assert (bpow (Zdigits2 m - 1) * bpow e <= x * bpow e)%R by nra.
    nra.
Qed.

(** The standard model of rounding, for [binary_round_aux]. *)
Lemma binary_round_aux_error s m e l x :
  0 <= m -> inbetween_int m x l ->
  (0 < m /\ l = loc_Exact) \/ e <= fexp prec emax (Zdigits2 m + e) ->
  is_finite (binary_round_aux prec emax s m e l) = true ->
  (Rabs (B2R (binary_round_aux prec emax s m e l) - sign_factor s * (x * bpow e))
   <= u_of prec * (x * bpow e) + eta_of prec emax)%R.
Proof.
  intros Hm Hx H Fin.
  pose proof (binary_round_aux_correct prec emax prec_pos s m e l x Hm Hx
                ltac:(tauto)) as C.
  pose proof (half_ulp_bound m e x l Hm Hx ltac:(tauto)) as B.
  destruct (binary_round_aux prec emax s m e l) as [s'|s'| |s' m3 e3];
    try discriminate; destruct C as [-> C].
  - simpl B2R.
    replace (0 - sign_factor s * (x * bpow e))%R
      with (sign_factor s * (0 - x * bpow e))%R by ring.
    rewrite Rabs_sign_factor. lra.
  - rewrite B2R_finite.
    replace (sign_factor s * (IZR (Z.pos m3) * bpow e3) - sign_factor s * (x * bpow e))%R
      with (sign_factor s * (IZR (Z.pos m3) * bpow e3 - x * bpow e))%R by ring.
    rewrite Rabs_sign_factor. lra.
Qed.

(** With enough digits in the input, the result is a canonical float. *)
Lemma binary_round_aux_valid s m e l x :
  0 <= m -> inbetween_int m x l ->
  e <= fexp prec emax (Zdigits2 m + e) ->
  valid_binary prec emax (binary_round_aux prec emax s m e l) = true.
Proof.
  intros Hm Hx H.
  pose proof (binary_round_aux_correct prec emax prec_pos s m e l x Hm Hx
                ltac:(tauto)) as C.
  destruct (binary_round_aux prec emax s m e l) as [s'|s'| |s' m3 e3];
    try reflexivity.
  destruct C as (_ & _ & V). simpl. now apply V.
Qed.

(** ... and it overflows only from magnitude [2^(emax-1)] on. *)
Lemma binary_round_aux_finite s m e l x :
  0 <= m -> inbetween_int m x l ->
  e <= fexp prec emax (Zdigits2 m + e) ->
  (x * bpow e < bpow (emax - 1))%R ->
  is_finite (binary_round_aux prec emax s m e l) = true.
Proof.
  intros Hm Hx H Small.
  pose proof (binary_round_aux_correct prec emax prec_pos s m e l x Hm Hx
                ltac:(tauto)) as C.
  destruct (binary_round_aux prec emax s m e l) as [s'|s'| |s' m3 e3];
    try reflexivity; [|contradiction].
  exfalso. specialize (C H).
  assert (emax <= Zdigits2 m + e) as Big by (unfold fexp, emin in *; lia).
  assert (0 < m) as Pm.
  { destruct (Z.eq_dec m 0) as [->|]; [|lia]. simpl in *. unfold fexp, emin in *. lia. }
  pose proof (Zdigits2_bounds m Pm) as [Lo _].
  assert (bpow (Zdigits2 m - 1) <= IZR m)%R as LoR.
  { rewrite bpow_IZR; [now apply IZR_le|].
    rewrite Zdigits2_log2 by assumption. pose proof (Z.log2_nonneg m). lia. }
  pose proof (inbetween_int_ge _ _ _ Hx) as XM.
  pose proof (bpow_pos e) as Pe.
  assert (bpow (emax - 1) <= bpow (Zdigits2 m - 1 + e))%R as G by (apply bpow_le; lia).
  rewrite bpow_add in G. nra.
Qed.

Lemma valid_canonical s m e :
  valid_binary prec emax (S754_finite s m e) = true ->
  e = fexp prec emax (Zdigits2 (Zpos m) + e) /\ e <= emax - prec.
Proof.
  simpl. unfold SpecFloat.bounded, canonical_mantissa. intros H.
  apply andb_true_iff in H as [C B]. apply Z.eqb_eq in C. apply Z.leb_le in B.
  split; [symmetry; exact C | exact B].
Qed.

Lemma Zdigits2_mul_ge a b :
  0 < a -> 0 < b -> Zdigits2 a + Zdigits2 b - 1 <= Zdigits2 (a * b).
Proof.
  intros Ha Hb.
  pose proof (Zdigits2_bounds a Ha) as [La _].
  pose proof (Zdigits2_bounds b Hb) as [Lb _].
  rewrite (Zdigits2_log2 (a * b)) by lia.
  assert (Zdigits2 a - 1 + (Zdigits2 b - 1) <= Z.log2 (a * b)); [|lia].
  assert (0 <= Zdigits2 a - 1) by (rewrite Zdigits2_log2 by lia; pose proof (Z.log2_nonneg a); lia).
  assert (0 <= Zdigits2 b - 1) by (rewrite Zdigits2_log2 by lia; pose proof (Z.log2_nonneg b); lia).
  apply Z.log2_le_pow2; [lia|].
  rewrite Z.pow_add_r by lia. apply Z.mul_le_mono_nonneg; try lia;
    apply Z.pow_nonneg; lia.
Qed.

(** *** Multiplication *)

Lemma SFmul_finite_inv x y :
  is_finite (SFmul prec emax x y) = true -> is_finite x = true /\ is_finite y = true.
Proof. destruct x, y; simpl; try discriminate; auto. Qed.

Lemma SFmul_error x y :
  is_finite (SFmul prec emax x y) = true ->
  (Rabs (B2R (SFmul prec emax x y) - B2R x * B2R y)
   <= u_of prec * Rabs (B2R x * B2R y) + eta_of prec emax)%R.
Proof.
  assert (0 <= u_of prec * 0 + eta_of prec emax)%R as Z0.
  { unfold eta_of. pose proof (bpow_pos (emin prec emax - 1)). lra. }
  destruct x as [sx|sx| |sx mx ex], y as [sy|sy| |sy my ey]; simpl SFmul;
    try discriminate; intros Fin;
    try (simpl B2R; rewrite ?Rmult_0_l, ?Rmult_0_r, Rminus_diag, Rabs_R0; exact Z0).
  pose proof (binary_round_aux_error (xorb sx sy) (Zpos (mx * my)) (ex + ey)
                loc_Exact (IZR (Zpos (mx * my))) ltac:(lia) eq_refl
                ltac:(left; split; [lia|reflexivity]) Fin) as E.
  rewrite !B2R_finite.
  assert (sign_factor sx * (IZR (Z.pos mx) * bpow ex)
          * (sign_factor sy * (IZR (Z.pos my) * bpow ey))
          = sign_factor (xorb sx sy) * (IZR (Z.pos (mx * my)) * bpow (ex + ey)))%R as V.
  { rewrite sign_factor_xorb, Pos2Z.inj_mul, mult_IZR, bpow_add. ring. }
  rewrite V, Rabs_sign_factor.
  rewrite (Rabs_pos_eq (IZR (Z.pos (mx * my)) * bpow (ex + ey))); [exact E|].
  apply Rmult_le_pos; [apply IZR_le; lia | left; apply bpow_pos].
Qed.

(** The product of two canonical mantissas has enough digits. *)
Lemma SFmul_digits sx mx ex sy my ey :
  valid_binary prec emax (S754_finite sx mx ex) = true ->
  valid_binary prec emax (S754_finite sy my ey) = true ->
  ex + ey <= fexp prec emax (Zdigits2 (Zpos (mx * my)) + (ex + ey)).
Proof.
  intros Vx Vy.
  apply valid_canonical in Vx as [Cx _]. apply valid_canonical in Vy as [Cy _].
  pose proof (Zdigits2_mul_ge (Zpos mx) (Zpos my) ltac:(lia) ltac:(lia)) as D.
  rewrite Pos2Z.inj_mul.
  assert (1 <= Zdigits2 (Zpos mx)) by (rewrite Zdigits2_log2 by lia; pose proof (Z.log2_nonneg (Zpos mx)); lia).
  assert (1 <= Zdigits2 (Zpos my)) by (rewrite Zdigits2_log2 by lia; pose proof (Z.log2_nonneg (Zpos my)); lia).
  unfold fexp, emin in *. lia.
Qed.

Lemma SFmul_valid x y :
  valid_binary prec emax x = true -> valid_binary prec emax y = true ->
  valid_binary prec emax (SFmul prec emax x y) = true.
Proof.
  destruct x as [sx|sx| |sx mx ex], y as [sy|sy| |sy my ey]; try reflexivity.
  intros Vx Vy. simpl SFmul.
  apply (binary_round_aux_valid _ _ _ _ (IZR (Zpos (mx * my)))); try lia; [reflexivity|].
  now apply (SFmul_digits sx mx ex sy my ey).
Qed.

Lemma SFmul_finite x y :
  valid_binary prec emax x = true -> valid_binary prec emax y = true ->
  is_finite x = true -> is_finite y = true ->
  (Rabs (B2R x * B2R y) < bpow (emax - 1))%R ->
  is_finite (SFmul prec emax x y) = true.
Proof.
  destruct x as [sx|sx| |sx mx ex], y as [sy|sy| |sy my ey]; try reflexivity;
    try discriminate.
  intros Vx Vy _ _ B. simpl SFmul.
  apply (binary_round_aux_finite _ _ _ _ (IZR (Zpos (mx * my)))); try lia; [reflexivity| |].
  - now apply (SFmul_digits sx mx ex sy my ey).
  - rewrite !B2R_finite in B.
    replace (sign_factor sx * (IZR (Z.pos mx) * bpow ex)
             * (sign_factor sy * (IZR (Z.pos my) * bpow ey)))%R
      with (sign_factor (xorb sx sy) * (IZR (Z.pos (mx * my)) * bpow (ex + ey)))%R in B
      by (rewrite sign_factor_xorb, Pos2Z.inj_mul, mult_IZR, bpow_add; ring).
    rewrite Rabs_sign_factor, Rabs_pos_eq in B; [exact B|].
    apply Rmult_le_pos; [apply IZR_le; lia | left; apply bpow_pos].
Qed.

(** *** Rounding an integer mantissa: [binary_round], conversions *)

Lemma shl_align_spec m e e' :
  (IZR (Zpos (fst (shl_align m e e'))) * bpow (snd (shl_align m e e'))
   = IZR (Zpos m) * bpow e)%R
  /\ Zdigits2 (Zpos (fst (shl_align m e e'))) + snd (shl_align m e e')
     = Zdigits2 (Zpos m) + e
  /\ snd (shl_align m e e') <= e
  /\ snd (shl_align m e e') <= Z.max e' (Z.min e e').
Proof.
  unfold shl_align. destruct (e' - e) as [|d|d] eqn:D; simpl fst; simpl snd;
    try (repeat split; lia).
  assert (Zpos (Pos.iter xO m d) = Zpos m * 2 ^ Zpos d) as I.
  { clear D. induction d as [|d IH] using Pos.peano_ind.
    - simpl. lia.
    - rewrite Pos.iter_succ, Pos2Z.inj_xO, IH, Pos2Z.inj_succ, Z.pow_succ_r by lia. lia. }
  repeat split; try lia.
  - rewrite I, mult_IZR, <- bpow_IZR by lia.
    rewrite Rmult_assoc, <- bpow_add. do 2 f_equal. lia.
  - rewrite I, !Zdigits2_log2 by lia.
    rewrite Z.log2_mul_pow2 by lia. lia.
Qed.

Lemma binary_round_digits m e :
  snd (shl_align m e (fexp prec emax (Zdigits2 (Zpos m) + e)))
  <= fexp prec emax
       (Zdigits2 (Zpos (fst (shl_align m e (fexp prec emax (Zdigits2 (Zpos m) + e)))))
        + snd (shl_align m e (fexp prec emax (Zdigits2 (Zpos m) + e)))).
Proof.
  destruct (shl_align_spec m e (fexp prec emax (Zdigits2 (Zpos m) + e))) as (_ & D & _ & L).
  rewrite D. unfold shl_align in *.
  destruct (fexp prec emax (Zdigits2 (Z.pos m) + e) - e) eqn:E; simpl snd in *; lia.
Qed.

Lemma binary_round_error s m e :
  is_finite (binary_round prec emax s m e) = true ->
  (Rabs (B2R (binary_round prec emax s m e) - sign_factor s * (IZR (Zpos m) * bpow e))
   <= u_of prec * (IZR (Zpos m) * bpow e) + eta_of prec emax)%R.
Proof.
  unfold binary_round.
  destruct (shl_align_spec m e (fexp prec emax (Z.pos (digits2_pos m) + e))) as (V & _).
  destruct (shl_align m e (fexp prec emax (Z.pos (digits2_pos m) + e))) as [mz ez].
  simpl fst in V; simpl snd in V. intros Fin.
  pose proof (binary_round_aux_error s (Zpos mz) ez loc_Exact (IZR (Zpos mz))
                ltac:(lia) eq_refl ltac:(left; split; [lia|reflexivity]) Fin) as E.
  now rewrite V in E.
Qed.

Lemma binary_round_valid s m e :
  valid_binary prec emax (binary_round prec emax s m e) = true.
Proof.
  unfold binary_round.
  pose proof (binary_round_digits m e) as D.
  change (Zdigits2 (Z.pos m)) with (Z.pos (digits2_pos m)) in D.
  destruct (shl_align m e (fexp prec emax (Z.pos (digits2_pos m) + e))) as [mz ez].
  simpl fst in D; simpl snd in D.
  apply (binary_round_aux_valid _ _ _ _ (IZR (Zpos mz)));
    [lia | reflexivity | exact D].
Qed.

Lemma binary_round_finite s m e :
  (IZR (Zpos m) * bpow e < bpow (emax - 1))%R ->
  is_finite (binary_round prec emax s m e) = true.
Proof.
  unfold binary_round.
  pose proof (binary_round_digits m e) as D.
  destruct (shl_align_spec m e (fexp prec emax (Z.pos (digits2_pos m) + e))) as (V & _).
  change (Zdigits2 (Z.pos m)) with (Z.pos (digits2_pos m)) in D.
  destruct (shl_align m e (fexp prec emax (Z.pos (digits2_pos m) + e))) as [mz ez].
  simpl fst in D, V; simpl snd in D, V. intros B.
  apply (binary_round_aux_finite _ _ _ _ (IZR (Zpos mz)));
    [lia | reflexivity | exact D | now rewrite V].
Qed.

(** *** Addition and subtraction *)

Lemma shl_align_snd m e e' : e' <= e -> snd (shl_align m e e') = e'.
Proof.
  intros H. unfold shl_align. destruct (e' - e) eqn:D; simpl; lia.
Qed.

Lemma binary_normalize_error m e sz :
  is_finite (binary_normalize prec emax m e sz) = true ->
  (Rabs (B2R (binary_normalize prec emax m e sz) - IZR m * bpow e)
   <= u_of prec * Rabs (IZR m * bpow e) + eta_of prec emax)%R.
Proof.
  destruct m as [|p|p]; simpl binary_normalize; intros Fin.
  - simpl B2R. rewrite Rmult_0_l, Rminus_diag, Rabs_R0, Rmult_0_r.
    unfold eta_of. pose proof (bpow_pos (emin prec emax - 1)). lra.
  - pose proof (binary_round_error false p e Fin) as E.
    simpl sign_factor in E. rewrite Rmult_1_l in E.
    rewrite (Rabs_pos_eq (IZR (Z.pos p) * bpow e)); [exact E|].
    apply Rmult_le_pos; [apply IZR_le; lia | left; apply bpow_pos].
  - pose proof (binary_round_error true p e Fin) as E.
    simpl sign_factor in E.
    replace (IZR (Z.neg p)) with (- IZR (Z.pos p))%R by (rewrite <- opp_IZR; reflexivity).
    replace (- IZR (Z.pos p) * bpow e)%R with (-1 * (IZR (Z.pos p) * bpow e))%R by ring.
    replace (Rabs (-1 * (IZR (Z.pos p) * bpow e))) with (IZR (Z.pos p) * bpow e)%R;
      [exact E|].
    replace (-1 * (IZR (Z.pos p) * bpow e))%R with (- (IZR (Z.pos p) * bpow e))%R by ring.
    rewrite Rabs_Ropp, Rabs_pos_eq; [reflexivity|].
    apply Rmult_le_pos; [apply IZR_le; lia | left; apply bpow_pos].
Qed.

Lemma binary_normalize_valid m e sz :
  valid_binary prec emax (binary_normalize prec emax m e sz) = true.
Proof. destruct m; simpl; [reflexivity| |]; apply binary_round_valid. Qed.

Lemma binary_normalize_finite m e sz :
  (Rabs (IZR m * bpow e) < bpow (emax - 1))%R ->
  is_finite (binary_normalize prec emax m e sz) = true.
Proof.
  destruct m as [|p|p]; simpl binary_normalize; intros B; [reflexivity| |];
    apply binary_round_finite.
  - rewrite Rabs_pos_eq in B; [exact B|].
    apply Rmult_le_pos; [apply IZR_le; lia | left; apply bpow_pos].
  - replace (IZR (Z.neg p)) with (- IZR (Z.pos p))%R in B by (rewrite <- opp_IZR; reflexivity).
    replace (- IZR (Z.pos p) * bpow e)%R with (- (IZR (Z.pos p) * bpow e))%R in B by ring.
    rewrite Rabs_Ropp, Rabs_pos_eq in B; [exact B|].
    apply Rmult_le_pos; [apply IZR_le; lia | left; apply bpow_pos].
Qed.

Lemma cond_Zopp_IZR s m : IZR (cond_Zopp s m) = (sign_factor s * IZR m)%R.
Proof. destruct s; simpl; [rewrite opp_IZR|]; ring. Qed.

(** The exact sum of two finite floats, as the integer [SFadd] rounds. *)
Lemma SFadd_aligned sx mx ex sy my ey :
  (IZR (cond_Zopp sx (Zpos (fst (shl_align mx ex (Z.min ex ey))))
        + cond_Zopp sy (Zpos (fst (shl_align my ey (Z.min ex ey)))))
   * bpow (Z.min ex ey)
   = B2R (S754_finite sx mx ex) + B2R (S754_finite sy my ey))%R.
Proof.
  rewrite plus_IZR, !cond_Zopp_IZR, !B2R_finite.
  destruct (shl_align_spec mx ex (Z.min ex ey)) as (Vx & _).
  destruct (shl_align_spec my ey (Z.min ex ey)) as (Vy & _).
  rewrite shl_align_snd in Vx, Vy by lia.
  rewrite <- Vx, <- Vy. ring.
Qed.

Lemma SFadd_finite_inv x y :
  is_finite (SFadd prec emax x y) = true -> is_finite x = true /\ is_finite y = true.
Proof.
  destruct x as [sx|sx| |sx mx ex], y as [sy|sy| |sy my ey]; simpl;
    try discriminate; auto; destruct sx, sy; simpl; try discriminate; auto.
Qed.

Lemma SFadd_error x y :
  is_finite (SFadd prec emax x y) = true ->
  (Rabs (B2R (SFadd prec emax x y) - (B2R x + B2R y))
   <= u_of prec * Rabs (B2R x + B2R y) + eta_of prec emax)%R.
Proof.
  assert (forall t, 0 <= u_of prec * Rabs t + eta_of prec emax)%R as Z0.
  { intros t. unfold u_of, eta_of. pose proof (bpow_pos (emin prec emax - 1)).
    pose proof (bpow_pos (- prec)). pose proof (Rabs_pos t). nra. }
  intros Fin. destruct (SFadd_finite_inv _ _ Fin) as [Fx Fy].
  destruct x as [sx|sx| |sx mx ex], y as [sy|sy| |sy my ey]; try discriminate.
  - assert (B2R (SFadd prec emax (S754_zero sx) (S754_zero sy)) = 0)%R as ->
      by (destruct sx, sy; reflexivity).
    simpl B2R. replace (0 - (0 + 0))%R with 0%R by ring. rewrite Rabs_R0. apply Z0.
  - simpl SFadd. simpl (B2R (S754_zero sx)).
    replace (B2R (S754_finite sy my ey) - (0 + B2R (S754_finite sy my ey)))%R
      with 0%R by ring. rewrite Rabs_R0. apply Z0.
  - simpl SFadd. simpl (B2R (S754_zero sy)).
    replace (B2R (S754_finite sx mx ex) - (B2R (S754_finite sx mx ex) + 0))%R
      with 0%R by ring. rewrite Rabs_R0. apply Z0.
  - simpl SFadd in *. rewrite <- SFadd_aligned.
    now apply binary_normalize_error.
Qed.

Lemma SFadd_valid x y :
  valid_binary prec emax x = true -> valid_binary prec emax y = true ->
  valid_binary prec emax (SFadd prec emax x y) = true.
Proof.
  destruct x as [sx|sx| |sx mx ex], y as [sy|sy| |sy my ey]; intros Vx Vy;
    try reflexivity; try assumption;
    try (destruct sx, sy; reflexivity).
  simpl SFadd. apply binary_normalize_valid.
Qed.

Lemma SFadd_finite x y :
  is_finite x = true -> is_finite y = true ->
  (Rabs (B2R x + B2R y) < bpow (emax - 1))%R ->
  is_finite (SFadd prec emax x y) = true.
Proof.
  destruct x as [sx|sx| |sx mx ex], y as [sy|sy| |sy my ey]; intros Fx Fy B;
    try discriminate; try reflexivity;
    try (destruct sx, sy; reflexivity).
  simpl SFadd. apply binary_normalize_finite. now rewrite SFadd_aligned.
Qed.

Lemma SFsub_add_opp x y : SFsub prec emax x y = SFadd prec emax x (SFopp y).
Proof.
  destruct x as [sx|sx| |sx mx ex], y as [sy|sy| |sy my ey]; try reflexivity;
    destruct sx, sy; reflexivity.
Qed.

Lemma B2R_opp x : B2R (SFopp x) = (- B2R x)%R.
Proof. destruct x as [s|s| |s m e]; simpl; try lra. destruct s; simpl; lra. Qed.

Lemma SFopp_valid x : valid_binary prec emax (SFopp x) = valid_binary prec emax x.
Proof. destruct x; reflexivity. Qed.

Lemma SFopp_finite x : is_finite (SFopp x) = is_finite x.
Proof. destruct x; reflexivity. Qed.

Lemma SFsub_valid x y :
  valid_binary prec emax x = true -> valid_binary prec emax y = true ->
  valid_binary prec emax (SFsub prec emax x y) = true.
Proof.
  intros Vx Vy. rewrite SFsub_add_opp. apply SFadd_valid; [assumption|].
  now rewrite SFopp_valid.
Qed.

Lemma SFsub_error x y :
  is_finite (SFsub prec emax x y) = true ->
  (Rabs (B2R (SFsub prec emax x y) - (B2R x - B2R y))
   <= u_of prec * Rabs (B2R x - B2R y) + eta_of prec emax)%R.
Proof.
  rewrite SFsub_add_opp. intros Fin. pose proof (SFadd_error _ _ Fin) as E.
  rewrite B2R_opp in E. exact E.
Qed.

(** *** Signs *)

Lemma binary_round_aux_sign s m e l x :
  0 <= m -> inbetween_int m x l ->
  l = loc_Exact \/ e <= fexp prec emax (Zdigits2 m + e) ->
  (0 <= sign_factor s * B2R (binary_round_aux prec emax s m e l))%R.
Proof.
  intros Hm Hx H.
  pose proof (binary_round_aux_correct prec emax prec_pos s m e l x Hm Hx H) as C.
  destruct (binary_round_aux prec emax s m e l) as [s'|s'| |s' m3 e3];
    simpl B2R; try lra.
  destruct C as (-> & _). fold (sign_factor s).
  pose proof (bpow_pos e3). assert (0 < IZR (Z.pos m3))%R by (apply IZR_lt; lia).
  destruct s; simpl; nra.
Qed.

Lemma binary_round_sign s m e :
  (0 <= sign_factor s * B2R (binary_round prec emax s m e))%R.
Proof.
  unfold binary_round.
  destruct (shl_align m e (fexp prec emax (Z.pos (digits2_pos m) + e))) as [mz ez].
  apply (binary_round_aux_sign _ _ _ _ (IZR (Zpos mz))); [lia|reflexivity|now left].
Qed.

Lemma SFmul_square_nonneg x : (0 <= B2R (SFmul prec emax x x))%R.
Proof.
  destruct x as [sx|sx| |sx mx ex]; simpl; try lra.
  pose proof (binary_round_aux_sign (xorb sx sx) (Zpos (mx * mx)) (ex + ex) loc_Exact
                (IZR (Zpos (mx * mx))) ltac:(lia) eq_refl ltac:(now left)) as S.
  rewrite xorb_nilpotent in *. simpl sign_factor in S. lra.
Qed.

Lemma SFadd_nonneg x y :
  (0 <= B2R x)%R -> (0 <= B2R y)%R -> (0 <= B2R (SFadd prec emax x y))%R.
Proof.
  destruct x as [sx|sx| |sx mx ex], y as [sy|sy| |sy my ey]; intros Px Py;
    try (simpl; lra); try (destruct sx, sy; simpl; lra); try assumption.
  simpl SFadd. pose proof (SFadd_aligned sx mx ex sy my ey) as V.
  set (M := cond_Zopp sx (Z.pos (fst (shl_align mx ex (Z.min ex ey))))
            + cond_Zopp sy (Z.pos (fst (shl_align my ey (Z.min ex ey))))) in *.
  destruct M as [|p|p] eqn:EM; simpl binary_normalize.
  - simpl. lra.
  - pose proof (binary_round_sign false p (Z.min ex ey)) as S. simpl sign_factor in S. lra.
  - exfalso. pose proof (bpow_pos (Z.min ex ey)).
    assert (IZR (Z.neg p) < 0)%R by (apply IZR_lt; lia). nra.
Qed.

End Errors.

Section SqrtDiv.

Variables prec emax : Z.
Hypothesis prec_pos : 0 < prec.
Hypothesis emax_prec : prec < emax.

(** *** Square root *)

Lemma Zdigits2_ge_pow2 q k : 0 <= k -> 2 ^ k <= q -> k + 1 <= Zdigits2 q.
Proof.
  intros Hk H. assert (0 < q) by (pose proof (Z.pow_pos_nonneg 2 k); lia).
  rewrite Zdigits2_log2 by assumption.
  assert (k <= Z.log2 q); [|lia]. now apply Z.log2_le_pow2.
Qed.

Lemma SFsqrt_core_spec m e :
  0 < m ->
  0 <= fst (fst (SFsqrt_core_binary prec emax m e))
  /\ inbetween_int (fst (fst (SFsqrt_core_binary prec emax m e)))
       (sqrt (IZR m * bpow e) * bpow (- snd (fst (SFsqrt_core_binary prec emax m e))))
       (snd (SFsqrt_core_binary prec emax m e))
  /\ snd (fst (SFsqrt_core_binary prec emax m e))
     <= fexp prec emax (Zdigits2 (fst (fst (SFsqrt_core_binary prec emax m e)))
                        + snd (fst (SFsqrt_core_binary prec emax m e))).
Proof.
  intros Hm. unfold SFsqrt_core_binary.
  set (d := Zdigits2 m).
  set (L := Z.div2 (d + e + 1)).
  set (e' := Z.min (fexp prec emax L) (Z.div2 e)).
  set (s := e - 2 * e').
  assert (0 <= s) as Hs.
  { unfold s, e'. pose proof (Zdiv2_odd_eqn e). destruct (Z.odd e); lia. }
  set (m' := match s with Z.pos _ => Z.shiftl m s | 0 => m | Z.neg _ => 0 end).
  assert (m' = m * 2 ^ s) as Em'.
  { unfold m'. destruct s as [|p|p]; try lia.
    now rewrite Z.shiftl_mul_pow2 by lia. }
  assert (0 < 2 ^ s) as P2s by (apply Z.pow_pos_nonneg; lia).
  assert (0 < m') as Pm' by (rewrite Em'; lia).
  pose proof (Z.sqrtrem_spec m' ltac:(lia)) as SR.
  destruct (Z.sqrtrem m') as [q r]. destruct SR as [Eq Rr].
  cbn [fst snd].
  assert (0 <= q) as Pq by nia.
  (* the real square root *)
  assert (sqrt (IZR m * bpow e) * bpow (- e') = sqrt (IZR m'))%R as X.
  { assert (IZR m * bpow e = IZR m' * (bpow e' * bpow e'))%R as ->.
    { rewrite Em', mult_IZR, <- bpow_IZR by lia.
      rewrite Rmult_assoc, <- !bpow_add. do 2 f_equal. unfold s. lia. }
    rewrite sqrt_mult; [|apply IZR_le; lia|pose proof (bpow_pos e'); nra].
    rewrite sqrt_square by (left; apply bpow_pos).
    rewrite Rmult_assoc, <- bpow_add. replace (e' + - e') with 0 by lia.
    rewrite bpow_0. ring. }
  rewrite X.
  assert (0 <= sqrt (IZR m'))%R as Sx by apply sqrt_pos.
  assert (sqrt (IZR m') * sqrt (IZR m') = IZR q * IZR q + IZR r)%R as Sq.
  { rewrite sqrt_sqrt by (apply IZR_le; lia).
    rewrite Eq, plus_IZR, mult_IZR. reflexivity. }
  assert (0 <= IZR q)%R as Rq by (apply IZR_le; lia).
  assert (0 <= IZR r <= 2 * IZR q)%R as RrR.
  { split; [apply IZR_le; lia|]. rewrite <- mult_IZR. apply IZR_le; lia. }
  split; [assumption|]. split.
  - destruct (r =? 0) eqn:R0.
    + apply Z.eqb_eq in R0. subst r. simpl.
      rewrite Eq, Z.add_0_r, mult_IZR. now apply sqrt_square.
    + apply Z.eqb_neq in R0.
      assert (1 <= IZR r)%R by (apply IZR_le; lia).
      destruct (r <=? q) eqn:Rq'; simpl.
      * apply Z.leb_le in Rq'. apply IZR_le in Rq'. split; nra.
      * apply Z.leb_gt in Rq'.
        assert (IZR q + 1 <= IZR r)%R by (rewrite <- plus_IZR; apply IZR_le; lia).
        split; nra.
  - (* enough digits in the integer root *)
    apply Z.le_trans with (fexp prec emax L); [unfold e'; lia|].
    apply fexp_mono.
    destruct (Z.lt_ge_cases (L - e' - 1) 0) as [Neg|K].
    + pose proof (Zdigits2_nonneg q). lia.
    + assert (2 ^ (L - e' - 1) <= q); [|pose proof (Zdigits2_ge_pow2 q _ K H); lia].
      set (k := L - e' - 1) in *.
      assert (2 ^ k * 2 ^ k <= m') as Big.
      { rewrite <- Z.pow_add_r by lia. rewrite Em'.
        pose proof (Zdigits2_bounds m Hm) as [Lo _]. fold d in Lo.
        assert (0 <= d - 1).
        { unfold d. rewrite Zdigits2_log2 by lia. pose proof (Z.log2_nonneg m). lia. }
        apply Z.le_trans with (2 ^ (d - 1) * 2 ^ s); [|nia].
        rewrite <- Z.pow_add_r by lia. apply Z.pow_le_mono_r; [lia|].
        unfold k, s, L. pose proof (Zdiv2_odd_eqn (d + e + 1)).
        destruct (Z.odd (d + e + 1)); lia. }
      assert (0 < 2 ^ k) by (apply Z.pow_pos_nonneg; lia).
      nia.
Qed.

Lemma SFsqrt_error x :
  is_finite x = true -> is_finite (SFsqrt prec emax x) = true ->
  (Rabs (B2R (SFsqrt prec emax x) - sqrt (B2R x))
   <= u_of prec * sqrt (B2R x) + eta_of prec emax)%R.
Proof.
  assert (0 <= u_of prec * 0 + eta_of prec emax)%R as Z0.
  { unfold eta_of. pose proof (bpow_pos (emin prec emax - 1)). lra. }
  destruct x as [sx|sx| |sx mx ex]; try discriminate; intros _.
  - intros _. simpl. rewrite sqrt_0, Rminus_diag, Rabs_R0. exact Z0.
  - destruct sx; [discriminate|]. simpl SFsqrt.
    destruct (SFsqrt_core_spec (Zpos mx) ex ltac:(lia)) as (Pq & I & D).
    destruct (SFsqrt_core_binary prec emax (Z.pos mx) ex) as [[mz ez] lz].
    cbn [fst snd] in *. intros Fin.
    pose proof (binary_round_aux_error prec emax prec_pos false mz ez lz _ Pq I
                  ltac:(right; exact D) Fin) as E.
    simpl sign_factor in E. rewrite Rmult_1_l in E.
    assert (sqrt (IZR (Z.pos mx) * bpow ex) * bpow (- ez) * bpow ez
            = sqrt (B2R (S754_finite false mx ex)))%R as V.
    { rewrite Rmult_assoc, <- bpow_add. replace (- ez + ez) with 0 by lia.
      rewrite bpow_0, Rmult_1_r, B2R_finite. simpl sign_factor. now rewrite Rmult_1_l. }
    now rewrite V in E.
Qed.

Lemma SFsqrt_valid x : valid_binary prec emax x = true ->
  valid_binary prec emax (SFsqrt prec emax x) = true.
Proof.
  destruct x as [sx|sx| |sx mx ex]; try reflexivity; intros V.
  - destruct sx; reflexivity.
  - destruct sx; [reflexivity|]. simpl SFsqrt.
    destruct (SFsqrt_core_spec (Zpos mx) ex ltac:(lia)) as (Pq & I & D).
    destruct (SFsqrt_core_binary prec emax (Z.pos mx) ex) as [[mz ez] lz].
    cbn [fst snd] in *.
    exact (binary_round_aux_valid prec emax prec_pos false mz ez lz _ Pq I D).
Qed.

Lemma SFsqrt_finite x :
  is_finite x = true -> (0 <= B2R x)%R ->
  (sqrt (B2R x) < bpow (emax - 1))%R ->
  is_finite (SFsqrt prec emax x) = true.
Proof.
  destruct x as [sx|sx| |sx mx ex]; try discriminate; try reflexivity.
  intros _ NN B. destruct sx.
  - exfalso. rewrite B2R_finite in NN. simpl sign_factor in NN.
    pose proof (bpow_pos ex). assert (1 <= IZR (Z.pos mx))%R by (apply IZR_le; lia). nra.
  - simpl SFsqrt.
    destruct (SFsqrt_core_spec (Zpos mx) ex ltac:(lia)) as (Pq & I & D).
    destruct (SFsqrt_core_binary prec emax (Z.pos mx) ex) as [[mz ez] lz].
    cbn [fst snd] in *.
    apply (binary_round_aux_finite prec emax prec_pos emax_prec false mz ez lz _ Pq I D).
    rewrite Rmult_assoc, <- bpow_add. replace (- ez + ez) with 0 by lia.
    rewrite bpow_0, Rmult_1_r. rewrite B2R_finite in B. simpl sign_factor in B.
    now rewrite Rmult_1_l in B.
Qed.

Lemma SFsqrt_nonneg x : (0 <= B2R (SFsqrt prec emax x))%R.
Proof.
  destruct x as [sx|sx| |sx mx ex]; simpl; try lra; destruct sx; simpl; try lra.
  destruct (SFsqrt_core_spec (Zpos mx) ex ltac:(lia)) as (Pq & I & D).
  destruct (SFsqrt_core_binary prec emax (Z.pos mx) ex) as [[mz ez] lz].
  cbn [fst snd] in *.
  pose proof (binary_round_aux_sign prec emax prec_pos false mz ez lz _ Pq I
                ltac:(right; exact D)) as S.
  simpl sign_factor in S. lra.
Qed.

(** *** Division *)

Lemma new_location_spec m2 r :
  0 < m2 -> 0 <= r < m2 ->
  forall q, inbetween_int q (IZR q + IZR r / IZR m2) (new_location m2 r).
Proof.
  intros Hm [R0 R1] q.
  assert (0 < IZR m2)%R as Pm by (apply IZR_lt; lia).
  assert (forall a b : Z, 0 < b -> (a < b -> (IZR a / IZR b < 1)%R)
                          /\ (2 * a < b -> (IZR a / IZR b < / 2)%R)
                          /\ (b < 2 * a -> (/ 2 < IZR a / IZR b)%R)
                          /\ (2 * a = b -> (IZR a / IZR b = / 2)%R)
                          /\ (0 < a -> (0 < IZR a / IZR b)%R)) as Frac.
  { intros a b Hb. assert (0 < IZR b)%R as Pb by (apply IZR_lt; lia).
    repeat split; intros H.
    - apply IZR_lt in H. apply Rmult_lt_reg_r with (IZR b); [assumption|].
      unfold Rdiv. rewrite Rmult_assoc, Rinv_l by lra. lra.
    - apply IZR_lt in H. rewrite mult_IZR in H.
      apply Rmult_lt_reg_r with (IZR b); [assumption|].
      unfold Rdiv. rewrite Rmult_assoc, Rinv_l by lra. lra.
    - apply IZR_lt in H. rewrite mult_IZR in H.
      apply Rmult_lt_reg_r with (IZR b); [assumption|].
      unfold Rdiv. rewrite Rmult_assoc, Rinv_l by lra. lra.
    - apply (f_equal IZR) in H. rewrite mult_IZR in H.
      apply Rmult_eq_reg_r with (IZR b); [|lra].
      unfold Rdiv. rewrite Rmult_assoc, Rinv_l by lra. lra.
    - apply IZR_lt in H. apply Rdiv_lt_0_compat; assumption. }
  destruct (Frac r m2 Hm) as (F1 & FL & FG & FE & FP).
  unfold new_location, new_location_even, new_location_odd.
  destruct (Z.even m2) eqn:Ev.
  - destruct (r =? 0) eqn:Z.
    + apply Z.eqb_eq in Z. subst r. simpl. unfold Rdiv. ring.
    + apply Z.eqb_neq in Z.
      destruct (Z.compare_spec (2 * r) m2) as [E|L|G]; simpl.
      * rewrite FE by assumption. reflexivity.
      * pose proof (FL L). pose proof (FP ltac:(lia)). lra.
      * pose proof (FG G). pose proof (F1 R1). lra.
  - destruct (r =? 0) eqn:Z.
    + apply Z.eqb_eq in Z. subst r. simpl. unfold Rdiv. ring.
    + apply Z.eqb_neq in Z.
      assert (2 * r <> m2) as Odd.
      { intros E. rewrite <- E, Z.even_mul in Ev. discriminate. }
      destruct (Z.compare_spec (2 * r + 1) m2) as [E|L|G]; simpl.
      * pose proof (FL ltac:(lia)). pose proof (FP ltac:(lia)). lra.
      * pose proof (FL ltac:(lia)). pose proof (FP ltac:(lia)). lra.
      * pose proof (FG ltac:(lia)). pose proof (F1 R1). lra.
Qed.

Lemma SFdiv_core_spec m1 e1 m2 e2 :
  0 < m1 -> 0 < m2 ->
  0 <= fst (fst (SFdiv_core_binary prec emax m1 e1 m2 e2))
  /\ inbetween_int (fst (fst (SFdiv_core_binary prec emax m1 e1 m2 e2)))
       (IZR m1 * bpow e1 / (IZR m2 * bpow e2)
        * bpow (- snd (fst (SFdiv_core_binary prec emax m1 e1 m2 e2))))
       (snd (SFdiv_core_binary prec emax m1 e1 m2 e2))
  /\ snd (fst (SFdiv_core_binary prec emax m1 e1 m2 e2))
     <= fexp prec emax (Zdigits2 (fst (fst (SFdiv_core_binary prec emax m1 e1 m2 e2)))
                        + snd (fst (SFdiv_core_binary prec emax m1 e1 m2 e2))).
Proof.
  intros H1 H2. unfold SFdiv_core_binary.
  set (d1 := Zdigits2 m1). set (d2 := Zdigits2 m2).
  set (L := d1 + e1 - (d2 + e2)).
  set (e' := Z.min (fexp prec emax L) (e1 - e2)).
  set (s := e1 - e2 - e').
  assert (0 <= s) as Hs by (unfold s, e'; lia).
  set (m' := match s with Z.pos _ => Z.shiftl m1 s | 0 => m1 | Z.neg _ => 0 end).
  assert (m' = m1 * 2 ^ s) as Em'.
  { unfold m'. destruct s as [|p|p]; try lia.
    now rewrite Z.shiftl_mul_pow2 by lia. }
  assert (0 < 2 ^ s) as P2s by (apply Z.pow_pos_nonneg; lia).
  assert (0 < m') as Pm' by (rewrite Em'; lia).
  pose proof (Z_div_mod m' m2 ltac:(lia)) as DM.
  destruct (Z.div_eucl m' m2) as [q r]. destruct DM as [Eq Rr].
  cbn [fst snd].
  assert (0 <= q) as Pq by nia.
  assert (0 < IZR m2)%R as Pm2 by (apply IZR_lt; lia).
  assert (IZR m1 * bpow e1 / (IZR m2 * bpow e2) * bpow (- e')
          = IZR q + IZR r / IZR m2)%R as X.
  { assert (IZR m1 * bpow s = IZR m2 * IZR q + IZR r)%R as Em.
    { rewrite bpow_IZR, <- !mult_IZR, <- plus_IZR, <- Em' by lia. now rewrite Eq. }
    assert (bpow e1 = bpow s * bpow e2 * bpow e')%R as ->.
    { rewrite <- !bpow_add. f_equal. unfold s. lia. }
    pose proof (bpow_pos e2). pose proof (bpow_pos e').
    rewrite bpow_opp. field_simplify; try lra.
    replace (IZR m1 * bpow s)%R with (IZR m2 * IZR q + IZR r)%R by (symmetry; exact Em).
    field. lra. }
  rewrite X. split; [assumption|]. split.
  - now apply new_location_spec.
  - (* enough digits in the quotient *)
    pose proof (Zdigits2_bounds m1 H1) as [Lo1 Hi1]. fold d1 in Lo1, Hi1.
    pose proof (Zdigits2_bounds m2 H2) as [Lo2 Hi2]. fold d2 in Lo2, Hi2.
    assert (1 <= d1) by (unfold d1; rewrite Zdigits2_log2 by lia; pose proof (Z.log2_nonneg m1); lia).
    assert (1 <= d2) by (unfold d2; rewrite Zdigits2_log2 by lia; pose proof (Z.log2_nonneg m2); lia).
    destruct (Z.le_gt_cases e' (emin prec emax)) as [Small|Large].
    + unfold fexp. lia.
    + assert (e' <= L - prec) as EL by (unfold e', fexp in *; lia).
      set (t := d1 - 1 + s - d2).
      assert (prec - 1 <= t) as Ht by (unfold t, s, L in *; lia).
      assert (2 ^ t <= q) as Hq.
      { apply Z.le_trans with (m' / m2).
        - apply Z.div_le_lower_bound; [lia|].
          apply Z.le_trans with (2 ^ d2 * 2 ^ t).
          + apply Z.mul_le_mono_nonneg_r; [apply Z.pow_nonneg; lia | lia].
          + rewrite <- Z.pow_add_r by lia. rewrite Em'.
            replace (d2 + t) with (d1 - 1 + s) by (unfold t; lia).
            rewrite Z.pow_add_r by lia. nia.
        - assert (m' / m2 = q); [|lia].
          symmetry. apply (Z.div_unique_pos m' m2 q r); lia. }
      pose proof (Zdigits2_ge_pow2 q t ltac:(lia) Hq) as Dq.
      apply Z.le_trans with (fexp prec emax L); [unfold e'; lia|].
      apply fexp_mono. unfold t, s, L in *. lia.
Qed.

Lemma SFdiv_error x y :
  is_finite x = true -> is_finite y = true -> B2R y <> 0%R ->
  is_finite (SFdiv prec emax x y) = true ->
  (Rabs (B2R (SFdiv prec emax x y) - B2R x / B2R y)
   <= u_of prec * Rabs (B2R x / B2R y) + eta_of prec emax)%R.
Proof.
  assert (0 <= u_of prec * 0 + eta_of prec emax)%R as Z0.
  { unfold eta_of. pose proof (bpow_pos (emin prec emax - 1)). lra. }
  destruct x as [sx|sx| |sx mx ex], y as [sy|sy| |sy my ey]; try discriminate;
    intros _ _ NZ; try (exfalso; apply NZ; reflexivity).
  - intros _. simpl. unfold Rdiv. rewrite Rmult_0_l, Rminus_diag, Rabs_R0. exact Z0.
  - simpl SFdiv.
    destruct (SFdiv_core_spec (Zpos mx) ex (Zpos my) ey ltac:(lia) ltac:(lia))
      as (Pq & I & D).
    destruct (SFdiv_core_binary prec emax (Z.pos mx) ex (Z.pos my) ey) as [[mz ez] lz].
    cbn [fst snd] in *. intros Fin.
    pose proof (binary_round_aux_error prec emax prec_pos (xorb sx sy) mz ez lz _ Pq I
                  ltac:(right; exact D) Fin) as E.
    set (Q := (IZR (Z.pos mx) * bpow ex / (IZR (Z.pos my) * bpow ey))%R) in *.
    assert (Q * bpow (- ez) * bpow ez = Q)%R as V.
    { rewrite Rmult_assoc, <- bpow_add. replace (- ez + ez) with 0 by lia.
      rewrite bpow_0. ring. }
    rewrite V in E.
    assert (0 < Q)%R as PQ.
    { unfold Q. apply Rdiv_lt_0_compat; apply Rmult_lt_0_compat;
        try apply bpow_pos; apply IZR_lt; lia. }
    assert (B2R (S754_finite sx mx ex) / B2R (S754_finite sy my ey)
            = sign_factor (xorb sx sy) * Q)%R as ->.
    { rewrite !B2R_finite, sign_factor_xorb. unfold Q.
      pose proof (bpow_pos ey). assert (0 < IZR (Z.pos my))%R by (apply IZR_lt; lia).
      destruct sx, sy; simpl sign_factor; field; lra. }
    rewrite Rabs_sign_factor, (Rabs_pos_eq Q) by lra. exact E.
Qed.

Lemma SFdiv_valid x y :
  valid_binary prec emax (SFdiv prec emax x y) = true.
Proof.
  destruct x as [sx|sx| |sx mx ex], y as [sy|sy| |sy my ey]; try reflexivity.
  simpl SFdiv.
  destruct (SFdiv_core_spec (Zpos mx) ex (Zpos my) ey ltac:(lia) ltac:(lia))
    as (Pq & I & D).
  destruct (SFdiv_core_binary prec emax (Z.pos mx) ex (Z.pos my) ey) as [[mz ez] lz].
  cbn [fst snd] in *.
  exact (binary_round_aux_valid prec emax prec_pos (xorb sx sy) mz ez lz _ Pq I D).
Qed.

Lemma SFdiv_finite x y :
  is_finite x = true -> is_finite y = true -> B2R y <> 0%R ->
  (Rabs (B2R x / B2R y) < bpow (emax - 1))%R ->
  is_finite (SFdiv prec emax x y) = true.
Proof.
  destruct x as [sx|sx| |sx mx ex], y as [sy|sy| |sy my ey]; try discriminate;
    intros _ _ NZ; try (exfalso; apply NZ; reflexivity); try reflexivity.
  simpl SFdiv. intros B.
  destruct (SFdiv_core_spec (Zpos mx) ex (Zpos my) ey ltac:(lia) ltac:(lia))
    as (Pq & I & D).
  destruct (SFdiv_core_binary prec emax (Z.pos mx) ex (Z.pos my) ey) as [[mz ez] lz].
  cbn [fst snd] in *.
  apply (binary_round_aux_finite prec emax prec_pos emax_prec (xorb sx sy) mz ez lz _ Pq I D).
  set (Q := (IZR (Z.pos mx) * bpow ex / (IZR (Z.pos my) * bpow ey))%R) in *.
  assert (Q * bpow (- ez) * bpow ez = Q)%R as ->.
  { rewrite Rmult_assoc, <- bpow_add. replace (- ez + ez) with 0 by lia.
    rewrite bpow_0. ring. }
  assert (0 < Q)%R as PQ.
  { unfold Q. apply Rdiv_lt_0_compat; apply Rmult_lt_0_compat;
      try apply bpow_pos; apply IZR_lt; lia. }
  assert (B2R (S754_finite sx mx ex) / B2R (S754_finite sy my ey)
          = sign_factor (xorb sx sy) * Q)%R as EQ.
  { rewrite !B2R_finite, sign_factor_xorb. unfold Q.
    pose proof (bpow_pos ey). assert (0 < IZR (Z.pos my))%R by (apply IZR_lt; lia).
    destruct sx, sy; simpl sign_factor; field; lra. }
  rewrite EQ, Rabs_sign_factor, Rabs_pos_eq in B by lra. exact B.
Qed.

End SqrtDiv.

(** ** Real-number bounds for the normalisation step *)

(** The constants of the binary32 bounds, as numerals. *)
Ltac unfold_consts :=
  unfold u32, eta32, tol32 in *;
  change (2 ^ 150)%Z with 1427247692705959881058285969449495136382746624%Z in *;
  change (2 ^ 64)%Z with 18446744073709551616%Z in *;
  change (2 ^ 32)%Z with 4294967296%Z in *;
  change (2 ^ 33)%Z with 8589934592%Z in *.

Section RealBounds.

Local Open Scope R_scope.

Lemma Rabs_le_inv x y : Rabs x <= y -> - y <= x <= y.
Proof. unfold Rabs. destruct (Rcase_abs x); lra. Qed.

(** Rounding errors of [a0^2 + a1^2 + a2^2 + a3^2], summed left to right. *)
Lemma sum_sq_real (S0 S1 S2 S3 p0 p1 p2 p3 s1 s2 s : R) :
  0 <= S0 -> 0 <= S1 -> 0 <= S2 -> 0 <= S3 ->
  0 <= p0 -> 0 <= p1 -> 0 <= p2 -> 0 <= p3 -> 0 <= s1 -> 0 <= s2 ->
  Rabs (p0 - S0) <= u32 * Rabs S0 + eta32 ->
  Rabs (p1 - S1) <= u32 * Rabs S1 + eta32 ->
  Rabs (p2 - S2) <= u32 * Rabs S2 + eta32 ->
  Rabs (p3 - S3) <= u32 * Rabs S3 + eta32 ->
  Rabs (s1 - (p0 + p1)) <= u32 * Rabs (p0 + p1) + eta32 ->
  Rabs (s2 - (s1 + p2)) <= u32 * Rabs (s1 + p2) + eta32 ->
  Rabs (s - (s2 + p3)) <= u32 * Rabs (s2 + p3) + eta32 ->
  / IZR (2 ^ 64) <= s ->
  (1 - 9 / 2 * u32) * (S0 + S1 + S2 + S3) <= s
  <= (1 + 9 / 2 * u32) * (S0 + S1 + S2 + S3).
Proof.
  intros.
  repeat match goal with
         | H : Rabs _ <= _ |- _ => apply Rabs_le_inv in H
         end.
  repeat match goal with
         | H : context [Rabs ?x] |- _ => rewrite (Rabs_pos_eq x) in H by lra
         end.
  unfold u32, eta32 in *.
  change (2 ^ 150)%Z with 1427247692705959881058285969449495136382746624%Z in *.
  change (2 ^ 64)%Z with 18446744073709551616%Z in *.
  split; lra.
Qed.


(** The computed square root [r] of [s] and the computed inverse [n] of [r]. *)
Lemma inv_sqrt_real (s sigma r : R) :
  / IZR (2 ^ 64) <= s <= IZR (2 ^ 64) ->
  0 <= sigma -> sigma * sigma = s ->
  / IZR (2 ^ 32) <= sigma <= IZR (2 ^ 32)
  /\ (Rabs (r - sigma) <= u32 * sigma + eta32 ->
      (1 - 9 / 8 * u32) * sigma <= r <= (1 + 9 / 8 * u32) * sigma
      /\ / IZR (2 ^ 33) <= r <= IZR (2 ^ 33)).
Proof.
  intros Hs Sg Sq. unfold_consts.
  assert (/ 4294967296 <= sigma <= 4294967296) as B.
  { split.
    - destruct (Rle_lt_dec (/ 4294967296) sigma) as [|C]; [assumption|]. exfalso. nra.
    - destruct (Rle_lt_dec sigma 4294967296) as [|C]; [assumption|]. exfalso. nra. }
  split; [exact B|]. intros E. apply Rabs_le_inv in E. lra.
Qed.

Lemma inv_real (r rho n : R) :
  / IZR (2 ^ 33) <= r <= IZR (2 ^ 33) -> rho * r = 1 ->
  / IZR (2 ^ 33) <= rho <= IZR (2 ^ 33)
  /\ (Rabs (n - rho) <= u32 * Rabs rho + eta32 ->
      1 - 9 / 8 * u32 <= n * r <= 1 + 9 / 8 * u32).
Proof.
  intros Hr E. unfold_consts.
  assert (0 < rho) as P by nra.
  assert (/ 8589934592 <= rho <= 8589934592) as B.
  { split.
    - destruct (Rle_lt_dec (/ 8589934592) rho) as [|C]; [assumption|]. exfalso. nra.
    - destruct (Rle_lt_dec rho 8589934592) as [|C]; [assumption|]. exfalso. nra. }
  split; [exact B|]. intros H. apply Rabs_le_inv in H.
  rewrite (Rabs_pos_eq rho) in H by lra.
  assert (0 < r) by lra.
  split.
  - apply Rle_trans with ((rho * (1 - / 16777216) - / 1427247692705959881058285969449495136382746624) * r); [nra|nra].
  - apply Rle_trans with ((rho * (1 + / 16777216) + / 1427247692705959881058285969449495136382746624) * r); [nra|nra].
Qed.

(** The squared magnitude [W = n^2 * S] of the exactly scaled quaternion. *)
Lemma scale_real (S s sigma r n : R) :
  0 <= S ->
  (1 - 9 / 2 * u32) * S <= s <= (1 + 9 / 2 * u32) * S ->
  0 <= sigma -> sigma * sigma = s ->
  (1 - 9 / 8 * u32) * sigma <= r <= (1 + 9 / 8 * u32) * sigma ->
  1 - 9 / 8 * u32 <= n * r <= 1 + 9 / 8 * u32 ->
  1 - 19 / 2 * u32 <= n * n * S <= 1 + 19 / 2 * u32.
Proof.
  intros HS Hs Sg Sq Hr Hn. unfold_consts.
  assert (0 <= r) as Pr by nra.
  set (a := 1 - 9 / 8 * / 16777216) in *. set (b := 1 + 9 / 8 * / 16777216) in *.
  assert (0 < a) by (unfold a; lra). assert (0 < b) by (unfold b; lra).
  assert (0 <= a * sigma) as Pas by (apply Rmult_le_pos; lra).
  assert (0 <= b * sigma) as Pbs by (apply Rmult_le_pos; lra).
  assert (a * a * s <= r * r <= b * b * s) as R2.
  { rewrite <- Sq. split.
    - replace (a * a * (sigma * sigma)) with ((a * sigma) * (a * sigma)) by ring.
      apply Rmult_le_compat; lra.
    - replace (b * b * (sigma * sigma)) with ((b * sigma) * (b * sigma)) by ring.
      apply Rmult_le_compat; lra. }
  assert (a * a <= n * n * (r * r) <= b * b) as N2.
  { replace (n * n * (r * r)) with ((n * r) * (n * r)) by ring. split.
    - apply Rmult_le_compat; lra.
    - apply Rmult_le_compat; lra. }
  assert (0 <= n * n) as Pn by nra.
  set (c := 1 - 9 / 2 * / 16777216) in *. set (d := 1 + 9 / 2 * / 16777216) in *.
  assert (n * n * (a * a * (c * S)) <= b * b) as U.
  { apply Rle_trans with (n * n * (r * r)); [|lra].
    apply Rmult_le_compat_l; [assumption|].
    apply Rle_trans with (a * a * s); [|lra].
    apply Rmult_le_compat_l; [nra|lra]. }
  assert (a * a <= n * n * (b * b * (d * S))) as L.
  { apply Rle_trans with (n * n * (r * r)); [lra|].
    apply Rmult_le_compat_l; [assumption|].
    apply Rle_trans with (b * b * s); [lra|].
    apply Rmult_le_compat_l; [nra|lra]. }
  set (W := n * n * S) in *.
  replace (n * n * (a * a * (c * S))) with (a * a * c * W) in U by (unfold W; ring).
  replace (n * n * (b * b * (d * S))) with (b * b * d * W) in L by (unfold W; ring).
  unfold a, b, c, d in *. split; lra.
Qed.

(** One rounded component of the scaled quaternion. *)
Lemma component_real (x q : R) :
  Rabs x <= 2 -> Rabs (q - x) <= u32 * Rabs x + eta32 ->
  (1 - u32) * (1 - u32) * (x * x) - 4 * eta32 <= q * q
  <= (1 + u32) * (1 + u32) * (x * x) + 5 * eta32.
Proof.
  intros B E. unfold_consts. apply Rabs_le_inv in E.
  unfold Rabs in *. destruct (Rcase_abs x); split; nra.
Qed.

Lemma near_unit_real (W Z : R) :
  1 - 19 / 2 * u32 <= W <= 1 + 19 / 2 * u32 ->
  (1 - u32) * (1 - u32) * W - 16 * eta32 <= Z
  <= (1 + u32) * (1 + u32) * W + 20 * eta32 ->
  Rabs (Z - 1) <= tol32 * (3 / 4).
Proof.
  intros HW HZ. unfold_consts. apply Rabs_le. split; nra.
Qed.

Lemma sqrt_near_unit (Z : R) :
  Rabs (Z - 1) <= tol32 * (3 / 4) -> Rabs (sqrt Z - 1) <= tol32.
Proof.
  intros H. apply Rabs_le_inv in H. unfold_consts.
  assert (0 <= Z) by lra.
  assert (0 <= sqrt Z) as P by apply sqrt_pos.
  assert (sqrt Z * sqrt Z = Z) as Sq by (apply sqrt_sqrt; lra).
  apply Rabs_le. split.
  - destruct (Rle_lt_dec (- / 1048576) (sqrt Z - 1)) as [|C]; [lra|]. exfalso. nra.
  - destruct (Rle_lt_dec (sqrt Z - 1) (/ 1048576)) as [|C]; [lra|]. exfalso. nra.
Qed.

End RealBounds.

(** ** Comparison of canonical floats *)

Section Compare.

Variables prec emax : Z.
Hypothesis prec_pos : 0 < prec.

Lemma canonical_lt m1 e1 m2 e2 :
  SpecFloat.bounded prec emax m1 e1 = true -> SpecFloat.bounded prec emax m2 e2 = true ->
  e1 < e2 -> (IZR (Zpos m1) * bpow e1 < IZR (Zpos m2) * bpow e2)%R.
Proof.
  unfold SpecFloat.bounded, canonical_mantissa. intros B1 B2 Lt.
  apply andb_true_iff in B1 as [C1 _]. apply andb_true_iff in B2 as [C2 _].
  apply Z.eqb_eq in C1, C2.
  change (Z.pos (digits2_pos m1)) with (Zdigits2 (Zpos m1)) in C1.
  change (Z.pos (digits2_pos m2)) with (Zdigits2 (Zpos m2)) in C2.
  pose proof (Zdigits2_bounds (Zpos m1) ltac:(lia)) as [_ Hi1].
  pose proof (Zdigits2_bounds (Zpos m2) ltac:(lia)) as [Lo2 _].
  assert (1 <= Zdigits2 (Zpos m1)) as D1
    by (rewrite Zdigits2_log2 by lia; pose proof (Z.log2_nonneg (Zpos m1)); lia).
  assert (1 <= Zdigits2 (Zpos m2)) as D2
    by (rewrite Zdigits2_log2 by lia; pose proof (Z.log2_nonneg (Zpos m2)); lia).
  assert (Zdigits2 (Zpos m1) + e1 <= Zdigits2 (Zpos m2) - 1 + e2) as D
    by (unfold fexp in *; lia).
  apply IZR_lt in Hi1. apply IZR_le in Lo2.
  rewrite <- bpow_IZR in Hi1, Lo2 by lia.
  pose proof (bpow_pos e1). pose proof (bpow_pos e2).
  apply Rlt_le_trans with (bpow (Zdigits2 (Zpos m1)) * bpow e1)%R; [nra|].
  apply Rle_trans with (bpow (Zdigits2 (Zpos m2) - 1) * bpow e2)%R; [|nra].
  rewrite <- !bpow_add. apply bpow_le. lia.
Qed.

Lemma SFleb_pos_correct m1 e1 m2 e2 :
  SpecFloat.bounded prec emax m1 e1 = true -> SpecFloat.bounded prec emax m2 e2 = true ->
  SFleb (S754_finite false m1 e1) (S754_finite false m2 e2) = true ->
  (IZR (Zpos m1) * bpow e1 <= IZR (Zpos m2) * bpow e2)%R.
Proof.
  intros B1 B2. unfold SFleb, SFcompare.
  destruct (Z.compare_spec e1 e2) as [E|L|G]; try discriminate.
  - subst e2. fold (Pos.compare m1 m2).
    destruct (Pos.compare_spec m1 m2) as [E|L|G]; try discriminate; intros _.
    + subst. lra.
    + pose proof (bpow_pos e1). assert (IZR (Zpos m1) < IZR (Zpos m2))%R by (apply IZR_lt; lia).
      nra.
  - intros _. left. now apply canonical_lt.
Qed.

End Compare.

(** ** binary32 *)

Lemma u_of_24 : u_of 24 = u32.
Proof.
  unfold u_of, u32. rewrite bpow_opp, bpow_IZR by lia. reflexivity.
Qed.

Lemma bpow_neg_IZR n : 0 <= n -> bpow (- n) = (/ IZR (2 ^ n))%R.
Proof. intros H. now rewrite bpow_opp, bpow_IZR. Qed.

Lemma eta_of_32 : eta_of 24 128 = eta32.
Proof. exact (bpow_neg_IZR 150 ltac:(lia)). Qed.


Lemma B2R_range_lo : B2R range_lo = (/ IZR (2 ^ 64))%R.
Proof.
  unfold range_lo. rewrite B2R_finite. simpl sign_factor.
  change (bpow (-87)) with (bpow (- (87))).
  rewrite (bpow_neg_IZR 87) by lia.
  change (2 ^ 87) with 154742504910672534362390528.
  change (2 ^ 64) with 18446744073709551616. lra.
Qed.

Lemma B2R_range_hi : B2R range_hi = IZR (2 ^ 64).
Proof.
  unfold range_hi. rewrite B2R_finite. simpl sign_factor.
  rewrite bpow_IZR by lia.
  change (2 ^ 41) with 2199023255552.
  change (2 ^ 64) with 18446744073709551616. lra.
Qed.

Lemma in_range_sum_sq (s : spec_float) :
  F32.valid s = true -> SFleb range_lo s = true -> SFleb s range_hi = true ->
  is_finite s = true /\ (/ IZR (2 ^ 64) <= B2R s <= IZR (2 ^ 64))%R.
Proof.
  intros V Lo Hi.
  destruct s as [sg|sg| |sg m e]; try discriminate.
  - destruct sg; discriminate.
  - destruct sg; [discriminate|].
    split; [reflexivity|].
    rewrite <- B2R_range_lo, <- B2R_range_hi.
    unfold range_lo, range_hi in *. rewrite !B2R_finite. simpl sign_factor.
    rewrite !Rmult_1_l. split.
    + apply (SFleb_pos_correct 24 128); [reflexivity|exact V|exact Lo].
    + apply (SFleb_pos_correct 24 128); [exact V|reflexivity|exact Hi].
Qed.

Lemma prec24_pos : 0 < 24. Proof. lia. Qed.
Lemma emax128_prec : 24 < 128. Proof. lia. Qed.

Lemma bpow_127 : bpow (128 - 1) = IZR (2 ^ 127).
Proof. apply bpow_IZR. lia. Qed.

Lemma quat_finite_inv q :
  quat_finite q = true ->
  is_finite (q0 q) = true /\ is_finite (q1 q) = true
  /\ is_finite (q2 q) = true /\ is_finite (q3 q) = true.
Proof.
  unfold quat_finite. intros H.
  apply andb_true_iff in H as [H F3]. apply andb_true_iff in H as [H F2].
  apply andb_true_iff in H as [F0 F1]. auto.
Qed.

(** The factor [inv_sqrt (sum_sq q)] of [renormalize], whenever the sum of
    squares is in range: positive, the inverse of the magnitude up to
    rounding, and finite in each product with a component. *)
Lemma renormalize_scale (q : quat) :
  in_range q = true ->
  quat_finite q = true
  /\ F32.valid (inv_sqrt (sum_sq q)) = true
  /\ (0 < B2R (inv_sqrt (sum_sq q)))%R
  /\ (1 - 19 / 2 * u32
      <= B2R (inv_sqrt (sum_sq q)) * B2R (inv_sqrt (sum_sq q)) * norm2 q
      <= 1 + 19 / 2 * u32)%R
  /\ (forall a : spec_float,
        F32.valid a = true -> is_finite a = true -> (B2R a * B2R a <= norm2 q)%R ->
        F32.valid (F32.mul a (inv_sqrt (sum_sq q))) = true
        /\ is_finite (F32.mul a (inv_sqrt (sum_sq q))) = true
        /\ (Rabs (B2R a * B2R (inv_sqrt (sum_sq q))) <= 2)%R
        /\ (Rabs (B2R (F32.mul a (inv_sqrt (sum_sq q))) - B2R a * B2R (inv_sqrt (sum_sq q)))
            <= u32 * Rabs (B2R a * B2R (inv_sqrt (sum_sq q))) + eta32)%R).
Proof.
  unfold in_range, quat_valid. intros H.
  apply andb_true_iff in H as [H Hi]. apply andb_true_iff in H as [H Lo].
  apply andb_true_iff in H as [H V3]. apply andb_true_iff in H as [H V2].
  apply andb_true_iff in H as [V0 V1].
  unfold F32.valid in *.
  set (a0 := q0 q) in *. set (a1 := q1 q) in *.
  set (a2 := q2 q) in *. set (a3 := q3 q) in *.
  (* the sum of squares *)
  unfold sum_sq in Lo, Hi. fold a0 a1 a2 a3 in Lo, Hi.
  set (p0 := F32.mul a0 a0) in *. set (p1 := F32.mul a1 a1) in *.
  set (p2 := F32.mul a2 a2) in *. set (p3 := F32.mul a3 a3) in *.
  set (s1 := F32.add p0 p1) in *. set (s2 := F32.add s1 p2) in *.
  set (s := F32.add s2 p3) in *.
  assert (valid_binary 24 128 s = true) as Vs
    by (unfold s, s2, s1, p0, p1, p2, p3, F32.add, F32.mul;
        repeat apply (SFadd_valid 24 128 prec24_pos);
        apply (SFmul_valid 24 128 prec24_pos emax128_prec); assumption).
  destruct (in_range_sum_sq s Vs Lo Hi) as [Fs Bs].
  destruct (SFadd_finite_inv 24 128 _ _ Fs) as [Fs2 Fp3].
  destruct (SFadd_finite_inv 24 128 _ _ Fs2) as [Fs1 Fp2].
  destruct (SFadd_finite_inv 24 128 _ _ Fs1) as [Fp0 Fp1].
  destruct (SFmul_finite_inv 24 128 _ _ Fp0) as [Fa0 _].
  destruct (SFmul_finite_inv 24 128 _ _ Fp1) as [Fa1 _].
  destruct (SFmul_finite_inv 24 128 _ _ Fp2) as [Fa2 _].
  destruct (SFmul_finite_inv 24 128 _ _ Fp3) as [Fa3 _].
  pose proof (SFmul_error 24 128 prec24_pos _ _ Fp0) as E0.
  pose proof (SFmul_error 24 128 prec24_pos _ _ Fp1) as E1.
  pose proof (SFmul_error 24 128 prec24_pos _ _ Fp2) as E2.
  pose proof (SFmul_error 24 128 prec24_pos _ _ Fp3) as E3.
  pose proof (SFadd_error 24 128 prec24_pos _ _ Fs1) as E4.
  pose proof (SFadd_error 24 128 prec24_pos _ _ Fs2) as E5.
  pose proof (SFadd_error 24 128 prec24_pos _ _ Fs) as E6.
  rewrite u_of_24, eta_of_32 in *.
  pose proof (SFmul_square_nonneg 24 128 prec24_pos a0) as N0.
  pose proof (SFmul_square_nonneg 24 128 prec24_pos a1) as N1.
  pose proof (SFmul_square_nonneg 24 128 prec24_pos a2) as N2.
  pose proof (SFmul_square_nonneg 24 128 prec24_pos a3) as N3.
  pose proof (SFadd_nonneg 24 128 prec24_pos _ _ N0 N1) as N4.
  pose proof (SFadd_nonneg 24 128 prec24_pos _ _ N4 N2) as N5.
  fold p0 p1 p2 p3 in E0, E1, E2, E3, N0, N1, N2, N3.
  fold F32.add in E4, E5, E6, N4, N5. fold s1 in E4, E5, N4, N5.
  fold s2 in E5, E6, N5. fold s in E6.
  set (A0 := B2R a0) in *. set (A1 := B2R a1) in *.
  set (A2 := B2R a2) in *. set (A3 := B2R a3) in *.
  set (S := (A0 * A0 + A1 * A1 + A2 * A2 + A3 * A3)%R).
  assert ((1 - 9 / 2 * u32) * S <= B2R s <= (1 + 9 / 2 * u32) * S)%R as HS.
  { apply (sum_sq_real (A0 * A0) (A1 * A1) (A2 * A2) (A3 * A3)
             (B2R p0) (B2R p1) (B2R p2) (B2R p3) (B2R s1) (B2R s2) (B2R s));
      try assumption; try apply Rle_0_sqr; try lra;
      try (apply Rmult_le_pos_sq || nra). }
  assert (0 <= S)%R as PS by (unfold S; nra).
  (* the square root *)
  set (sg := sqrt (B2R s)).
  assert (0 <= sg)%R as Psg by apply sqrt_pos.
  assert (sg * sg = B2R s)%R as Sq by (apply sqrt_sqrt; unfold_consts; lra).
  destruct (inv_sqrt_real (B2R s) sg (B2R (F32.sqrtf s)) Bs Psg Sq) as [Bsg Hr].
  assert (is_finite (F32.sqrtf s) = true) as Fr.
  { apply (SFsqrt_finite 24 128 prec24_pos emax128_prec); [assumption| |].
    - unfold_consts. lra.
    - fold sg. rewrite bpow_127. unfold_consts.
      change (2 ^ 127)%Z with 170141183460469231731687303715884105728%Z. lra. }
  pose proof (SFsqrt_error 24 128 prec24_pos s Fs Fr) as Er.
  rewrite u_of_24, eta_of_32 in Er. fold sg in Er.
  destruct (Hr Er) as [Rr Br]. clear Hr.
  set (r := F32.sqrtf s) in *.
  (* its inverse *)
  assert (B2R r <> 0)%R as NZr by (unfold_consts; lra).
  set (rho := (/ B2R r)%R).
  assert (rho * B2R r = 1)%R as Erho by (unfold rho; field; assumption).
  change (inv_sqrt s) with (SFdiv 24 128 f1_0 r).
  destruct (inv_real (B2R r) rho (B2R (SFdiv 24 128 f1_0 r)) Br Erho) as [Brho Hn].
  assert (B2R f1_0 = 1%R) as One.
  { unfold f1_0. rewrite B2R_finite. simpl sign_factor.
    change (bpow (-23)) with (bpow (- (23))). rewrite (bpow_neg_IZR 23) by lia.
    change (2 ^ 23) with 8388608. lra. }
  assert (B2R f1_0 / B2R r = rho)%R as Div by (rewrite One; unfold rho; field; assumption).
  assert (is_finite (SFdiv 24 128 f1_0 r) = true) as Fn.
  { apply (SFdiv_finite 24 128 prec24_pos emax128_prec); try assumption; [reflexivity|].
    rewrite Div, bpow_127. unfold_consts.
    change (2 ^ 127)%Z with 170141183460469231731687303715884105728%Z.
    rewrite Rabs_pos_eq; lra. }
  pose proof (SFdiv_error 24 128 prec24_pos f1_0 r eq_refl Fr NZr Fn) as En.
  rewrite u_of_24, eta_of_32, Div in En.
  specialize (Hn En).
  assert (valid_binary 24 128 (SFdiv 24 128 f1_0 r) = true) as Vn
    by (apply (SFdiv_valid 24 128 prec24_pos)).
  set (n := SFdiv 24 128 f1_0 r) in *. set (N := B2R n) in *.
  (* the exactly scaled quaternion *)
  pose proof (scale_real S (B2R s) sg (B2R r) N PS HS Psg Sq Rr Hn) as HW.
  assert (0 < N)%R as PN.
  { destruct (Rle_lt_dec N 0) as [C|C]; [exfalso|exact C].
    assert (N * B2R r <= 0)%R; [|unfold_consts; lra].
    replace (N * B2R r)%R with (- (- N * B2R r))%R by ring.
    assert (0 <= - N * B2R r)%R; [|lra].
    apply Rmult_le_pos; unfold_consts; lra. }
  unfold quat_finite. fold a0 a1 a2 a3. rewrite Fa0, Fa1, Fa2, Fa3.
  change (inv_sqrt (sum_sq q)) with n. fold N.
  split; [reflexivity|]. split; [exact Vn|]. split; [exact PN|].
  split; [exact HW|].
  intros a Va Fa Ha. fold S in Ha.
  assert (Rabs (B2R a * N) <= 2)%R as Ba.
  { unfold_consts.
    assert ((B2R a * N) * (B2R a * N) <= 2)%R as Sq2.
    { replace (B2R a * N * (B2R a * N))%R with (N * N * (B2R a * B2R a))%R by ring.
      apply Rle_trans with (N * N * S)%R; [|lra].
      apply Rmult_le_compat_l; [nra|assumption]. }
    apply Rabs_le. split; nra. }
  assert (is_finite (F32.mul a n) = true) as Fm.
  { apply (SFmul_finite 24 128 prec24_pos emax128_prec); try assumption.
    fold N. rewrite bpow_127.
    change (2 ^ 127)%Z with 170141183460469231731687303715884105728%Z. lra. }
  split; [apply (SFmul_valid 24 128 prec24_pos emax128_prec); assumption|].
  split; [exact Fm|]. split; [exact Ba|].
  pose proof (SFmul_error 24 128 prec24_pos a n Fm) as Em.
  rewrite u_of_24, eta_of_32 in Em. exact Em.
Qed.

(** After [renormalize] the quaternion has magnitude 1 up to rounding,
    whenever the squared magnitude it starts from is in range. *)
Theorem renormalize_near_unit (q : quat) :
  in_range q = true ->
  quat_valid (renormalize q) = true
  /\ quat_finite (renormalize q) = true
  /\ (Rabs (magnitude (renormalize q) - 1) <= tol32)%R.
Proof.
  intros H. destruct (renormalize_scale q H) as (Fq & Vn & PN & HW & Comp).
  unfold in_range, quat_valid in H.
  apply andb_true_iff in H as [H _]. apply andb_true_iff in H as [H _].
  apply andb_true_iff in H as [H V3]. apply andb_true_iff in H as [H V2].
  apply andb_true_iff in H as [V0 V1].
  destruct (quat_finite_inv q Fq) as (F0 & F1 & F2 & F3).
  set (n := inv_sqrt (sum_sq q)) in *. set (N := B2R n) in *.
  pose proof (Rle_0_sqr (B2R (q0 q))) as S0. pose proof (Rle_0_sqr (B2R (q1 q))) as S1.
  pose proof (Rle_0_sqr (B2R (q2 q))) as S2. pose proof (Rle_0_sqr (B2R (q3 q))) as S3.
  unfold Rsqr in S0, S1, S2, S3.
  destruct (Comp (q0 q) V0 F0 ltac:(unfold norm2; lra)) as (W0 & G0 & B0 & C0).
  destruct (Comp (q1 q) V1 F1 ltac:(unfold norm2; lra)) as (W1 & G1 & B1 & C1).
  destruct (Comp (q2 q) V2 F2 ltac:(unfold norm2; lra)) as (W2 & G2 & B2 & C2).
  destruct (Comp (q3 q) V3 F3 ltac:(unfold norm2; lra)) as (W3 & G3 & B3 & C3).
  apply component_real in C0, C1, C2, C3; try assumption.
  unfold renormalize, quat_valid, quat_finite, magnitude. cbn [q0 q1 q2 q3].
  fold n. rewrite W0, W1, W2, W3, G0, G1, G2, G3.
  split; [reflexivity|]. split; [reflexivity|].
  apply sqrt_near_unit. apply (near_unit_real (N * N * norm2 q)); [exact HW|].
  unfold norm2 in *. cbn [q0 q1 q2 q3]. split; lra.
Qed.

(** ** The magnitude of the quaternion state *)

Lemma of_double_valid x : F32.valid (F32.of_double x) = true.
Proof.
  destruct x as [s|s| |s m e]; try reflexivity.
  apply (binary_round_valid 24 128 prec24_pos).
Qed.

Lemma deg2rad_valid d : F32.valid (deg2rad d) = true.
Proof. apply of_double_valid. Qed.

Lemma F32_mul_valid x y :
  F32.valid x = true -> F32.valid y = true -> F32.valid (F32.mul x y) = true.
Proof. apply (SFmul_valid 24 128 prec24_pos emax128_prec). Qed.

Lemma F32_add_valid x y :
  F32.valid x = true -> F32.valid y = true -> F32.valid (F32.add x y) = true.
Proof. apply (SFadd_valid 24 128 prec24_pos). Qed.

Lemma F32_sub_valid x y :
  F32.valid x = true -> F32.valid y = true -> F32.valid (F32.sub x y) = true.
Proof. apply (SFsub_valid 24 128 prec24_pos). Qed.

Lemma F32_neg_valid x : F32.valid x = true -> F32.valid (F32.neg x) = true.
Proof. unfold F32.valid, F32.neg. now rewrite SFopp_valid. Qed.

Lemma quat_valid_inv q :
  quat_valid q = true ->
  F32.valid (q0 q) = true /\ F32.valid (q1 q) = true
  /\ F32.valid (q2 q) = true /\ F32.valid (q3 q) = true.
Proof.
  unfold quat_valid. intros H.
  apply andb_true_iff in H as [H V3]. apply andb_true_iff in H as [H V2].
  apply andb_true_iff in H as [V0 V1]. auto.
Qed.

Lemma euler_of_valid q imu dt :
  quat_valid q = true -> F32.valid dt = true ->
  quat_valid (euler_of q imu dt) = true.
Proof.
  intros Vq Vdt. destruct (quat_valid_inv q Vq) as (V0 & V1 & V2 & V3).
  pose proof (deg2rad_valid (gx imu)) as Gx.
  pose proof (deg2rad_valid (gy imu)) as Gy.
  pose proof (deg2rad_valid (gz imu)) as Gz.
  assert (F32.valid f0_5 = true) as H5 by reflexivity.
  unfold euler_of, integrate, qDot, quat_valid. cbn [q0 q1 q2 q3].
  repeat (apply andb_true_iff; split);
    repeat first [ apply F32_add_valid | apply F32_sub_valid | apply F32_mul_valid
                 | apply F32_neg_valid | assumption ].
Qed.

(** The two ways out of [madgwick_update]. *)
Lemma madgwick_update_cases imu dt q :
  madgwick_update imu dt q
  = if degenerate imu then (tt, q) else (tt, renormalize (euler_of q imu dt)).
Proof.
  unfold madgwick_update, degenerate.
  destruct (F32.eqb (vec_norm (ax imu) (ay imu) (az imu)) f0_0); [reflexivity|].
  destruct (F32.eqb (vec_norm (mx imu) (my imu) (mz imu)) f0_0); reflexivity.
Qed.

Lemma magnitude_q_init : magnitude q_init = 1%R.
Proof.
  unfold magnitude, norm2, q_init. cbn [q0 q1 q2 q3].
  assert (B2R f1_0 = 1%R) as ->.
  { unfold f1_0. rewrite B2R_finite. simpl sign_factor.
    change (bpow (-23)) with (bpow (- (23))). rewrite (bpow_neg_IZR 23) by lia.
    change (2 ^ 23) with 8388608. lra. }
  simpl B2R. replace (1 * 1 + 0 * 0 + 0 * 0 + 0 * 0)%R with 1%R by ring.
  apply sqrt_1.
Qed.

Lemma update_keeps_unit q imu dt :
  quat_valid q = true ->
  quat_finite q = true /\ (Rabs (magnitude q - 1) <= tol32)%R ->
  update_in_range q imu dt = true ->
  quat_valid (snd (madgwick_update imu dt q)) = true
  /\ quat_finite (snd (madgwick_update imu dt q)) = true
  /\ (Rabs (magnitude (snd (madgwick_update imu dt q)) - 1) <= tol32)%R.
Proof.
  intros Vq [Fq Nq] H. rewrite madgwick_update_cases.
  unfold update_in_range in H. destruct (degenerate imu); [simpl; auto|].
  simpl in H. apply andb_true_iff in H as [H Hi]. apply andb_true_iff in H as [Vdt Lo].
  simpl snd. apply renormalize_near_unit.
  unfold in_range. now rewrite (euler_of_valid q imu dt Vq Vdt), Lo, Hi.
Qed.

Lemma run_updates_unit calls : forall q,
  quat_valid q = true ->
  quat_finite q = true /\ (Rabs (magnitude q - 1) <= tol32)%R ->
  all_in_range q calls = true ->
  Forall (fun q' => quat_finite q' = true /\ (Rabs (magnitude q' - 1) <= tol32)%R)
    (run_updates q calls).
Proof.
  induction calls as [|[imu dt] rest IH]; intros q Vq Nq H; simpl; [constructor|].
  simpl in H. apply andb_true_iff in H as [H Hrest].
  destruct (update_keeps_unit q imu dt Vq Nq H) as (V' & F' & N').
  constructor; [auto|]. apply IH; auto.
Qed.

(** C2 (counterexample): one update with a roll rate of 1e30 deg/s overflows
    the sum of squares; the inverse square root is 0 and the state becomes the
    zero quaternion, of magnitude 0. *)
Lemma magnitude_lost_on_overflow :
  degenerate imu_spin = false
  /\ run_updates q_init [(imu_spin, LOOP_DT_SEC)]
     = [{| q0 := S754_zero false; q1 := S754_zero false;
           q2 := S754_zero false; q3 := S754_zero false |}]
  /\ ~ Forall (fun q => (Rabs (magnitude q - 1) <= tol32)%R)
         (run_updates q_init [(imu_spin, LOOP_DT_SEC)]).
Proof.
  assert (run_updates q_init [(imu_spin, LOOP_DT_SEC)]
          = [{| q0 := S754_zero false; q1 := S754_zero false;
                q2 := S754_zero false; q3 := S754_zero false |}]) as E
    by (vm_compute; reflexivity).
  split; [vm_compute; reflexivity|]. split; [exact E|].
  rewrite E. intros H. inversion H as [|? ? N _]; subst.
  unfold magnitude, norm2 in N. cbn [q0 q1 q2 q3 B2R] in N.
  replace (0 * 0 + 0 * 0 + 0 * 0 + 0 * 0)%R with 0%R in N by ring.
  rewrite sqrt_0 in N. unfold tol32 in N.
  replace (0 - 1)%R with (- (1))%R in N by ring.
  rewrite Rabs_Ropp, Rabs_R1 in N. lra.
Qed.

(** C2 (amended): starting from (1,0,0,0), as long as every update call
    either returns early or stays in range (a well-formed [dt] and an
    integrated quaternion whose computed sum of squares lies between 2^-64
    and 2^64), the state after each call has finite components and a
    magnitude within 2^-20 of 1. *)
Theorem magnitude_invariant (calls : list (imu_sample_t * spec_float)) :
  all_in_range q_init calls = true ->
  Forall (fun q => quat_finite q = true /\ (Rabs (magnitude q - 1) <= tol32)%R)
    (run_updates q_init calls).
Proof.
  intros H. apply run_updates_unit; [reflexivity| |exact H].
  split; [reflexivity|]. rewrite magnitude_q_init.
  replace (1 - 1)%R with 0%R by ring. rewrite Rabs_R0. unfold tol32. lra.
Qed.

Lemma magnitude_invariant_witness :
  Forall (fun q => quat_finite q = true /\ (Rabs (magnitude q - 1) <= tol32)%R)
    (run_updates q_init (repeat (imu_yaw, LOOP_DT_SEC) 20)).
Proof.
  apply (magnitude_invariant (repeat (imu_yaw, LOOP_DT_SEC) 20)).
  vm_compute. reflexivity.
Defined.

(** ** The heading scenario *)

Lemma prec53_pos : 0 < 53. Proof. lia. Qed.
Lemma emax1024_prec : 53 < 1024. Proof. lia. Qed.

Lemma B2R_abs_finite s m e :
  Rabs (B2R (S754_finite s m e)) = (IZR (Zpos m) * bpow e)%R.
Proof.
  rewrite B2R_finite, Rabs_sign_factor. apply Rabs_pos_eq.
  apply Rmult_le_pos; [apply IZR_le; lia | left; apply bpow_pos].
Qed.

(** Rounding a finite float of any format to the format [(prec, emax)]. *)
Lemma convert_error prec emax (x : spec_float) :
  0 < prec -> prec < emax ->
  is_finite x = true -> (Rabs (B2R x) < bpow (emax - 1))%R ->
  is_finite (match x with
             | S754_finite s m e => binary_round prec emax s m e
             | _ => x
             end) = true
  /\ valid_binary prec emax
       (match x with
        | S754_finite s m e => binary_round prec emax s m e
        | _ => x
        end) = true
  /\ (Rabs (B2R (match x with
                 | S754_finite s m e => binary_round prec emax s m e
                 | _ => x
                 end) - B2R x)
      <= u_of prec * Rabs (B2R x) + eta_of prec emax)%R.
Proof.
  intros Hp He Fx B.
  assert (0 <= u_of prec * 0 + eta_of prec emax)%R as Z0.
  { unfold eta_of. pose proof (bpow_pos (emin prec emax - 1)). lra. }
  destruct x as [s|s| |s m e]; try discriminate.
  - split; [reflexivity|]. split; [reflexivity|]. simpl B2R.
    rewrite Rminus_diag, Rabs_R0. exact Z0.
  - rewrite B2R_abs_finite in *.
    assert (is_finite (binary_round prec emax s m e) = true) as F
      by (apply binary_round_finite; assumption).
    split; [exact F|]. split; [now apply binary_round_valid|].
    rewrite B2R_finite. now apply binary_round_error.
Qed.

Lemma of_float_error (x : spec_float) :
  is_finite x = true -> (Rabs (B2R x) < bpow (1024 - 1))%R ->
  is_finite (F64.of_float x) = true
  /\ valid_binary 53 1024 (F64.of_float x) = true
  /\ (Rabs (B2R (F64.of_float x) - B2R x)
      <= u_of 53 * Rabs (B2R x) + eta_of 53 1024)%R.
Proof. exact (convert_error 53 1024 x prec53_pos emax1024_prec). Qed.

Lemma of_double_error (x : spec_float) :
  is_finite x = true -> (Rabs (B2R x) < bpow (128 - 1))%R ->
  is_finite (F32.of_double x) = true
  /\ valid_binary 24 128 (F32.of_double x) = true
  /\ (Rabs (B2R (F32.of_double x) - B2R x)
      <= u_of 24 * Rabs (B2R x) + eta_of 24 128)%R.
Proof. exact (convert_error 24 128 x prec24_pos emax128_prec). Qed.

(** The [double] constant [180.0f / M_PI]. *)
Lemma rad2deg_factor :
  F64.div (F64.of_float f180_0) M_PI = S754_finite false 8063664102031864 (-47).
Proof. vm_compute. reflexivity. Qed.

Lemma rad2deg_real (A D1 D2 Y eta : R) :
  (Rabs A <= 13 / 50 ->
   eta <= / 1427247692705959881058285969449495136382746624 ->
   Rabs (D1 - A) <= / 9007199254740992 * Rabs A + eta ->
   Rabs (D2 - D1 * (8063664102031864 / 140737488355328))
   <= / 9007199254740992 * Rabs (D1 * (8063664102031864 / 140737488355328)) + eta ->
   Rabs D1 <= 1
   /\ Rabs D2 <= 15
   /\ (Rabs (Y - D2) <= / 16777216 * Rabs D2
                        + / 1427247692705959881058285969449495136382746624 ->
       Rabs (Y - A * (8063664102031864 / 140737488355328)) <= / 1048576))%R.
Proof.
  intros HA He E1 E2.
  apply Rabs_le_inv in E1. apply Rabs_le_inv in E2.
  split; [|split].
  - unfold Rabs in *. destruct (Rcase_abs A), (Rcase_abs D1); lra.
  - unfold Rabs in *.
    destruct (Rcase_abs A), (Rcase_abs D2),
      (Rcase_abs (D1 * (8063664102031864 / 140737488355328))); lra.
  - intros E3. apply Rabs_le_inv in E3. apply Rabs_le.
    unfold Rabs in *.
    destruct (Rcase_abs A), (Rcase_abs D2),
      (Rcase_abs (D1 * (8063664102031864 / 140737488355328))); split; lra.
Qed.

Lemma rad2deg_error (a : spec_float) :
  is_finite a = true -> (Rabs (B2R a) <= 13 / 50)%R ->
  is_finite (rad2deg a) = true
  /\ (Rabs (B2R (rad2deg a) - B2R a * (8063664102031864 / 140737488355328))
      <= / 1048576)%R.
Proof.
  intros Fa Ba. unfold rad2deg. rewrite rad2deg_factor.
  change (F64.mul ?x ?y) with (SFmul 53 1024 x y).
  set (K := S754_finite false 8063664102031864 (-47)).
  assert (B2R K = 8063664102031864 / 140737488355328)%R as EK.
  { unfold K. rewrite B2R_finite. simpl sign_factor.
    change (bpow (-47)) with (bpow (- (47))). rewrite (bpow_neg_IZR 47) by lia.
    change (2 ^ 47) with 140737488355328. unfold Rdiv. ring. }
  assert (bpow (1024 - 1) = IZR (2 ^ 1023)) as P1023 by (apply bpow_IZR; lia).
  assert (bpow (128 - 1) = IZR (2 ^ 127)) as P127 by (apply bpow_IZR; lia).
  assert (u_of 53 = / 9007199254740992)%R as U64 by (apply (bpow_neg_IZR 53); lia).
  assert (eta_of 53 1024 <= / 1427247692705959881058285969449495136382746624)%R as E64.
  { replace (eta_of 53 1024) with (/ IZR (2 ^ 1075))%R
      by (symmetry; apply (bpow_neg_IZR 1075); lia).
    apply Rinv_le_contravar; [lra|].
    apply IZR_le. change 1427247692705959881058285969449495136382746624 with (2 ^ 150).
    apply Z.pow_le_mono_r; lia. }
  (* float to double *)
  destruct (of_float_error a Fa) as (F1 & V1 & E1).
  { rewrite P1023. apply Rle_lt_trans with (13 / 50)%R; [assumption|].
    apply Rlt_le_trans with 1%R; [lra|]. apply IZR_le.
    pose proof (Z.pow_pos_nonneg 2 1023). lia. }
  rewrite U64 in E1.
  set (d1 := F64.of_float a) in *.
  (* the error the product would have, needed before it is known finite *)
  assert (is_finite (SFmul 53 1024 d1 K) = true) as F2.
  { apply (SFmul_finite 53 1024 prec53_pos emax1024_prec); try assumption; try reflexivity.
    rewrite EK, P1023, Rabs_mult.
    assert (Rabs (B2R d1) <= 1)%R as B1.
    { apply Rabs_le_inv in E1.
      assert (eta_of 53 1024 <= 1)%R by lra.
      unfold Rabs in *. destruct (Rcase_abs (B2R a)), (Rcase_abs (B2R d1)); lra. }
    assert (Rabs (8063664102031864 / 140737488355328) <= 64)%R as BK
      by (rewrite Rabs_pos_eq; lra).
    apply Rle_lt_trans with (1 * 64)%R.
    - apply Rmult_le_compat; try apply Rabs_pos; assumption.
    - replace (1 * 64)%R with (IZR 64) by (simpl; lra). apply IZR_lt. reflexivity. }
  pose proof (SFmul_error 53 1024 prec53_pos d1 K F2) as E2.
  rewrite U64, EK in E2.
  set (d2 := SFmul 53 1024 d1 K) in *.
  destruct (rad2deg_real (B2R a) (B2R d1) (B2R d2) (B2R (F32.of_double d2))
              (eta_of 53 1024) Ba E64 E1 E2) as (_ & B2 & Fin).
  (* double to float *)
  destruct (of_double_error d2 F2) as (F3 & _ & E3).
  { rewrite P127. apply Rle_lt_trans with 15%R; [assumption|].
    apply IZR_lt. reflexivity. }
  rewrite u_of_24, eta_of_32 in E3.
  split; [exact F3|]. apply Fin. exact E3.
Qed.


Section ArctanSeries.
Local Open Scope R_scope.

(** Partial sums of the alternating series enclose the arctangent. *)
Lemma atan_series_bounds (x : R) :
  0 <= x < 1 ->
  x * (1 - x * x * (/ 3 - x * x * (/ 5 - x * x * (/ 7 - x * x * (/ 9 - x * x * / 11)))))
  <= atan x
  <= x * (1 - x * x * (/ 3 - x * x * (/ 5 - x * x * (/ 7 - x * x * / 9))))
  /\ 0 <= atan x <= x.
Proof.
  intros [[Hx|Hx] Hx1].
  2:{ subst x. rewrite atan_0. lra. }
  rewrite (atan_eq_ps_atan x (conj Hx Hx1)).
  unfold ps_atan. destruct (in_int x) as [H|H]; [|exfalso; apply H; lra].
  destruct (ps_atan_exists_1 x H) as [v Pv].
  assert (0 <= x <= 1) as H01 by lra.
  pose proof (alternated_series_ineq (Ratan_seq x) v 2
                (Ratan_seq_decreasing x H01) (Ratan_seq_converging x H01) Pv) as [Lo Hi].
  pose proof (alternated_series_ineq (Ratan_seq x) v 0
                (Ratan_seq_decreasing x H01) (Ratan_seq_converging x H01) Pv) as [Lo0 Hi0].
  unfold sum_f_R0, tg_alt, Ratan_seq in Lo, Hi, Lo0, Hi0.
  simpl in Lo, Hi, Lo0, Hi0.
  assert (0 <= x * (1 - x * x * / 3)) as P0.
  { apply Rmult_le_pos; [lra|]. assert (x * x <= 1 * 1) by (apply Rmult_le_compat; lra). lra. }
  split; split.
  - eapply Rle_trans; [|exact Lo]. lra.
  - eapply Rle_trans; [exact Hi|]. lra.
  - eapply Rle_trans; [|exact Lo0]. lra.
  - eapply Rle_trans; [exact Hi0|]. lra.
Qed.

End ArctanSeries.

(** *** Rationals and reals *)

Lemma F2Q_correct (x : spec_float) : Q2R (F2Q x) = B2R x.
Proof.
  destruct x as [s|s| |s m e]; try (unfold F2Q, B2R, Q2R; simpl; lra).
  unfold F2Q, B2R, bpow. rewrite !Q2R_mult.
  rewrite RMicromega.Q2RpowerRZ by (left; discriminate).
  replace (Q2R 2) with 2%R by (unfold Q2R; simpl; lra).
  replace (Q2R (inject_Z (Zpos m))) with (IZR (Zpos m))
    by (unfold Q2R, inject_Z; simpl; lra).
  destruct s; unfold Q2R; simpl; lra.
Qed.

Lemma atan_lo_correct (t : Q) :
  (Q2R (atan_lo t)
   = Q2R t * (1 - Q2R t * Q2R t * (/ 3 - Q2R t * Q2R t * (/ 5 - Q2R t * Q2R t
       * (/ 7 - Q2R t * Q2R t * (/ 9 - Q2R t * Q2R t * / 11))))))%R.
Proof.
  unfold atan_lo. repeat (rewrite ?Q2R_mult, ?Q2R_minus).
  unfold Q2R; simpl; lra.
Qed.

Lemma atan_hi_correct (t : Q) :
  (Q2R (atan_hi t)
   = Q2R t * (1 - Q2R t * Q2R t * (/ 3 - Q2R t * Q2R t * (/ 5 - Q2R t * Q2R t
       * (/ 7 - Q2R t * Q2R t * / 9)))))%R.
Proof.
  unfold atan_hi. repeat (rewrite ?Q2R_mult, ?Q2R_minus).
  unfold Q2R; simpl; lra.
Qed.

Lemma rad2deg_q_correct : Q2R rad2deg_q = (8063664102031864 / 140737488355328)%R.
Proof. unfold rad2deg_q, Q2R. simpl. lra. Qed.

Lemma heading_err_correct :
  Q2R heading_err
  = (8063664102031864 / 140737488355328 * / 4194304 + / 1048576)%R.
Proof.
  unfold heading_err. rewrite Q2R_plus, Q2R_mult, rad2deg_q_correct.
  unfold Q2R. simpl. lra.
Qed.

(** *** One reading *)

Lemma yaw_of_args atan2f asinf q :
  yaw_of atan2f asinf q
  = rad2deg (atan2f (fst (yaw_args q)) (snd (yaw_args q))).
Proof. reflexivity. Qed.

Lemma in_sector_inv q :
  in_sector q = true ->
  is_finite (fst (yaw_args q)) = true /\ is_finite (snd (yaw_args q)) = true
  /\ (0 <= B2R (fst (yaw_args q)))%R /\ (0 < B2R (snd (yaw_args q)))%R
  /\ (4 * B2R (fst (yaw_args q)) <= B2R (snd (yaw_args q)))%R
  /\ Q2R (tan_yaw q) = (B2R (fst (yaw_args q)) / B2R (snd (yaw_args q)))%R.
Proof.
  unfold in_sector, tan_yaw. destruct (yaw_args q) as [y x]. cbn [fst snd].
  intros H.
  apply andb_true_iff in H as [H H4]. apply andb_true_iff in H as [H Hx].
  apply andb_true_iff in H as [H Hy]. apply andb_true_iff in H as [Fy Fx].
  apply Qle_bool_iff, Qle_Rle in H4, Hy.
  apply negb_true_iff in Hx.
  assert (0 < F2Q x)%Q as Px.
  { apply Qnot_le_lt. intros C. apply Qle_bool_iff in C. congruence. }
  assert (~ F2Q x == 0)%Q as Nx by (intros C; rewrite C in Px; discriminate).
  rewrite (Q2R_div _ _ Nx).
  apply Qlt_Rlt in Px.
  rewrite Q2R_mult in H4. rewrite !F2Q_correct in *.
  replace (Q2R 0) with 0%R in * by (unfold Q2R; simpl; lra).
  replace (Q2R 4) with 4%R in * by (unfold Q2R; simpl; lra).
  auto 10.
Qed.

Lemma heading_enclosure atan2f asinf q :
  atan2f_accurate atan2f -> in_sector q = true ->
  is_finite (yaw_of atan2f asinf q) = true
  /\ (Q2R (heading_lo q) <= B2R (yaw_of atan2f asinf q) <= Q2R (heading_hi q))%R.
Proof.
  intros Acc Hs. rewrite yaw_of_args.
  destruct (in_sector_inv q Hs) as (Fy & Fx & Py & Px & S4 & Et).
  destruct (Acc _ _ Fy Fx Py Px S4) as [Fa Ea].
  unfold heading_lo, heading_hi.
  rewrite Q2R_minus, Q2R_plus, !Q2R_mult, atan_lo_correct, atan_hi_correct,
    rad2deg_q_correct, heading_err_correct, Et.
  set (y := B2R (fst (yaw_args q))) in *. set (x := B2R (snd (yaw_args q))) in *.
  set (a := atan2f (fst (yaw_args q)) (snd (yaw_args q))) in *.
  assert (0 <= y / x <= / 4)%R as [T0 T4].
  { split.
    - apply Rmult_le_pos; [assumption|]. left. now apply Rinv_0_lt_compat.
    - apply Rmult_le_reg_r with x; [assumption|].
      unfold Rdiv. rewrite Rmult_assoc, Rinv_l by lra. lra. }
  set (t := (y / x)%R) in *.
  destruct (atan_series_bounds t) as [[Lo Hi] [A0 At]]; [lra|].
  apply Rabs_le_inv in Ea.
  destruct (rad2deg_error a Fa) as [Fh Eh].
  { apply Rabs_le. lra. }
  split; [exact Fh|]. apply Rabs_le_inv in Eh.
  split; lra.
Qed.

(** *** Consecutive readings *)

Lemma step_ok_sound atan2f asinf q q' :
  atan2f_accurate atan2f -> step_ok q q' = true ->
  is_finite (yaw_of atan2f asinf q) = true
  /\ is_finite (yaw_of atan2f asinf q') = true
  /\ (B2R (yaw_of atan2f asinf q) < B2R (yaw_of atan2f asinf q'))%R
  /\ (Rabs (B2R (yaw_of atan2f asinf q') - B2R (yaw_of atan2f asinf q) - / 2)
      <= / 10000)%R.
Proof.
  intros Acc H. unfold step_ok in H.
  apply andb_true_iff in H as [H Hi]. apply andb_true_iff in H as [H Lo].
  apply andb_true_iff in H as [S S'].
  destruct (heading_enclosure atan2f asinf q Acc S) as [F [L U]].
  destruct (heading_enclosure atan2f asinf q' Acc S') as [F' [L' U']].
  apply Qle_bool_iff, Qle_Rle in Hi, Lo.
  rewrite Q2R_minus in Hi, Lo. rewrite Q2R_plus in Hi. rewrite Q2R_minus in Lo.
  replace (Q2R (1 # 2)) with (/ 2)%R in * by (unfold Q2R; simpl; lra).
  replace (Q2R (1 # 10000)) with (/ 10000)%R in * by (unfold Q2R; simpl; lra).
  split; [exact F|]. split; [exact F'|].
  split; [lra|]. apply Rabs_le. lra.
Qed.

Lemma steps_ok_sound atan2f asinf (l : list quat) :
  atan2f_accurate atan2f -> steps_ok l = true ->
  forall k : nat, (S k < List.length l)%nat ->
  let h := fun i => yaw_of atan2f asinf (nth i l q_init) in
  is_finite (h k) = true /\ is_finite (h (S k)) = true
  /\ (B2R (h k) < B2R (h (S k)))%R
  /\ (Rabs (B2R (h (S k)) - B2R (h k) - / 2) <= / 10000)%R.
Proof.
  intros Acc. induction l as [|q [|q' rest] IH]; intros H k Hk; simpl in Hk; try lia.
  change (steps_ok (q :: q' :: rest)) with (step_ok q q' && steps_ok (q' :: rest)) in H.
  apply andb_true_iff in H as [H Hrest].
  destruct k as [|k].
  - exact (step_ok_sound atan2f asinf q q' Acc H).
  - apply (IH Hrest k). simpl. lia.
Qed.

(** The states of a run depend on the samples through the gyroscope only,
    provided no sample is degenerate. *)
Lemma run_updates_gyro (imu imu' : imu_sample_t) (dt : spec_float) (n : nat) :
  degenerate imu = false -> degenerate imu' = false ->
  gx imu = gx imu' -> gy imu = gy imu' -> gz imu = gz imu' ->
  forall q, run_updates q (repeat (imu, dt) n) = run_updates q (repeat (imu', dt) n).
Proof.
  intros D D' X Y Z. induction n as [|n IH]; intros q; [reflexivity|].
  cbn [repeat run_updates]. rewrite !madgwick_update_cases, D, D'.
  unfold euler_of. rewrite X, Y, Z. cbn [snd]. now rewrite IH.
Qed.

(** C7: a constant sample with gx = gy = 0 and gz = 10 deg/s, whose
    accelerometer and magnetometer vectors are not degenerate, is applied 20
    times with dt = 0.05 s from the identity quaternion, and the heading is
    read before the first update and after each.  Whenever the library's
    [atan2f] is accurate to 2^-22 rad, the 21 readings are finite, each is
    strictly greater than the one before, and each step is within 0.0001
    degrees of 0.5 degrees. *)
Theorem heading_scenario
    (atan2f : spec_float -> spec_float -> spec_float)
    (asinf : spec_float -> spec_float) (imu : imu_sample_t) (k : nat) :
  atan2f_accurate atan2f ->
  degenerate imu = false ->
  gx imu = f0_0 -> gy imu = f0_0 -> gz imu = F32.lit 10 1 ->
  (k < 20)%nat ->
  let states := q_init :: run_updates q_init (repeat (imu, LOOP_DT_SEC) 20) in
  let heading := fun i => yaw_of atan2f asinf (nth i states q_init) in
  List.length states = 21%nat
  /\ is_finite (heading k) = true /\ is_finite (heading (S k)) = true
  /\ (B2R (heading k) < B2R (heading (S k)))%R
  /\ (Rabs (B2R (heading (S k)) - B2R (heading k) - / 2) <= / 10000)%R.
Proof.
  intros Acc D X Y Z Hk states heading.
  assert (states = q_init :: run_updates q_init (repeat (imu_yaw, LOOP_DT_SEC) 20)) as E.
  { unfold states. f_equal. apply run_updates_gyro; try assumption; reflexivity. }
  assert (List.length states = 21%nat) as Len by (rewrite E; reflexivity).
  split; [exact Len|].
  apply (steps_ok_sound atan2f asinf states Acc).
  - rewrite E. vm_compute. reflexivity.
  - lia.
Qed.

(** *** A reference [atan2f] meets the accuracy asked of the library *)

Lemma series_quotient (a b : Z) :
  0 < b ->
  let t := (IZR a / IZR b)%R in
  (IZR (315 * a * b ^ 8 - 105 * a ^ 3 * b ^ 6 + 63 * a ^ 5 * b ^ 4
        - 45 * a ^ 7 * b ^ 2 + 35 * a ^ 9) / IZR (315 * b ^ 9)
   = t * (1 - t * t * (/ 3 - t * t * (/ 5 - t * t * (/ 7 - t * t * / 9)))))%R.
Proof.
  intros Hb t. unfold t.
  assert (IZR b <> 0%R) as Nb by (apply not_0_IZR; lia).
  change (b ^ 8) with (b ^ Z.of_nat 8). change (b ^ 6) with (b ^ Z.of_nat 6).
  change (b ^ 4) with (b ^ Z.of_nat 4). change (b ^ 2) with (b ^ Z.of_nat 2).
  change (b ^ 9) with (b ^ Z.of_nat 9). change (a ^ 3) with (a ^ Z.of_nat 3).
  change (a ^ 5) with (a ^ Z.of_nat 5). change (a ^ 7) with (a ^ Z.of_nat 7).
  change (a ^ 9) with (a ^ Z.of_nat 9).
  repeat (rewrite ?plus_IZR, ?minus_IZR, ?mult_IZR); rewrite <- !pow_IZR.
  field. exact Nb.
Qed.

Lemma aligned_mantissa (m : positive) (e e0 : Z) :
  e0 <= e ->
  0 < Zpos m * 2 ^ (e - e0)
  /\ (IZR (Zpos m) * bpow e = IZR (Zpos m * 2 ^ (e - e0)) * bpow e0)%R.
Proof.
  intros H. split.
  - apply Z.mul_pos_pos; [lia|]. apply Z.pow_pos_nonneg; lia.
  - rewrite mult_IZR, <- bpow_IZR by lia. rewrite Rmult_assoc, <- bpow_add.
    do 2 f_equal. lia.
Qed.

Lemma atan2f_series_accurate : atan2f_accurate atan2f_series.
Proof.
  intros y x Fy Fx Py Px S4.
  destruct x as [sx|sx| |sx mx ex]; try (simpl in Px; lra).
  assert (sx = false) as ->.
  { destruct sx; [|reflexivity]. rewrite B2R_finite in Px. simpl sign_factor in Px.
    pose proof (bpow_pos ex). assert (0 < IZR (Zpos mx))%R by (apply IZR_lt; lia).
    assert (0 < IZR (Zpos mx) * bpow ex)%R by (apply Rmult_lt_0_compat; assumption).
    lra. }
  assert (forall z, atan (0 / z) = 0%R) as At0.
  { intros z. unfold Rdiv. rewrite Rmult_0_l. apply atan_0. }
  assert (Rabs (0 - 0) <= / 4194304)%R as Z0.
  { rewrite Rminus_diag, Rabs_R0. lra. }
  destruct y as [sy|sy| |sy my ey]; try discriminate.
  { simpl atan2f_series. simpl B2R at 1 2. rewrite At0.
    split; [reflexivity|]. exact Z0. }
  assert (sy = false) as ->.
  { destruct sy; [|reflexivity]. rewrite B2R_finite in Py. simpl sign_factor in Py.
    pose proof (bpow_pos ey). assert (0 < IZR (Zpos my))%R by (apply IZR_lt; lia).
    assert (0 < IZR (Zpos my) * bpow ey)%R by (apply Rmult_lt_0_compat; assumption).
    lra. }
  rewrite !B2R_finite in *. simpl sign_factor in *. rewrite !Rmult_1_l in *.
  unfold atan2f_series. cbv zeta.
  destruct (aligned_mantissa my ey (Z.min ey ex)) as [Pa Ea]; [lia|].
  destruct (aligned_mantissa mx ex (Z.min ey ex)) as [Pb Eb]; [lia|].
  set (a := Zpos my * 2 ^ (ey - Z.min ey ex)) in *.
  set (b := Zpos mx * 2 ^ (ex - Z.min ey ex)) in *.
  pose proof (series_quotient a b Pb) as SQ. cbv zeta in SQ.
  set (num := 315 * a * b ^ 8 - 105 * a ^ 3 * b ^ 6 + 63 * a ^ 5 * b ^ 4
              - 45 * a ^ 7 * b ^ 2 + 35 * a ^ 9) in *.
  set (den := 315 * b ^ 9) in *.
  assert (0 < den) as Pden.
  { unfold den. apply Z.mul_pos_pos; [lia|]. apply Z.pow_pos_nonneg; lia. }
  assert (0 < IZR den)%R as PdenR by (apply IZR_lt; exact Pden).
  pose proof (bpow_pos (Z.min ey ex)) as Pe.
  assert (0 < IZR a)%R as PA by (apply IZR_lt; exact Pa).
  assert (0 < IZR b)%R as PB by (apply IZR_lt; exact Pb).
  assert (IZR (Zpos my) * bpow ey / (IZR (Zpos mx) * bpow ex) = IZR a / IZR b)%R as Et.
  { rewrite Ea, Eb. field. lra. }
  rewrite Et.
  set (t := (IZR a / IZR b)%R) in *.
  assert (0 < t <= / 4)%R as [T0 T4].
  { unfold t. split.
    - apply Rmult_lt_0_compat; [assumption|]. now apply Rinv_0_lt_compat.
    - apply Rmult_le_reg_r with (IZR b); [assumption|].
      unfold Rdiv. rewrite Rmult_assoc, Rinv_l by lra.
      apply Rmult_le_reg_r with (bpow (Z.min ey ex)); [assumption|].
      rewrite Ea, Eb in S4. lra. }
  destruct (atan_series_bounds t) as [[Lo Hi] [A0 At]]; [lra|].
  assert (0 < atan t)%R as Apos.
  { rewrite <- atan_0. apply atan_increasing. exact T0. }
  assert (t ^ 11 <= / 4194304)%R as T11.
  { replace (/ 4194304)%R with ((/ 4) ^ 11)%R by (simpl; lra).
    apply pow_incr. lra. }
  set (P := (t * (1 - t * t * (/ 3 - t * t * (/ 5 - t * t * (/ 7 - t * t * / 9)))))%R) in *.
  assert (t * (1 - t * t * (/ 3 - t * t * (/ 5 - t * t * (/ 7 - t * t * (/ 9 - t * t * / 11)))))
          = P - t ^ 11 / 11)%R as EP by (unfold P; field).
  rewrite EP in Lo.
  assert (0 < IZR num)%R as PnumR.
  { replace (IZR num) with (IZR num / IZR den * IZR den)%R by (field; lra).
    apply Rmult_lt_0_compat; [|assumption]. rewrite SQ. lra. }
  assert (0 < num) as Pnum by (apply lt_IZR; exact PnumR).
  destruct num as [|n|n] eqn:En; try lia.
  set (fn := S754_finite false n 0). set (fd := S754_finite false (Z.to_pos den) 0).
  assert (B2R fn = IZR (Zpos n)) as Bn.
  { unfold fn. rewrite B2R_finite, bpow_0. simpl sign_factor. ring. }
  assert (B2R fd = IZR den) as Bd.
  { unfold fd. rewrite B2R_finite, bpow_0, Z2Pos.id by exact Pden.
    simpl sign_factor. ring. }
  assert (B2R fd <> 0%R) as Nd by (rewrite Bd; lra).
  assert (is_finite (SFdiv 24 128 fn fd) = true) as Fr.
  { apply (SFdiv_finite 24 128 prec24_pos emax128_prec); try reflexivity; [exact Nd|].
    rewrite Bn, Bd, SQ, bpow_127. rewrite Rabs_pos_eq by lra.
    apply Rle_lt_trans with 1%R; [lra|]. apply IZR_lt. reflexivity. }
  split; [exact Fr|].
  pose proof (SFdiv_error 24 128 prec24_pos fn fd eq_refl eq_refl Nd Fr) as Er.
  rewrite Bn, Bd, SQ, u_of_24, eta_of_32 in Er.
  rewrite (Rabs_pos_eq P) in Er by lra.
  apply Rabs_le_inv in Er. unfold u32, eta32 in Er.
  change (2 ^ 150) with 1427247692705959881058285969449495136382746624 in Er.
  apply Rabs_le. split; lra.
Qed.

Lemma heading_scenario_witness :
  let states := q_init :: run_updates q_init (repeat (imu_yaw, LOOP_DT_SEC) 20) in
  let heading := fun i => yaw_of atan2f_series (fun x => x) (nth i states q_init) in
  List.length states = 21%nat
  /\ is_finite (heading 0%nat) = true /\ is_finite (heading 1%nat) = true
  /\ (B2R (heading 0%nat) < B2R (heading 1%nat))%R
  /\ (Rabs (B2R (heading 1%nat) - B2R (heading 0%nat) - / 2) <= / 10000)%R.
Proof.
  apply (heading_scenario atan2f_series (fun x => x) imu_yaw 0).
  - exact atan2f_series_accurate.
  - vm_compute. reflexivity.
  - reflexivity.
  - reflexivity.
  - reflexivity.
  - lia.
Defined.

(** ** More on the two checksums *)

Lemma while_char_app {S} (body : S -> byte -> S) (a b : list byte) : forall st,
  nul_free a = true ->
  while_char body st (a ++ b) = while_char body (while_char body st a) b.
Proof.
  induction a as [|c a IH]; intros st NF; simpl in *; [reflexivity|].
  apply andb_true_iff in NF as [Nc NF]. apply negb_true_iff in Nc.
  rewrite Nc. now apply IH.
Qed.

Lemma xor_byte_range sgn st c : 0 <= st < 256 -> 0 <= xor_byte sgn st c < 256.
Proof.
  intros H. rewrite xor_byte_eq by assumption.
  apply (lxor_range 8); try lia. apply byte_val_range.
Qed.

Lemma xor_state_range sgn p : forall st,
  0 <= st < 256 -> 0 <= while_char (xor_byte sgn) st p < 256.
Proof.
  induction p as [|c p IH]; intros st H; simpl; [assumption|].
  destruct (is_nul c); [assumption|]. apply IH, xor_byte_range, H.
Qed.

(** The XOR register started at [st] is [st] xor the register started at 0. *)
Lemma xor_state_shift sgn p : forall st,
  0 <= st < 256 ->
  while_char (xor_byte sgn) st p = Z.lxor st (while_char (xor_byte sgn) 0 p).
Proof.
  induction p as [|c p IH]; intros st H; simpl.
  - now rewrite Z.lxor_0_r.
  - destruct (is_nul c); [now rewrite Z.lxor_0_r|].
    rewrite (IH (xor_byte sgn st c)) by now apply xor_byte_range.
    rewrite (IH (xor_byte sgn 0 c)) by (apply xor_byte_range; lia).
    rewrite !xor_byte_eq by lia. rewrite Z.lxor_0_l. now rewrite Z.lxor_assoc.
Qed.

(** X1: the XOR checksum of a concatenation is the exclusive or of the checksums
    of the parts, when the first part has no NUL byte. *)
Theorem xor_checksum_app (char_signed : bool) (a b : list byte) :
  nul_free a = true ->
  calculate_checksum char_signed (a ++ b)
  = Z.lxor (calculate_checksum char_signed a) (calculate_checksum char_signed b).
Proof.
  intros NF. unfold calculate_checksum. rewrite while_char_app by assumption.
  apply xor_state_shift. apply xor_state_range. lia.
Qed.

Lemma xor_checksum_app_witness :
  calculate_checksum true (cstr "L1,50" ++ cstr ",0.125")
  = Z.lxor (calculate_checksum true (cstr "L1,50"))
      (calculate_checksum true (cstr ",0.125")).
Proof.
  apply (xor_checksum_app true (cstr "L1,50") (cstr ",0.125")). reflexivity.
Defined.

Lemma nul_free_perm p p' : Permutation p p' -> nul_free p = nul_free p'.
Proof.
  induction 1; simpl; try congruence.
  destruct (is_nul x), (is_nul y); reflexivity.
Qed.

Lemma xor_state_perm sgn p p' :
  Permutation p p' -> nul_free p = true ->
  forall st, 0 <= st < 256 ->
  while_char (xor_byte sgn) st p = while_char (xor_byte sgn) st p'.
Proof.
  induction 1 as [|x l l' HP IH|x y l|l l' l'' H1 IH1 H2 IH2]; intros NF st R.
  - reflexivity.
  - simpl in *. apply andb_true_iff in NF as [Nx NF]. apply negb_true_iff in Nx.
    rewrite Nx. apply IH; [assumption|]. now apply xor_byte_range.
  - simpl in *. apply andb_true_iff in NF as [Ny NF].
    apply andb_true_iff in NF as [Nx NF].
    apply negb_true_iff in Nx, Ny. rewrite Nx, Ny.
    f_equal.
    pose proof (xor_byte_range sgn st x R) as Rx.
    pose proof (xor_byte_range sgn st y R) as Ry.
    rewrite (xor_byte_eq sgn _ x Ry), (xor_byte_eq sgn _ y Rx).
    rewrite !xor_byte_eq by assumption.
    rewrite !Z.lxor_assoc. f_equal. apply Z.lxor_comm.
  - rewrite IH1 by assumption. apply IH2; [|assumption].
    now rewrite <- (nul_free_perm _ _ H1).
Qed.

(** X2: the XOR checksum does not see the order of the payload bytes: every
    rearrangement of a payload without NUL bytes has the same checksum. *)
Theorem xor_checksum_permutation (char_signed : bool) (p p' : list byte) :
  Permutation p p' -> nul_free p = true ->
  calculate_checksum char_signed p' = calculate_checksum char_signed p.
Proof.
  intros HP NF. symmetry. unfold calculate_checksum.
  apply xor_state_perm; [assumption|assumption|lia].
Qed.

Lemma xor_checksum_permutation_witness :
  calculate_checksum false (cstr "L1,21,0.50") = calculate_checksum false (cstr "L1,12,0.50").
Proof.
  apply (xor_checksum_permutation false (cstr "L1,12,0.50") (cstr "L1,21,0.50")).
  - apply (Permutation_app_head (cstr "L1,")). apply perm_swap.
  - reflexivity.
Defined.

Lemma xor_checksum_fold sgn p :
  nul_free p = true ->
  calculate_checksum sgn p = fold_right (fun c acc => Z.lxor (byte_val c) acc) 0 p.
Proof.
  unfold calculate_checksum. induction p as [|c p IH]; intros NF; simpl in *; [reflexivity|].
  apply andb_true_iff in NF as [Nc NF]. apply negb_true_iff in Nc. rewrite Nc.
  rewrite xor_state_shift by (apply xor_byte_range; lia).
  rewrite xor_byte_eq by lia. rewrite Z.lxor_0_l. now rewrite IH.
Qed.

Lemma byte_val_flip_bit k b :
  (k < 8)%nat -> byte_val (flip_bit k b) = Z.lxor (byte_val b) (2 ^ Z.of_nat k).
Proof.
  intros Hk.
  do 8 (destruct k as [|k]; [destruct b; reflexivity|]). lia.
Qed.

Lemma fold_xor_flip_at k : forall p i,
  (i < List.length p)%nat -> (k < 8)%nat ->
  fold_right (fun c acc => Z.lxor (byte_val c) acc) 0 (flip_at i k p)
  = Z.lxor (fold_right (fun c acc => Z.lxor (byte_val c) acc) 0 p) (2 ^ Z.of_nat k).
Proof.
  induction p as [|c p IH]; intros i Hi Hk; simpl in Hi; [lia|].
  destruct i as [|i]; simpl.
  - rewrite byte_val_flip_bit by assumption.
    rewrite !Z.lxor_assoc. f_equal. apply Z.lxor_comm.
  - rewrite IH by (assumption || lia). now rewrite Z.lxor_assoc.
Qed.

Lemma flip_at_length k : forall p i, List.length (flip_at i k p) = List.length p.
Proof.
  induction p as [|c p IH]; intros i; destruct i; simpl; try reflexivity.
  now rewrite IH.
Qed.

(** X3: the XOR checksum misses every double error that inverts the same bit
    position in two bytes of the payload. *)
Theorem xor_double_flip_undetected (char_signed : bool) (p : list byte) (i j k : nat) :
  (i < List.length p)%nat -> (j < List.length p)%nat -> (k < 8)%nat ->
  nul_free p = true -> nul_free (flip_at j k (flip_at i k p)) = true ->
  calculate_checksum char_signed (flip_at j k (flip_at i k p))
  = calculate_checksum char_signed p.
Proof.
  intros Hi Hj Hk NF NF'.
  rewrite !xor_checksum_fold by assumption.
  rewrite !fold_xor_flip_at; try assumption.
  - now rewrite Z.lxor_assoc, Z.lxor_nilpotent, Z.lxor_0_r.
  - now rewrite flip_at_length.
Qed.

Lemma xor_double_flip_undetected_witness :
  calculate_checksum true (flip_at 5 0 (flip_at 3 0 (cstr "L1,50,0.125")))
  = calculate_checksum true (cstr "L1,50,0.125")
  /\ flip_at 5 0 (flip_at 3 0 (cstr "L1,50,0.125")) <> cstr "L1,50,0.125".
Proof.
  split.
  - apply (xor_double_flip_undetected true (cstr "L1,50,0.125") 3 5 0);
      try reflexivity; simpl; lia.
  - vm_compute. discriminate.
Defined.

(** *** CRC16: linearity and burst errors *)

Lemma land_top_bit x :
  0 <= x < 65536 -> Z.land x 0x8000 = 0 \/ Z.land x 0x8000 = 0x8000.
Proof.
  intros H. destruct (Z.testbit x 15) eqn:T; [right|left]; apply Z.bits_inj';
    intros n Hn; rewrite Z.land_spec;
    destruct (Z.eq_dec n 15) as [->|Ne].
  - now rewrite T.
  - replace (Z.testbit 0x8000 n) with false; [now rewrite andb_false_r|].
    change 0x8000 with (2 ^ 15). symmetry. apply Z.pow2_bits_false. lia.
  - rewrite T. now rewrite Z.bits_0.
  - rewrite Z.bits_0. replace (Z.testbit 0x8000 n) with false; [now rewrite andb_false_r|].
    change 0x8000 with (2 ^ 15). symmetry. apply Z.pow2_bits_false. lia.
Qed.

Lemma land_lxor_distr a b c : Z.land (Z.lxor a b) c = Z.lxor (Z.land a c) (Z.land b c).
Proof.
  apply Z.bits_inj'. intros n Hn.
  rewrite !Z.lxor_spec, !Z.land_spec, Z.lxor_spec.
  destruct (Z.testbit a n), (Z.testbit b n), (Z.testbit c n); reflexivity.
Qed.

Lemma to_ushort_lxor a b : to_ushort (Z.lxor a b) = Z.lxor (to_ushort a) (to_ushort b).
Proof. unfold to_ushort. change 65536 with (2 ^ 16). apply lxor_mod_pow2. lia. Qed.

(** One round of the CRC register is linear for exclusive or. *)
Lemma crc16_round_lxor a b :
  0 <= a < 65536 -> 0 <= b < 65536 ->
  crc16_round (Z.lxor a b) = Z.lxor (crc16_round a) (crc16_round b).
Proof.
  intros Ha Hb. unfold crc16_round.
  rewrite land_lxor_distr, !Z.shiftl_lxor.
  destruct (land_top_bit a Ha) as [Ea|Ea], (land_top_bit b Hb) as [Eb|Eb];
    rewrite Ea, Eb;
    [ change (negb (Z.lxor 0 0 =? 0)) with false
    | change (negb (Z.lxor 0 0x8000 =? 0)) with true
    | change (negb (Z.lxor 0x8000 0 =? 0)) with true
    | change (negb (Z.lxor 0x8000 0x8000 =? 0)) with false ];
    change (negb (0 =? 0)) with false; change (negb (0x8000 =? 0)) with true;
    cbv iota; rewrite ?to_ushort_lxor.
  - reflexivity.
  - now rewrite Z.lxor_assoc.
  - rewrite !Z.lxor_assoc. f_equal. apply Z.lxor_comm.
  - rewrite !Z.lxor_assoc. f_equal.
    rewrite (Z.lxor_comm (to_ushort 0x1021)), Z.lxor_assoc, Z.lxor_nilpotent.
    now rewrite Z.lxor_0_r.
Qed.

Lemma crc16_rounds_lxor n : forall a b,
  0 <= a < 65536 -> 0 <= b < 65536 ->
  crc16_rounds n (Z.lxor a b) = Z.lxor (crc16_rounds n a) (crc16_rounds n b).
Proof.
  induction n as [|n IH]; intros a b Ha Hb; simpl; [reflexivity|].
  rewrite crc16_round_lxor by assumption. apply IH; apply crc16_round_range.
Qed.

Lemma crc16_rounds_inv_ok n : forall x,
  0 <= x < 65536 -> crc16_rounds_inv n (crc16_rounds n x) = x.
Proof.
  induction n as [|n IH]; intros x H; [reflexivity|].
  cbn [crc16_rounds crc16_rounds_inv].
  rewrite IH by apply crc16_round_range. now apply crc16_round_inv_ok.
Qed.

Lemma crc16_rounds_0 n : crc16_rounds n 0 = 0.
Proof. induction n as [|n IH]; [reflexivity|]. exact IH. Qed.

Lemma zrange_In n z : 0 <= z < Z.of_nat n -> In z (zrange n).
Proof.
  intros H. unfold zrange. apply in_map_iff. exists (Z.to_nat z).
  split; [lia|]. apply in_seq. lia.
Qed.

Lemma byte_shift_range d : 0 <= d < 256 -> 0 <= d * 256 < 65536.
Proof. lia. Qed.

(** The register after one more character: eight rounds on the register with
    the character in its top byte. *)
Lemma crc16_byte_eq sgn st c :
  0 <= st < 65536 -> crc16_byte sgn st c = crc16_rounds 8 (Z.lxor st (byte_val c * 256)).
Proof. intros H. unfold crc16_byte. now rewrite crc16_pre_eq. Qed.

Lemma crc16_byte_range sgn st c : 0 <= crc16_byte sgn st c < 65536.
Proof. unfold crc16_byte. apply crc16_rounds_range, to_ushort_range. Qed.

Lemma crc16_state_range sgn p : forall st,
  0 <= st < 65536 -> 0 <= while_char (crc16_byte sgn) st p < 65536.
Proof.
  induction p as [|c p IH]; intros st H; simpl; [assumption|].
  destruct (is_nul c); [assumption|]. apply IH, crc16_byte_range.
Qed.

Lemma lxor_shift_byte a b : Z.lxor (a * 256) (b * 256) = Z.lxor a b * 256.
Proof.
  change 256 with (2 ^ 8). rewrite <- !Z.shiftl_mul_pow2 by lia.
  symmetry. apply Z.shiftl_lxor.
Qed.

(** The exclusive or of two registers after the same number of characters
    evolves like a register fed with the exclusive or of the characters. *)
Lemma crc16_byte_diff sgn s s' c c' :
  0 <= s < 65536 -> 0 <= s' < 65536 ->
  Z.lxor (crc16_byte sgn s c) (crc16_byte sgn s' c')
  = crc16_rounds 8 (Z.lxor (Z.lxor s s') (Z.lxor (byte_val c) (byte_val c') * 256)).
Proof.
  intros H H'. pose proof (byte_val_range c) as R. pose proof (byte_val_range c') as R'.
  rewrite !crc16_byte_eq by assumption.
  rewrite <- crc16_rounds_lxor by (apply (lxor_range 16); lia).
  f_equal. rewrite <- lxor_shift_byte.
  rewrite !Z.lxor_assoc. f_equal.
  rewrite <- !Z.lxor_assoc. f_equal. apply Z.lxor_comm.
Qed.

Lemma crc16_no_burst_false D m k :
  0 < m < 65536 -> 0 <= k <= 8 -> D = m * 2 ^ k -> crc16_no_burst D = false.
Proof.
  intros Hm Hk ->. unfold crc16_no_burst.
  apply not_true_is_false. intros F. rewrite forallb_forall in F.
  assert (In k [0; 1; 2; 3; 4; 5; 6; 7; 8]) as I by (simpl; lia).
  specialize (F k I). apply negb_true_iff in F.
  assert (0 < 2 ^ k) as P by (apply Z.pow_pos_nonneg; lia).
  rewrite Z.mod_mul, Z.div_mul in F by lia.
  rewrite Z.eqb_refl in F. simpl in F. apply Z.ltb_ge in F. lia.
Qed.

Lemma crc16_burst_check_on_sound firsts thirds d1 d3 :
  crc16_burst_check_on firsts thirds = true -> In d1 firsts -> In d3 thirds ->
  let w := Z.lxor (crc16_rounds 8 (d1 * 256)) (crc16_rounds_inv 8 (d3 * 256)) in
  w mod 256 = 0 ->
  d1 * 65536 + w + d3 = 0 \/ crc16_no_burst (d1 * 65536 + w + d3) = true.
Proof.
  intros T I1 I3 w Hw. unfold crc16_burst_check_on in T. cbv zeta in T.
  rewrite forallb_forall in T. specialize (T d1 I1). cbv zeta in T.
  rewrite forallb_forall in T.
  specialize (T (d3, crc16_rounds_inv 8 (d3 * 256))). cbn [fst snd] in T.
  fold w in T. rewrite Hw, Z.eqb_refl in T.
  assert (In (d3, crc16_rounds_inv 8 (d3 * 256))
            (map (fun d => (d, crc16_rounds_inv 8 (d * 256))) thirds)) as I
    by (apply in_map_iff; exists d3; split; [reflexivity|assumption]).
  specialize (T I). apply orb_true_iff in T as [T|T]; [left|right]; [|assumption].
  now apply Z.eqb_eq.
Qed.

Lemma crc16_burst_table_ok : crc16_burst_check_on (zrange 256) (zrange 256) = true.
Proof. vm_compute. reflexivity. Qed.

(** Three error bytes forming a burst never cancel in the register. *)
Lemma crc16_burst_residue d1 d2 d3 m k :
  0 <= d1 < 256 -> 0 <= d2 < 256 -> 0 <= d3 < 256 ->
  0 < m < 65536 -> 0 <= k <= 8 ->
  d1 * 65536 + d2 * 256 + d3 = m * 2 ^ k ->
  crc16_rounds 8 (Z.lxor (crc16_rounds 8 (Z.lxor (crc16_rounds 8 (d1 * 256)) (d2 * 256)))
                    (d3 * 256)) <> 0.
Proof.
  intros H1 H2 H3 Hm Hk ED E.
  pose proof (crc16_burst_check_on_sound (zrange 256) (zrange 256) d1 d3
                crc16_burst_table_ok (zrange_In 256 d1 ltac:(lia))
                (zrange_In 256 d3 ltac:(lia))) as T.
  cbv zeta in T.
  set (t := crc16_rounds 8 (d1 * 256)) in *.
  assert (0 <= t < 65536) as Rt by (apply crc16_rounds_range; lia).
  set (v := crc16_rounds 8 (Z.lxor t (d2 * 256))) in *.
  assert (0 <= v < 65536) as Rv
    by (apply crc16_rounds_range, (lxor_range 16); lia).
  (* undo the last eight rounds, then the middle ones *)
  rewrite <- (crc16_rounds_0 8) in E.
  apply crc16_rounds_inj in E; [|apply (lxor_range 16); lia|lia].
  assert (v = d3 * 256) as Ev.
  { apply (lxor_cancel_r _ _ (d3 * 256)). now rewrite E, Z.lxor_nilpotent. }
  assert (Z.lxor t (d2 * 256) = crc16_rounds_inv 8 (d3 * 256)) as Eu.
  { rewrite <- Ev. unfold v. symmetry. apply crc16_rounds_inv_ok.
    apply (lxor_range 16); lia. }
  assert (Z.lxor t (crc16_rounds_inv 8 (d3 * 256)) = d2 * 256) as Ew.
  { rewrite <- Eu, <- Z.lxor_assoc, Z.lxor_nilpotent. apply Z.lxor_0_l. }
  rewrite Ew in T. rewrite Z.mod_mul in T by lia.
  assert (0 < m * 2 ^ k) by (apply Z.mul_pos_pos; [lia|apply Z.pow_pos_nonneg; lia]).
  destruct (T eq_refl) as [T0|T0]; [lia|].
  rewrite (crc16_no_burst_false _ m k Hm Hk) in T0; [discriminate|]. lia.
Qed.

(** X4: any burst error of at most 16 bits changes the CRC16: two payloads
    without NUL bytes that differ only inside three consecutive bytes, by an
    error pattern [m * 2^k] of the 24 bits with [m < 2^16], never have the
    same CRC. *)
Theorem crc16_burst_detected (char_signed : bool) (pre post : list byte)
    (a1 a2 a3 b1 b2 b3 : byte) (m k : Z) :
  nul_free (pre ++ a1 :: a2 :: a3 :: post) = true ->
  nul_free (pre ++ b1 :: b2 :: b3 :: post) = true ->
  0 < m < 65536 -> 0 <= k <= 8 ->
  Z.lxor (byte_val a1) (byte_val b1) * 65536
  + Z.lxor (byte_val a2) (byte_val b2) * 256
  + Z.lxor (byte_val a3) (byte_val b3) = m * 2 ^ k ->
  crc16_ccitt char_signed (pre ++ a1 :: a2 :: a3 :: post)
  <> crc16_ccitt char_signed (pre ++ b1 :: b2 :: b3 :: post).
Proof.
  intros NFa NFb Hm Hk ED. unfold crc16_ccitt.
  rewrite nul_free_app in NFa, NFb.
  apply andb_true_iff in NFa as [NFpre NFa]. apply andb_true_iff in NFb as [_ NFb].
  rewrite !while_char_app by assumption.
  set (s := while_char (crc16_byte char_signed) 65535 pre).
  assert (0 <= s < 65536) as Rs by (apply crc16_state_range; lia).
  simpl in NFa, NFb.
  repeat (apply andb_true_iff in NFa as [?N NFa]).
  repeat (apply andb_true_iff in NFb as [?N NFb]).
  repeat match goal with H : negb _ = true |- _ => apply negb_true_iff in H end.
  cbn [while_char].
  repeat match goal with H : is_nul _ = false |- _ => rewrite H end.
  intros E.
  apply (while_char_inj_state (crc16_byte char_signed) 65536) in E;
    try assumption; try apply crc16_byte_range.
  2:{ intros st c _. apply crc16_byte_range. }
  2:{ intros st st' c H H' Eq. rewrite !crc16_byte_eq in Eq by assumption.
      apply crc16_rounds_inj in Eq; try (apply (lxor_range 16); try lia;
        pose proof (byte_val_range c); lia).
      now apply lxor_cancel_r in Eq. }
  pose proof (byte_val_range a1). pose proof (byte_val_range a2).
  pose proof (byte_val_range a3). pose proof (byte_val_range b1).
  pose proof (byte_val_range b2). pose proof (byte_val_range b3).
  assert (forall x y, 0 <= x < 256 -> 0 <= y < 256 -> 0 <= Z.lxor x y < 256) as R8
    by (intros; apply (lxor_range 8); lia).
  apply (crc16_burst_residue _ _ _ m k (R8 _ _ H H2) (R8 _ _ H0 H3) (R8 _ _ H1 H4) Hm Hk ED).
  pose proof (crc16_byte_diff char_signed s s a1 b1 Rs Rs) as X1.
  rewrite Z.lxor_nilpotent, Z.lxor_0_l in X1.
  pose proof (crc16_byte_diff char_signed _ _ a2 b2
                (crc16_byte_range char_signed s a1) (crc16_byte_range char_signed s b1)) as X2.
  rewrite X1 in X2.
  pose proof (crc16_byte_diff char_signed _ _ a3 b3
                (crc16_byte_range char_signed (crc16_byte char_signed s a1) a2)
                (crc16_byte_range char_signed (crc16_byte char_signed s b1) b2)) as X3.
  rewrite X2 in X3. rewrite <- X3, E. apply Z.lxor_nilpotent.
Qed.

Lemma crc16_burst_detected_witness :
  crc16_ccitt true (cstr "L2,1" ++ "2"%byte :: "."%byte :: "5"%byte :: cstr "0")
  <> crc16_ccitt true (cstr "L2,1" ++ "3"%byte :: "/"%byte :: "5"%byte :: cstr "0").
Proof.
  apply (crc16_burst_detected true (cstr "L2,1") (cstr "0") _ _ _ _ _ _ 257 8);
    try reflexivity; lia.
Defined.

(** ** The time base *)

Lemma llong_small z : - 2 ^ 63 <= z < 2 ^ 63 -> llong z = Some z.
Proof.
  intros H. unfold llong.
  destruct (- 2 ^ 63 <=? z) eqn:A; [|apply Z.leb_gt in A; lia].
  destruct (z <? 2 ^ 63) eqn:B; [reflexivity|apply Z.ltb_ge in B; lia].
Qed.

Lemma millis_since_value start now :
  timeval_ok start -> timeval_ok now ->
  millis_since start now
  = Some ((tv_sec now - tv_sec start) * 1000
          + Z.quot (tv_usec now - tv_usec start) 1000).
Proof.
  intros [[S0 S1] [U0 U1]] [[S0' S1'] [U0' U1']]. unfold millis_since.
  change (2 ^ 50) with 1125899906842624 in *.
  assert (-1000 < Z.quot (tv_usec now - tv_usec start) 1000 < 1000) as QB
    by (Z.to_euclidean_division_equations; lia).
  assert (forall z, -9223372036854775808 <= z < 9223372036854775808 -> llong z = Some z)
    as Small by (intros z Hz; apply llong_small; change (2 ^ 63) with 9223372036854775808; lia).
  rewrite !Small by lia. reflexivity.
Qed.

(** X5: within the range of real clock readings [millis_since] never overflows;
    for a reading not earlier than the start, its result is not negative and
    is the elapsed time in milliseconds rounded down when the microsecond
    field has not decreased, rounded up when it has. *)
Theorem millis_since_elapsed (start now : timeval) :
  timeval_ok start -> timeval_ok now -> micros start <= micros now ->
  exists ms : Z,
    millis_since start now = Some ms
    /\ 0 <= ms
    /\ (tv_usec start <= tv_usec now ->
        1000 * ms <= micros now - micros start < 1000 * ms + 1000)
    /\ (tv_usec now < tv_usec start ->
        1000 * ms - 1000 < micros now - micros start <= 1000 * ms).
Proof.
  intros Hs Hn Le. rewrite (millis_since_value start now Hs Hn).
  eexists. split; [reflexivity|].
  destruct Hs as [[S0 S1] [U0 U1]], Hn as [[S0' S1'] [U0' U1']].
  unfold micros in *. change (2 ^ 50) with 1125899906842624 in *.
  repeat split; intros; Z.to_euclidean_division_equations; lia.
Qed.

Lemma millis_since_elapsed_witness :
  exists ms : Z,
    millis_since {| tv_sec := 10; tv_usec := 999999 |} {| tv_sec := 11; tv_usec := 0 |}
    = Some ms
    /\ 0 <= ms
    /\ (999999 <= 0 -> 1000 * ms <= 1 < 1000 * ms + 1000)
    /\ (0 < 999999 -> 1000 * ms - 1000 < 1 <= 1000 * ms).
Proof.
  apply (millis_since_elapsed {| tv_sec := 10; tv_usec := 999999 |}
           {| tv_sec := 11; tv_usec := 0 |}).
  - unfold timeval_ok. simpl. lia.
  - unfold timeval_ok. simpl. lia.
  - unfold micros. simpl. lia.
Defined.

(** X6: the millisecond counter never runs backwards when the clock does not. *)
Theorem millis_since_monotone (start now now' : timeval) :
  timeval_ok start -> timeval_ok now -> timeval_ok now' ->
  micros now <= micros now' ->
  exists ms ms' : Z,
    millis_since start now = Some ms /\ millis_since start now' = Some ms'
    /\ ms <= ms'.
Proof.
  intros Hs Hn Hn' Le.
  rewrite (millis_since_value start now Hs Hn), (millis_since_value start now' Hs Hn').
  do 2 eexists. split; [reflexivity|]. split; [reflexivity|].
  destruct Hs as [[S0 S1] [U0 U1]], Hn as [[A0 A1] [B0 B1]], Hn' as [[A0' A1'] [B0' B1']].
  unfold micros in *. change (2 ^ 50) with 1125899906842624 in *.
  Z.to_euclidean_division_equations; lia.
Qed.

Lemma millis_since_monotone_witness :
  exists ms ms' : Z,
    millis_since {| tv_sec := 10; tv_usec := 999999 |} {| tv_sec := 11; tv_usec := 999 |}
    = Some ms
    /\ millis_since {| tv_sec := 10; tv_usec := 999999 |} {| tv_sec := 12; tv_usec := 0 |}
       = Some ms'
    /\ ms <= ms'.
Proof.
  apply (millis_since_monotone {| tv_sec := 10; tv_usec := 999999 |}
           {| tv_sec := 11; tv_usec := 999 |} {| tv_sec := 12; tv_usec := 0 |});
    unfold timeval_ok, micros; simpl; lia.
Defined.

(** ** The numbers written in a frame *)

Lemma digit_value_char d : 0 <= d < 16 -> digit_value (digit_char d) = Some d.
Proof.
  intros H.
  assert (d = 0 \/ d = 1 \/ d = 2 \/ d = 3 \/ d = 4 \/ d = 5 \/ d = 6 \/ d = 7
          \/ d = 8 \/ d = 9 \/ d = 10 \/ d = 11 \/ d = 12 \/ d = 13 \/ d = 14
          \/ d = 15) as C by lia.
  repeat (destruct C as [->|C]; [reflexivity|]). subst d. reflexivity.
Qed.

Lemma number_from_digits base ds : forall acc,
  base <= 16 -> Forall (fun d => 0 <= d < base) ds ->
  number_from base acc (map digit_char ds)
  = Some (fold_left (fun a d => a * base + d) ds acc).
Proof.
  induction ds as [|d ds IH]; intros acc Hb F; simpl; [reflexivity|].
  inversion F as [|? ? Hd Hds]; subst.
  rewrite digit_value_char by lia.
  destruct (d <? base) eqn:E; [|apply Z.ltb_ge in E; lia].
  now apply IH.
Qed.

Lemma fold_digits_app base a b acc :
  fold_left (fun a d => a * base + d) (a ++ b) acc
  = fold_left (fun a d => a * base + d) b (fold_left (fun a d => a * base + d) a acc).
Proof. apply fold_left_app. Qed.

(** The digits produced for [n] write [n]. *)
Lemma to_digits_value base fuel : forall n,
  1 < base -> 0 <= n < base ^ Z.of_nat fuel ->
  fold_left (fun a d => a * base + d) (to_digits base fuel n) 0 = n.
Proof.
  induction fuel as [|fuel IH]; intros n Hb Hn.
  - simpl in Hn. change (base ^ 0) with 1 in Hn. simpl. lia.
  - cbn [to_digits]. destruct (n <? base) eqn:E; [simpl; lia|].
    apply Z.ltb_ge in E. rewrite fold_left_app. cbn [fold_left].
    rewrite IH; [|assumption|].
    + pose proof (Z.div_mod n base ltac:(lia)). lia.
    + split; [apply Z.div_pos; lia|].
      apply Z.div_lt_upper_bound; [lia|].
      rewrite Nat2Z.inj_succ, Z.pow_succ_r in Hn by lia. lia.
Qed.

Lemma digits_value base n :
  1 < base -> 0 <= n ->
  fold_left (fun a d => a * base + d) (digits base n) 0 = n.
Proof.
  intros Hb Hn. unfold digits. apply to_digits_value; [assumption|].
  split; [assumption|].
  destruct (Z.eq_dec n 0) as [->|NZ].
  - change (Z.of_nat (S (Z.to_nat (Z.log2 0)))) with 1. rewrite Z.pow_1_r. lia.
  - rewrite Nat2Z.inj_succ, Z2Nat.id by apply Z.log2_nonneg.
    pose proof (Z.log2_spec n ltac:(lia)) as [_ Hi].
    apply Z.lt_le_trans with (2 ^ Z.succ (Z.log2 n)); [assumption|].
    apply Z.pow_le_mono_l. lia.
Qed.

Lemma number_of_map base ds :
  ds <> [] -> number_of base (map digit_char ds) = number_from base 0 (map digit_char ds).
Proof. destruct ds; [congruence|reflexivity]. Qed.

Lemma number_of_dec_text n : 0 <= n -> number_of 10 (dec_text n) = Some n.
Proof.
  intros H. unfold dec_text.
  rewrite number_of_map by (unfold digits; apply to_digits_nonempty).
  rewrite number_from_digits; try lia.
  - now rewrite digits_value by lia.
  - apply to_digits_range; lia.
Qed.

Lemma dec_text_head_digit n : 0 <= n ->
  exists c r, dec_text n = c :: r /\ is_digit c = true.
Proof.
  intros H. pose proof (dec_text_nonempty n) as NE.
  pose proof (dec_text_digits n H) as D.
  destruct (dec_text n) as [|c r]; [congruence|].
  simpl in D. apply andb_true_iff in D as [D _]. eauto.
Qed.

Lemma int_of_text_digit c r :
  is_digit c = true -> int_of_text (c :: r) = number_of 10 (c :: r).
Proof. destruct c; try discriminate; reflexivity. Qed.

Lemma int_of_fmt_lld n : int_of_text (fmt_lld n) = Some n.
Proof.
  unfold fmt_lld. destruct (n <? 0) eqn:E.
  - apply Z.ltb_lt in E. cbn [int_of_text].
    rewrite number_of_dec_text by lia. simpl. f_equal. lia.
  - apply Z.ltb_ge in E.
    destruct (dec_text_head_digit n E) as (c & r & Eq & D).
    rewrite Eq, int_of_text_digit by assumption. rewrite <- Eq.
    now apply number_of_dec_text.
Qed.

Lemma fixed2_of_fixed2_text s h :
  0 <= h -> fixed2_of_text (fixed2_text s h) = Some (s, h).
Proof.
  intros H. unfold fixed2_text.
  assert (0 <= h mod 100 < 100) as M by (apply Z.mod_pos_bound; lia).
  assert (0 <= h mod 100 / 10 < 10) as D1
    by (split; [apply Z.div_pos; lia | apply Z.div_lt_upper_bound; lia]).
  assert (0 <= h mod 10 < 10) as D2 by (apply Z.mod_pos_bound; lia).
  assert (0 <= h / 100) as Hq by (apply Z.div_pos; lia).
  destruct (dec_text_head_digit (h / 100) Hq) as (c & r & Eq & Dc).
  set (tl := ["."%byte; digit_char (h mod 100 / 10); digit_char (h mod 10)]).
  change (sign_text s ++ dec_text (h / 100)
            ++ "."%byte :: digit_char (h mod 100 / 10) :: digit_char (h mod 10) :: [])
    with (sign_text s ++ dec_text (h / 100) ++ tl).
  assert (fixed2_of_text (sign_text s ++ dec_text (h / 100) ++ tl)
          = match rev (dec_text (h / 100) ++ tl) with
            | d2 :: d1 :: "."%byte :: int_rev =>
                match number_of 10 (rev int_rev), number_of 10 [d1; d2] with
                | Some i, Some f => Some (s, i * 100 + f)
                | _, _ => None
                end
            | _ => None
            end) as ->.
  { unfold fixed2_of_text. destruct s; cbn [sign_text app]; [reflexivity|].
    rewrite Eq. cbn [app]. destruct c; try discriminate; reflexivity. }
  rewrite rev_app_distr. unfold tl. cbn [rev app].
  rewrite rev_involutive, number_of_dec_text by assumption.
  change [digit_char (h mod 100 / 10); digit_char (h mod 10)]
    with (map digit_char [h mod 100 / 10; h mod 10]).
  rewrite number_of_map by discriminate.
  rewrite number_from_digits by (try lia; repeat constructor; lia).
  cbn [fold_left]. do 2 f_equal.
  pose proof (Z.div_mod h 100 ltac:(lia)).
  pose proof (Z.div_mod (h mod 100) 10 ltac:(lia)).
  assert (h mod 100 mod 10 = h mod 10) as <-; [|lia].
  symmetry. rewrite <- (Z.mod_mod_divide h 100 10); [reflexivity|].
  exists 10. reflexivity.
Qed.

(** Scaling a magnitude by [k] and rounding to the nearest integer, as
    [hundredths] and [thousandths] do. *)
Lemma scaled_round_accuracy (k : Z) m e :
  0 < k ->
  (Rabs (IZR (if 0 <=? e then Zpos m * k * 2 ^ e
              else div_nearest_even (Zpos m * k) (2 ^ (- e)))
         - IZR k * (IZR (Zpos m) * bpow e)) <= / 2)%R.
Proof.
  intros Hk. destruct (0 <=? e) eqn:E.
  - apply Z.leb_le in E. rewrite !mult_IZR, <- bpow_IZR by assumption.
    replace (IZR (Z.pos m) * IZR k * bpow e - IZR k * (IZR (Z.pos m) * bpow e))%R
      with 0%R by ring.
    rewrite Rabs_R0. lra.
  - apply Z.leb_gt in E.
    assert (0 < 2 ^ (- e)) as Pd by (apply Z.pow_pos_nonneg; lia).
    assert (bpow e = / IZR (2 ^ (- e)))%R as ->.
    { replace e with (- (- e)) at 1 by lia. apply bpow_neg_IZR. lia. }
    set (d := 2 ^ (- e)) in *. set (n := Zpos m * k).
    assert (0 < IZR d)%R as PdR by (apply IZR_lt; exact Pd).
    replace (IZR k * (IZR (Z.pos m) * / IZR d))%R with (IZR n / IZR d)%R
      by (unfold n; rewrite mult_IZR; field; lra).
    clearbody d n.
    pose proof (Z.div_mod n d ltac:(lia)) as DM.
    pose proof (Z.mod_pos_bound n d Pd) as MB.
    assert (IZR n / IZR d = IZR (n / d) + IZR (n mod d) / IZR d)%R as ->.
    { rewrite DM at 1. rewrite plus_IZR, mult_IZR. field. lra. }
    assert (0 <= IZR (n mod d) < IZR d)%R as [R0 R1]
      by (split; [apply IZR_le | apply IZR_lt]; lia).
    assert ((2 * (n mod d) <= d -> (IZR (n mod d) / IZR d <= / 2)%R)
            /\ (d <= 2 * (n mod d) -> (/ 2 <= IZR (n mod d) / IZR d)%R)) as [Le Ge].
    { split; intros H; apply Rmult_le_reg_r with (IZR d); try assumption;
        unfold Rdiv; rewrite Rmult_assoc, Rinv_l by lra;
        apply IZR_le in H; rewrite mult_IZR in H; lra. }
    assert (0 <= IZR (n mod d) / IZR d < 1)%R as [Q0 Q1].
    { split.
      - apply Rmult_le_pos; [assumption|]. left. now apply Rinv_0_lt_compat.
      - apply Rmult_lt_reg_r with (IZR d); [assumption|].
        unfold Rdiv. rewrite Rmult_assoc, Rinv_l by lra. lra. }
    unfold div_nearest_even. cbv zeta.
    destruct (2 * (n mod d) ?= d) eqn:C.
    + apply Z.compare_eq in C.
      specialize (Le ltac:(lia)). specialize (Ge ltac:(lia)).
      destruct (Z.even (n / d)); rewrite ?plus_IZR; apply Rabs_le; lra.
    + rewrite Z.compare_lt_iff in C. specialize (Le ltac:(lia)).
      apply Rabs_le; lra.
    + rewrite Z.compare_gt_iff in C. specialize (Ge ltac:(lia)).
      rewrite plus_IZR. apply Rabs_le; lra.
Qed.

(** [hundredths] is the magnitude times 100, rounded to the nearest integer. *)
Lemma hundredths_accuracy m e :
  (Rabs (IZR (hundredths m e) - 100 * (IZR (Zpos m) * bpow e)) <= / 2)%R.
Proof. apply (scaled_round_accuracy 100). lia. Qed.

Lemma fmt_2f_rounds (neg : bool) x :
  is_finite x = true ->
  exists sh, fixed2_of_text (fmt_2f neg x) = Some sh /\ rounds_to x sh.
Proof.
  destruct x as [s|s| |s m e]; try discriminate; intros _; cbn [fmt_2f].
  - exists (s, 0). split; [now apply fixed2_of_fixed2_text|].
    unfold rounds_to. cbn [fst snd B2R].
    replace (sign_factor s * 0 / 100 - 0)%R with 0%R by (unfold Rdiv; ring).
    rewrite Rabs_R0. lra.
  - exists (s, hundredths m e).
    split; [apply fixed2_of_fixed2_text, hundredths_nonneg|].
    unfold rounds_to. cbn [fst snd]. rewrite B2R_finite.
    replace (sign_factor s * IZR (hundredths m e) / 100
             - sign_factor s * (IZR (Z.pos m) * bpow e))%R
      with (sign_factor s * ((IZR (hundredths m e) - 100 * (IZR (Z.pos m) * bpow e)) / 100))%R
      by (unfold Rdiv; field).
    rewrite Rabs_sign_factor.
    pose proof (hundredths_accuracy m e) as A. apply Rabs_le_inv in A.
    apply Rabs_le. lra.
Qed.

Lemma number_of_fmt_04X n :
  0 <= n < 65536 ->
  number_of 16 (fmt_04X n) = Some n /\ List.length (fmt_04X n) = 4%nat.
Proof.
  intros H. rewrite fmt_04X_nibbles by assumption. split; [|reflexivity].
  rewrite number_of_map by discriminate.
  unfold nibbles. rewrite number_from_digits.
  - cbn [fold_left]. f_equal. Z.to_euclidean_division_equations. lia.
  - lia.
  - repeat constructor; Z.to_euclidean_division_equations; lia.
Qed.

Lemma digit_char_plain d :
  0 <= d < 16 -> digit_char d <> "*"%byte /\ digit_char d <> "010"%byte.
Proof.
  intros H.
  assert (d = 0 \/ d = 1 \/ d = 2 \/ d = 3 \/ d = 4 \/ d = 5 \/ d = 6 \/ d = 7
          \/ d = 8 \/ d = 9 \/ d = 10 \/ d = 11 \/ d = 12 \/ d = 13 \/ d = 14
          \/ d = 15) as C by lia.
  repeat (destruct C as [->|C]; [split; discriminate|]). subst d. split; discriminate.
Qed.

Lemma fmt_04X_plain n :
  0 <= n < 65536 -> ~ In "*"%byte (fmt_04X n) /\ ~ In "010"%byte (fmt_04X n).
Proof.
  intros H. rewrite fmt_04X_nibbles by assumption.
  assert (Forall (fun d => 0 <= d < 16) (nibbles n)) as F
    by (unfold nibbles; repeat constructor; Z.to_euclidean_division_equations; lia).
  rewrite Forall_forall in F.
  split; intros I; apply in_map_iff in I as [d [E Hd]];
    destruct (digit_char_plain d (F d Hd)); congruence.
Qed.

(** X7: a frame of [main] read back: the receiver's checks succeed (delimiters,
    width and value of the checksum, tag, number of fields), the timestamp
    comes back unchanged and each of the five numbers comes back rounded to
    two decimals, within 0.005 of the value sent.  (The five numbers are
    finite and the text fits the 200-byte buffer.) *)
Theorem l2_frame_round_trip (char_signed : bool) (nan_sign : nat -> bool) (ts : Z)
    (roll pitch yaw altitude temperature : spec_float) :
  (List.length (l2_payload_text nan_sign ts roll pitch yaw altitude temperature) < 200)%nat ->
  is_finite roll = true -> is_finite pitch = true -> is_finite yaw = true ->
  is_finite altitude = true -> is_finite temperature = true ->
  exists r p y a t : bool * Z,
    decode_l2 char_signed (l2_frame char_signed nan_sign ts roll pitch yaw altitude temperature)
    = Some (ts, [r; p; y; a; t])
    /\ rounds_to roll r /\ rounds_to pitch p /\ rounds_to yaw y
    /\ rounds_to altitude a /\ rounds_to temperature t.
Proof.
  intros Hlen Fr Fp Fy Fa Ft.
  destruct (l2_payload_plain nan_sign ts roll pitch yaw altitude temperature)
    as (NF & _ & NS & Fields).
  destruct (fmt_2f_rounds (nan_sign 0%nat) roll Fr) as (r & Er & Rr).
  destruct (fmt_2f_rounds (nan_sign 1%nat) pitch Fp) as (p & Ep & Rp).
  destruct (fmt_2f_rounds (nan_sign 2%nat) yaw Fy) as (y & Ey & Ry).
  destruct (fmt_2f_rounds (nan_sign 3%nat) altitude Fa) as (a & Ea & Ra).
  destruct (fmt_2f_rounds (nan_sign 4%nat) temperature Ft) as (t & Et & Rt).
  exists r, p, y, a, t. split; [|auto].
  unfold l2_frame, snprintf. rewrite firstn_all2 by lia.
  rewrite before_nul_nul_free by assumption.
  set (payload := l2_payload_text nan_sign ts roll pitch yaw altitude temperature) in *.
  pose proof (crc16_ccitt_range char_signed payload) as Rc.
  destruct (number_of_fmt_04X _ Rc) as [Hex Len].
  destruct (fmt_04X_plain _ Rc) as [HS HN].
  set (hex := fmt_04X (crc16_ccitt char_signed payload)) in *.
  unfold decode_l2.
  rewrite (split_on_field "*"%byte payload (hex ++ ["010"%byte])) by assumption.
  rewrite split_on_last.
  2:{ intros I. apply in_app_or in I as [I|[I|[]]]; [tauto|discriminate]. }
  rewrite (split_on_field "010"%byte hex []) by assumption.
  cbn [split_on]. rewrite Hex, Len, Z.eqb_refl. cbn [Nat.eqb andb].
  rewrite Fields. cbn [list_byte_eqb].
  change (list_byte_eqb (cstr "L2") (cstr "L2")) with true. cbv iota.
  now rewrite int_of_fmt_lld, Er, Ep, Ey, Ea, Et.
Qed.

Lemma l2_frame_round_trip_witness :
  exists r p y a t : bool * Z,
    decode_l2 true
      (l2_frame true (fun _ => false) 1234 (F32.lit 15 10) (F32.neg (F32.lit 25 100))
         (F32.lit 1234 100) (F32.lit 10005 100) (F32.lit 30 1))
    = Some (1234, [r; p; y; a; t])
    /\ rounds_to (F32.lit 15 10) r /\ rounds_to (F32.neg (F32.lit 25 100)) p
    /\ rounds_to (F32.lit 1234 100) y
    /\ rounds_to (F32.lit 10005 100) a /\ rounds_to (F32.lit 30 1) t.
Proof.
  apply (l2_frame_round_trip true (fun _ => false) 1234 (F32.lit 15 10) (F32.neg (F32.lit 25 100))
           (F32.lit 1234 100) (F32.lit 10005 100) (F32.lit 30 1)).
  - vm_compute. lia.
  - reflexivity.
  - reflexivity.
  - reflexivity.
  - reflexivity.
  - reflexivity.
Defined.

(** *** The size of a frame *)

Lemma to_digits_length base fuel : forall n k,
  1 < base -> 0 <= n < base ^ Z.of_nat k -> (1 <= k)%nat ->
  (List.length (to_digits base fuel n) <= k)%nat.
Proof.
  induction fuel as [|fuel IH]; intros n k Hb Hn Hk; cbn [to_digits]; [simpl; lia|].
  destruct (n <? base) eqn:E; [simpl; lia|].
  apply Z.ltb_ge in E. rewrite length_app. cbn [List.length].
  destruct k as [|[|k]]; [lia| |].
  - change (Z.of_nat 1) with 1 in Hn. rewrite Z.pow_1_r in Hn. lia.
  - assert (List.length (to_digits base fuel (n / base)) <= S k)%nat; [|lia].
    apply IH; [assumption| |lia].
    split; [apply Z.div_pos; lia|].
    apply Z.div_lt_upper_bound; [lia|].
    rewrite (Nat2Z.inj_succ (S k)), Z.pow_succ_r in Hn by lia. lia.
Qed.

Lemma dec_text_length n k :
  0 <= n < 10 ^ Z.of_nat k -> (1 <= k)%nat -> (List.length (dec_text n) <= k)%nat.
Proof.
  intros Hn Hk. unfold dec_text, digits. rewrite length_map.
  apply to_digits_length; [lia|assumption|assumption].
Qed.

Lemma fmt_lld_length n :
  - 2 ^ 63 <= n < 2 ^ 63 -> (List.length (fmt_lld n) <= 20)%nat.
Proof.
  intros H. unfold fmt_lld.
  change (2 ^ 63) with 9223372036854775808 in H.
  assert (forall z, 0 <= z <= 9223372036854775808 -> (List.length (dec_text z) <= 19)%nat) as D.
  { intros z Hz. apply dec_text_length; [|lia].
    change (10 ^ Z.of_nat 19) with 10000000000000000000. lia. }
  destruct (n <? 0) eqn:E.
  - apply Z.ltb_lt in E. cbn [List.length]. specialize (D (- n) ltac:(lia)). lia.
  - apply Z.ltb_ge in E. specialize (D n ltac:(lia)). lia.
Qed.

Lemma sign_text_length s : (List.length (sign_text s) <= 1)%nat.
Proof. destruct s; simpl; lia. Qed.

Lemma fmt_2f_length (neg : bool) x :
  is_finite x = true -> (Rabs (B2R x) <= 1000000000)%R ->
  (List.length (fmt_2f neg x) <= 14)%nat.
Proof.
  assert (forall s h, 0 <= h <= 100000000000 ->
            (List.length (fixed2_text s h) <= 14)%nat) as F.
  { intros s h Hh. unfold fixed2_text. rewrite !length_app. cbn [List.length].
    pose proof (sign_text_length s).
    assert (List.length (dec_text (h / 100)) <= 10)%nat; [|lia].
    apply dec_text_length; [|lia].
    change (10 ^ Z.of_nat 10) with 10000000000.
    Z.to_euclidean_division_equations. lia. }
  destruct x as [s|s| |s m e]; try discriminate; intros _ B; cbn [fmt_2f].
  - apply F. lia.
  - apply F. split; [apply hundredths_nonneg|].
    rewrite B2R_abs_finite in B.
    pose proof (hundredths_accuracy m e) as A. apply Rabs_le_inv in A.
    assert (IZR (hundredths m e) < IZR 100000000001)%R as L by lra.
    apply lt_IZR in L. lia.
Qed.

(** X8: the payload of a Level-2 frame fits its 200-byte buffer whenever the
    timestamp is a [long long] and the five numbers are finite and at most
    10^9 in magnitude: nothing is cut off. *)
Theorem l2_payload_fits (nan_sign : nat -> bool) (ts : Z)
    (roll pitch yaw altitude temperature : spec_float) :
  - 2 ^ 63 <= ts < 2 ^ 63 ->
  is_finite roll = true -> is_finite pitch = true -> is_finite yaw = true ->
  is_finite altitude = true -> is_finite temperature = true ->
  (Rabs (B2R roll) <= 1000000000)%R -> (Rabs (B2R pitch) <= 1000000000)%R ->
  (Rabs (B2R yaw) <= 1000000000)%R -> (Rabs (B2R altitude) <= 1000000000)%R ->
  (Rabs (B2R temperature) <= 1000000000)%R ->
  (List.length (l2_payload_text nan_sign ts roll pitch yaw altitude temperature) <= 98)%nat
  /\ snprintf 200 (l2_payload_text nan_sign ts roll pitch yaw altitude temperature)
     = l2_payload_text nan_sign ts roll pitch yaw altitude temperature.
Proof.
  intros Hts Fr Fp Fy Fa Ft Br Bp By Ba Bt.
  assert (List.length (l2_payload_text nan_sign ts roll pitch yaw altitude temperature) <= 98)%nat
    as L.
  { unfold l2_payload_text.
    repeat first [rewrite length_app | progress cbn [List.length]].
    pose proof (fmt_lld_length ts Hts).
    pose proof (fmt_2f_length (nan_sign 0%nat) roll Fr Br).
    pose proof (fmt_2f_length (nan_sign 1%nat) pitch Fp Bp).
    pose proof (fmt_2f_length (nan_sign 2%nat) yaw Fy By).
    pose proof (fmt_2f_length (nan_sign 3%nat) altitude Fa Ba).
    pose proof (fmt_2f_length (nan_sign 4%nat) temperature Ft Bt).
    change (List.length (cstr "L2,")) with 3%nat. lia. }
  split; [exact L|]. unfold snprintf. apply firstn_all2. lia.
Qed.

Lemma l2_payload_fits_witness :
  (List.length (l2_payload_text (fun _ => false) 1234 (F32.lit 15 10) (F32.lit 25 100)
                  (F32.lit 1234 100) (F32.lit 10005 100) (F32.lit 30 1)) <= 98)%nat
  /\ snprintf 200 (l2_payload_text (fun _ => false) 1234 (F32.lit 15 10) (F32.lit 25 100)
                     (F32.lit 1234 100) (F32.lit 10005 100) (F32.lit 30 1))
     = l2_payload_text (fun _ => false) 1234 (F32.lit 15 10) (F32.lit 25 100)
         (F32.lit 1234 100) (F32.lit 10005 100) (F32.lit 30 1).
Proof.
  apply (l2_payload_fits (fun _ => false) 1234 (F32.lit 15 10) (F32.lit 25 100) (F32.lit 1234 100)
           (F32.lit 10005 100) (F32.lit 30 1)); try reflexivity; try lia.
  all: apply Rabs_le; rewrite <- F2Q_correct; vm_compute; lra.
Defined.

Lemma fmt_2f_nul_free (neg : bool) x : nul_free (fmt_2f neg x) = true.
Proof.
  destruct x as [s|s| |s m e]; cbn [fmt_2f].
  - apply field_chars_plain, fixed2_text_field_chars. lia.
  - destruct s; reflexivity.
  - destruct neg; reflexivity.
  - apply field_chars_plain, fixed2_text_field_chars, hundredths_nonneg.
Qed.

Lemma nul_free_firstn n t : nul_free t = true -> nul_free (firstn n t) = true.
Proof.
  revert n. induction t as [|c t IH]; intros [|n] H; simpl in *; try reflexivity.
  apply andb_true_iff in H as [Hc H]. now rewrite Hc, IH.
Qed.

(** X9: whatever the values, and whatever the sign bits of the NaNs among
    them, the frame of one tick is '$', the first 199 bytes at most of the
    formatted text, '*', the CRC16 of exactly those bytes as four hexadecimal
    digits, and a newline: never more than 206 bytes, and a text that does
    not fit is cut, not overrun, with the checksum computed over what is left
    of it. *)
Theorem l2_frame_truncates (char_signed : bool) (nan_sign : nat -> bool) (ts : Z)
    (roll pitch yaw altitude temperature : spec_float) :
  let text := l2_payload_text nan_sign ts roll pitch yaw altitude temperature in
  l2_frame char_signed nan_sign ts roll pitch yaw altitude temperature
  = "$"%byte :: firstn 199 text
      ++ "*"%byte :: map digit_char (nibbles (crc16_ccitt char_signed (firstn 199 text)))
      ++ ["010"%byte]
  /\ (List.length (l2_frame char_signed nan_sign ts roll pitch yaw altitude temperature)
      <= 206)%nat.
Proof.
  intros text.
  assert (nul_free text = true) as NF.
  { unfold text, l2_payload_text.
    repeat (rewrite nul_free_app || rewrite nul_free_cons).
    rewrite !fmt_2f_nul_free.
    destruct (field_chars_plain _ (fmt_lld_field_chars ts)) as (-> & _).
    reflexivity. }
  assert (l2_frame char_signed nan_sign ts roll pitch yaw altitude temperature
          = "$"%byte :: firstn 199 text
              ++ "*"%byte
              :: map digit_char (nibbles (crc16_ccitt char_signed (firstn 199 text)))
              ++ ["010"%byte]) as E.
  { unfold l2_frame, snprintf. fold text. change (200 - 1)%nat with 199%nat.
    rewrite before_nul_nul_free by now apply nul_free_firstn.
    now rewrite fmt_04X_nibbles by apply crc16_ccitt_range. }
  split; [exact E|]. rewrite E. cbn [List.length]. rewrite length_app.
  cbn [List.length]. rewrite length_app, length_map. unfold nibbles. cbn [List.length].
  pose proof (firstn_le_length 199 text). lia.
Qed.

(** ** Level 1: the frame *)

Lemma thousandths_accuracy m e :
  (Rabs (IZR (thousandths m e) - 1000 * (IZR (Zpos m) * bpow e)) <= / 2)%R.
Proof. apply (scaled_round_accuracy 1000). lia. Qed.

Lemma thousandths_nonneg m e : 0 <= thousandths m e.
Proof.
  unfold thousandths. destruct (0 <=? e) eqn:E.
  - apply Z.leb_le in E. pose proof (Z.pow_pos_nonneg 2 e). lia.
  - apply Z.leb_gt in E. apply div_nearest_even_nonneg; [lia|].
    apply Z.pow_pos_nonneg; lia.
Qed.

Lemma fixed3_text_field_chars s h :
  0 <= h -> forallb is_field_char (fixed3_text s h) = true.
Proof.
  intros H. unfold fixed3_text.
  rewrite !forallb_app. simpl.
  rewrite !is_digit_field.
  - rewrite andb_true_r. apply andb_true_iff. split; [now destruct s|].
    pose proof (dec_text_digits (h / 1000) ltac:(apply Z.div_pos; lia)) as D.
    rewrite forallb_forall in *. intros c Hc. now apply is_digit_field, D.
  - apply digit_char_is_digit. Z.to_euclidean_division_equations. lia.
  - apply digit_char_is_digit. Z.to_euclidean_division_equations. lia.
  - apply digit_char_is_digit. Z.to_euclidean_division_equations. lia.
Qed.

Lemma fmt_3f_field_chars (neg : bool) x :
  is_finite x = true -> forallb is_field_char (fmt_3f neg x) = true.
Proof.
  destruct x; simpl; try discriminate; intros _.
  - now apply fixed3_text_field_chars.
  - apply fixed3_text_field_chars, thousandths_nonneg.
Qed.

Lemma fixed3_text_is_fixed3 s h : 0 <= h -> is_fixed3 (fixed3_text s h) = true.
Proof.
  intros H. unfold is_fixed3, fixed3_text.
  assert (0 <= h / 1000) as Hq by (apply Z.div_pos; lia).
  pose proof (dec_text_nonempty (h / 1000)) as NE.
  pose proof (dec_text_digits (h / 1000) Hq) as D.
  set (tl := ["."%byte; digit_char (h mod 1000 / 100); digit_char (h mod 100 / 10);
              digit_char (h mod 10)]).
  assert (strip_sign (sign_text s ++ dec_text (h / 1000) ++ tl)
          = dec_text (h / 1000) ++ tl) as ->.
  { destruct s; simpl; [reflexivity|].
    destruct (dec_text (h / 1000)) as [|c r]; [congruence|].
    simpl in D. apply andb_true_iff in D as [D _]. now apply strip_sign_digit. }
  rewrite rev_app_distr. simpl.
  rewrite <- forallb_rev in D.
  assert (rev (dec_text (h / 1000)) <> []) as NE'.
  { intros E. apply NE. rewrite <- (rev_involutive (dec_text (h / 1000))), E. reflexivity. }
  destruct (rev (dec_text (h / 1000))) as [|i r]; [congruence|].
  cbv beta iota. change (is_digit i && forallb is_digit r) with (forallb is_digit (i :: r)).
  rewrite D, andb_true_r.
  rewrite !digit_char_is_digit; [reflexivity| | |];
    Z.to_euclidean_division_equations; lia.
Qed.

Lemma fmt_3f_is_fixed3 (neg : bool) x : is_finite x = true -> is_fixed3 (fmt_3f neg x) = true.
Proof.
  destruct x; simpl; try discriminate; intros _.
  - now apply fixed3_text_is_fixed3.
  - apply fixed3_text_is_fixed3, thousandths_nonneg.
Qed.

Lemma fmt_3f_length (neg : bool) x :
  is_finite x = true -> (Rabs (B2R x) <= 1000000000)%R ->
  (List.length (fmt_3f neg x) <= 15)%nat.
Proof.
  assert (forall s h, 0 <= h <= 1000000000000 ->
            (List.length (fixed3_text s h) <= 15)%nat) as F.
  { intros s h Hh. unfold fixed3_text. rewrite !length_app. cbn [List.length].
    pose proof (sign_text_length s).
    assert (List.length (dec_text (h / 1000)) <= 10)%nat; [|lia].
    apply dec_text_length; [|lia].
    change (10 ^ Z.of_nat 10) with 10000000000.
    Z.to_euclidean_division_equations. lia. }
  destruct x as [s|s| |s m e]; try discriminate; intros _ B; cbn [fmt_3f].
  - apply F. lia.
  - apply F. split; [apply thousandths_nonneg|].
    rewrite B2R_abs_finite in B.
    pose proof (thousandths_accuracy m e) as A. apply Rabs_le_inv in A.
    assert (IZR (thousandths m e) < IZR 1000000000001)%R as L by lra.
    apply lt_IZR in L. lia.
Qed.

Lemma fmt_02X_pair n :
  0 <= n < 256 -> fmt_02X n = [digit_char (n / 16); digit_char (n mod 16)].
Proof.
  intros H.
  assert (forall_range (fun x => list_byte_eqb (fmt_02X x)
                                   [digit_char (x / 16); digit_char (x mod 16)])
            (Z.to_nat 256) 0 = true) as A by (vm_compute; reflexivity).
  apply list_byte_eqb_eq. apply (forall_range_spec _ _ _ A). lia.
Qed.

Lemma sprintf_fits size text :
  (List.length text < size)%nat -> sprintf size text = Some text.
Proof.
  intros H. unfold sprintf.
  destruct (List.length text <? size)%nat eqn:E; [reflexivity|].
  apply Nat.ltb_ge in E. lia.
Qed.

(** The frame part of the Level-1 loop body on readings that are finite and
    of magnitude at most 10^9. *)
Lemma l1_frame_shape (char_signed : bool) (nan_sign : nat -> bool) (t : Z)
    (ax ay az gx gy gz alt temp : spec_float) :
  - 2 ^ 31 <= t * 50 < 2 ^ 31 ->
  Forall (fun x => is_finite x = true /\ (Rabs (B2R x) <= 1000000000)%R)
    [ax; ay; az; gx; gy; gz; alt; temp] ->
  let payload := l1_payload_text nan_sign (t * 50) ax ay az gx gy gz alt temp in
  let chk := calculate_checksum char_signed payload in
  l1_frame char_signed nan_sign t ax ay az gx gy gz alt temp
  = Some ("$"%byte :: payload
            ++ "*"%byte :: [digit_char (chk / 16); digit_char (chk mod 16)]
            ++ ["010"%byte])
  /\ 0 <= chk < 256
  /\ (List.length payload <= 149)%nat
  /\ ~ In "$"%byte payload /\ ~ In "*"%byte payload
  /\ split_on ","%byte payload
     = [cstr "L1"; fmt_d (t * 50); fmt_3f (nan_sign 0%nat) ax; fmt_3f (nan_sign 1%nat) ay;
        fmt_3f (nan_sign 2%nat) az; fmt_3f (nan_sign 3%nat) gx; fmt_3f (nan_sign 4%nat) gy;
        fmt_3f (nan_sign 5%nat) gz; fmt_2f (nan_sign 6%nat) alt; fmt_2f (nan_sign 7%nat) temp]
  /\ is_int_text (fmt_d (t * 50)) = true
  /\ Forall (fun x => forall neg, is_fixed3 (fmt_3f neg x) = true) [ax; ay; az; gx; gy; gz]
  /\ Forall (fun x => forall neg, is_fixed2 (fmt_2f neg x) = true) [alt; temp].
Proof.
  intros Ht F payload chk.
  repeat match goal with
         | H : Forall _ (_ :: _) |- _ =>
             let A := fresh "A" in let B := fresh "B" in
             inversion H as [|? ? [A B] ?]; subst; clear H
         end.
  destruct (field_chars_plain _ (fmt_lld_field_chars (t * 50))) as (Z0 & C0 & D0 & S0).
  destruct (field_chars_plain _ (fmt_3f_field_chars (nan_sign 0%nat) _ A)) as (Z1 & C1 & D1 & S1).
  destruct (field_chars_plain _ (fmt_3f_field_chars (nan_sign 1%nat) _ A0)) as (Z2 & C2 & D2 & S2).
  destruct (field_chars_plain _ (fmt_3f_field_chars (nan_sign 2%nat) _ A1)) as (Z3 & C3 & D3 & S3).
  destruct (field_chars_plain _ (fmt_3f_field_chars (nan_sign 3%nat) _ A2)) as (Z4 & C4 & D4 & S4).
  destruct (field_chars_plain _ (fmt_3f_field_chars (nan_sign 4%nat) _ A3)) as (Z5 & C5 & D5 & S5).
  destruct (field_chars_plain _ (fmt_3f_field_chars (nan_sign 5%nat) _ A4)) as (Z6 & C6 & D6 & S6).
  destruct (field_chars_plain _ (fmt_2f_field_chars (nan_sign 6%nat) _ A5)) as (Z7 & C7 & D7 & S7).
  destruct (field_chars_plain _ (fmt_2f_field_chars (nan_sign 7%nat) _ A6)) as (Z8 & C8 & D8 & S8).
  assert (nul_free payload = true) as NF.
  { unfold payload, l1_payload_text, fmt_d.
    repeat (rewrite nul_free_app || rewrite nul_free_cons).
    rewrite Z0, Z1, Z2, Z3, Z4, Z5, Z6, Z7, Z8. reflexivity. }
  assert (List.length payload <= 149)%nat as Len.
  { unfold payload, l1_payload_text, fmt_d.
    repeat first [rewrite length_app | progress cbn [List.length]].
    pose proof (fmt_lld_length (t * 50) ltac:(lia)).
    pose proof (fmt_3f_length (nan_sign 0%nat) _ A B).
    pose proof (fmt_3f_length (nan_sign 1%nat) _ A0 B0).
    pose proof (fmt_3f_length (nan_sign 2%nat) _ A1 B1).
    pose proof (fmt_3f_length (nan_sign 3%nat) _ A2 B2).
    pose proof (fmt_3f_length (nan_sign 4%nat) _ A3 B3).
    pose proof (fmt_3f_length (nan_sign 5%nat) _ A4 B4).
    pose proof (fmt_2f_length (nan_sign 6%nat) _ A5 B5).
    pose proof (fmt_2f_length (nan_sign 7%nat) _ A6 B6).
    change (List.length (cstr "L1,")) with 3%nat. lia. }
  assert (forall c, In c payload -> c <> "$"%byte /\ c <> "*"%byte) as PC.
  { intros c. unfold payload, l1_payload_text, fmt_d.
    change (cstr "L1,") with ["L"; "1"; ","]%byte.
    intros H.
    repeat match type of H with
           | _ \/ _ => destruct H as [H|H]
           | _ = c => subst c; split; discriminate
           | In c (_ ++ _) => apply in_app_or in H
           | In c (_ :: _) => apply in_inv in H
           | In c _ => split; intros ->; tauto
           end. }
  pose proof (calculate_checksum_range char_signed payload) as Rc. fold chk in Rc.
  split; [|split; [exact Rc|split; [exact Len|]]].
  - unfold l1_frame, cint.
    destruct (- 2 ^ 31 <=? t * 50) eqn:E1; [|apply Z.leb_gt in E1; lia].
    destruct (t * 50 <? 2 ^ 31) eqn:E2; [|apply Z.ltb_ge in E2; lia].
    cbn [andb]. fold payload.
    rewrite (sprintf_fits 256 payload) by lia. cbv zeta. fold chk.
    rewrite before_nul_nul_free by assumption.
    rewrite fmt_02X_pair by assumption.
    rewrite sprintf_fits.
    2:{ cbn [List.length]. rewrite length_app. cbn [List.length]. lia. }
    f_equal.
    rewrite before_nul_nul_free.
    + cbn [app]. now rewrite <- app_assoc.
    + rewrite nul_free_cons, nul_free_app, NF. cbn [nul_free forallb andb negb].
      assert (forall d, 0 <= d < 16 -> is_nul (digit_char d) = false) as DN.
      { intros d Hd.
        assert (d = 0 \/ d = 1 \/ d = 2 \/ d = 3 \/ d = 4 \/ d = 5 \/ d = 6 \/ d = 7
                \/ d = 8 \/ d = 9 \/ d = 10 \/ d = 11 \/ d = 12 \/ d = 13 \/ d = 14
                \/ d = 15) as C by lia.
        repeat (destruct C as [->|C]; [reflexivity|]). subst d. reflexivity. }
      rewrite !DN by (Z.to_euclidean_division_equations; lia). reflexivity.
  - split; [intros I; now destruct (PC _ I)|].
    split; [intros I; now destruct (PC _ I)|].
    split.
    + unfold payload, l1_payload_text, fmt_d.
      change (cstr "L1," ++ ?x) with (cstr "L1" ++ ","%byte :: x).
      rewrite split_on_field by (simpl; intros [H|[H|[]]]; discriminate).
      repeat (rewrite split_on_field by assumption).
      now rewrite split_on_last by assumption.
    + split; [apply fmt_lld_is_int|].
      split; repeat constructor; intros neg; try (now apply fmt_3f_is_fixed3);
        now apply fmt_2f_is_fixed2.
Qed.

(** X10: Level 1: for a tick counter whose timestamp [t * 50] is an [int] and
    eight finite readings of magnitude at most 10^9, neither [sprintf]
    overruns its buffer and the line written is '$', the payload, '*', the
    XOR checksum of the payload as two upper-case hexadecimal digits and a
    newline; the payload is the tag L1 and nine comma-separated fields: the
    integer timestamp, six numbers with three decimals, two with two. *)
Theorem l1_frame_format (char_signed : bool) (nan_sign : nat -> bool) (t : Z)
    (ax ay az gx gy gz alt temp : spec_float) :
  - 2 ^ 31 <= t * 50 < 2 ^ 31 ->
  Forall (fun x => is_finite x = true /\ (Rabs (B2R x) <= 1000000000)%R)
    [ax; ay; az; gx; gy; gz; alt; temp] ->
  let payload := l1_payload_text nan_sign (t * 50) ax ay az gx gy gz alt temp in
  let chk := calculate_checksum char_signed payload in
  l1_frame char_signed nan_sign t ax ay az gx gy gz alt temp
  = Some ("$"%byte :: payload
            ++ "*"%byte :: [digit_char (chk / 16); digit_char (chk mod 16)]
            ++ ["010"%byte])
  /\ 0 <= chk < 256
  /\ (List.length payload <= 149)%nat
  /\ ~ In "$"%byte payload /\ ~ In "*"%byte payload
  /\ split_on ","%byte payload
     = [cstr "L1"; fmt_d (t * 50); fmt_3f (nan_sign 0%nat) ax; fmt_3f (nan_sign 1%nat) ay;
        fmt_3f (nan_sign 2%nat) az; fmt_3f (nan_sign 3%nat) gx; fmt_3f (nan_sign 4%nat) gy;
        fmt_3f (nan_sign 5%nat) gz; fmt_2f (nan_sign 6%nat) alt; fmt_2f (nan_sign 7%nat) temp]
  /\ is_int_text (fmt_d (t * 50)) = true
  /\ Forall (fun x => forall neg, is_fixed3 (fmt_3f neg x) = true) [ax; ay; az; gx; gy; gz]
  /\ Forall (fun x => forall neg, is_fixed2 (fmt_2f neg x) = true) [alt; temp].
Proof.
  intros Ht F. exact (l1_frame_shape char_signed nan_sign t ax ay az gx gy gz alt temp Ht F).
Qed.

Lemma l1_frame_format_witness :
  l1_frame true (fun _ => false) 3 (F32.lit 125 1000) (F32.neg (F32.lit 25 100)) (F32.lit 981 100)
    (F32.lit 3 1) (F32.lit 15 10) (F32.lit 20 1) (F32.lit 10006 100) (F32.lit 30 1)
  = Some (cstr "$L1,150,0.125,-0.250,9.810,3.000,1.500,20.000,100.06,30.00*48"
            ++ ["010"%byte]).
Proof.
  pose proof (l1_frame_format true (fun _ => false) 3 (F32.lit 125 1000) (F32.neg (F32.lit 25 100))
                (F32.lit 981 100) (F32.lit 3 1) (F32.lit 15 10) (F32.lit 20 1)
                (F32.lit 10006 100) (F32.lit 30 1)) as W.
  destruct W as (E & _).
  - lia.
  - repeat (apply Forall_cons; [split; [reflexivity|]|]); try apply Forall_nil;
      apply Rabs_le; rewrite <- F2Q_correct; vm_compute; lra.
  - rewrite E. vm_compute. reflexivity.
Defined.

(** ** A state that has left the numbers *)

Lemma F32_add_nan_l x : F32.add S754_nan x = S754_nan.
Proof. reflexivity. Qed.

Lemma F32_add_nan_r x : F32.add x S754_nan = S754_nan.
Proof. destruct x; reflexivity. Qed.

Lemma F32_mul_nan_l x : F32.mul S754_nan x = S754_nan.
Proof. reflexivity. Qed.

Lemma F32_mul_nan_r x : F32.mul x S754_nan = S754_nan.
Proof. destruct x; reflexivity. Qed.

Lemma inv_sqrt_nan : inv_sqrt S754_nan = S754_nan.
Proof. reflexivity. Qed.

Lemma is_nan_eq x : is_nan x = true -> x = S754_nan.
Proof. destruct x; try discriminate; reflexivity. Qed.

Lemma has_nan_inv q :
  has_nan q = true ->
  q0 q = S754_nan \/ q1 q = S754_nan \/ q2 q = S754_nan \/ q3 q = S754_nan.
Proof.
  unfold has_nan. intros H.
  apply orb_true_iff in H as [H|H]; [|now auto using is_nan_eq].
  apply orb_true_iff in H as [H|H]; [|now auto using is_nan_eq].
  apply orb_true_iff in H as [H|H]; auto using is_nan_eq.
Qed.

Lemma sum_sq_nan q : has_nan q = true -> sum_sq q = S754_nan.
Proof.
  intros H. unfold sum_sq.
  destruct (has_nan_inv q H) as [E|[E|[E|E]]]; rewrite E;
    now rewrite ?F32_mul_nan_l, ?F32_add_nan_r, ?F32_add_nan_l.
Qed.

Lemma integrate_nan q qd dt : has_nan q = true -> has_nan (integrate q qd dt) = true.
Proof.
  intros H. unfold has_nan, integrate. cbn [q0 q1 q2 q3].
  destruct (has_nan_inv q H) as [E|[E|[E|E]]]; rewrite E, F32_add_nan_l;
    cbn [is_nan]; now rewrite ?orb_true_r.
Qed.

Lemma renormalize_nan q : has_nan q = true -> renormalize q = nan_quat.
Proof.
  intros H. unfold renormalize. rewrite (sum_sq_nan q H), inv_sqrt_nan.
  now rewrite !F32_mul_nan_r.
Qed.

Lemma update_nan q imu dt :
  degenerate imu = false -> has_nan q = true ->
  snd (madgwick_update imu dt q) = nan_quat.
Proof.
  intros D H. rewrite madgwick_update_cases, D. cbn [snd].
  apply renormalize_nan. unfold euler_of. now apply integrate_nan.
Qed.

(** X11: the filter never recovers from a NaN: once one component of the state is
    NaN, every update that is not skipped makes all four components NaN, and
    so they stay. *)
Theorem nan_state_is_absorbing (q : quat) (calls : list (imu_sample_t * spec_float)) :
  has_nan q = true ->
  Forall (fun c => degenerate (fst c) = false) calls ->
  Forall (fun q' => q' = nan_quat) (run_updates q calls).
Proof.
  revert q. induction calls as [|[imu dt] rest IH]; intros q H D; simpl; [constructor|].
  inversion D as [|? ? D1 Drest]; subst. cbn [fst] in D1.
  rewrite (update_nan q imu dt D1 H).
  constructor; [reflexivity|]. apply IH; [reflexivity|assumption].
Qed.

Lemma nan_state_is_absorbing_witness :
  Forall (fun q' => q' = nan_quat)
    (run_updates {| q0 := f1_0; q1 := S754_nan; q2 := f0_0; q3 := f0_0 |}
       (repeat (imu_yaw, LOOP_DT_SEC) 3)).
Proof.
  apply (nan_state_is_absorbing _ (repeat (imu_yaw, LOOP_DT_SEC) 3)).
  - reflexivity.
  - repeat constructor.
Defined.

(** ** Bounded floats *)

Section Bounded.
Local Open Scope R_scope.

Lemma small_lt_bpow_127 c : c <= 1000000000000 -> c < bpow (128 - 1).
Proof.
  intros H. rewrite bpow_127. apply Rle_lt_trans with (IZR 1000000000000); [exact H|].
  apply IZR_lt. reflexivity.
Qed.

Lemma fin32_mul x y a b c :
  fin32 x a -> fin32 y b ->
  a * b * (1 + u32) + eta32 <= c -> c <= 1000000000000 ->
  fin32 (F32.mul x y) c
  /\ Rabs (B2R (F32.mul x y) - B2R x * B2R y) <= u32 * (a * b) + eta32.
Proof.
  intros (Vx & Fx & Bx) (Vy & Fy & By) Hc Small.
  assert (0 <= Rabs (B2R x)) as Px by apply Rabs_pos.
  assert (0 <= Rabs (B2R y)) as Py by apply Rabs_pos.
  assert (Rabs (B2R x * B2R y) <= a * b) as P.
  { rewrite Rabs_mult. apply Rmult_le_compat; assumption. }
  assert (0 <= a * b) as Pab by (apply Rle_trans with (Rabs (B2R x * B2R y)); [apply Rabs_pos|exact P]).
  assert (is_finite (F32.mul x y) = true) as F.
  { apply (SFmul_finite 24 128 prec24_pos emax128_prec); try assumption.
    apply Rle_lt_trans with (a * b); [exact P|]. apply small_lt_bpow_127.
    unfold u32, eta32 in *.
    change (2 ^ 150)%Z with 1427247692705959881058285969449495136382746624%Z in *. lra. }
  pose proof (SFmul_error 24 128 prec24_pos x y F) as E.
  rewrite u_of_24, eta_of_32 in E.
  assert (Rabs (B2R (F32.mul x y) - B2R x * B2R y) <= u32 * (a * b) + eta32) as E'.
  { eapply Rle_trans; [exact E|]. unfold u32. lra. }
  split; [|exact E'].
  split; [now apply F32_mul_valid|]. split; [exact F|].
  apply Rabs_le_inv in E'. apply Rabs_le_inv in P. apply Rabs_le.
  unfold u32 in *. lra.
Qed.

Lemma fin32_add x y a b c :
  fin32 x a -> fin32 y b ->
  (a + b) * (1 + u32) + eta32 <= c -> c <= 1000000000000 ->
  fin32 (F32.add x y) c
  /\ Rabs (B2R (F32.add x y) - (B2R x + B2R y)) <= u32 * (a + b) + eta32.
Proof.
  intros (Vx & Fx & Bx) (Vy & Fy & By) Hc Small.
  assert (Rabs (B2R x + B2R y) <= a + b) as P.
  { eapply Rle_trans; [apply Rabs_triang|]. lra. }
  assert (0 <= a + b) as Pab
    by (apply Rle_trans with (Rabs (B2R x + B2R y)); [apply Rabs_pos|exact P]).
  assert (is_finite (F32.add x y) = true) as F.
  { apply (SFadd_finite 24 128 prec24_pos emax128_prec); try assumption.
    apply Rle_lt_trans with (a + b); [exact P|]. apply small_lt_bpow_127.
    unfold u32, eta32 in *.
    change (2 ^ 150)%Z with 1427247692705959881058285969449495136382746624%Z in *. lra. }
  pose proof (SFadd_error 24 128 prec24_pos x y F) as E.
  rewrite u_of_24, eta_of_32 in E.
  assert (Rabs (B2R (F32.add x y) - (B2R x + B2R y)) <= u32 * (a + b) + eta32) as E'.
  { eapply Rle_trans; [exact E|]. unfold u32. lra. }
  split; [|exact E'].
  split; [now apply F32_add_valid|]. split; [exact F|].
  apply Rabs_le_inv in E'. apply Rabs_le_inv in P. apply Rabs_le.
  unfold u32 in *. lra.
Qed.

Lemma fin32_neg x a : fin32 x a -> fin32 (F32.neg x) a.
Proof.
  intros (V & F & B). unfold F32.neg. split; [now apply F32_neg_valid|].
  split; [now rewrite SFopp_finite|]. now rewrite B2R_opp, Rabs_Ropp.
Qed.

Lemma F32_sub_add_neg x y : F32.sub x y = F32.add x (F32.neg y).
Proof. apply SFsub_add_opp. Qed.

Lemma fin32_sub x y a b c :
  fin32 x a -> fin32 y b ->
  (a + b) * (1 + u32) + eta32 <= c -> c <= 1000000000000 ->
  fin32 (F32.sub x y) c
  /\ Rabs (B2R (F32.sub x y) - (B2R x - B2R y)) <= u32 * (a + b) + eta32.
Proof.
  intros Hx Hy Hc Small. rewrite F32_sub_add_neg.
  destruct (fin32_add x (F32.neg y) a b c Hx (fin32_neg y b Hy) Hc Small) as [F E].
  split; [exact F|]. unfold F32.neg in E. rewrite B2R_opp in E.
  now replace (B2R x - B2R y) with (B2R x + - B2R y) by ring.
Qed.

Lemma fin32_weaken x a b : fin32 x a -> a <= b -> fin32 x b.
Proof. intros (V & F & B) H. repeat split; try assumption. lra. Qed.

(** A literal is its own bound. *)
Lemma fin32_const x (q : Q) :
  F32.valid x = true -> is_finite x = true -> F2Q x = q -> fin32 x (Rabs (Q2R q)).
Proof.
  intros V F E. repeat split; try assumption. rewrite <- E, F2Q_correct. lra.
Qed.

End Bounded.

(** ** Degrees and radians *)

(** The [double] constant [M_PI / 180.0f]. *)
Lemma deg2rad_factor :
  F64.div M_PI (F64.of_float f180_0) = S754_finite false 5030569068109113 (-58).
Proof. vm_compute. reflexivity. Qed.

Lemma valid_lt_bpow_128 x :
  F32.valid x = true -> is_finite x = true ->
  (Rabs (B2R x) <= 340282366920938463463374607431768211456)%R.
Proof.
  destruct x as [s|s| |s m e]; try discriminate; intros V _.
  - simpl B2R. rewrite Rabs_R0. lra.
  - rewrite B2R_abs_finite.
    apply (valid_canonical 24 128) in V as [C B].
    pose proof (Zdigits2_bounds (Zpos m) ltac:(lia)) as [_ Hi].
    assert (1 <= Zdigits2 (Zpos m))
      by (rewrite Zdigits2_log2 by lia; pose proof (Z.log2_nonneg (Zpos m)); lia).
    assert (Zdigits2 (Zpos m) + e <= 128) as D by (unfold fexp, emin in *; lia).
    apply IZR_lt in Hi. rewrite <- bpow_IZR in Hi by lia.
    pose proof (bpow_pos e).
    change 340282366920938463463374607431768211456%R with (IZR (2 ^ 128)).
    rewrite <- bpow_IZR by lia.
    apply Rle_trans with (bpow (Zdigits2 (Zpos m)) * bpow e)%R; [nra|].
    rewrite <- bpow_add. apply bpow_le. lia.
Qed.

(** Case analysis on the sign of every argument of an absolute value. *)
Ltac rabs_cases :=
  unfold Rabs in *;
  repeat match goal with
         | |- context [Rcase_abs ?x] => destruct (Rcase_abs x)
         | H : context [Rcase_abs ?x] |- _ => destruct (Rcase_abs x)
         end.

Section Conversions.
Local Open Scope R_scope.

(** The three roundings of a conversion by a [double] factor [K]:
    [float] to [double], the product, [double] to [float]. *)
Ltac conversion_real :=
  intros HA He E1; apply Rabs_le_inv in E1;
  split; [rabs_cases; lra|];
  intros E2; apply Rabs_le_inv in E2;
  split; [rabs_cases; lra|];
  intros E3; apply Rabs_le_inv in E3; apply Rabs_le; rabs_cases; split; lra.

Lemma deg2rad_real (A D1 D2 Y eta : R) :
  Rabs A <= 340282366920938463463374607431768211456 ->
  0 <= eta <= / 1427247692705959881058285969449495136382746624 / 1000000 ->
  Rabs (D1 - A) <= / 9007199254740992 * Rabs A + eta ->
  Rabs D1 <= 680564733841876926926749214863536422912
  /\ (Rabs (D2 - D1 * (5030569068109113 / 288230376151711744))
      <= / 9007199254740992 * Rabs (D1 * (5030569068109113 / 288230376151711744)) + eta ->
      Rabs D2 <= 340282366920938463463374607431768211456 / 50
      /\ (Rabs (Y - D2) <= / 16777216 * Rabs D2
                           + / 1427247692705959881058285969449495136382746624 ->
          Rabs (Y - A * (5030569068109113 / 288230376151711744))
          <= (/ 16777216 + / 1000000000000000) * (5030569068109113 / 288230376151711744)
             * Rabs A + / 713623846352979940529142984724747568191373312)).
Proof. conversion_real. Qed.

Lemma rad2deg_rel_real (A D1 D2 Y eta : R) :
  Rabs A <= 1267650600228229401496703205376 ->
  0 <= eta <= / 1427247692705959881058285969449495136382746624 / 1000000 ->
  Rabs (D1 - A) <= / 9007199254740992 * Rabs A + eta ->
  Rabs D1 <= 2535301200456458802993406410752
  /\ (Rabs (D2 - D1 * (8063664102031864 / 140737488355328))
      <= / 9007199254740992 * Rabs (D1 * (8063664102031864 / 140737488355328)) + eta ->
      Rabs D2 <= 1267650600228229401496703205376 * 58
      /\ (Rabs (Y - D2) <= / 16777216 * Rabs D2
                           + / 1427247692705959881058285969449495136382746624 ->
          Rabs (Y - A * (8063664102031864 / 140737488355328))
          <= (/ 16777216 + / 1000000000000000) * (8063664102031864 / 140737488355328)
             * Rabs A + / 713623846352979940529142984724747568191373312)).
Proof. conversion_real. Qed.

End Conversions.

Lemma eta64_small :
  (0 <= eta_of 53 1024
   <= / 1427247692705959881058285969449495136382746624 / 1000000)%R.
Proof.
  unfold eta_of. split; [left; apply bpow_pos|].
  replace (emin 53 1024 - 1) with (- (1075)) by reflexivity.
  rewrite (bpow_neg_IZR 1075) by lia.
  replace (/ 1427247692705959881058285969449495136382746624 / 1000000)%R
    with (/ IZR (2 ^ 150 * 1000000))%R.
  - apply Rinv_le_contravar; [apply IZR_lt; reflexivity|].
    apply IZR_le. apply Z.le_trans with (2 ^ 150 * 2 ^ 20); [lia|].
    rewrite <- Z.pow_add_r by lia. apply Z.pow_le_mono_r; lia.
  - rewrite mult_IZR. change (2 ^ 150) with 1427247692705959881058285969449495136382746624.
    field.
Qed.

Lemma u_of_53 : u_of 53 = (/ 9007199254740992)%R.
Proof. apply (bpow_neg_IZR 53). lia. Qed.

(** A conversion by a [double] factor [K] of value [k], given the three
    rounding steps as a real-number fact. *)
Lemma conversion_error (d K : spec_float) (k bA b1 b2 err eps : R) :
  valid_binary 53 1024 K = true -> is_finite K = true -> B2R K = k ->
  (b1 * Rabs k < bpow (1024 - 1))%R -> (bA < bpow (1024 - 1))%R ->
  (b2 < bpow (128 - 1))%R ->
  (forall A D1 D2 Y eta : R,
      Rabs A <= bA ->
      0 <= eta <= / 1427247692705959881058285969449495136382746624 / 1000000 ->
      Rabs (D1 - A) <= / 9007199254740992 * Rabs A + eta ->
      Rabs D1 <= b1
      /\ (Rabs (D2 - D1 * k) <= / 9007199254740992 * Rabs (D1 * k) + eta ->
          Rabs D2 <= b2
          /\ (Rabs (Y - D2) <= / 16777216 * Rabs D2
                               + / 1427247692705959881058285969449495136382746624 ->
              Rabs (Y - A * k) <= err * Rabs A + eps)))%R ->
  is_finite d = true -> (Rabs (B2R d) <= bA)%R ->
  is_finite (F32.of_double (SFmul 53 1024 (F64.of_float d) K)) = true
  /\ (Rabs (B2R (F32.of_double (SFmul 53 1024 (F64.of_float d) K)) - B2R d * k)
      <= err * Rabs (B2R d) + eps)%R.
Proof.
  intros VK FK EK Hb1 HbA Hb2 Real Fd Bd.
  destruct (of_float_error d Fd) as (F1 & V1 & E1).
  { eapply Rle_lt_trans; [exact Bd|exact HbA]. }
  rewrite u_of_53 in E1.
  set (d1 := F64.of_float d) in *.
  destruct (Real (B2R d) (B2R d1) (B2R (SFmul 53 1024 d1 K))
              (B2R (F32.of_double (SFmul 53 1024 d1 K))) (eta_of 53 1024)
              Bd eta64_small E1) as [B1 Real2].
  assert (is_finite (SFmul 53 1024 d1 K) = true) as F2.
  { apply (SFmul_finite 53 1024 prec53_pos emax1024_prec); try assumption.
    rewrite EK, Rabs_mult.
    eapply Rle_lt_trans; [|exact Hb1].
    apply Rmult_le_compat_r; [apply Rabs_pos|exact B1]. }
  pose proof (SFmul_error 53 1024 prec53_pos d1 K F2) as E2.
  rewrite u_of_53, EK in E2.
  destruct (Real2 E2) as [B2 Real3].
  destruct (of_double_error _ F2) as (F3 & _ & E3).
  { eapply Rle_lt_trans; [exact B2|exact Hb2]. }
  rewrite u_of_24, eta_of_32 in E3. unfold u32, eta32 in E3.
  change (2 ^ 150) with 1427247692705959881058285969449495136382746624 in E3.
  split; [exact F3|]. exact (Real3 E3).
Qed.

Lemma deg2rad_error (d : spec_float) :
  F32.valid d = true -> is_finite d = true ->
  is_finite (deg2rad d) = true
  /\ (Rabs (B2R (deg2rad d) - B2R d * (5030569068109113 / 288230376151711744))
      <= (/ 16777216 + / 1000000000000000) * (5030569068109113 / 288230376151711744)
         * Rabs (B2R d) + / 713623846352979940529142984724747568191373312)%R.
Proof.
  intros Vd Fd. unfold deg2rad. rewrite deg2rad_factor.
  change (F64.mul ?x ?y) with (SFmul 53 1024 x y).
  apply (conversion_error d _ _
           340282366920938463463374607431768211456
           680564733841876926926749214863536422912
           (340282366920938463463374607431768211456 / 50)); try reflexivity.
  - rewrite B2R_finite. simpl sign_factor.
    change (bpow (-58)) with (bpow (- (58))). rewrite (bpow_neg_IZR 58) by lia.
    change (2 ^ 58) with 288230376151711744. unfold Rdiv. ring.
  - rewrite Rabs_pos_eq by lra.
    apply Rle_lt_trans with (IZR (2 ^ 130)).
    + change (2 ^ 130) with 1361129467683753853853498429727072845824. lra.
    + rewrite bpow_IZR by lia. apply IZR_lt. apply Z.pow_lt_mono_r; lia.
  - rewrite bpow_IZR by lia.
    change 340282366920938463463374607431768211456%R with (IZR (2 ^ 128)).
    apply IZR_lt. apply Z.pow_lt_mono_r; lia.
  - rewrite bpow_127. change (2 ^ 127) with 170141183460469231731687303715884105728. lra.
  - intros A D1 D2 Y eta. apply deg2rad_real.
  - exact Fd.
  - now apply valid_lt_bpow_128.
Qed.

Lemma rad2deg_rel_error (r : spec_float) :
  is_finite r = true -> (Rabs (B2R r) <= 1267650600228229401496703205376)%R ->
  is_finite (rad2deg r) = true
  /\ (Rabs (B2R (rad2deg r) - B2R r * (8063664102031864 / 140737488355328))
      <= (/ 16777216 + / 1000000000000000) * (8063664102031864 / 140737488355328)
         * Rabs (B2R r) + / 713623846352979940529142984724747568191373312)%R.
Proof.
  intros Fr Br. unfold rad2deg. rewrite rad2deg_factor.
  change (F64.mul ?x ?y) with (SFmul 53 1024 x y).
  apply (conversion_error r _ _
           1267650600228229401496703205376
           2535301200456458802993406410752
           (1267650600228229401496703205376 * 58)); try reflexivity.
  - rewrite B2R_finite. simpl sign_factor.
    change (bpow (-47)) with (bpow (- (47))). rewrite (bpow_neg_IZR 47) by lia.
    change (2 ^ 47) with 140737488355328. unfold Rdiv. ring.
  - rewrite Rabs_pos_eq by lra.
    apply Rle_lt_trans with (IZR (2 ^ 110)).
    + change (2 ^ 110) with 1298074214633706907132624082305024. lra.
    + rewrite bpow_IZR by lia. apply IZR_lt. apply Z.pow_lt_mono_r; lia.
  - rewrite bpow_IZR by lia.
    change 1267650600228229401496703205376%R with (IZR (2 ^ 100)).
    apply IZR_lt. apply Z.pow_lt_mono_r; lia.
  - rewrite bpow_127. change (2 ^ 127) with 170141183460469231731687303715884105728. lra.
  - intros A D1 D2 Y eta. apply rad2deg_rel_real.
  - exact Fr.
  - exact Br.
Qed.

Lemma rad2deg_valid r : F32.valid (rad2deg r) = true.
Proof. apply of_double_valid. Qed.

(** X12: converting degrees to radians and back, or radians to degrees and back,
    returns the starting value up to a relative error of 2^-22, for every
    well-formed [float] of magnitude between 2^-100 and 2^100. *)
Theorem deg_rad_round_trip (x : spec_float) :
  F32.valid x = true -> is_finite x = true ->
  (/ 1267650600228229401496703205376 <= Rabs (B2R x)
   <= 1267650600228229401496703205376)%R ->
  is_finite (rad2deg (deg2rad x)) = true
  /\ (Rabs (B2R (rad2deg (deg2rad x)) - B2R x) <= / 4194304 * Rabs (B2R x))%R
  /\ is_finite (deg2rad (rad2deg x)) = true
  /\ (Rabs (B2R (deg2rad (rad2deg x)) - B2R x) <= / 4194304 * Rabs (B2R x))%R.
Proof.
  intros V F [Lo Hi].
  destruct (deg2rad_error x V F) as [F1 E1].
  assert (Rabs (B2R (deg2rad x)) <= 1267650600228229401496703205376)%R as B1.
  { apply Rabs_le_inv in E1. apply Rabs_le. revert E1 Lo Hi. rabs_cases; intros; lra. }
  destruct (rad2deg_rel_error (deg2rad x) F1 B1) as [F2 E2].
  destruct (rad2deg_rel_error x F Hi) as [F3 E3].
  destruct (deg2rad_error (rad2deg x) (rad2deg_valid x) F3) as [F4 E4].
  split; [exact F2|]. split; [|split; [exact F4|]].
  - apply Rabs_le_inv in E1. apply Rabs_le_inv in E2. apply Rabs_le.
    clear E3 E4 B1. revert E1 E2 Lo Hi. rabs_cases; intros; split; lra.
  - apply Rabs_le_inv in E3. apply Rabs_le_inv in E4. apply Rabs_le.
    clear E1 E2 B1. revert E3 E4 Lo Hi. rabs_cases; intros; split; lra.
Qed.

Lemma deg_rad_round_trip_witness :
  is_finite (rad2deg (deg2rad (F32.lit 12 1))) = true
  /\ (Rabs (B2R (rad2deg (deg2rad (F32.lit 12 1))) - B2R (F32.lit 12 1))
      <= / 4194304 * Rabs (B2R (F32.lit 12 1)))%R
  /\ is_finite (deg2rad (rad2deg (F32.lit 12 1))) = true
  /\ (Rabs (B2R (deg2rad (rad2deg (F32.lit 12 1))) - B2R (F32.lit 12 1))
      <= / 4194304 * Rabs (B2R (F32.lit 12 1)))%R.
Proof.
  apply (deg_rad_round_trip (F32.lit 12 1)).
  - reflexivity.
  - reflexivity.
  - assert (B2R (F32.lit 12 1) = 12)%R as ->
      by (rewrite <- F2Q_correct; unfold Q2R; simpl; lra).
    rewrite Rabs_pos_eq; lra.
Defined.

(** *** Sign symmetry *)

Lemma binary_round_aux_opp prec emax s m e l :
  binary_round_aux prec emax (negb s) m e l
  = SFopp (binary_round_aux prec emax s m e l).
Proof.
  unfold binary_round_aux.
  destruct (shr_fexp prec emax m e l) as [mrs' e'].
  destruct (shr_fexp prec emax _ e' loc_Exact) as [mrs'' e''].
  destruct (shr_m mrs''); try reflexivity.
  destruct (e'' <=? emax - prec); reflexivity.
Qed.

Lemma binary_round_opp prec emax s m e :
  binary_round prec emax (negb s) m e = SFopp (binary_round prec emax s m e).
Proof.
  unfold binary_round.
  destruct (shl_align m e (fexp prec emax (Z.pos (digits2_pos m) + e))) as [mz ez].
  apply binary_round_aux_opp.
Qed.

Lemma SFmul_opp_l prec emax x y :
  SFmul prec emax (SFopp x) y = SFopp (SFmul prec emax x y).
Proof.
  destruct x as [sx|sx| |sx mx ex], y as [sy|sy| |sy my ey]; simpl;
    try reflexivity; try (now rewrite negb_xorb_l).
  rewrite <- negb_xorb_l. apply binary_round_aux_opp.
Qed.

Lemma of_float_opp x : F64.of_float (SFopp x) = SFopp (F64.of_float x).
Proof. destruct x; try reflexivity. apply binary_round_opp. Qed.

Lemma of_double_opp x : F32.of_double (SFopp x) = SFopp (F32.of_double x).
Proof. destruct x; try reflexivity. apply binary_round_opp. Qed.

(** X13: both unit conversions are odd functions, bit for bit: negating the
    argument negates the result (a NaN stays a NaN). *)
Theorem conversions_are_odd (x : spec_float) :
  deg2rad (F32.neg x) = F32.neg (deg2rad x)
  /\ rad2deg (F32.neg x) = F32.neg (rad2deg x).
Proof.
  unfold deg2rad, rad2deg, F32.neg, F64.mul.
  now rewrite of_float_opp, !SFmul_opp_l, !of_double_opp.
Qed.

(** ** The sensor layer *)

Lemma of_int_error z :
  Z.abs z <= 2147483648 ->
  F32.valid (F32.of_int z) = true /\ is_finite (F32.of_int z) = true
  /\ (Rabs (B2R (F32.of_int z) - IZR z) <= u32 * Rabs (IZR z) + eta32)%R.
Proof.
  intros H. unfold F32.of_int, F32.valid.
  assert (Rabs (IZR z * bpow 0) < bpow (128 - 1))%R as B.
  { rewrite bpow_0, Rmult_1_r, <- abs_IZR, bpow_127.
    apply IZR_lt. apply Z.le_lt_trans with 2147483648; [exact H|reflexivity]. }
  pose proof (binary_normalize_finite 24 128 prec24_pos emax128_prec z 0 false B) as F.
  pose proof (binary_normalize_error 24 128 prec24_pos z 0 false F) as E.
  rewrite bpow_0, Rmult_1_r, u_of_24, eta_of_32 in E.
  split; [apply (binary_normalize_valid 24 128 prec24_pos)|]. split; assumption.
Qed.

Lemma B2R_lit_2 : B2R (F32.lit 2 1) = 2%R.
Proof. rewrite <- F2Q_correct. unfold Q2R. simpl. lra. Qed.

Section NoiseReal.
Local Open Scope R_scope.

(** The real-number content of [noise]: the ratio of the two converted
    integers, its rounding, the doubling, the scaling by [A] and the offset. *)
Lemma noise_real (R_ M_ RF MF Qr Q Q2 T P N A : R) :
  0 <= R_ <= M_ -> 32767 <= M_ <= 2147483647 ->
  Rabs (RF - R_) <= u32 * Rabs R_ + eta32 ->
  Rabs (MF - M_) <= u32 * Rabs M_ + eta32 ->
  0 <= A <= 1000 ->
  32766 <= MF
  /\ (Qr * MF = RF ->
      Rabs Qr <= 2
      /\ (Rabs (Q - Qr) <= u32 * Rabs Qr + eta32 ->
          Rabs (Q * 2) <= 3
          /\ (Rabs (Q2 - Q * 2) <= u32 * Rabs (Q * 2) + eta32 ->
              T = Q2 * A ->
              Rabs T <= 3000
              /\ (Rabs (P - T) <= u32 * Rabs T + eta32 ->
                  Rabs (P + - A) <= 5000
                  /\ (Rabs (N - (P + - A)) <= u32 * Rabs (P + - A) + eta32 ->
                      Rabs N <= A * (1 + / 1048576)
                                + / 1393796574908163946345982392040522594123776))))).
Proof.
  intros HR HM ER EM HA. unfold_consts.
  apply Rabs_le_inv in ER. apply Rabs_le_inv in EM.
  rewrite (Rabs_pos_eq R_) in ER by lra. rewrite (Rabs_pos_eq M_) in EM by lra.
  split; [lra|]. intros EQ.
  assert (- / 1427247692705959881058285969449495136382746624 <= Qr
          <= 1 + 5 / 33554432) as [Q0 Q1].
  { split.
    - apply Rmult_le_reg_r with MF; [lra|]. rewrite EQ.
      apply Rle_trans with (- / 1427247692705959881058285969449495136382746624); [|lra].
      assert (/ 1427247692705959881058285969449495136382746624 * 1
              <= / 1427247692705959881058285969449495136382746624 * MF)
        by (apply Rmult_le_compat_l; lra).
      lra.
    - apply Rmult_le_reg_r with MF; [lra|]. rewrite EQ. lra. }
  split; [apply Rabs_le; lra|]. intros E1. apply Rabs_le_inv in E1.
  assert (- / 100000000000000000000000000000000000000000000 <= Q <= 1 + / 4194304) as [Q2a Q2b].
  { revert E1. rabs_cases; intros; lra. }
  split; [apply Rabs_le; lra|]. intros E2 ET. apply Rabs_le_inv in E2.
  assert (- / 10000000000000000000000000000000000000000000 <= Q2 <= 2 + 21 / 33554432)
    as [Q3a Q3b].
  { revert E2. rabs_cases; intros; lra. }
  assert (- / 10000000000000000000000000000000000000000000 * A <= T
          <= (2 + 21 / 33554432) * A) as [T0 T1].
  { rewrite ET. split; apply Rmult_le_compat_r; lra. }
  split; [apply Rabs_le; lra|]. intros E3. apply Rabs_le_inv in E3.
  assert (- / 1000000000000000000000000000000000000000 <= P
          <= (2 + 13 / 16777216) * A + / 1427247692705959881058285969449495136382746624)
    as [P0 P1].
  { revert E3. rabs_cases; intros; lra. }
  split; [apply Rabs_le; lra|]. intros E4. apply Rabs_le_inv in E4.
  apply Rabs_le. revert E4. rabs_cases; intros; lra.
Qed.

End NoiseReal.

Lemma lt_bpow_127 (c : R) : (c <= 5000)%R -> (c < bpow (128 - 1))%R.
Proof. intros H. apply small_lt_bpow_127. lra. Qed.

Lemma noise_bound (RAND_MAX : Z) {S : Type} (rand : S -> Z * S) amp s :
  32767 <= RAND_MAX <= 2147483647 ->
  0 <= fst (rand s) <= RAND_MAX ->
  F32.valid amp = true -> is_finite amp = true -> (0 <= B2R amp <= 1000)%R ->
  F32.valid (fst (noise RAND_MAX S rand amp s)) = true
  /\ is_finite (fst (noise RAND_MAX S rand amp s)) = true
  /\ (Rabs (B2R (fst (noise RAND_MAX S rand amp s)))
      <= B2R amp * (1 + / 1048576)
         + / 1393796574908163946345982392040522594123776)%R.
Proof.
  intros HM Hr Va Fa Ba. unfold noise. destruct (rand s) as [r s']. cbn [fst] in *.
  destruct (of_int_error r ltac:(lia)) as (Vr & Fr & Er).
  destruct (of_int_error RAND_MAX ltac:(lia)) as (Vm & Fm & Em).
  set (rf := F32.of_int r) in *. set (mf := F32.of_int RAND_MAX) in *.
  set (q := F32.div rf mf). set (q2 := F32.mul q (F32.lit 2 1)).
  set (p := F32.mul q2 amp). set (n := F32.sub p amp).
  assert (0 <= IZR r <= IZR RAND_MAX)%R as HR by (split; apply IZR_le; lia).
  assert (32767 <= IZR RAND_MAX <= 2147483647)%R as HM' by (split; apply IZR_le; lia).
  destruct (noise_real (IZR r) (IZR RAND_MAX) (B2R rf) (B2R mf) (B2R rf / B2R mf)
              (B2R q) (B2R q2) (B2R q2 * B2R amp) (B2R p) (B2R n) (B2R amp)
              HR HM' Er Em Ba) as (Bm & K).
  assert (B2R mf <> 0)%R as NZ by lra.
  destruct K as (Bq & K); [field; exact NZ|].
  assert (is_finite q = true) as Fq.
  { apply (SFdiv_finite 24 128 prec24_pos emax128_prec); try assumption.
    apply lt_bpow_127. lra. }
  pose proof (SFdiv_error 24 128 prec24_pos rf mf Fr Fm NZ Fq) as Eq.
  rewrite u_of_24, eta_of_32 in Eq.
  destruct (K Eq) as (Bq2 & K2). clear K.
  assert (F32.valid q = true) as Vq by apply (SFdiv_valid 24 128 prec24_pos).
  assert (F32.valid (F32.lit 2 1) = true) as V2 by reflexivity.
  assert (is_finite q2 = true) as Fq2.
  { apply (SFmul_finite 24 128 prec24_pos emax128_prec); try assumption; try reflexivity.
    rewrite B2R_lit_2. apply lt_bpow_127. lra. }
  pose proof (SFmul_error 24 128 prec24_pos q (F32.lit 2 1) Fq2) as Eq2.
  rewrite u_of_24, eta_of_32, B2R_lit_2 in Eq2.
  destruct (K2 Eq2 eq_refl) as (Bt & K3). clear K2.
  assert (F32.valid q2 = true) as Vq2 by (apply F32_mul_valid; assumption).
  assert (is_finite p = true) as Fp.
  { apply (SFmul_finite 24 128 prec24_pos emax128_prec); try assumption.
    apply lt_bpow_127. lra. }
  pose proof (SFmul_error 24 128 prec24_pos q2 amp Fp) as Ep.
  rewrite u_of_24, eta_of_32 in Ep.
  destruct (K3 Ep) as (Bs & K4). clear K3.
  assert (F32.valid p = true) as Vp by (apply F32_mul_valid; assumption).
  assert (n = SFadd 24 128 p (SFopp amp)) as En by apply SFsub_add_opp.
  assert (is_finite n = true) as Fn.
  { rewrite En. apply (SFadd_finite 24 128 prec24_pos emax128_prec); try assumption.
    - now rewrite SFopp_finite.
    - rewrite B2R_opp. apply lt_bpow_127. lra. }
  assert (Rabs (B2R n - (B2R p + - B2R amp)) <= u32 * Rabs (B2R p + - B2R amp) + eta32)%R
    as E5.
  { rewrite En in Fn |- *.
    pose proof (SFadd_error 24 128 prec24_pos p (SFopp amp) Fn) as E5.
    rewrite u_of_24, eta_of_32, B2R_opp in E5. exact E5. }
  split; [apply F32_sub_valid; assumption|]. split; [exact Fn|]. exact (K4 E5).
Qed.

Ltac lit_value :=
  rewrite <- ?F2Q_correct;
  repeat match goal with
         | |- context [F2Q ?x] =>
             let v := eval vm_compute in (F2Q x) in change (F2Q x) with v
         end;
  unfold Q2R; simpl; lra.

(** A constant plus a noise term. *)
Lemma offset_noise c n (a lo hi : R) :
  F32.valid c = true -> is_finite c = true ->
  F32.valid n = true -> is_finite n = true -> (Rabs (B2R n) <= a)%R ->
  (Rabs (B2R c) <= 13)%R -> (a <= 1)%R ->
  (lo <= B2R c - a - / 1000000)%R -> (B2R c + a + / 1000000 <= hi)%R ->
  within (F32.add c n) lo hi.
Proof.
  intros Vc Fc Vn Fn Bn Bc Ha Lo Hi.
  apply Rabs_le_inv in Bn. apply Rabs_le_inv in Bc.
  assert (is_finite (F32.add c n) = true) as F.
  { apply (SFadd_finite 24 128 prec24_pos emax128_prec); try assumption.
    apply lt_bpow_127. apply Rabs_le. lra. }
  pose proof (SFadd_error 24 128 prec24_pos c n F) as E.
  rewrite u_of_24, eta_of_32 in E. apply Rabs_le_inv in E.
  split; [apply F32_add_valid; assumption|]. split; [exact F|].
  change (SFadd 24 128 c n) with (F32.add c n) in E.
  revert E. unfold_consts. rabs_cases; intros; lra.
Qed.

Lemma noise_state (RAND_MAX : Z) {S : Type} (rand : S -> Z * S) amp s :
  snd (noise RAND_MAX S rand amp s) = snd (rand s).
Proof. unfold noise. destruct (rand s). reflexivity. Qed.

Section ImuRead.

Variable RAND_MAX : Z.
Variable S : Type.
Variable rand : S -> Z * S.
Variables sinf cosf : spec_float -> spec_float.
Hypothesis RAND_MAX_range : 32767 <= RAND_MAX <= 2147483647.
Hypothesis rand_range : forall s, 0 <= fst (rand s) <= RAND_MAX.

Lemma noise_term amp s (a : R) :
  F32.valid amp = true -> is_finite amp = true -> (0 <= B2R amp)%R ->
  (B2R amp * (1 + / 1048576) + / 1000000000 <= a)%R -> (a <= 1)%R ->
  fin32 (fst (noise RAND_MAX S rand amp s)) a.
Proof.
  intros Va Fa B0 B1 Ha.
  destruct (noise_bound RAND_MAX rand amp s RAND_MAX_range (rand_range s) Va Fa)
    as (V & F & B); [lra|].
  split; [exact V|]. split; [exact F|]. lra.
Qed.

Lemma imu_read_fields t s0 :
  let imu := fst (imu_read RAND_MAX S rand sinf cosf t s0) in
  within (az imu) (9729 / 1000) (9891 / 1000)
  /\ within (gx imu) (1799 / 1000) (2201 / 1000)
  /\ within (gy imu) (1299 / 1000) (1701 / 1000)
  /\ within (gz imu) (11699 / 1000) (12301 / 1000)
  /\ within (mx imu) (2799 / 10000) (3201 / 10000)
  /\ within (my imu) (- (201 / 10000)) (201 / 10000)
  /\ within (mz imu) (4799 / 10000) (5201 / 10000).
Proof.
  unfold imu_read.
  destruct (noise RAND_MAX S rand (F32.lit 5 100) s0) as [n1 s1] eqn:E1.
  destruct (noise RAND_MAX S rand (F32.lit 5 100) s1) as [n2 s2] eqn:E2.
  destruct (noise RAND_MAX S rand (F32.lit 8 100) s2) as [n3 s3] eqn:E3.
  destruct (noise RAND_MAX S rand (F32.lit 2 10) s3) as [n4 s4] eqn:E4.
  destruct (noise RAND_MAX S rand (F32.lit 2 10) s4) as [n5 s5] eqn:E5.
  destruct (noise RAND_MAX S rand (F32.lit 3 10) s5) as [n6 s6] eqn:E6.
  destruct (noise RAND_MAX S rand (F32.lit 2 100) s6) as [n7 s7] eqn:E7.
  destruct (noise RAND_MAX S rand (F32.lit 2 100) s7) as [n8 s8] eqn:E8.
  destruct (noise RAND_MAX S rand (F32.lit 2 100) s8) as [n9 s9] eqn:E9.
  cbn [fst az gx gy gz mx my mz].
  assert (fin32 n3 (8001 / 100000)) as (V3 & F3 & B3).
  { replace n3 with (fst (noise RAND_MAX S rand (F32.lit 8 100) s2)) by now rewrite E3.
    apply noise_term; try reflexivity; try lra; lit_value. }
  assert (fin32 n4 (2001 / 10000)) as (V4 & F4 & B4).
  { replace n4 with (fst (noise RAND_MAX S rand (F32.lit 2 10) s3)) by now rewrite E4.
    apply noise_term; try reflexivity; try lra; lit_value. }
  assert (fin32 n5 (2001 / 10000)) as (V5 & F5 & B5).
  { replace n5 with (fst (noise RAND_MAX S rand (F32.lit 2 10) s4)) by now rewrite E5.
    apply noise_term; try reflexivity; try lra; lit_value. }
  assert (fin32 n6 (3001 / 10000)) as (V6 & F6 & B6).
  { replace n6 with (fst (noise RAND_MAX S rand (F32.lit 3 10) s5)) by now rewrite E6.
    apply noise_term; try reflexivity; try lra; lit_value. }
  assert (fin32 n7 (2001 / 100000)) as (V7 & F7 & B7).
  { replace n7 with (fst (noise RAND_MAX S rand (F32.lit 2 100) s6)) by now rewrite E7.
    apply noise_term; try reflexivity; try lra; lit_value. }
  assert (fin32 n8 (2001 / 100000)) as (V8 & F8 & B8).
  { replace n8 with (fst (noise RAND_MAX S rand (F32.lit 2 100) s7)) by now rewrite E8.
    apply noise_term; try reflexivity; try lra; lit_value. }
  assert (fin32 n9 (2001 / 100000)) as (V9 & F9 & B9).
  { replace n9 with (fst (noise RAND_MAX S rand (F32.lit 2 100) s8)) by now rewrite E9.
    apply noise_term; try reflexivity; try lra; lit_value. }
  repeat split.
  all: try (eapply offset_noise; try eassumption; try reflexivity;
            try (apply Rabs_le); try lit_value; try lra).
Qed.

End ImuRead.

(** *** The early returns of [madgwick_update] *)

Lemma eqb_zero_special x : is_finite x = false -> F32.eqb x f0_0 = false.
Proof. destruct x as [s|[|]| |s m e]; try discriminate; reflexivity. Qed.

Lemma eqb_zero_false x : B2R x <> 0%R -> F32.eqb x f0_0 = false.
Proof.
  destruct x as [s|[|]| |[|] m e]; intros H; try reflexivity.
  exfalso. apply H. reflexivity.
Qed.

Lemma sqrtf_finite_inv x : is_finite (F32.sqrtf x) = true -> is_finite x = true.
Proof. destruct x as [s|[|]| |s m e]; try reflexivity; discriminate. Qed.

Lemma sqrt_tenth (x : R) : (/ 100 <= x)%R -> (/ 10 <= sqrt x)%R.
Proof.
  intros H. replace (/ 10)%R with (sqrt (/ 10 * / 10)) by (apply sqrt_square; lra).
  apply sqrt_le_1_alt. lra.
Qed.

(** The norm of a vector with a component away from zero is not zero,
    whatever the other two components are (infinite and NaN included). *)
Lemma vec_norm_nonzero x y z :
  (/ 5 <= Rabs (B2R z))%R -> F32.eqb (vec_norm x y z) f0_0 = false.
Proof.
  intros Hz. unfold vec_norm.
  set (s := F32.add (F32.add (F32.mul x x) (F32.mul y y)) (F32.mul z z)).
  destruct (is_finite (F32.sqrtf s)) eqn:Fr; [|now apply eqb_zero_special].
  pose proof (sqrtf_finite_inv s Fr) as Fs.
  destruct (SFadd_finite_inv 24 128 _ _ Fs) as [Ft Fz].
  destruct (SFadd_finite_inv 24 128 _ _ Ft) as [Fx Fy].
  pose proof (SFmul_error 24 128 prec24_pos x x Fx) as Ex.
  pose proof (SFmul_error 24 128 prec24_pos y y Fy) as Ey.
  pose proof (SFmul_error 24 128 prec24_pos z z Fz) as Ez.
  pose proof (SFadd_error 24 128 prec24_pos _ _ Ft) as Et.
  pose proof (SFadd_error 24 128 prec24_pos _ _ Fs) as Es.
  pose proof (SFsqrt_error 24 128 prec24_pos s Fs Fr) as Er.
  rewrite u_of_24, eta_of_32 in *.
  change (SFmul 24 128) with F32.mul in *. change (SFadd 24 128) with F32.add in *.
  change (SFsqrt 24 128 s) with (F32.sqrtf s) in *. fold s in Es.
  set (px := B2R (F32.mul x x)) in *. set (py := B2R (F32.mul y y)) in *.
  set (pz := B2R (F32.mul z z)) in *.
  set (t := B2R (F32.add (F32.mul x x) (F32.mul y y))) in *.
  assert (0 <= B2R x * B2R x)%R as X2 by nra.
  assert (0 <= B2R y * B2R y)%R as Y2 by nra.
  assert (/ 25 <= B2R z * B2R z)%R as Z2.
  { revert Hz. unfold Rabs. destruct (Rcase_abs (B2R z)); intros; nra. }
  set (X := (B2R x * B2R x)%R) in *. set (Y := (B2R y * B2R y)%R) in *.
  set (Z := (B2R z * B2R z)%R) in *. clearbody X Y Z.
  apply Rabs_le_inv in Ex, Ey, Ez.
  rewrite (Rabs_pos_eq X) in Ex by lra. rewrite (Rabs_pos_eq Y) in Ey by lra.
  rewrite (Rabs_pos_eq Z) in Ez by lra.
  unfold_consts.
  assert (- / 100000000000000000000 <= t)%R as T0.
  { apply Rabs_le_inv in Et. revert Et. rabs_cases; intros; lra. }
  assert (/ 100 <= B2R s)%R as S0.
  { apply Rabs_le_inv in Es. revert Es. rabs_cases; intros; lra. }
  pose proof (sqrt_tenth _ S0) as R0.
  apply eqb_zero_false. apply Rabs_le_inv in Er. lra.
Qed.

Lemma within_abs x lo hi (a : R) :
  within x lo hi -> (a <= lo \/ hi <= - a)%R -> (a <= Rabs (B2R x))%R.
Proof. intros (_ & _ & B) H. unfold Rabs. destruct (Rcase_abs (B2R x)); lra. Qed.

Lemma imu_read_nondegenerate (RAND_MAX : Z) {S : Type} (rand : S -> Z * S) sinf cosf t s0 :
  32767 <= RAND_MAX <= 2147483647 -> (forall s, 0 <= fst (rand s) <= RAND_MAX) ->
  degenerate (fst (imu_read RAND_MAX S rand sinf cosf t s0)) = false.
Proof.
  intros HM Hr.
  destruct (imu_read_fields RAND_MAX S rand sinf cosf HM Hr t s0)
    as (Az & _ & _ & _ & _ & _ & Mz).
  unfold degenerate. rewrite !vec_norm_nonzero; [reflexivity| |].
  - apply (within_abs _ _ _ _ Mz). lra.
  - apply (within_abs _ _ _ _ Az). lra.
Qed.

(** *** Bounded angular rates keep the update in range *)

Lemma SFleb_pos_complete m1 e1 m2 e2 :
  SpecFloat.bounded 24 128 m1 e1 = true -> SpecFloat.bounded 24 128 m2 e2 = true ->
  (IZR (Zpos m1) * bpow e1 <= IZR (Zpos m2) * bpow e2)%R ->
  SFleb (S754_finite false m1 e1) (S754_finite false m2 e2) = true.
Proof.
  intros B1 B2 H. unfold SFleb, SFcompare.
  destruct (Z.compare_spec e1 e2) as [E|L|G]; [| reflexivity |].
  - subst e2. fold (Pos.compare m1 m2).
    destruct (Pos.compare_spec m1 m2) as [E|L|G]; try reflexivity.
    exfalso. pose proof (bpow_pos e1).
    assert (IZR (Zpos m2) < IZR (Zpos m1))%R by (apply IZR_lt; lia). nra.
  - exfalso. pose proof (canonical_lt 24 128 m2 e2 m1 e1 B2 B1 G). lra.
Qed.

Lemma in_range_complete (s : spec_float) :
  F32.valid s = true -> is_finite s = true ->
  (/ IZR (2 ^ 64) <= B2R s <= IZR (2 ^ 64))%R ->
  SFleb range_lo s = true /\ SFleb s range_hi = true.
Proof.
  intros V F [Lo Hi].
  assert (0 < / IZR (2 ^ 64))%R as P.
  { apply Rinv_0_lt_compat. apply IZR_lt. reflexivity. }
  destruct s as [sg|sg| |sg m e]; try discriminate.
  - simpl B2R in Lo. lra.
  - destruct sg.
    + exfalso. rewrite B2R_finite in Lo. simpl sign_factor in Lo.
      pose proof (bpow_pos e). assert (0 < IZR (Zpos m))%R by (apply IZR_lt; lia). nra.
    + rewrite <- B2R_range_lo in Lo. rewrite <- B2R_range_hi in Hi.
      unfold range_lo, range_hi in *. rewrite !B2R_finite in Lo, Hi.
      simpl sign_factor in Lo, Hi. rewrite !Rmult_1_l in Lo, Hi.
      split; apply SFleb_pos_complete; try assumption; reflexivity.
Qed.

Section Rates.
Local Open Scope R_scope.

Lemma norm2_near_unit q :
  Rabs (magnitude q - 1) <= tol32 ->
  999 / 1000 <= norm2 q <= 1001 / 1000.
Proof.
  unfold magnitude. intros H.
  assert (0 <= norm2 q) as P.
  { unfold norm2.
    pose proof (Rle_0_sqr (B2R (q0 q))). pose proof (Rle_0_sqr (B2R (q1 q))).
    pose proof (Rle_0_sqr (B2R (q2 q))). pose proof (Rle_0_sqr (B2R (q3 q))).
    unfold Rsqr in *. lra. }
  pose proof (sqrt_sqrt _ P) as E. pose proof (sqrt_pos (norm2 q)) as S0.
  apply Rabs_le_inv in H. unfold_consts.
  set (m := sqrt (norm2 q)) in *. clearbody m. nra.
Qed.

Lemma square_root_bound (x a : R) : 0 <= a -> x * x <= a * a -> Rabs x <= a.
Proof. intros Ha H. apply Rabs_le. split; nra. Qed.

Lemma square_root_lower (x a : R) : 0 <= a -> a * a <= x * x -> a <= Rabs x.
Proof. intros Ha H. unfold Rabs. destruct (Rcase_abs x); nra. Qed.

Lemma fin32_half : fin32 f0_5 (/ 2).
Proof.
  split; [reflexivity|]. split; [reflexivity|]. apply Rabs_le. split; lit_value.
Qed.

(** One component of the integrated quaternion: the state component plus
    half a signed sum of three products, times the time step. *)
Lemma rate_component (op1 op2 : spec_float -> spec_float -> spec_float)
      (qi a b c g1 g2 g3 dt : spec_float) :
  (op1 = F32.add \/ op1 = F32.sub) -> (op2 = F32.add \/ op2 = F32.sub) ->
  fin32 qi (1001 / 1000) ->
  fin32 a (1001 / 1000) -> fin32 b (1001 / 1000) -> fin32 c (1001 / 1000) ->
  fin32 g1 (1746 / 1000) -> fin32 g2 (1746 / 1000) -> fin32 g3 (1746 / 1000) ->
  fin32 dt (/ 10) ->
  let r := F32.add qi
             (F32.mul (F32.mul f0_5 (op2 (op1 (F32.mul a g1) (F32.mul b g2)) (F32.mul c g3)))
                dt) in
  fin32 r (1264 / 1000) /\ Rabs (B2R r - B2R qi) <= 2626 / 10000.
Proof.
  intros O1 O2 Hq Ha Hb Hc H1 H2 H3 Hdt.
  assert (fin32 (F32.mul a g1) (1748 / 1000)) as P1
    by (refine (proj1 (fin32_mul _ _ _ _ _ Ha H1 _ _)); unfold_consts; lra).
  assert (fin32 (F32.mul b g2) (1748 / 1000)) as P2
    by (refine (proj1 (fin32_mul _ _ _ _ _ Hb H2 _ _)); unfold_consts; lra).
  assert (fin32 (F32.mul c g3) (1748 / 1000)) as P3
    by (refine (proj1 (fin32_mul _ _ _ _ _ Hc H3 _ _)); unfold_consts; lra).
  assert (fin32 (op1 (F32.mul a g1) (F32.mul b g2)) (3497 / 1000)) as S1.
  { destruct O1; subst op1;
      [refine (proj1 (fin32_add _ _ _ _ _ P1 P2 _ _))
      |refine (proj1 (fin32_sub _ _ _ _ _ P1 P2 _ _))]; unfold_consts; lra. }
  assert (fin32 (op2 (op1 (F32.mul a g1) (F32.mul b g2)) (F32.mul c g3)) (5246 / 1000))
    as S2.
  { destruct O2; subst op2;
      [refine (proj1 (fin32_add _ _ _ _ _ S1 P3 _ _))
      |refine (proj1 (fin32_sub _ _ _ _ _ S1 P3 _ _))]; unfold_consts; lra. }
  assert (fin32 (F32.mul f0_5 (op2 (op1 (F32.mul a g1) (F32.mul b g2)) (F32.mul c g3)))
            (2624 / 1000)) as Hh
    by (refine (proj1 (fin32_mul _ _ _ _ _ fin32_half S2 _ _)); unfold_consts; lra).
  assert (fin32 (F32.mul (F32.mul f0_5
                    (op2 (op1 (F32.mul a g1) (F32.mul b g2)) (F32.mul c g3))) dt)
            (2625 / 10000)) as D
    by (refine (proj1 (fin32_mul _ _ _ _ _ Hh Hdt _ _)); unfold_consts; lra).
  destruct (fin32_add _ _ _ _ (1264 / 1000) Hq D) as [R E];
    [unfold_consts; lra | lra |].
  cbv zeta. split; [exact R|].
  destruct D as (_ & _ & D). apply Rabs_le_inv in D, E. apply Rabs_le.
  revert E. unfold_consts. intros; lra.
Qed.

Lemma sum_sq_bounds q :
  fin32 (q0 q) (1264 / 1000) -> fin32 (q1 q) (1264 / 1000) ->
  fin32 (q2 q) (1264 / 1000) -> fin32 (q3 q) (1264 / 1000) ->
  F32.valid (sum_sq q) = true /\ is_finite (sum_sq q) = true
  /\ norm2 q - / 100000 <= B2R (sum_sq q) <= 64 / 10.
Proof.
  intros H0 H1 H2 H3. unfold sum_sq, norm2.
  destruct (fin32_mul _ _ _ _ (1598 / 1000) H0 H0) as [P0 E0]; [unfold_consts; lra|lra|].
  destruct (fin32_mul _ _ _ _ (1598 / 1000) H1 H1) as [P1 E1]; [unfold_consts; lra|lra|].
  destruct (fin32_mul _ _ _ _ (1598 / 1000) H2 H2) as [P2 E2]; [unfold_consts; lra|lra|].
  destruct (fin32_mul _ _ _ _ (1598 / 1000) H3 H3) as [P3 E3]; [unfold_consts; lra|lra|].
  destruct (fin32_add _ _ _ _ (3197 / 1000) P0 P1) as [S1 F1]; [unfold_consts; lra|lra|].
  destruct (fin32_add _ _ _ _ (4796 / 1000) S1 P2) as [S2 F2]; [unfold_consts; lra|lra|].
  destruct (fin32_add _ _ _ _ (6395 / 1000) S2 P3) as [S3 F3]; [unfold_consts; lra|lra|].
  destruct S3 as (V & F & B). split; [exact V|]. split; [exact F|].
  apply Rabs_le_inv in E0, E1, E2, E3, F1, F2, F3, B.
  set (X0 := B2R (q0 q) * B2R (q0 q)) in *. set (X1 := B2R (q1 q) * B2R (q1 q)) in *.
  set (X2 := B2R (q2 q) * B2R (q2 q)) in *. set (X3 := B2R (q3 q) * B2R (q3 q)) in *.
  clearbody X0 X1 X2 X3. revert E0 E1 E2 E3 F1 F2 F3. unfold_consts. intros. lra.
Qed.

End Rates.

Lemma deg2rad_bounded g : fin32 g 100 -> fin32 (deg2rad g) (1746 / 1000).
Proof.
  intros (V & F & B). destruct (deg2rad_error g V F) as [Fd E].
  split; [apply deg2rad_valid|]. split; [exact Fd|].
  apply Rabs_le_inv in E, B. apply Rabs_le.
  revert E. rabs_cases; intros; lra.
Qed.

Lemma bounded_rates_in_range q imu dt :
  quat_valid q = true -> quat_finite q = true ->
  (Rabs (magnitude q - 1) <= tol32)%R ->
  fin32 (gx imu) 100 -> fin32 (gy imu) 100 -> fin32 (gz imu) 100 ->
  fin32 dt (/ 10) ->
  update_in_range q imu dt = true.
Proof.
  intros Vq Fq Nq Gx Gy Gz Hdt.
  destruct (quat_valid_inv q Vq) as (V0 & V1 & V2 & V3).
  destruct (quat_finite_inv q Fq) as (F0 & F1 & F2 & F3).
  pose proof (norm2_near_unit q Nq) as [NL NH]. unfold norm2 in NL, NH.
  pose proof (Rle_0_sqr (B2R (q0 q))) as S0. pose proof (Rle_0_sqr (B2R (q1 q))) as S1.
  pose proof (Rle_0_sqr (B2R (q2 q))) as S2. pose proof (Rle_0_sqr (B2R (q3 q))) as S3.
  unfold Rsqr in S0, S1, S2, S3.
  assert (fin32 (q0 q) (1001 / 1000)) as H0
    by (split; [exact V0|split; [exact F0|apply square_root_bound; lra]]).
  assert (fin32 (q1 q) (1001 / 1000)) as H1
    by (split; [exact V1|split; [exact F1|apply square_root_bound; lra]]).
  assert (fin32 (q2 q) (1001 / 1000)) as H2
    by (split; [exact V2|split; [exact F2|apply square_root_bound; lra]]).
  assert (fin32 (q3 q) (1001 / 1000)) as H3
    by (split; [exact V3|split; [exact F3|apply square_root_bound; lra]]).
  pose proof (deg2rad_bounded _ Gx) as Rx. pose proof (deg2rad_bounded _ Gy) as Ry.
  pose proof (deg2rad_bounded _ Gz) as Rz.
  set (q' := euler_of q imu dt).
  assert (fin32 (q0 q') (1264 / 1000)
          /\ (Rabs (B2R (q0 q') - B2R (q0 q)) <= 2626 / 10000)%R) as [B0 D0].
  { exact (rate_component F32.sub F32.sub (q0 q) (F32.neg (q1 q)) (q2 q) (q3 q)
             _ _ _ dt (or_intror eq_refl) (or_intror eq_refl)
             H0 (fin32_neg _ _ H1) H2 H3 Rx Ry Rz Hdt). }
  assert (fin32 (q1 q') (1264 / 1000)
          /\ (Rabs (B2R (q1 q') - B2R (q1 q)) <= 2626 / 10000)%R) as [B1 D1].
  { exact (rate_component F32.add F32.sub (q1 q) (q0 q) (q2 q) (q3 q)
             _ _ _ dt (or_introl eq_refl) (or_intror eq_refl)
             H1 H0 H2 H3 Rx Rz Ry Hdt). }
  assert (fin32 (q2 q') (1264 / 1000)
          /\ (Rabs (B2R (q2 q') - B2R (q2 q)) <= 2626 / 10000)%R) as [B2 D2].
  { exact (rate_component F32.sub F32.add (q2 q) (q0 q) (q1 q) (q3 q)
             _ _ _ dt (or_intror eq_refl) (or_introl eq_refl)
             H2 H0 H1 H3 Ry Rz Rx Hdt). }
  assert (fin32 (q3 q') (1264 / 1000)
          /\ (Rabs (B2R (q3 q') - B2R (q3 q)) <= 2626 / 10000)%R) as [B3 D3].
  { exact (rate_component F32.add F32.sub (q3 q) (q0 q) (q1 q) (q2 q)
             _ _ _ dt (or_introl eq_refl) (or_intror eq_refl)
             H3 H0 H1 H2 Rz Ry Rx Hdt). }
  destruct (sum_sq_bounds q' B0 B1 B2 B3) as (Vs & Fs & Ls & Hs).
  assert (/ 20 <= norm2 q')%R as N'.
  { unfold norm2.
    pose proof (Rle_0_sqr (B2R (q0 q'))) as T0. pose proof (Rle_0_sqr (B2R (q1 q'))) as T1.
    pose proof (Rle_0_sqr (B2R (q2 q'))) as T2. pose proof (Rle_0_sqr (B2R (q3 q'))) as T3.
    unfold Rsqr in T0, T1, T2, T3.
    assert (forall x y : R, (2497 / 10000 <= x * x -> Rabs (y - x) <= 2626 / 10000
                             -> / 20 <= y * y)%R) as Step.
    { intros x y Hx Hy.
      pose proof (square_root_lower x (4996 / 10000) ltac:(lra) ltac:(lra)) as Ax.
      apply Rabs_le_inv in Hy. revert Ax. unfold Rabs.
      destruct (Rcase_abs x); intros; nra. }
    destruct (Rle_dec (2497 / 10000) (B2R (q0 q) * B2R (q0 q))) as [C0|C0];
      [pose proof (Step _ _ C0 D0); lra|].
    destruct (Rle_dec (2497 / 10000) (B2R (q1 q) * B2R (q1 q))) as [C1|C1];
      [pose proof (Step _ _ C1 D1); lra|].
    destruct (Rle_dec (2497 / 10000) (B2R (q2 q) * B2R (q2 q))) as [C2|C2];
      [pose proof (Step _ _ C2 D2); lra|].
    assert (2497 / 10000 <= B2R (q3 q) * B2R (q3 q))%R as C3 by lra.
    pose proof (Step _ _ C3 D3). lra. }
  destruct (in_range_complete (sum_sq q') Vs Fs) as [Lo Hi].
  { change (2 ^ 64)%Z with 18446744073709551616%Z. lra. }
  unfold update_in_range. fold q'. destruct Hdt as (Vdt & _ & _).
  rewrite Vdt, Lo, Hi. apply orb_true_r.
Qed.

(** ** The sensor layer and the loop of [main] *)

Lemma rand_example_range s : 0 <= fst (rand_example s) <= 32767.
Proof.
  unfold rand_example. cbn [fst].
  pose proof (Z.mod_pos_bound ((s * 1103515245 + 12345) mod 4294967296 / 65536) 32768).
  lia.
Qed.

(** X14: [noise(amp)] draws one number from the generator and, for a finite
    [amp] between 0 and 1000, returns a finite value whose magnitude is at
    most [amp] up to the rounding of its four operations. *)
Theorem noise_within_amplitude (RAND_MAX : Z) (S : Type) (rand : S -> Z * S) amp s :
  32767 <= RAND_MAX <= 2147483647 ->
  0 <= fst (rand s) <= RAND_MAX ->
  F32.valid amp = true -> is_finite amp = true -> (0 <= B2R amp <= 1000)%R ->
  snd (noise RAND_MAX S rand amp s) = snd (rand s)
  /\ is_finite (fst (noise RAND_MAX S rand amp s)) = true
  /\ (Rabs (B2R (fst (noise RAND_MAX S rand amp s)))
      <= B2R amp * (1 + / 1048576)
         + / 1393796574908163946345982392040522594123776)%R.
Proof.
  intros HM Hr Va Fa Ba. split; [apply noise_state|].
  destruct (noise_bound RAND_MAX rand amp s HM Hr Va Fa Ba) as (_ & F & B). now split.
Qed.

Lemma noise_within_amplitude_witness :
  snd (noise 32767 Z rand_example (F32.lit 5 100) 1) = snd (rand_example 1)
  /\ is_finite (fst (noise 32767 Z rand_example (F32.lit 5 100) 1)) = true
  /\ (Rabs (B2R (fst (noise 32767 Z rand_example (F32.lit 5 100) 1%Z)))
      <= B2R (F32.lit 5 100) * (1 + / 1048576)
         + / 1393796574908163946345982392040522594123776)%R.
Proof.
  apply (noise_within_amplitude 32767 Z rand_example (F32.lit 5 100) 1).
  - lia.
  - apply rand_example_range.
  - reflexivity.
  - reflexivity.
  - split; lit_value.
Defined.

Lemma imu_read_state (RAND_MAX : Z) {S : Type} (rand : S -> Z * S) sinf cosf t s0 :
  snd (imu_read RAND_MAX S rand sinf cosf t s0)
  = Nat.iter 9 (fun s => snd (rand s)) s0.
Proof.
  unfold imu_read.
  repeat match goal with
         | |- context [noise RAND_MAX S rand ?a ?s] =>
             let E := fresh "E" in
             pose proof (noise_state RAND_MAX rand a s) as E;
             destruct (noise RAND_MAX S rand a s); cbn [snd] in E; subst
         end.
  reflexivity.
Qed.

(** X15: every sample of [imu_read] has finite readings in fixed bands on the
    seven channels that do not go through [sinf] or [cosf], is never one on
    which [madgwick_update] returns early, and costs nine draws of [rand]:
    whatever the tick counter, the generator and the two library functions. *)
Theorem imu_read_sample (RAND_MAX : Z) (S : Type) (rand : S -> Z * S) sinf cosf t s0 :
  32767 <= RAND_MAX <= 2147483647 -> (forall s, 0 <= fst (rand s) <= RAND_MAX) ->
  let imu := fst (imu_read RAND_MAX S rand sinf cosf t s0) in
  (within (az imu) (9729 / 1000) (9891 / 1000)
   /\ within (gx imu) (1799 / 1000) (2201 / 1000)
   /\ within (gy imu) (1299 / 1000) (1701 / 1000)
   /\ within (gz imu) (11699 / 1000) (12301 / 1000)
   /\ within (mx imu) (2799 / 10000) (3201 / 10000)
   /\ within (my imu) (- (201 / 10000)) (201 / 10000)
   /\ within (mz imu) (4799 / 10000) (5201 / 10000))
  /\ degenerate imu = false
  /\ snd (imu_read RAND_MAX S rand sinf cosf t s0)
     = Nat.iter 9 (fun s => snd (rand s)) s0.
Proof.
  intros HM Hr imu. split; [|split].
  - apply imu_read_fields; assumption.
  - apply imu_read_nondegenerate; assumption.
  - apply imu_read_state.
Qed.

Lemma imu_read_sample_witness :
  let imu := fst (imu_read 32767 Z rand_example (fun x => x) (fun x => x) 7 1) in
  (within (az imu) (9729 / 1000) (9891 / 1000)
   /\ within (gx imu) (1799 / 1000) (2201 / 1000)
   /\ within (gy imu) (1299 / 1000) (1701 / 1000)
   /\ within (gz imu) (11699 / 1000) (12301 / 1000)
   /\ within (mx imu) (2799 / 10000) (3201 / 10000)
   /\ within (my imu) (- (201 / 10000)) (201 / 10000)
   /\ within (mz imu) (4799 / 10000) (5201 / 10000))
  /\ degenerate imu = false
  /\ snd (imu_read 32767 Z rand_example (fun x => x) (fun x => x) 7 1)
     = Nat.iter 9 (fun s => snd (rand_example s)) 1.
Proof.
  apply (imu_read_sample 32767 Z rand_example (fun x => x) (fun x => x) 7 1).
  - lia.
  - apply rand_example_range.
Defined.

Lemma fin32_dt : fin32 LOOP_DT_SEC (/ 10).
Proof.
  split; [reflexivity|]. split; [reflexivity|]. apply Rabs_le. split; lit_value.
Qed.

Lemma within_fin32 x lo hi (a : R) :
  within x lo hi -> (- a <= lo)%R -> (hi <= a)%R -> fin32 x a.
Proof.
  intros (V & F & B) L H. split; [exact V|]. split; [exact F|]. apply Rabs_le. lra.
Qed.

(** X16: one update at angular rates of at most 100 deg/s and a time step of at
    most a tenth of a second keeps a finite state of magnitude 1 (up to
    2^-20) finite and of magnitude 1, whatever the accelerometer and the
    magnetometer read. *)
Theorem bounded_rates_keep_unit q imu dt :
  quat_valid q = true -> quat_finite q = true ->
  (Rabs (magnitude q - 1) <= tol32)%R ->
  fin32 (gx imu) 100 -> fin32 (gy imu) 100 -> fin32 (gz imu) 100 ->
  fin32 dt (/ 10) ->
  quat_valid (snd (madgwick_update imu dt q)) = true
  /\ quat_finite (snd (madgwick_update imu dt q)) = true
  /\ (Rabs (magnitude (snd (madgwick_update imu dt q)) - 1) <= tol32)%R.
Proof.
  intros Vq Fq Nq Gx Gy Gz Hdt.
  apply update_keeps_unit; [exact Vq|now split|].
  now apply bounded_rates_in_range.
Qed.

Lemma bounded_rates_keep_unit_witness :
  quat_valid (snd (madgwick_update imu_yaw LOOP_DT_SEC q_init)) = true
  /\ quat_finite (snd (madgwick_update imu_yaw LOOP_DT_SEC q_init)) = true
  /\ (Rabs (magnitude (snd (madgwick_update imu_yaw LOOP_DT_SEC q_init)) - 1) <= tol32)%R.
Proof.
  apply (bounded_rates_keep_unit q_init imu_yaw LOOP_DT_SEC).
  - reflexivity.
  - reflexivity.
  - rewrite magnitude_q_init. unfold tol32. rewrite Rminus_diag, Rabs_R0. lra.
  - split; [reflexivity|]. split; [reflexivity|]. apply Rabs_le. split; lit_value.
  - split; [reflexivity|]. split; [reflexivity|]. apply Rabs_le. split; lit_value.
  - split; [reflexivity|]. split; [reflexivity|]. apply Rabs_le. split; lit_value.
  - exact fin32_dt.
Defined.

(** ** The update against the formula of the specification *)

Section StepBounds.
Local Open Scope R_scope.

(** An enclosure of [PI] from Machin's formula and the arctangent series. *)
Lemma PI_enclosure : 31415926 / 10000000 < PI < 31415927 / 10000000.
Proof.
  pose proof Machin_4_5_239 as M.
  destruct (atan_series_bounds (/ 5) ltac:(lra)) as [[L5 H5] _].
  destruct (atan_series_bounds (/ 239) ltac:(lra)) as [[L239 H239] _].
  split; lra.
Qed.

(** The [double] factor of [deg2rad] is [PI / 180] up to 1/3 10^-9. *)
Lemma deg2rad_factor_PI :
  Rabs (5030569068109113 / 288230376151711744 - PI / 180) <= / 3000000000.
Proof.
  pose proof PI_enclosure as [L H]. apply Rabs_le. split; lra.
Qed.

Section StepReal.

(** A product of two bounded factors. *)
Lemma Rabs_mult_le (x y a b : R) : Rabs x <= a -> Rabs y <= b -> Rabs (x * y) <= a * b.
Proof.
  intros Hx Hy. rewrite Rabs_mult.
  apply Rmult_le_compat; try apply Rabs_pos; assumption.
Qed.

(** The difference of the squared magnitudes of two quaternions that are
    close component by component. *)
Lemma norm2_close (X0 X1 X2 X3 E0 E1 E2 E3 e : R) :
  Rabs (X0 - E0) <= e -> Rabs (X1 - E1) <= e ->
  Rabs (X2 - E2) <= e -> Rabs (X3 - E3) <= e ->
  Rabs X0 <= 1264 / 1000 -> Rabs X1 <= 1264 / 1000 ->
  Rabs X2 <= 1264 / 1000 -> Rabs X3 <= 1264 / 1000 ->
  e <= / 1000 ->
  Rabs ((X0 * X0 + X1 * X1 + X2 * X2 + X3 * X3)
        - (E0 * E0 + E1 * E1 + E2 * E2 + E3 * E3)) <= 10116 / 1000 * e.
Proof.
  intros D0 D1 D2 D3 B0 B1 B2 B3 He.
  assert (0 <= e) as Pe by (eapply Rle_trans; [apply Rabs_pos|exact D0]).
  assert (forall X E, Rabs (X - E) <= e -> Rabs X <= 1264 / 1000 ->
                      Rabs (X * X - E * E) <= 2529 / 1000 * e) as Step.
  { intros X E D B.
    replace (X * X - E * E) with ((X - E) * (X + E)) by ring.
    replace (2529 / 1000 * e) with (e * (2529 / 1000)) by ring.
    apply Rabs_mult_le; [exact D|].
    apply Rabs_le_inv in D, B. apply Rabs_le. lra. }
  pose proof (Step _ _ D0 B0) as S0. pose proof (Step _ _ D1 B1) as S1.
  pose proof (Step _ _ D2 B2) as S2. pose proof (Step _ _ D3 B3) as S3.
  apply Rabs_le_inv in S0, S1, S2, S3. apply Rabs_le. lra.
Qed.

(** One component of the renormalised quaternion: the float [c] computed as
    [Xi * N] from the integrated components [X], against the exact
    component [Ei / |E|]. *)
Lemma normalized_component_real (SX SE a b N c Xi Ei : R) :
  0 <= a -> a * a = SX -> 0 <= b -> b * b = SE ->
  Rabs (SX - SE) <= 10116 / 1000 * (3 * u32) ->
  998 / 1000 <= SE ->
  0 < N -> 1 - 19 / 2 * u32 <= N * N * SX <= 1 + 19 / 2 * u32 ->
  Rabs (Xi - Ei) <= 3 * u32 -> Ei * Ei <= SE -> Xi * Xi <= SX ->
  Rabs (c - Xi * N) <= u32 * Rabs (Xi * N) + eta32 ->
  Rabs (c - Ei / b) <= 2 * tol32.
Proof.
  intros Pa Ea Pb Eb Hd LB PN HN Di Mi MXi C.
  unfold u32, eta32, tol32 in *.
  change (2 ^ 150)%Z with 1427247692705959881058285969449495136382746624%Z in *.
  apply Rabs_le_inv in Hd, Di.
  assert (998 / 1000 <= b) as Lb by nra.
  assert (997 / 1000 <= a) as La by nra.
  assert (Rabs (a - b) <= 92 / 100000000) as Dab.
  { assert (Rabs (a - b) * (a + b) = Rabs (SX - SE)) as F.
    { rewrite <- (Rabs_pos_eq (a + b)) at 1 by lra. rewrite <- Rabs_mult.
      f_equal. rewrite <- Ea, <- Eb. ring. }
    assert (Rabs (SX - SE) <= 10116 / 1000 * (3 * / 16777216)) as G
      by (apply Rabs_le; lra).
    pose proof (Rabs_pos (a - b)) as P.
    assert (Rabs (a - b) * (199 / 100) <= Rabs (a - b) * (a + b)) as M
      by (apply Rmult_le_compat_l; lra).
    lra. }
  apply Rabs_le_inv in Dab.
  set (t := Ei / b).
  assert (t * b = Ei) as Et by (unfold t; field; lra).
  assert (-1 <= t <= 1) as Bt.
  { assert (t * t * (b * b) <= b * b) as T2
      by (replace (t * t * (b * b)) with (Ei * Ei) by (rewrite <- Et; ring); lra).
    assert (0 < b * b) as Pbb by nra.
    assert (t * t <= 1) as T1.
    { destruct (Rle_lt_dec (t * t) 1) as [|Cn]; [assumption|]. exfalso.
      assert (1 * (b * b) < t * t * (b * b)) by (apply Rmult_lt_compat_r; assumption).
      lra. }
    split; nra. }
  assert (Rabs (N * a - 1) <= 3 / 10000000) as Na.
  { assert (0 <= N * a) by (apply Rmult_le_pos; lra).
    assert ((N * a) * (N * a) = N * N * SX) as F by (rewrite <- Ea; ring).
    set (z := N * a) in *. clearbody z.
    apply Rabs_le. split.
    - destruct (Rle_lt_dec (- (3 / 10000000)) (z - 1)) as [|Cn]; [assumption|]. exfalso. nra.
    - destruct (Rle_lt_dec (z - 1) (3 / 10000000)) as [|Cn]; [assumption|]. exfalso. nra. }
  apply Rabs_le_inv in Na.
  assert (N <= 1004 / 1000) as BN by nra.
  assert (Rabs (Xi * N - t) <= 15 / 10000000) as Main.
  { replace (Xi * N - t) with (t * (N * a - 1) + t * ((b - a) * N) + (Xi - Ei) * N)
      by (rewrite <- Et; ring).
    assert (Rabs (t * (N * a - 1)) <= 1 * (3 / 10000000)) as T1
      by (apply Rabs_mult_le; apply Rabs_le; lra).
    assert (Rabs ((b - a) * N) <= 92 / 100000000 * (1004 / 1000)) as T2'
      by (apply Rabs_mult_le; apply Rabs_le; lra).
    assert (Rabs (t * ((b - a) * N)) <= 1 * (92 / 100000000 * (1004 / 1000))) as T2
      by (apply Rabs_mult_le; [apply Rabs_le; lra|exact T2']).
    assert (Rabs ((Xi - Ei) * N) <= 3 * / 16777216 * (1004 / 1000)) as T3
      by (apply Rabs_mult_le; apply Rabs_le; lra).
    apply Rabs_le_inv in T1, T2, T3. apply Rabs_le. lra. }
  apply Rabs_le_inv in Main.
  assert (Rabs (Xi * N) <= 2) as BX by (apply Rabs_le; lra).
  apply Rabs_le_inv in C, BX.
  assert (0 <= Rabs (Xi * N) <= 2) as BR
    by (split; [apply Rabs_pos|apply Rabs_le; lra]).
  apply Rabs_le. fold t. lra.
Qed.

End StepReal.

(** One component of the integrated quaternion against its exact value:
    [w1], [w2], [w3] are the exact rates that [g1], [g2], [g3] round. *)
Lemma rate_component_error (op1 op2 : spec_float -> spec_float -> spec_float)
      (rop1 rop2 : R -> R -> R)
      (qi a b c g1 g2 g3 dt : spec_float) (w1 w2 w3 : R) :
  (op1 = F32.add /\ rop1 = Rplus \/ op1 = F32.sub /\ rop1 = Rminus) ->
  (op2 = F32.add /\ rop2 = Rplus \/ op2 = F32.sub /\ rop2 = Rminus) ->
  fin32 qi (1001 / 1000) ->
  fin32 a (1001 / 1000) -> fin32 b (1001 / 1000) -> fin32 c (1001 / 1000) ->
  fin32 g1 (1746 / 1000) -> fin32 g2 (1746 / 1000) -> fin32 g3 (1746 / 1000) ->
  Rabs (B2R g1 - w1) <= 24 / 10 * u32 -> Rabs (B2R g2 - w2) <= 24 / 10 * u32 ->
  Rabs (B2R g3 - w3) <= 24 / 10 * u32 ->
  fin32 dt (/ 10) ->
  let r := F32.add qi
             (F32.mul (F32.mul f0_5 (op2 (op1 (F32.mul a g1) (F32.mul b g2)) (F32.mul c g3)))
                dt) in
  Rabs (B2R r
        - (B2R qi
           + B2R dt * (1 / 2 * rop2 (rop1 (B2R a * w1) (B2R b * w2)) (B2R c * w3))))
  <= 3 * u32.
Proof.
  intros O1 O2 Hq Ha Hb Hc H1 H2 H3 W1 W2 W3 Hdt.
  destruct (fin32_mul _ _ _ _ (1748 / 1000) Ha H1) as [P1 E1]; [unfold_consts; lra|lra|].
  destruct (fin32_mul _ _ _ _ (1748 / 1000) Hb H2) as [P2 E2]; [unfold_consts; lra|lra|].
  destruct (fin32_mul _ _ _ _ (1748 / 1000) Hc H3) as [P3 E3]; [unfold_consts; lra|lra|].
  assert (fin32 (op1 (F32.mul a g1) (F32.mul b g2)) (3497 / 1000)
          /\ Rabs (B2R (op1 (F32.mul a g1) (F32.mul b g2))
                   - rop1 (B2R (F32.mul a g1)) (B2R (F32.mul b g2)))
             <= u32 * (1748 / 1000 + 1748 / 1000) + eta32) as [S1 F1].
  { destruct O1 as [[-> ->]|[-> ->]];
      [apply fin32_add|apply fin32_sub]; try assumption; unfold_consts; lra. }
  assert (fin32 (op2 (op1 (F32.mul a g1) (F32.mul b g2)) (F32.mul c g3)) (5246 / 1000)
          /\ Rabs (B2R (op2 (op1 (F32.mul a g1) (F32.mul b g2)) (F32.mul c g3))
                   - rop2 (B2R (op1 (F32.mul a g1) (F32.mul b g2))) (B2R (F32.mul c g3)))
             <= u32 * (3497 / 1000 + 1748 / 1000) + eta32) as [S2 F2].
  { destruct O2 as [[-> ->]|[-> ->]];
      [apply fin32_add|apply fin32_sub]; try assumption; unfold_consts; lra. }
  destruct (fin32_mul _ _ _ _ (2624 / 1000) fin32_half S2) as [Hh Eh];
    [unfold_consts; lra|lra|].
  destruct (fin32_mul _ _ _ _ (2625 / 10000) Hh Hdt) as [D Ed]; [unfold_consts; lra|lra|].
  destruct (fin32_add _ _ _ _ (1264 / 1000) Hq D) as [R Er]; [unfold_consts; lra|lra|].
  cbv zeta.
  set (p1 := F32.mul a g1) in *. set (p2 := F32.mul b g2) in *. set (p3 := F32.mul c g3) in *.
  set (s1 := op1 p1 p2) in *. set (s2 := op2 s1 p3) in *.
  set (h := F32.mul f0_5 s2) in *. set (d := F32.mul h dt) in *.
  assert (B2R f0_5 = / 2) as Half by lit_value.
  rewrite Half in Eh.
  (* the exact products *)
  assert (forall x g w, fin32 x (1001 / 1000) -> Rabs (B2R g - w) <= 24 / 10 * u32 ->
                        Rabs (B2R x * B2R g - B2R x * w) <= 1001 / 1000 * (24 / 10 * u32))
    as Prod.
  { intros x g w (_ & _ & Bx) Hw.
    replace (B2R x * B2R g - B2R x * w) with (B2R x * (B2R g - w)) by ring.
    now apply Rabs_mult_le. }
  pose proof (Prod _ _ _ Ha W1) as G1. pose proof (Prod _ _ _ Hb W2) as G2.
  pose proof (Prod _ _ _ Hc W3) as G3.
  set (t := rop2 (rop1 (B2R a * w1) (B2R b * w2)) (B2R c * w3)).
  assert (Rabs (B2R s2 - t) <= 21200 / 1000 * u32 + 5 * eta32) as Es2.
  { unfold t. apply Rabs_le_inv in E1, E2, E3, F1, F2, G1, G2, G3.
    apply Rabs_le.
    destruct O1 as [[_ ->]|[_ ->]], O2 as [[_ ->]|[_ ->]];
      revert E1 E2 E3 F1 F2 G1 G2 G3; unfold_consts; intros; lra. }
  assert (Rabs (B2R h - 1 / 2 * t) <= 13225 / 1000 * u32 + 4 * eta32) as Eh'.
  { apply Rabs_le_inv in Eh, Es2. apply Rabs_le.
    revert Eh Es2. unfold_consts. intros; lra. }
  assert (Rabs (B2R h * B2R dt - B2R dt * (1 / 2 * t))
          <= (13225 / 1000 * u32 + 4 * eta32) * / 10) as Ehd.
  { replace (B2R h * B2R dt - B2R dt * (1 / 2 * t)) with ((B2R h - 1 / 2 * t) * B2R dt)
      by ring.
    apply Rabs_mult_le; [exact Eh'|]. now destruct Hdt as (_ & _ & B). }
  apply Rabs_le_inv in Ed, Er, Ehd. apply Rabs_le.
  revert Ed Er Ehd. unfold_consts. intros; lra.
Qed.

End StepBounds.

(** [deg2rad] against the exact conversion. *)
Lemma deg2rad_radians g :
  fin32 g 100 -> (Rabs (B2R (deg2rad g) - radians (B2R g)) <= 24 / 10 * u32)%R.
Proof.
  intros (V & F & B). destruct (deg2rad_error g V F) as [_ E].
  pose proof deg2rad_factor_PI as K.
  set (k := (5030569068109113 / 288230376151711744)%R) in *.
  assert (Rabs (B2R g * k - radians (B2R g)) <= 100 * / 3000000000)%R as D.
  { unfold radians.
    replace (B2R g * k - B2R g * PI / 180)%R with (B2R g * (k - PI / 180))%R by (field).
    now apply Rabs_mult_le. }
  assert (0 <= Rabs (B2R g) <= 100)%R as P by (split; [apply Rabs_pos|exact B]).
  apply Rabs_le_inv in E, D. apply Rabs_le.
  revert E D. unfold k, u32. intros. split; nra.
Qed.

Section StepExact.
Local Open Scope R_scope.

(** The squared magnitude of the exact Euler step: the rate quaternion is
    pure, so the step is orthogonal to the state. *)
Lemma spec_step_norm2 (q : rquat) (gx gy gz dt : R) :
  let e := rplus q (rscale dt (spec_qDot q gx gy gz)) in
  rw e * rw e + rx e * rx e + ry e * ry e + rz e * rz e
  = (rw q * rw q + rx q * rx q + ry q * ry q + rz q * rz q)
    * (1 + dt / 2 * (dt / 2)
           * (radians gx * radians gx + radians gy * radians gy
              + radians gz * radians gz)).
Proof.
  cbv zeta. unfold spec_qDot, rate_quat, hamilton, rplus, rscale. cbn [rw rx ry rz].
  field.
Qed.

Lemma spec_step_norm2_ge (q : rquat) (gx gy gz dt : R) :
  let e := rplus q (rscale dt (spec_qDot q gx gy gz)) in
  rw q * rw q + rx q * rx q + ry q * ry q + rz q * rz q
  <= rw e * rw e + rx e * rx e + ry e * ry e + rz e * rz e.
Proof.
  cbv zeta. rewrite spec_step_norm2.
  set (n := rw q * rw q + rx q * rx q + ry q * ry q + rz q * rz q).
  assert (0 <= n) by (unfold n; nra).
  set (w := radians gx * radians gx + radians gy * radians gy + radians gz * radians gz).
  assert (0 <= w) by (unfold w; nra).
  assert (0 <= dt / 2 * (dt / 2)) by nra.
  assert (0 <= dt / 2 * (dt / 2) * w) by (apply Rmult_le_pos; assumption).
  nra.
Qed.

End StepExact.

(** The update against the specification's formula, component by component. *)
Lemma update_accuracy (q : quat) (imu : imu_sample_t) (dt : spec_float) :
  degenerate imu = false ->
  quat_valid q = true -> quat_finite q = true ->
  (Rabs (magnitude q - 1) <= tol32)%R ->
  fin32 (gx imu) 100 -> fin32 (gy imu) 100 -> fin32 (gz imu) 100 ->
  fin32 dt (/ 10) ->
  let q' := snd (madgwick_update imu dt q) in
  let s := spec_update (quat_R q) (B2R (gx imu)) (B2R (gy imu)) (B2R (gz imu)) (B2R dt) in
  (Rabs (B2R (q0 q') - rw s) <= 2 * tol32)%R
  /\ (Rabs (B2R (q1 q') - rx s) <= 2 * tol32)%R
  /\ (Rabs (B2R (q2 q') - ry s) <= 2 * tol32)%R
  /\ (Rabs (B2R (q3 q') - rz s) <= 2 * tol32)%R.
Proof.
  intros Nd Vq Fq Nq Gx Gy Gz Hdt.
  pose proof (bounded_rates_in_range q imu dt Vq Fq Nq Gx Gy Gz Hdt) as IR.
  unfold update_in_range in IR. rewrite Nd in IR. cbn [orb] in IR.
  apply andb_true_iff in IR as [IR Hi]. apply andb_true_iff in IR as [Vdt Lo].
  destruct (quat_valid_inv q Vq) as (V0 & V1 & V2 & V3).
  destruct (quat_finite_inv q Fq) as (F0 & F1 & F2 & F3).
  pose proof (norm2_near_unit q Nq) as [NL NH].
  assert (forall x : R, (x * x <= norm2 q -> Rabs x <= 1001 / 1000)%R) as Small
    by (intros x Hx; apply square_root_bound; lra).
  pose proof (Rle_0_sqr (B2R (q0 q))) as S0. pose proof (Rle_0_sqr (B2R (q1 q))) as S1.
  pose proof (Rle_0_sqr (B2R (q2 q))) as S2. pose proof (Rle_0_sqr (B2R (q3 q))) as S3.
  unfold Rsqr in S0, S1, S2, S3.
  assert (fin32 (q0 q) (1001 / 1000)) as H0
    by (split; [exact V0|split; [exact F0|apply Small; unfold norm2; lra]]).
  assert (fin32 (q1 q) (1001 / 1000)) as H1
    by (split; [exact V1|split; [exact F1|apply Small; unfold norm2; lra]]).
  assert (fin32 (q2 q) (1001 / 1000)) as H2
    by (split; [exact V2|split; [exact F2|apply Small; unfold norm2; lra]]).
  assert (fin32 (q3 q) (1001 / 1000)) as H3
    by (split; [exact V3|split; [exact F3|apply Small; unfold norm2; lra]]).
  pose proof (deg2rad_bounded _ Gx) as Rx. pose proof (deg2rad_bounded _ Gy) as Ry.
  pose proof (deg2rad_bounded _ Gz) as Rz.
  pose proof (deg2rad_radians _ Gx) as Wx. pose proof (deg2rad_radians _ Gy) as Wy.
  pose proof (deg2rad_radians _ Gz) as Wz.
  set (X := euler_of q imu dt) in *.
  assert (quat_valid X = true) as VX by (apply euler_of_valid; assumption).
  set (e := rplus (quat_R q)
              (rscale (B2R dt)
                 (spec_qDot (quat_R q) (B2R (gx imu)) (B2R (gy imu)) (B2R (gz imu))))).
  (* the integrated components: bounds and errors *)
  assert (fin32 (q0 X) (1264 / 1000) /\ (Rabs (B2R (q0 X) - rw e) <= 3 * u32)%R)
    as [B0 D0].
  { split.
    - exact (proj1 (rate_component F32.sub F32.sub (q0 q) (F32.neg (q1 q)) (q2 q) (q3 q)
               _ _ _ dt (or_intror eq_refl) (or_intror eq_refl)
               H0 (fin32_neg _ _ H1) H2 H3 Rx Ry Rz Hdt)).
    - pose proof (rate_component_error F32.sub F32.sub Rminus Rminus
                    (q0 q) (F32.neg (q1 q)) (q2 q) (q3 q) _ _ _ dt _ _ _
                    (or_intror (conj eq_refl eq_refl)) (or_intror (conj eq_refl eq_refl))
                    H0 (fin32_neg _ _ H1) H2 H3 Rx Ry Rz Wx Wy Wz Hdt) as E.
      cbv zeta in E. unfold F32.neg in E. rewrite B2R_opp in E.
      replace (rw e) with
        (B2R (q0 q) + B2R dt * (1 / 2 * (- B2R (q1 q) * radians (B2R (gx imu))
                                         - B2R (q2 q) * radians (B2R (gy imu))
                                         - B2R (q3 q) * radians (B2R (gz imu)))))%R;
        [exact E|].
      unfold e, spec_qDot, rate_quat, hamilton, rplus, rscale, quat_R. cbn [rw rx ry rz].
      ring. }
  assert (fin32 (q1 X) (1264 / 1000) /\ (Rabs (B2R (q1 X) - rx e) <= 3 * u32)%R)
    as [B1 D1].
  { split.
    - exact (proj1 (rate_component F32.add F32.sub (q1 q) (q0 q) (q2 q) (q3 q)
               _ _ _ dt (or_introl eq_refl) (or_intror eq_refl)
               H1 H0 H2 H3 Rx Rz Ry Hdt)).
    - pose proof (rate_component_error F32.add F32.sub Rplus Rminus
                    (q1 q) (q0 q) (q2 q) (q3 q) _ _ _ dt _ _ _
                    (or_introl (conj eq_refl eq_refl)) (or_intror (conj eq_refl eq_refl))
                    H1 H0 H2 H3 Rx Rz Ry Wx Wz Wy Hdt) as E.
      cbv zeta in E.
      replace (rx e) with
        (B2R (q1 q) + B2R dt * (1 / 2 * (B2R (q0 q) * radians (B2R (gx imu))
                                         + B2R (q2 q) * radians (B2R (gz imu))
                                         - B2R (q3 q) * radians (B2R (gy imu)))))%R;
        [exact E|].
      unfold e, spec_qDot, rate_quat, hamilton, rplus, rscale, quat_R. cbn [rw rx ry rz].
      ring. }
  assert (fin32 (q2 X) (1264 / 1000) /\ (Rabs (B2R (q2 X) - ry e) <= 3 * u32)%R)
    as [B2 D2].
  { split.
    - exact (proj1 (rate_component F32.sub F32.add (q2 q) (q0 q) (q1 q) (q3 q)
               _ _ _ dt (or_intror eq_refl) (or_introl eq_refl)
               H2 H0 H1 H3 Ry Rz Rx Hdt)).
    - pose proof (rate_component_error F32.sub F32.add Rminus Rplus
                    (q2 q) (q0 q) (q1 q) (q3 q) _ _ _ dt _ _ _
                    (or_intror (conj eq_refl eq_refl)) (or_introl (conj eq_refl eq_refl))
                    H2 H0 H1 H3 Ry Rz Rx Wy Wz Wx Hdt) as E.
      cbv zeta in E.
      replace (ry e) with
        (B2R (q2 q) + B2R dt * (1 / 2 * (B2R (q0 q) * radians (B2R (gy imu))
                                         - B2R (q1 q) * radians (B2R (gz imu))
                                         + B2R (q3 q) * radians (B2R (gx imu)))))%R;
        [exact E|].
      unfold e, spec_qDot, rate_quat, hamilton, rplus, rscale, quat_R. cbn [rw rx ry rz].
      ring. }
  assert (fin32 (q3 X) (1264 / 1000) /\ (Rabs (B2R (q3 X) - rz e) <= 3 * u32)%R)
    as [B3 D3].
  { split.
    - exact (proj1 (rate_component F32.add F32.sub (q3 q) (q0 q) (q1 q) (q2 q)
               _ _ _ dt (or_introl eq_refl) (or_intror eq_refl)
               H3 H0 H1 H2 Rz Ry Rx Hdt)).
    - pose proof (rate_component_error F32.add F32.sub Rplus Rminus
                    (q3 q) (q0 q) (q1 q) (q2 q) _ _ _ dt _ _ _
                    (or_introl (conj eq_refl eq_refl)) (or_intror (conj eq_refl eq_refl))
                    H3 H0 H1 H2 Rz Ry Rx Wz Wy Wx Hdt) as E.
      cbv zeta in E.
      replace (rz e) with
        (B2R (q3 q) + B2R dt * (1 / 2 * (B2R (q0 q) * radians (B2R (gz imu))
                                         + B2R (q1 q) * radians (B2R (gy imu))
                                         - B2R (q2 q) * radians (B2R (gx imu)))))%R;
        [exact E|].
      unfold e, spec_qDot, rate_quat, hamilton, rplus, rscale, quat_R. cbn [rw rx ry rz].
      ring. }
  (* the scale factor *)
  assert (in_range X = true) as InR
    by (unfold in_range; now rewrite VX, Lo, Hi).
  destruct (renormalize_scale X InR) as (FX & Vn & PN & HW & Comp).
  destruct (quat_valid_inv X VX) as (VX0 & VX1 & VX2 & VX3).
  destruct (quat_finite_inv X FX) as (FX0 & FX1 & FX2 & FX3).
  set (n := inv_sqrt (sum_sq X)) in *. set (N := B2R n) in *.
  (* the two squared magnitudes *)
  set (SE := (rw e * rw e + rx e * rx e + ry e * ry e + rz e * rz e)%R).
  assert (998 / 1000 <= SE)%R as LSE.
  { pose proof (spec_step_norm2_ge (quat_R q) (B2R (gx imu)) (B2R (gy imu))
                  (B2R (gz imu)) (B2R dt)) as G.
    cbv zeta in G. fold e in G. fold SE in G.
    unfold quat_R in G at 1 2 3 4 5 6 7 8. cbn [rw rx ry rz] in G.
    unfold norm2 in NL. lra. }
  pose proof (norm2_close _ _ _ _ _ _ _ _ (3 * u32)%R D0 D1 D2 D3
                (proj2 (proj2 B0)) (proj2 (proj2 B1)) (proj2 (proj2 B2))
                (proj2 (proj2 B3)) ltac:(unfold u32; lra)) as Close.
  fold (norm2 X) in Close. fold SE in Close.
  assert (0 <= norm2 X)%R as PSX.
  { unfold norm2.
    pose proof (Rle_0_sqr (B2R (q0 X))). pose proof (Rle_0_sqr (B2R (q1 X))).
    pose proof (Rle_0_sqr (B2R (q2 X))). pose proof (Rle_0_sqr (B2R (q3 X))).
    unfold Rsqr in *. lra. }
  assert (0 <= SE)%R as PSE by lra.
  pose proof (sqrt_pos (norm2 X)) as Pa. pose proof (sqrt_sqrt _ PSX) as Ea.
  pose proof (sqrt_pos SE) as Pb. pose proof (sqrt_sqrt _ PSE) as Eb.
  assert (forall (x : spec_float) (Ei : R),
             F32.valid x = true -> is_finite x = true ->
             (B2R x * B2R x <= norm2 X)%R -> (Ei * Ei <= SE)%R ->
             (Rabs (B2R x - Ei) <= 3 * u32)%R ->
             (Rabs (B2R (F32.mul x n) - / sqrt SE * Ei) <= 2 * tol32)%R) as Final.
  { intros x Ei Vx Fx Mx Me Dx.
    destruct (Comp x Vx Fx Mx) as (_ & _ & _ & C).
    replace (/ sqrt SE * Ei)%R with (Ei / sqrt SE)%R by (unfold Rdiv; ring).
    exact (normalized_component_real (norm2 X) SE (sqrt (norm2 X)) (sqrt SE) N
             (B2R (F32.mul x n)) (B2R x) Ei Pa Ea Pb Eb Close LSE PN HW Dx Me Mx C). }
  pose proof (Rle_0_sqr (B2R (q0 X))) as T0. pose proof (Rle_0_sqr (B2R (q1 X))) as T1.
  pose proof (Rle_0_sqr (B2R (q2 X))) as T2. pose proof (Rle_0_sqr (B2R (q3 X))) as T3.
  pose proof (Rle_0_sqr (rw e)) as U0. pose proof (Rle_0_sqr (rx e)) as U1.
  pose proof (Rle_0_sqr (ry e)) as U2. pose proof (Rle_0_sqr (rz e)) as U3.
  unfold Rsqr in T0, T1, T2, T3, U0, U1, U2, U3.
  cbv zeta. rewrite madgwick_update_cases, Nd. cbn [snd]. fold X.
  unfold renormalize. cbn [q0 q1 q2 q3]. fold n.
  unfold spec_update, normalized. fold e. unfold rscale, rnorm. cbn [rw rx ry rz].
  fold SE.
  split; [|split; [|split]]; apply Final; try assumption;
    first [unfold norm2; lra | unfold SE; lra].
Qed.

(** Without an early return the new state is the renormalised integrated
    quaternion, in which the accelerometer and the magnetometer do not
    occur. *)
Lemma madgwick_update_step (q : quat) (imu : imu_sample_t) (dt : spec_float) :
  F32.eqb (vec_norm (ax imu) (ay imu) (az imu)) f0_0 = false ->
  F32.eqb (vec_norm (mx imu) (my imu) (mz imu)) f0_0 = false ->
  degenerate imu = false
  /\ snd (madgwick_update imu dt q) = renormalize (euler_of q imu dt).
Proof.
  intros A Mg. assert (degenerate imu = false) as Nd by (unfold degenerate; now rewrite A, Mg).
  split; [exact Nd|]. now rewrite madgwick_update_cases, Nd.
Qed.

(** C1: for a sample whose accelerometer and magnetometer norms do not
    compare equal to zero, the new quaternion is a function of the prior
    quaternion, the three gyroscope readings and [dt] alone: two such samples
    with equal gyroscope readings give the same state.  When the prior state
    is finite and of magnitude 1 up to 2^-20, the rates are at most 100 deg/s
    and [dt] is at most 0.1 s, each component of the new state is within 2^-19
    of the same component of the renormalised [q + dt * qDot], computed in
    real numbers, where [qDot] is half the Hamilton product of [q] and the
    pure quaternion of the rates times [PI / 180]. *)
Theorem madgwick_update_gyro_only (q : quat) (imu : imu_sample_t) (dt : spec_float) :
  F32.eqb (vec_norm (ax imu) (ay imu) (az imu)) f0_0 = false ->
  F32.eqb (vec_norm (mx imu) (my imu) (mz imu)) f0_0 = false ->
  (forall imu' : imu_sample_t,
      F32.eqb (vec_norm (ax imu') (ay imu') (az imu')) f0_0 = false ->
      F32.eqb (vec_norm (mx imu') (my imu') (mz imu')) f0_0 = false ->
      gx imu' = gx imu -> gy imu' = gy imu -> gz imu' = gz imu ->
      snd (madgwick_update imu' dt q) = snd (madgwick_update imu dt q))
  /\ (quat_valid q = true -> quat_finite q = true ->
      (Rabs (magnitude q - 1) <= tol32)%R ->
      fin32 (gx imu) 100 -> fin32 (gy imu) 100 -> fin32 (gz imu) 100 ->
      fin32 dt (/ 10) ->
      let q' := snd (madgwick_update imu dt q) in
      let s := spec_update (quat_R q) (B2R (gx imu)) (B2R (gy imu)) (B2R (gz imu))
                 (B2R dt) in
      (Rabs (B2R (q0 q') - rw s) <= 2 * tol32)%R
      /\ (Rabs (B2R (q1 q') - rx s) <= 2 * tol32)%R
      /\ (Rabs (B2R (q2 q') - ry s) <= 2 * tol32)%R
      /\ (Rabs (B2R (q3 q') - rz s) <= 2 * tol32)%R).
Proof.
  intros A Mg. destruct (madgwick_update_step q imu dt A Mg) as [Nd E].
  split.
  - intros imu' A' M' Ex Ey Ez.
    destruct (madgwick_update_step q imu' dt A' M') as [_ E'].
    rewrite E, E'. unfold euler_of. now rewrite Ex, Ey, Ez.
  - intros Vq Fq Nq Gx Gy Gz Hdt. now apply update_accuracy.
Qed.

Lemma madgwick_update_gyro_only_witness :
  let q' := snd (madgwick_update imu_level LOOP_DT_SEC q_init) in
  let s := spec_update (quat_R q_init) (B2R (gx imu_level)) (B2R (gy imu_level))
             (B2R (gz imu_level)) (B2R LOOP_DT_SEC) in
  (Rabs (B2R (q0 q') - rw s) <= 2 * tol32)%R
  /\ (Rabs (B2R (q1 q') - rx s) <= 2 * tol32)%R
  /\ (Rabs (B2R (q2 q') - ry s) <= 2 * tol32)%R
  /\ (Rabs (B2R (q3 q') - rz s) <= 2 * tol32)%R.
Proof.
  refine (proj2 (madgwick_update_gyro_only q_init imu_level LOOP_DT_SEC _ _) _ _ _ _ _ _ _).
  - reflexivity.
  - reflexivity.
  - reflexivity.
  - reflexivity.
  - rewrite magnitude_q_init. unfold tol32. rewrite Rminus_diag, Rabs_R0. lra.
  - split; [reflexivity|]. split; [reflexivity|]. apply Rabs_le. split; lit_value.
  - split; [reflexivity|]. split; [reflexivity|]. apply Rabs_le. split; lit_value.
  - split; [reflexivity|]. split; [reflexivity|]. apply Rabs_le. split; lit_value.
  - exact fin32_dt.
Defined.

Section Overflow.
Local Open Scope R_scope.

(** A renormalised quaternion has magnitude 1. *)
Lemma normalized_unit (a : rquat) :
  0 < rw a * rw a + rx a * rx a + ry a * ry a + rz a * rz a ->
  let s := normalized a in
  rw s * rw s + rx s * rx s + ry s * ry s + rz s * rz s = 1.
Proof.
  intros P. cbv zeta. unfold normalized, rscale, rnorm. cbn [rw rx ry rz].
  set (n2 := rw a * rw a + rx a * rx a + ry a * ry a + rz a * rz a) in *.
  assert (0 < sqrt n2) as Ps by (apply sqrt_lt_R0; exact P).
  assert (sqrt n2 * sqrt n2 = n2) as Sq by (apply sqrt_sqrt; lra).
  set (r := sqrt n2) in *.
  assert (r <> 0) as Nz by lra.
  replace (/ r * rw a * (/ r * rw a) + / r * rx a * (/ r * rx a)
           + / r * ry a * (/ r * ry a) + / r * rz a * (/ r * rz a))
    with (n2 * (/ r * / r)) by (unfold n2; ring).
  rewrite <- Sq. now field.
Qed.

End Overflow.

(** C1 (counterexample): the sample of tick 0 without noise, integrated from
    the initial state over a time step of 1e30 s.  The sum of squares
    overflows, the inverse square root is 0 and the new state is the zero
    quaternion, while the renormalised [q + dt * qDot] of the specification
    has magnitude 1. *)
Lemma euler_step_lost_on_overflow :
  F32.eqb (vec_norm (ax imu_level) (ay imu_level) (az imu_level)) f0_0 = false
  /\ F32.eqb (vec_norm (mx imu_level) (my imu_level) (mz imu_level)) f0_0 = false
  /\ is_finite dt_huge = true
  /\ snd (madgwick_update imu_level dt_huge q_init)
     = {| q0 := S754_zero false; q1 := S754_zero false;
          q2 := S754_zero false; q3 := S754_zero false |}
  /\ (let s := spec_update (quat_R q_init) (B2R (gx imu_level)) (B2R (gy imu_level))
                 (B2R (gz imu_level)) (B2R dt_huge) in
      rw s * rw s + rx s * rx s + ry s * ry s + rz s * rz s = 1)%R.
Proof.
  split; [reflexivity|]. split; [reflexivity|]. split; [reflexivity|].
  split; [vm_compute; reflexivity|].
  apply normalized_unit.
  pose proof (spec_step_norm2_ge (quat_R q_init) (B2R (gx imu_level)) (B2R (gy imu_level))
                (B2R (gz imu_level)) (B2R dt_huge)) as G.
  cbv zeta in G. eapply Rlt_le_trans; [|exact G].
  unfold quat_R, q_init. cbn [rw rx ry rz q0 q1 q2 q3].
  assert (B2R f1_0 = 1%R) as -> by lit_value.
  simpl B2R. lra.
Qed.

(** ** The frame of a tick *)

(** [%.2f] of any [float]: at most 43 characters. *)
Lemma fmt_2f_length_valid (neg : bool) x :
  F32.valid x = true -> (List.length (fmt_2f neg x) <= 43)%nat.
Proof.
  assert (forall s h, 0 <= h <= 100 * 2 ^ 128 ->
            (List.length (fixed2_text s h) <= 43)%nat) as F.
  { intros s h Hh. unfold fixed2_text. rewrite !length_app. cbn [List.length].
    pose proof (sign_text_length s).
    assert (List.length (dec_text (h / 100)) <= 39)%nat; [|lia].
    apply dec_text_length; [|lia].
    change (10 ^ Z.of_nat 39) with 1000000000000000000000000000000000000000.
    change (2 ^ 128) with 340282366920938463463374607431768211456 in Hh.
    Z.to_euclidean_division_equations. lia. }
  destruct x as [s|s| |s m e]; intros V; cbn [fmt_2f].
  - apply F. lia.
  - destruct s; simpl; lia.
  - destruct neg; simpl; lia.
  - apply F. split; [apply hundredths_nonneg|].
    pose proof (valid_lt_bpow_128 _ V eq_refl) as B. rewrite B2R_abs_finite in B.
    pose proof (hundredths_accuracy m e) as A. apply Rabs_le_inv in A.
    change (2 ^ 128) with 340282366920938463463374607431768211456.
    assert (IZR (hundredths m e) < IZR (100 * 340282366920938463463374607431768211456 + 1))%R
      as L by (rewrite plus_IZR, mult_IZR; lra).
    apply lt_IZR in L. lia.
Qed.

(** [100.0f + 0.05f * t] for an [int] [t]. *)
Lemma tick_altitude_fin t :
  - 2 ^ 31 <= t < 2 ^ 31 ->
  fin32 (F32.add (F32.lit 100 1) (F32.mul (F32.lit 5 100) (F32.of_int t))) 1000000000.
Proof.
  intros Ht. change (2 ^ 31) with 2147483648 in Ht.
  destruct (of_int_error t ltac:(lia)) as (V & F & E).
  assert (Rabs (IZR t) <= 2147483648)%R as Bt
    by (rewrite <- abs_IZR; apply IZR_le; lia).
  assert (fin32 (F32.of_int t) 2147484000) as Ft.
  { repeat split; try assumption.
    replace (B2R (F32.of_int t)) with (B2R (F32.of_int t) - IZR t + IZR t)%R by ring.
    eapply Rle_trans; [apply Rabs_triang|]. unfold u32, eta32 in *. lra. }
  assert (fin32 (F32.lit 5 100) (51 / 1000)) as F5.
  { split; [vm_compute; reflexivity|]. split; [vm_compute; reflexivity|].
    apply Rabs_le. split; lit_value. }
  assert (fin32 (F32.lit 100 1) 100) as F100.
  { split; [vm_compute; reflexivity|]. split; [vm_compute; reflexivity|].
    apply Rabs_le. split; lit_value. }
  destruct (fin32_mul _ _ _ _ 110000000 F5 Ft) as [Fm _];
    [unfold u32, eta32; lra | lra |].
  destruct (fin32_add _ _ _ _ 1000000000 F100 Fm) as [Fa _];
    [unfold u32, eta32; lra | lra |].
  exact Fa.
Qed.

(** The frame of a tick is the frame of the angles read from the updated
    state. *)
Lemma main_tick_frame char_signed nan_sign atan2f asinf imu ts t q roll pitch yaw :
  fst (ahrs_get_euler atan2f asinf (snd (madgwick_update imu LOOP_DT_SEC q)))
  = (roll, pitch, yaw) ->
  fst (main_tick char_signed nan_sign atan2f asinf imu ts t q)
  = l2_frame char_signed nan_sign ts roll pitch yaw
      (F32.add (F32.lit 100 1) (F32.mul (F32.lit 5 100) (F32.of_int t))) (F32.lit 30 1).
Proof.
  unfold main_tick, bind. destruct (madgwick_update imu LOOP_DT_SEC q) as [u q'].
  cbn [snd]. destruct (ahrs_get_euler atan2f asinf q') as [[[r p] y] q''].
  cbn [fst]. intros E. injection E as -> -> ->. reflexivity.
Qed.

Lemma euler_angles_valid atan2f asinf q roll pitch yaw :
  fst (ahrs_get_euler atan2f asinf q) = (roll, pitch, yaw) ->
  F32.valid roll = true /\ F32.valid pitch = true /\ F32.valid yaw = true.
Proof.
  unfold ahrs_get_euler, bind, get, ret. cbn [fst]. intros E.
  injection E as <- <- <-. repeat split; apply rad2deg_valid.
Qed.

(** The payload of a tick fits its buffer. *)
Lemma tick_payload_fits nan_sign ts t roll pitch yaw :
  - 2 ^ 63 <= ts < 2 ^ 63 -> - 2 ^ 31 <= t < 2 ^ 31 ->
  F32.valid roll = true -> F32.valid pitch = true -> F32.valid yaw = true ->
  (List.length
     (l2_payload_text nan_sign ts roll pitch yaw
        (F32.add (F32.lit 100 1) (F32.mul (F32.lit 5 100) (F32.of_int t)))
        (F32.lit 30 1)) < 200)%nat.
Proof.
  intros Hts Ht Vr Vp Vy.
  destruct (tick_altitude_fin t Ht) as (Va & Fa & Ba).
  unfold l2_payload_text.
  repeat first [rewrite length_app | progress cbn [List.length]].
  pose proof (fmt_lld_length ts Hts).
  pose proof (fmt_2f_length_valid (nan_sign 0%nat) roll Vr).
  pose proof (fmt_2f_length_valid (nan_sign 1%nat) pitch Vp).
  pose proof (fmt_2f_length_valid (nan_sign 2%nat) yaw Vy).
  pose proof (fmt_2f_length (nan_sign 3%nat) _ Fa Ba).
  assert (List.length (fmt_2f (nan_sign 4%nat) (F32.lit 30 1)) = 5%nat) as ->
    by (vm_compute; reflexivity).
  change (List.length (cstr "L2,")) with 3%nat. lia.
Qed.



Lemma rad2deg_nan : rad2deg S754_nan = S754_nan.
Proof. reflexivity. Qed.

Lemma magnitude_q_lock : (Rabs (magnitude q_lock - 1) <= tol32)%R.
Proof.
  apply sqrt_near_unit. unfold norm2, q_lock, tol32. cbn [q0 q1 q2 q3].
  apply Rabs_le. split; lit_value.
Qed.


Lemma main_tick_state char_signed nan_sign atan2f asinf imu ts t q :
  snd (main_tick char_signed nan_sign atan2f asinf imu ts t q)
  = snd (madgwick_update imu LOOP_DT_SEC q).
Proof.
  unfold main_tick, bind. destruct (madgwick_update imu LOOP_DT_SEC q) as [u q'].
  unfold ahrs_get_euler, bind, get, ret. reflexivity.
Qed.

Section Loop.

Variable RAND_MAX : Z.
Variable S : Type.
Variable rand : S -> Z * S.
Variables sinf cosf : spec_float -> spec_float.
Variable char_signed : bool.
Variable nan_sign : Z -> nat -> bool.
Variable atan2f : spec_float -> spec_float -> spec_float.
Variable asinf : spec_float -> spec_float.
Variable clock : Z -> Z.
Hypothesis RAND_MAX_range : 32767 <= RAND_MAX <= 2147483647.
Hypothesis rand_range : forall s, 0 <= fst (rand s) <= RAND_MAX.

Lemma main_iteration_state t q s :
  snd (main_iteration RAND_MAX S rand sinf cosf char_signed nan_sign atan2f asinf clock (t, q, s))
  = (t + 1,
     snd (madgwick_update (fst (imu_read RAND_MAX S rand sinf cosf t s)) LOOP_DT_SEC q),
     snd (imu_read RAND_MAX S rand sinf cosf t s)).
Proof.
  unfold main_iteration.
  destruct (imu_read RAND_MAX S rand sinf cosf t s) as [imu s'].
  pose proof (main_tick_state char_signed (nan_sign t) atan2f asinf imu (clock t) t q) as E.
  destruct (main_tick char_signed (nan_sign t) atan2f asinf imu (clock t) t q) as [frame q'].
  cbn [fst snd] in *. now rewrite E.
Qed.

Lemma imu_read_rates t s :
  let imu := fst (imu_read RAND_MAX S rand sinf cosf t s) in
  fin32 (gx imu) 100 /\ fin32 (gy imu) 100 /\ fin32 (gz imu) 100.
Proof.
  destruct (imu_read_fields RAND_MAX S rand sinf cosf RAND_MAX_range rand_range t s)
    as (_ & Gx & Gy & Gz & _).
  cbv zeta. repeat split.
  all: first [ apply (proj1 Gx) | apply (proj1 (proj2 Gx))
             | apply (proj1 Gy) | apply (proj1 (proj2 Gy))
             | apply (proj1 Gz) | apply (proj1 (proj2 Gz))
             | idtac ].
  - destruct Gx as (_ & _ & B). apply Rabs_le. lra.
  - destruct Gy as (_ & _ & B). apply Rabs_le. lra.
  - destruct Gz as (_ & _ & B). apply Rabs_le. lra.
Qed.

Lemma main_loop_unit n : forall t q s,
  quat_valid q = true -> quat_finite q = true ->
  (Rabs (magnitude q - 1) <= tol32)%R ->
  Forall (fun it => quat_finite (loop_quat (snd it)) = true
                    /\ (Rabs (magnitude (loop_quat (snd it)) - 1) <= tol32)%R)
    (main_loop RAND_MAX S rand sinf cosf char_signed nan_sign atan2f asinf clock n
       (t, q, s)).
Proof.
  induction n as [|n IH]; intros t q s Vq Fq Nq; [constructor|].
  cbn [main_loop].
  destruct (imu_read_rates t s) as (Gx & Gy & Gz).
  destruct (update_keeps_unit q (fst (imu_read RAND_MAX S rand sinf cosf t s))
              LOOP_DT_SEC Vq (conj Fq Nq)) as (V' & F' & N').
  { apply bounded_rates_in_range; try assumption. exact fin32_dt. }
  constructor.
  - unfold loop_quat. rewrite main_iteration_state. cbn [fst snd]. now split.
  - rewrite main_iteration_state. apply IH; assumption.
Qed.

End Loop.

(** X17: in the loop of [main] the early returns of [madgwick_update] are never
    taken: every iteration replaces the state by the renormalised Euler step
    on the sample just read, advances the tick counter by one and the
    generator by nine draws. *)
Theorem main_iteration_integrates (RAND_MAX : Z) (S : Type) (rand : S -> Z * S)
    sinf cosf char_signed nan_sign atan2f asinf clock t q s :
  32767 <= RAND_MAX <= 2147483647 -> (forall s, 0 <= fst (rand s) <= RAND_MAX) ->
  0 <= t < 2147483647 ->
  snd (main_iteration RAND_MAX S rand sinf cosf char_signed nan_sign atan2f asinf clock (t, q, s))
  = (t + 1,
     renormalize (euler_of q (fst (imu_read RAND_MAX S rand sinf cosf t s)) LOOP_DT_SEC),
     Nat.iter 9 (fun s => snd (rand s)) s).
Proof.
  intros HM Hr Ht. rewrite main_iteration_state, madgwick_update_cases.
  rewrite (imu_read_nondegenerate RAND_MAX rand sinf cosf t s HM Hr).
  now rewrite imu_read_state.
Qed.

Lemma main_iteration_integrates_witness :
  snd (main_iteration 32767 Z rand_example (fun x => x) (fun x => x) true
         (fun _ _ => false) atan2f_series (fun x => x) (fun t => t * 50) (0, q_init, 1))
  = (0 + 1,
     renormalize (euler_of q_init
                    (fst (imu_read 32767 Z rand_example (fun x => x) (fun x => x) 0 1))
                    LOOP_DT_SEC),
     Nat.iter 9 (fun s => snd (rand_example s)) 1).
Proof.
  apply (main_iteration_integrates 32767 Z rand_example (fun x => x) (fun x => x) true
           (fun _ _ => false) atan2f_series (fun x => x) (fun t => t * 50) 0 q_init 1).
  - lia.
  - apply rand_example_range.
  - lia.
Defined.

(** X18: the quaternion state stays finite and of magnitude 1 up to 2^-20 through
    every iteration of the loop of [main], for every generator whose draws
    are between 0 and [RAND_MAX] and whatever [sinf] and [cosf] return. *)
Theorem main_loop_keeps_unit (RAND_MAX : Z) (S : Type) (rand : S -> Z * S)
    sinf cosf char_signed nan_sign atan2f asinf clock (n : nat) s0 :
  32767 <= RAND_MAX <= 2147483647 -> (forall s, 0 <= fst (rand s) <= RAND_MAX) ->
  Z.of_nat n <= 2147483647 ->
  Forall (fun it => quat_finite (loop_quat (snd it)) = true
                    /\ (Rabs (magnitude (loop_quat (snd it)) - 1) <= tol32)%R)
    (main_loop RAND_MAX S rand sinf cosf char_signed nan_sign atan2f asinf clock n (0, q_init, s0)).
Proof.
  intros HM Hr _. apply main_loop_unit; try assumption; try reflexivity.
  rewrite magnitude_q_init. unfold tol32. rewrite Rminus_diag, Rabs_R0. lra.
Qed.

Lemma main_loop_keeps_unit_witness :
  Forall (fun it => quat_finite (loop_quat (snd it)) = true
                    /\ (Rabs (magnitude (loop_quat (snd it)) - 1) <= tol32)%R)
    (main_loop 32767 Z rand_example (fun x => x) (fun x => x) true
       (fun _ _ => false) atan2f_series (fun x => x) (fun t => t * 50) 3 (0, q_init, 1)).
Proof.
  apply (main_loop_keeps_unit 32767 Z rand_example (fun x => x) (fun x => x) true
           (fun _ _ => false) atan2f_series (fun x => x) (fun t => t * 50) 3 1).
  - lia.
  - apply rand_example_range.
  - simpl. lia.
Defined.

(** ** From the all-zero state to NaN *)

Lemma is_zero_mul_l x y : is_zero x = true -> is_finite y = true -> is_zero (F32.mul x y) = true.
Proof. destruct x as [[|]| | |], y as [[|]| | |]; try discriminate; reflexivity. Qed.

Lemma is_zero_mul_r x y : is_finite x = true -> is_zero y = true -> is_zero (F32.mul x y) = true.
Proof. destruct x as [[|]| | |], y as [[|]| | |]; try discriminate; reflexivity. Qed.

Lemma is_zero_add x y : is_zero x = true -> is_zero y = true -> is_zero (F32.add x y) = true.
Proof. destruct x as [[|]| | |], y as [[|]| | |]; try discriminate; reflexivity. Qed.

Lemma is_zero_sub x y : is_zero x = true -> is_zero y = true -> is_zero (F32.sub x y) = true.
Proof. destruct x as [[|]| | |], y as [[|]| | |]; try discriminate; reflexivity. Qed.

Lemma is_zero_neg x : is_zero x = true -> is_zero (F32.neg x) = true.
Proof. destruct x; try discriminate; reflexivity. Qed.

Lemma is_zero_finite x : is_zero x = true -> is_finite x = true.
Proof. destruct x; try discriminate; reflexivity. Qed.

Lemma zero_times_inv_sqrt x s : is_zero x = true -> is_zero s = true ->
  F32.mul x (inv_sqrt s) = S754_nan.
Proof. destruct x as [[|]| | |], s as [[|]| | |]; try discriminate; reflexivity. Qed.

Lemma zero_state_inv q :
  zero_state q = true ->
  is_zero (q0 q) = true /\ is_zero (q1 q) = true
  /\ is_zero (q2 q) = true /\ is_zero (q3 q) = true.
Proof.
  unfold zero_state. intros H.
  apply andb_true_iff in H as [H Z3]. apply andb_true_iff in H as [H Z2].
  apply andb_true_iff in H as [Z0 Z1]. auto.
Qed.

Lemma euler_of_zero q imu dt :
  zero_state q = true ->
  is_finite (deg2rad (gx imu)) = true -> is_finite (deg2rad (gy imu)) = true ->
  is_finite (deg2rad (gz imu)) = true -> is_finite dt = true ->
  zero_state (euler_of q imu dt) = true.
Proof.
  intros Z Gx Gy Gz Fdt. destruct (zero_state_inv q Z) as (Z0 & Z1 & Z2 & Z3).
  assert (is_finite f0_5 = true) as F5 by reflexivity.
  unfold euler_of, integrate, qDot, zero_state. cbn [q0 q1 q2 q3].
  repeat (apply andb_true_iff; split);
    repeat first [ assumption
                 | apply is_zero_add | apply is_zero_sub | apply is_zero_neg
                 | apply is_zero_mul_r; [assumption|]
                 | apply is_zero_mul_l; [|assumption]
                 | apply is_zero_finite ].
Qed.

Lemma sum_sq_zero q : zero_state q = true -> is_zero (sum_sq q) = true.
Proof.
  intros Z. destruct (zero_state_inv q Z) as (Z0 & Z1 & Z2 & Z3). unfold sum_sq.
  repeat first [ assumption | apply is_zero_add
               | apply is_zero_mul_l; [assumption|apply is_zero_finite] ].
Qed.

Lemma renormalize_zero q : zero_state q = true -> renormalize q = nan_quat.
Proof.
  intros Z. pose proof (sum_sq_zero q Z) as S0.
  destruct (zero_state_inv q Z) as (Z0 & Z1 & Z2 & Z3).
  unfold renormalize, nan_quat. cbv zeta.
  now rewrite !zero_times_inv_sqrt.
Qed.

(** X19: from the all-zero state (which an overflowing update leaves behind) the
    next update on a sample that is not degenerate, with finite rates and a
    finite time step, makes all four components NaN: the sum of squares is 0,
    its inverse square root infinite, and 0 times infinity is NaN. *)
Theorem zero_state_becomes_nan q imu dt :
  zero_state q = true -> degenerate imu = false ->
  F32.valid (gx imu) = true -> is_finite (gx imu) = true ->
  F32.valid (gy imu) = true -> is_finite (gy imu) = true ->
  F32.valid (gz imu) = true -> is_finite (gz imu) = true ->
  is_finite dt = true ->
  snd (madgwick_update imu dt q) = nan_quat.
Proof.
  intros Z D Vx Fx Vy Fy Vz Fz Fdt.
  rewrite madgwick_update_cases, D. cbn [snd].
  apply renormalize_zero. apply euler_of_zero; try assumption.
  - apply (deg2rad_error _ Vx Fx).
  - apply (deg2rad_error _ Vy Fy).
  - apply (deg2rad_error _ Vz Fz).
Qed.

Lemma zero_state_becomes_nan_witness :
  snd (madgwick_update imu_yaw LOOP_DT_SEC
         {| q0 := f0_0; q1 := f0_0; q2 := F32.neg f0_0; q3 := f0_0 |}) = nan_quat.
Proof.
  apply (zero_state_becomes_nan _ imu_yaw LOOP_DT_SEC); reflexivity.
Defined.

(** ** The arguments of the Euler angles *)

Section EulerArgs.
Local Open Scope R_scope.

(** Twice a sum or difference of two products of components of a vector
    is at most its squared length. *)
Lemma cross_term_bound (a b c d n : R) :
  a * a + b * b + c * c + d * d <= n ->
  Rabs (2 * (a * b + c * d)) <= n /\ Rabs (2 * (a * b - c * d)) <= n.
Proof.
  intros H.
  pose proof (Rle_0_sqr (a - b)). pose proof (Rle_0_sqr (a + b)).
  pose proof (Rle_0_sqr (c - d)). pose proof (Rle_0_sqr (c + d)).
  unfold Rsqr in *. split; apply Rabs_le; split; nra.
Qed.

Lemma fin32_two : fin32 f2 2 /\ B2R f2 = 2.
Proof.
  assert (B2R f2 = 2) as E by lit_value.
  split; [|exact E]. split; [reflexivity|]. split; [reflexivity|].
  rewrite E. rewrite Rabs_pos_eq; lra.
Qed.

Lemma fin32_one : fin32 f1 1 /\ B2R f1 = 1.
Proof.
  assert (B2R f1 = 1) as E by lit_value.
  split; [|exact E]. split; [reflexivity|]. split; [reflexivity|].
  rewrite E. rewrite Rabs_pos_eq; lra.
Qed.

(** [2*(a*b + c*d)] or [2*(a*b - c*d)] on four components of the state. *)
Lemma cross_term (op : spec_float -> spec_float -> spec_float) (sg : R)
      (a b c d : spec_float) :
  (op = F32.add /\ sg = 1 \/ op = F32.sub /\ sg = -1) ->
  fin32 a (1001 / 1000) -> fin32 b (1001 / 1000) ->
  fin32 c (1001 / 1000) -> fin32 d (1001 / 1000) ->
  Rabs (2 * (B2R a * B2R b + sg * (B2R c * B2R d))) <= 1 + / 500000 ->
  fin32 (F32.mul f2 (op (F32.mul a b) (F32.mul c d))) (1 + / 262144).
Proof.
  intros O Ha Hb Hc Hd N.
  destruct (fin32_mul _ _ _ _ (1003 / 1000) Ha Hb) as [P1 E1]; [unfold_consts; lra|lra|].
  destruct (fin32_mul _ _ _ _ (1003 / 1000) Hc Hd) as [P2 E2]; [unfold_consts; lra|lra|].
  destruct fin32_two as [H2 V2].
  assert (fin32 (op (F32.mul a b) (F32.mul c d)) (2007 / 1000)
          /\ Rabs (B2R (op (F32.mul a b) (F32.mul c d))
                   - (B2R (F32.mul a b) + sg * B2R (F32.mul c d)))
             <= u32 * (1003 / 1000 + 1003 / 1000) + eta32) as [S1 E3].
  { destruct O as [[-> ->]|[-> ->]].
    - destruct (fin32_add _ _ _ _ (2007 / 1000) P1 P2) as [S1 E3];
        [unfold_consts; lra|lra|].
      split; [exact S1|]. now rewrite Rmult_1_l.
    - destruct (fin32_sub _ _ _ _ (2007 / 1000) P1 P2) as [S1 E3];
        [unfold_consts; lra|lra|].
      split; [exact S1|].
      replace (B2R (F32.mul a b) + -1 * B2R (F32.mul c d))
        with (B2R (F32.mul a b) - B2R (F32.mul c d)) by ring.
      exact E3. }
  destruct (fin32_mul _ _ _ _ (4015 / 1000) H2 S1) as [[V [F B]] E4];
    [unfold_consts; lra|lra|].
  split; [exact V|]. split; [exact F|].
  rewrite V2 in E4.
  set (r := B2R (F32.mul f2 (op (F32.mul a b) (F32.mul c d)))) in *.
  set (s := B2R (op (F32.mul a b) (F32.mul c d))) in *.
  set (p1 := B2R (F32.mul a b)) in *. set (p2 := B2R (F32.mul c d)) in *.
  set (X := B2R a * B2R b) in *. set (Y := B2R c * B2R d) in *.
  clearbody r s p1 p2 X Y.
  apply Rabs_le_inv in E1, E2, E3, E4, N. apply Rabs_le.
  revert E1 E2 E3 E4. unfold_consts. intros.
  destruct O as [[_ ->]|[_ ->]]; lra.
Qed.

(** [1 - 2*(b*b + c*c)] on two components of the state. *)
Lemma square_term (b c : spec_float) :
  fin32 b (1001 / 1000) -> fin32 c (1001 / 1000) ->
  B2R b * B2R b + B2R c * B2R c <= 1 + / 500000 ->
  fin32 (F32.sub f1 (F32.mul f2 (F32.add (F32.mul b b) (F32.mul c c)))) (1 + / 131072).
Proof.
  intros Hb Hc N.
  destruct (fin32_mul _ _ _ _ (1003 / 1000) Hb Hb) as [P1 E1]; [unfold_consts; lra|lra|].
  destruct (fin32_mul _ _ _ _ (1003 / 1000) Hc Hc) as [P2 E2]; [unfold_consts; lra|lra|].
  destruct fin32_two as [H2 V2]. destruct fin32_one as [H1 V1].
  destruct (fin32_add _ _ _ _ (2007 / 1000) P1 P2) as [S1 E3]; [unfold_consts; lra|lra|].
  destruct (fin32_mul _ _ _ _ (4015 / 1000) H2 S1) as [D E4]; [unfold_consts; lra|lra|].
  destruct (fin32_sub _ _ _ _ (5016 / 1000) H1 D) as [[V [F B]] E5];
    [unfold_consts; lra|lra|].
  split; [exact V|]. split; [exact F|].
  rewrite V2 in E4. rewrite V1 in E5.
  pose proof (Rle_0_sqr (B2R b)) as Xp. pose proof (Rle_0_sqr (B2R c)) as Yp.
  unfold Rsqr in Xp, Yp.
  set (r := B2R (F32.sub f1 (F32.mul f2 (F32.add (F32.mul b b) (F32.mul c c))))) in *.
  set (d := B2R (F32.mul f2 (F32.add (F32.mul b b) (F32.mul c c)))) in *.
  set (s := B2R (F32.add (F32.mul b b) (F32.mul c c))) in *.
  set (p1 := B2R (F32.mul b b)) in *. set (p2 := B2R (F32.mul c c)) in *.
  set (X := B2R b * B2R b) in *. set (Y := B2R c * B2R c) in *.
  clearbody r d s p1 p2 X Y.
  apply Rabs_le_inv in E1, E2, E3, E4, E5. apply Rabs_le.
  revert E1 E2 E3 E4 E5. unfold_consts. intros. lra.
Qed.

End EulerArgs.

(** X20: [ahrs_get_euler] calls [atan2f] and [asinf] on [roll_args], [pitch_arg]
    and [yaw_args] of the state, and on a finite state of magnitude 1 (up to
    2^-20) all five arguments are finite and of magnitude at most
    1 + 2^-17: the argument of [asinf] can leave [-1, 1] only by rounding. *)
Theorem euler_arguments_bounded atan2f asinf q :
  quat_valid q = true -> quat_finite q = true ->
  (Rabs (magnitude q - 1) <= tol32)%R ->
  fst (ahrs_get_euler atan2f asinf q)
  = (rad2deg (atan2f (fst (roll_args q)) (snd (roll_args q))),
     rad2deg (asinf (pitch_arg q)),
     rad2deg (atan2f (fst (yaw_args q)) (snd (yaw_args q))))
  /\ fin32 (fst (roll_args q)) (1 + / 131072)
  /\ fin32 (snd (roll_args q)) (1 + / 131072)
  /\ fin32 (pitch_arg q) (1 + / 131072)
  /\ fin32 (fst (yaw_args q)) (1 + / 131072)
  /\ fin32 (snd (yaw_args q)) (1 + / 131072).
Proof.
  intros Vq Fq Nq. split; [reflexivity|].
  destruct (quat_valid_inv q Vq) as (V0 & V1 & V2 & V3).
  destruct (quat_finite_inv q Fq) as (F0 & F1 & F2 & F3).
  assert (norm2 q <= 1 + / 500000)%R as NH.
  { revert Nq. unfold magnitude. intros H.
    assert (0 <= norm2 q)%R as P.
    { unfold norm2.
      pose proof (Rle_0_sqr (B2R (q0 q))). pose proof (Rle_0_sqr (B2R (q1 q))).
      pose proof (Rle_0_sqr (B2R (q2 q))). pose proof (Rle_0_sqr (B2R (q3 q))).
      unfold Rsqr in *. lra. }
    pose proof (sqrt_sqrt _ P) as E. pose proof (sqrt_pos (norm2 q)) as S0.
    apply Rabs_le_inv in H. unfold_consts.
    set (m := sqrt (norm2 q)) in *. clearbody m. nra. }
  unfold norm2 in NH.
  pose proof (Rle_0_sqr (B2R (q0 q))) as S0. pose proof (Rle_0_sqr (B2R (q1 q))) as S1.
  pose proof (Rle_0_sqr (B2R (q2 q))) as S2. pose proof (Rle_0_sqr (B2R (q3 q))) as S3.
  unfold Rsqr in S0, S1, S2, S3.
  assert (fin32 (q0 q) (1001 / 1000)) as H0
    by (split; [exact V0|split; [exact F0|apply square_root_bound; lra]]).
  assert (fin32 (q1 q) (1001 / 1000)) as H1
    by (split; [exact V1|split; [exact F1|apply square_root_bound; lra]]).
  assert (fin32 (q2 q) (1001 / 1000)) as H2
    by (split; [exact V2|split; [exact F2|apply square_root_bound; lra]]).
  assert (fin32 (q3 q) (1001 / 1000)) as H3
    by (split; [exact V3|split; [exact F3|apply square_root_bound; lra]]).
  unfold roll_args, pitch_arg, yaw_args. cbn [fst snd].
  split; [|split; [|split; [|split]]].
  - apply fin32_weaken with (1 + / 262144)%R; [|lra].
    apply (cross_term F32.add 1); [left; split; reflexivity|assumption|assumption|assumption|assumption|].
    rewrite Rmult_1_l.
    apply (cross_term_bound (B2R (q0 q)) (B2R (q1 q)) (B2R (q2 q)) (B2R (q3 q))). lra.
  - apply square_term; auto. lra.
  - apply fin32_weaken with (1 + / 262144)%R; [|lra].
    apply (cross_term F32.sub (-1)); [right; split; reflexivity|assumption|assumption|assumption|assumption|].
    replace (B2R (q0 q) * B2R (q2 q) + -1 * (B2R (q3 q) * B2R (q1 q)))%R
      with (B2R (q0 q) * B2R (q2 q) - B2R (q3 q) * B2R (q1 q))%R by ring.
    apply (cross_term_bound (B2R (q0 q)) (B2R (q2 q)) (B2R (q3 q)) (B2R (q1 q))). lra.
  - apply fin32_weaken with (1 + / 262144)%R; [|lra].
    apply (cross_term F32.add 1); [left; split; reflexivity|assumption|assumption|assumption|assumption|].
    rewrite Rmult_1_l.
    apply (cross_term_bound (B2R (q0 q)) (B2R (q3 q)) (B2R (q1 q)) (B2R (q2 q))). lra.
  - apply square_term; auto. lra.
Qed.

Lemma euler_arguments_bounded_witness :
  fst (ahrs_get_euler atan2f_series (fun x => x) q_init)
  = (rad2deg (atan2f_series (fst (roll_args q_init)) (snd (roll_args q_init))),
     rad2deg (pitch_arg q_init),
     rad2deg (atan2f_series (fst (yaw_args q_init)) (snd (yaw_args q_init))))
  /\ fin32 (fst (roll_args q_init)) (1 + / 131072)
  /\ fin32 (snd (roll_args q_init)) (1 + / 131072)
  /\ fin32 (pitch_arg q_init) (1 + / 131072)
  /\ fin32 (fst (yaw_args q_init)) (1 + / 131072)
  /\ fin32 (snd (yaw_args q_init)) (1 + / 131072).
Proof.
  apply (euler_arguments_bounded atan2f_series (fun x => x) q_init).
  - reflexivity.
  - reflexivity.
  - rewrite magnitude_q_init. unfold tol32. rewrite Rminus_diag, Rabs_R0. lra.
Defined.

(** ** Level 1: bounded [double]s *)

Section Bounded64.
Local Open Scope R_scope.

Lemma small_lt_bpow_1023 c : c <= 1000000000000 -> c < bpow (1024 - 1).
Proof.
  intros H. rewrite bpow_IZR by lia.
  apply Rle_lt_trans with (IZR 1000000000000); [exact H|].
  apply IZR_lt. apply Z.lt_le_trans with (2 ^ 40)%Z; [reflexivity|].
  apply Z.pow_le_mono_r; lia.
Qed.

Lemma rounding64 :
  u_of 53 <= / 1000000000000000
  /\ 0 <= eta_of 53 1024 <= / 100000000000000000000000000000000000000000000000000.
Proof.
  rewrite u_of_53. destruct eta64_small as [E0 E1]. split; [lra|]. split; [exact E0|].
  eapply Rle_trans; [exact E1|]. lra.
Qed.

Lemma fin64_mul x y a b c :
  fin64 x a -> fin64 y b ->
  a * b * (1 + / 1000000000000000)
  + / 100000000000000000000000000000000000000000000000000 <= c ->
  c <= 1000000000000 ->
  fin64 (F64.mul x y) c
  /\ Rabs (B2R (F64.mul x y) - B2R x * B2R y)
     <= / 1000000000000000 * (a * b)
        + / 100000000000000000000000000000000000000000000000000.
Proof.
  intros (Vx & Fx & Bx) (Vy & Fy & By) Hc Small.
  destruct rounding64 as (U & E0 & E1).
  assert (0 <= Rabs (B2R x)) as Px by apply Rabs_pos.
  assert (0 <= Rabs (B2R y)) as Py by apply Rabs_pos.
  assert (Rabs (B2R x * B2R y) <= a * b) as P.
  { rewrite Rabs_mult. apply Rmult_le_compat; assumption. }
  assert (0 <= a * b) as Pab
    by (apply Rle_trans with (Rabs (B2R x * B2R y)); [apply Rabs_pos|exact P]).
  assert (is_finite (F64.mul x y) = true) as F.
  { apply (SFmul_finite 53 1024 prec53_pos emax1024_prec); try assumption.
    apply Rle_lt_trans with (a * b); [exact P|]. apply small_lt_bpow_1023. lra. }
  pose proof (SFmul_error 53 1024 prec53_pos x y F) as E.
  change (SFmul 53 1024 x y) with (F64.mul x y) in E.
  assert (Rabs (B2R (F64.mul x y) - B2R x * B2R y)
          <= / 1000000000000000 * (a * b)
             + / 100000000000000000000000000000000000000000000000000) as E'.
  { eapply Rle_trans; [exact E|].
    assert (u_of 53 * Rabs (B2R x * B2R y) <= / 1000000000000000 * (a * b)).
    { apply Rmult_le_compat; try lra; [unfold u_of; left; apply bpow_pos|apply Rabs_pos]. }
    lra. }
  split; [|exact E'].
  split; [apply (SFmul_valid 53 1024 prec53_pos emax1024_prec); assumption|].
  split; [exact F|].
  apply Rabs_le_inv in E'. apply Rabs_le_inv in P. apply Rabs_le. lra.
Qed.

Lemma fin64_add x y a b c :
  fin64 x a -> fin64 y b ->
  (a + b) * (1 + / 1000000000000000)
  + / 100000000000000000000000000000000000000000000000000 <= c ->
  c <= 1000000000000 ->
  fin64 (Level1.F64_add x y) c
  /\ Rabs (B2R (Level1.F64_add x y) - (B2R x + B2R y))
     <= / 1000000000000000 * (a + b)
        + / 100000000000000000000000000000000000000000000000000.
Proof.
  intros (Vx & Fx & Bx) (Vy & Fy & By) Hc Small.
  destruct rounding64 as (U & E0 & E1).
  assert (Rabs (B2R x + B2R y) <= a + b) as P.
  { eapply Rle_trans; [apply Rabs_triang|]. lra. }
  assert (0 <= a + b) as Pab
    by (apply Rle_trans with (Rabs (B2R x + B2R y)); [apply Rabs_pos|exact P]).
  assert (is_finite (Level1.F64_add x y) = true) as F.
  { apply (SFadd_finite 53 1024 prec53_pos emax1024_prec); try assumption.
    apply Rle_lt_trans with (a + b); [exact P|]. apply small_lt_bpow_1023. lra. }
  pose proof (SFadd_error 53 1024 prec53_pos x y F) as E.
  change (SFadd 53 1024 x y) with (Level1.F64_add x y) in E.
  assert (Rabs (B2R (Level1.F64_add x y) - (B2R x + B2R y))
          <= / 1000000000000000 * (a + b)
             + / 100000000000000000000000000000000000000000000000000) as E'.
  { eapply Rle_trans; [exact E|].
    assert (u_of 53 * Rabs (B2R x + B2R y) <= / 1000000000000000 * (a + b)).
    { apply Rmult_le_compat; try lra; [unfold u_of; left; apply bpow_pos|apply Rabs_pos]. }
    lra. }
  split; [|exact E'].
  split; [apply (SFadd_valid 53 1024 prec53_pos); assumption|].
  split; [exact F|].
  apply Rabs_le_inv in E'. apply Rabs_le_inv in P. apply Rabs_le. lra.
Qed.

(** An [int] converted to [double]. *)
Lemma fin64_of_int (z : Z) :
  (Z.abs z <= 2147483648)%Z ->
  fin64 (Level1.F64_of_int z) 2147483649
  /\ Rabs (B2R (Level1.F64_of_int z) - IZR z)
     <= / 1000000000000000 * Rabs (IZR z)
        + / 100000000000000000000000000000000000000000000000000.
Proof.
  intros H. unfold Level1.F64_of_int.
  destruct rounding64 as (U & E0 & E1).
  assert (Rabs (IZR z) <= 2147483648) as Bz.
  { rewrite <- abs_IZR. apply IZR_le. exact H. }
  assert (Rabs (IZR z * bpow 0) < bpow (1024 - 1)) as B.
  { rewrite bpow_0, Rmult_1_r. apply small_lt_bpow_1023. lra. }
  pose proof (binary_normalize_finite 53 1024 prec53_pos emax1024_prec z 0 false B) as F.
  pose proof (binary_normalize_error 53 1024 prec53_pos z 0 false F) as E.
  rewrite bpow_0, Rmult_1_r in E.
  pose proof (Rabs_pos (IZR z)) as Pz.
  assert (u_of 53 * Rabs (IZR z) <= / 1000000000000000 * Rabs (IZR z))
    by (apply Rmult_le_compat_r; assumption).
  change F64.prec with 53%Z. change F64.emax with 1024%Z.
  split.
  - split; [apply (binary_normalize_valid 53 1024 prec53_pos)|]. split; [exact F|].
    pose proof (Rabs_le_inv _ _ Bz) as Bz'. apply Rabs_le_inv in E. apply Rabs_le. lra.
  - lra.
Qed.

(** A [double] stored in a [float]. *)
Lemma fin32_of_double x a c :
  fin64 x a -> a * (1 + u32) + eta32 <= c -> c <= 1000000000000 ->
  fin32 (F32.of_double x) c
  /\ Rabs (B2R (F32.of_double x) - B2R x) <= u32 * a + eta32.
Proof.
  intros (Vx & Fx & Bx) Hc Small.
  assert (0 <= a) as Pa by (eapply Rle_trans; [apply Rabs_pos|exact Bx]).
  destruct (of_double_error x Fx) as (F & V & E).
  { apply Rle_lt_trans with a; [exact Bx|]. apply small_lt_bpow_127.
    unfold_consts. lra. }
  rewrite u_of_24, eta_of_32 in E.
  assert (Rabs (B2R (F32.of_double x) - B2R x) <= u32 * a + eta32) as E'.
  { eapply Rle_trans; [exact E|]. unfold u32. lra. }
  split; [|exact E']. split; [exact V|]. split; [exact F|].
  apply Rabs_le_inv in E', Bx. apply Rabs_le. unfold u32 in *. lra.
Qed.

(** A [float] promoted to [double]. *)
Lemma fin64_of_float x a c :
  fin32 x a ->
  a * (1 + / 1000000000000000)
  + / 100000000000000000000000000000000000000000000000000 <= c ->
  c <= 1000000000000 ->
  fin64 (F64.of_float x) c
  /\ Rabs (B2R (F64.of_float x) - B2R x)
     <= / 1000000000000000 * a
        + / 100000000000000000000000000000000000000000000000000.
Proof.
  intros (Vx & Fx & Bx) Hc Small.
  destruct rounding64 as (U & E0 & E1).
  assert (0 <= a) as Pa by (eapply Rle_trans; [apply Rabs_pos|exact Bx]).
  destruct (of_float_error x Fx) as (F & V & E).
  { apply Rle_lt_trans with a; [exact Bx|]. apply small_lt_bpow_1023. lra. }
  assert (Rabs (B2R (F64.of_float x) - B2R x)
          <= / 1000000000000000 * a
             + / 100000000000000000000000000000000000000000000000000) as E'.
  { eapply Rle_trans; [exact E|].
    assert (u_of 53 * Rabs (B2R x) <= / 1000000000000000 * a).
    { apply Rmult_le_compat; try lra; [unfold u_of; left; apply bpow_pos|apply Rabs_pos]. }
    lra. }
  split; [|exact E']. split; [exact V|]. split; [exact F|].
  apply Rabs_le_inv in E', Bx. apply Rabs_le. lra.
Qed.

End Bounded64.

(** ** Level 1: [noise] *)

Section NoiseL1Real.
Local Open Scope R_scope.

Lemma noise_l1_real (R_ M_ RF MF Qr Q A2 T P N A : R) :
  0 <= R_ <= M_ -> 32767 <= M_ <= 2147483647 ->
  Rabs (RF - R_) <= u32 * Rabs R_ + eta32 ->
  Rabs (MF - M_) <= u32 * Rabs M_ + eta32 ->
  0 <= A <= 1000 ->
  Rabs (A2 - 2 * A) <= u32 * (2 * 1000) + eta32 ->
  Rabs (A2 - 2 * A) <= u32 * Rabs (2 * A) + eta32 ->
  32766 <= MF
  /\ (Qr * MF = RF ->
      Rabs Qr <= 2
      /\ (Rabs (Q - Qr) <= u32 * Rabs Qr + eta32 ->
          T = Q * A2 ->
          Rabs Q <= 2 /\ Rabs A2 <= 2001 /\ Rabs T <= 4002
          /\ (Rabs (P - T) <= u32 * Rabs T + eta32 ->
              Rabs (P + - A) <= 6000
              /\ (Rabs (N - (P + - A)) <= u32 * Rabs (P + - A) + eta32 ->
                  Rabs N <= A * (1 + / 1048576)
                            + / 1393796574908163946345982392040522594123776)))).
Proof.
  intros HR HM ER EM HA EA0 EA. clear EA0. unfold_consts.
  apply Rabs_le_inv in ER. apply Rabs_le_inv in EM.
  rewrite (Rabs_pos_eq R_) in ER by lra. rewrite (Rabs_pos_eq M_) in EM by lra.
  rewrite (Rabs_pos_eq (2 * A)) in EA by lra. apply Rabs_le_inv in EA.
  split; [lra|]. intros EQ.
  assert (- / 1427247692705959881058285969449495136382746624 <= Qr
          <= 1 + 5 / 33554432) as [Q0 Q1].
  { split.
    - apply Rmult_le_reg_r with MF; [lra|]. rewrite EQ.
      apply Rle_trans with (- / 1427247692705959881058285969449495136382746624); [|lra].
      assert (/ 1427247692705959881058285969449495136382746624 * 1
              <= / 1427247692705959881058285969449495136382746624 * MF)
        by (apply Rmult_le_compat_l; lra).
      lra.
    - apply Rmult_le_reg_r with MF; [lra|]. rewrite EQ. lra. }
  split; [apply Rabs_le; lra|]. intros E1 ET. apply Rabs_le_inv in E1.
  assert (- (3 / 1427247692705959881058285969449495136382746624) <= Q <= 1 + / 4194304)
    as [Q2a Q2b].
  { revert E1. rabs_cases; intros; lra. }
  assert (- (7 / 1427247692705959881058285969449495136382746624) * A - 2 / 1427247692705959881058285969449495136382746624 <= T
          <= (1 + / 4194304) * (2 * A * (1 + / 16777216))
             + / 10000000000000000000000000000000000000000000) as [T0 T1].
  { rewrite ET. split.
    - pose proof (Rmult_le_pos
                    (Q + 3 / 1427247692705959881058285969449495136382746624)
                    (A2 + / 1427247692705959881058285969449495136382746624)
                    ltac:(lra) ltac:(lra)). nra.
    - pose proof (Rmult_le_pos
                    (1 + / 4194304 - Q)
                    (A2 + / 1427247692705959881058285969449495136382746624)
                    ltac:(lra) ltac:(lra)). nra. }
  split; [apply Rabs_le; lra|]. split; [apply Rabs_le; lra|].
  split; [apply Rabs_le; lra|]. intros E3. apply Rabs_le_inv in E3.
  assert (- (8 / 1427247692705959881058285969449495136382746624) * A - 4 / 1427247692705959881058285969449495136382746624 <= P
          <= (2 + 13 / 16777216) * A + 2 / 10000000000000000000000000000000000000000000)
    as [P0 P1].
  { revert E3. rabs_cases; intros; lra. }
  split; [apply Rabs_le; lra|]. intros E4. apply Rabs_le_inv in E4.
  apply Rabs_le. revert E4. rabs_cases; intros; lra.
Qed.

End NoiseL1Real.

Lemma noise_l1_bound (RAND_MAX : Z) {S : Type} (rand : S -> Z * S) amp s :
  32767 <= RAND_MAX <= 2147483647 ->
  0 <= fst (rand s) <= RAND_MAX ->
  F32.valid amp = true -> is_finite amp = true -> (0 <= B2R amp <= 1000)%R ->
  F32.valid (fst (Level1.noise RAND_MAX S rand amp s)) = true
  /\ is_finite (fst (Level1.noise RAND_MAX S rand amp s)) = true
  /\ (Rabs (B2R (fst (Level1.noise RAND_MAX S rand amp s)))
      <= B2R amp * (1 + / 1048576)
         + / 1393796574908163946345982392040522594123776)%R.
Proof.
  intros HM Hr Va Fa Ba. unfold Level1.noise. destruct (rand s) as [r s']. cbn [fst] in *.
  destruct (of_int_error r ltac:(lia)) as (Vr & Fr & Er).
  destruct (of_int_error RAND_MAX ltac:(lia)) as (Vm & Fm & Em).
  set (rf := F32.of_int r) in *. set (mf := F32.of_int RAND_MAX) in *.
  set (q := F32.div rf mf). set (a2 := F32.mul (F32.of_int 2) amp).
  set (p := F32.mul q a2). set (n := F32.sub p amp).
  assert (0 <= IZR r <= IZR RAND_MAX)%R as HR by (split; apply IZR_le; lia).
  assert (32767 <= IZR RAND_MAX <= 2147483647)%R as HM' by (split; apply IZR_le; lia).
  assert (B2R (F32.of_int 2) = 2%R) as V2 by lit_value.
  assert (fin32 (F32.of_int 2) 2) as H2.
  { split; [reflexivity|]. split; [reflexivity|]. rewrite V2, Rabs_pos_eq; lra. }
  assert (fin32 amp 1000) as Ha.
  { split; [exact Va|]. split; [exact Fa|]. rewrite Rabs_pos_eq; lra. }
  destruct (fin32_mul _ _ _ _ 2001 H2 Ha) as [(Va2 & Fa2 & Ba2) Ea2];
    [unfold_consts; lra|lra|].
  fold a2 in Va2, Fa2, Ba2, Ea2.
  pose proof (SFmul_error 24 128 prec24_pos (F32.of_int 2) amp Fa2) as Ea2'.
  rewrite u_of_24, eta_of_32, V2 in Ea2'. rewrite V2 in Ea2.
  change (SFmul 24 128 (F32.of_int 2) amp) with a2 in Ea2'.
  destruct (noise_l1_real (IZR r) (IZR RAND_MAX) (B2R rf) (B2R mf) (B2R rf / B2R mf)
              (B2R q) (B2R a2) (B2R q * B2R a2) (B2R p) (B2R n) (B2R amp)
              HR HM' Er Em Ba Ea2 Ea2') as (Bm & K).
  assert (B2R mf <> 0)%R as NZ by lra.
  destruct K as (Bq & K); [field; exact NZ|].
  assert (is_finite q = true) as Fq.
  { apply (SFdiv_finite 24 128 prec24_pos emax128_prec); try assumption.
    apply lt_bpow_127. lra. }
  pose proof (SFdiv_error 24 128 prec24_pos rf mf Fr Fm NZ Fq) as Eq.
  rewrite u_of_24, eta_of_32 in Eq.
  destruct (K Eq eq_refl) as (Bq' & Ba2' & Bt & K3). clear K.
  assert (F32.valid q = true) as Vq by apply (SFdiv_valid 24 128 prec24_pos).
  assert (is_finite p = true) as Fp.
  { apply (SFmul_finite 24 128 prec24_pos emax128_prec); try assumption.
    apply lt_bpow_127. lra. }
  pose proof (SFmul_error 24 128 prec24_pos q a2 Fp) as Ep.
  rewrite u_of_24, eta_of_32 in Ep.
  destruct (K3 Ep) as (Bs & K4). clear K3.
  assert (F32.valid p = true) as Vp by (apply F32_mul_valid; assumption).
  assert (n = SFadd 24 128 p (SFopp amp)) as En by apply SFsub_add_opp.
  assert (is_finite n = true) as Fn.
  { rewrite En. apply (SFadd_finite 24 128 prec24_pos emax128_prec); try assumption.
    - now rewrite SFopp_finite.
    - rewrite B2R_opp. apply small_lt_bpow_127. lra. }
  assert (Rabs (B2R n - (B2R p + - B2R amp)) <= u32 * Rabs (B2R p + - B2R amp) + eta32)%R
    as E5.
  { rewrite En in Fn |- *.
    pose proof (SFadd_error 24 128 prec24_pos p (SFopp amp) Fn) as E5.
    rewrite u_of_24, eta_of_32, B2R_opp in E5. exact E5. }
  split; [apply F32_sub_valid; assumption|]. split; [exact Fn|]. exact (K4 E5).
Qed.

(** ** Level 1: the simulated sensors *)

Ltac fin64_lit :=
  split; [vm_compute; reflexivity|];
  split; [vm_compute; reflexivity|];
  apply Rabs_le; split; lit_value.

Ltac fin32_lit :=
  split; [vm_compute; reflexivity|];
  split; [vm_compute; reflexivity|];
  apply Rabs_le; split; lit_value.

Section RangesL1.

Variable RAND_MAX : Z.
Variable S : Type.
Variable rand : S -> Z * S.
Variables sin cos : spec_float -> spec_float.
Hypothesis RAND_MAX_range : 32767 <= RAND_MAX <= 2147483647.
Hypothesis rand_range : forall s, 0 <= fst (rand s) <= RAND_MAX.
Hypothesis sin_bounded : forall x, is_finite x = true -> fin64 (sin x) 1.
Hypothesis cos_bounded : forall x, is_finite x = true -> fin64 (cos x) 1.

Lemma phase_finite t k :
  Z.abs t <= 2147483648 -> fin64 k 1 ->
  fin64 (F64.mul (Level1.F64_of_int t) k) 2147483650.
Proof.
  intros Ht Hk. destruct (fin64_of_int t Ht) as [Hz _].
  refine (proj1 (fin64_mul _ _ _ _ _ Hz Hk _ _)); lra.
Qed.

Lemma scaled_unit c y (C c' : R) :
  fin64 c C -> fin64 y 1 -> (C <= 100)%R ->
  (C * (1 + / 8000000) + / 10000000000000000000000000000000000000000 <= c')%R ->
  (c' <= 1000)%R ->
  fin32 (F32.of_double (F64.mul c y)) c'.
Proof.
  intros Hc Hy HC Hc' Small.
  assert (0 <= C)%R as PC by (destruct Hc as (_ & _ & B); eapply Rle_trans; [apply Rabs_pos|exact B]).
  destruct (fin64_mul _ _ _ _ (C * (1 + / 100000000000000)
                               + / 1000000000000000000000000000000000000000000000000)
              Hc Hy) as [M _]; [lra|lra|].
  refine (proj1 (fin32_of_double _ _ _ M _ _)); unfold_consts; lra.
Qed.

Lemma sin_wave_fin c k t (C c' : R) :
  fin64 c C -> fin64 k 1 -> Z.abs t <= 2147483648 -> (C <= 100)%R ->
  (C * (1 + / 8000000) + / 10000000000000000000000000000000000000000 <= c')%R ->
  (c' <= 1000)%R ->
  fin32 (Level1.sin_wave sin c k t) c'.
Proof.
  intros Hc Hk Ht HC Hc' Small. unfold Level1.sin_wave.
  apply (scaled_unit c _ C c'); try assumption.
  apply sin_bounded. apply (phase_finite t k Ht Hk).
Qed.

Lemma cos_wave_fin c k t (C c' : R) :
  fin64 c C -> fin64 k 1 -> Z.abs t <= 2147483648 -> (C <= 100)%R ->
  (C * (1 + / 8000000) + / 10000000000000000000000000000000000000000 <= c')%R ->
  (c' <= 1000)%R ->
  fin32 (Level1.cos_wave cos c k t) c'.
Proof.
  intros Hc Hk Ht HC Hc' Small. unfold Level1.cos_wave.
  apply (scaled_unit c _ C c'); try assumption.
  apply cos_bounded. apply (phase_finite t k Ht Hk).
Qed.

Lemma noise_l1_term amp s (a : R) :
  F32.valid amp = true -> is_finite amp = true -> (0 <= B2R amp)%R ->
  (B2R amp * (1 + / 1048576) + / 1000000000 <= a)%R -> (a <= 2)%R ->
  fin32 (fst (Level1.noise RAND_MAX S rand amp s)) a.
Proof.
  intros Va Fa B0 B1 Ha.
  destruct (noise_l1_bound RAND_MAX rand amp s RAND_MAX_range (rand_range s) Va Fa)
    as (V & F & B); [lra|].
  split; [exact V|]. split; [exact F|]. lra.
Qed.

Lemma noise_l1_state amp s :
  snd (Level1.noise RAND_MAX S rand amp s) = snd (rand s).
Proof. unfold Level1.noise. destruct (rand s). reflexivity. Qed.

Ltac noise_lit := apply noise_l1_term; [reflexivity|reflexivity|lit_value|lit_value|lra].

Ltac sum_bound c H1 H2 :=
  refine (proj1 (fin32_add _ _ _ _ c H1 H2 _ _)); unfold_consts; lra.

Lemma simulate_accel_x_range t s :
  Z.abs t <= 2147483648 ->
  fin32 (fst (Level1.simulate_accel_x RAND_MAX S rand sin t s)) (12501 / 10000).
Proof.
  intros Ht. unfold Level1.simulate_accel_x.
  assert (fin32 (fst (Level1.noise RAND_MAX S rand (Level1.flt 1 10) s)) (1000002 / 10000000))
    as Hn by noise_lit.
  destruct (Level1.noise RAND_MAX S rand (Level1.flt 1 10) s) as [n s']. cbn [fst] in *.
  assert (fin32 (Level1.sin_wave sin (F64.lit 8 10) (F64.lit 2 100) t) (8000002 / 10000000))
    as W1 by (apply (sin_wave_fin _ _ _ (80000001 / 100000000)); try lra; try lia; fin64_lit).
  assert (fin32 (Level1.sin_wave sin (F64.lit 3 10) (F64.lit 5 1000) t) (3000001 / 10000000))
    as W2 by (apply (sin_wave_fin _ _ _ (30000001 / 100000000)); try lra; try lia; fin64_lit).
  assert (fin32 (Level1.sin_wave sin (F64.lit 5 100) (F64.lit 50 100) t) (5000001 / 100000000))
    as W3 by (apply (sin_wave_fin _ _ _ (50000001 / 1000000000)); try lra; try lia; fin64_lit).
  assert (fin32 (F32.add (Level1.sin_wave sin (F64.lit 8 10) (F64.lit 2 100) t)
                   (Level1.sin_wave sin (F64.lit 3 10) (F64.lit 5 1000) t))
            (11000005 / 10000000)) as S1 by sum_bound (11000005 / 10000000)%R W1 W2.
  assert (fin32 (F32.add (F32.add (Level1.sin_wave sin (F64.lit 8 10) (F64.lit 2 100) t)
                            (Level1.sin_wave sin (F64.lit 3 10) (F64.lit 5 1000) t))
                   (Level1.sin_wave sin (F64.lit 5 100) (F64.lit 50 100) t))
            (11500008 / 10000000)) as S2 by sum_bound (11500008 / 10000000)%R S1 W3.
  sum_bound (12501 / 10000)%R S2 Hn.
Qed.

Ltac sin_w C := apply (sin_wave_fin _ _ _ C); try lra; try lia; fin64_lit.
Ltac cos_w C := apply (cos_wave_fin _ _ _ C); try lra; try lia; fin64_lit.

Lemma simulate_accel_y_range t s :
  Z.abs t <= 2147483648 ->
  fin32 (fst (Level1.simulate_accel_y RAND_MAX S rand sin cos t s)) (11501 / 10000).
Proof.
  intros Ht. unfold Level1.simulate_accel_y.
  assert (fin32 (fst (Level1.noise RAND_MAX S rand (Level1.flt 1 10) s)) (1000002 / 10000000))
    as Hn by noise_lit.
  destruct (Level1.noise RAND_MAX S rand (Level1.flt 1 10) s) as [n s']. cbn [fst] in *.
  set (arg := Level1.F64_add (F64.mul (Level1.F64_of_int t) (F64.lit 18 1000)) (F64.lit 1 1)).
  assert (is_finite arg = true) as Fa.
  { assert (fin64 (F64.lit 18 1000) 1) as Hk by fin64_lit.
    assert (fin64 (F64.lit 1 1) 1) as H1 by fin64_lit.
    refine (proj1 (proj2 (proj1 (fin64_add _ _ _ _ 2147483652
                                   (phase_finite t _ Ht Hk) H1 _ _)))); lra. }
  assert (fin32 (F32.of_double (F64.mul (F64.lit 8 10) (cos arg))) (8000002 / 10000000)) as W1.
  { apply (scaled_unit _ _ (80000001 / 100000000)); try lra; [fin64_lit|].
    apply cos_bounded. exact Fa. }
  assert (fin32 (Level1.sin_wave sin (F64.lit 2 10) (F64.lit 8 1000) t) (2000001 / 10000000))
    as W2 by sin_w (20000001 / 100000000)%R.
  assert (fin32 (Level1.sin_wave sin (F64.lit 5 100) (F64.lit 45 100) t) (5000001 / 100000000))
    as W3 by sin_w (50000001 / 1000000000)%R.
  assert (fin32 (F32.add (F32.of_double (F64.mul (F64.lit 8 10) (cos arg)))
                   (Level1.sin_wave sin (F64.lit 2 10) (F64.lit 8 1000) t))
            (10000005 / 10000000)) as S1 by sum_bound (10000005 / 10000000)%R W1 W2.
  assert (fin32 (F32.add (F32.add (F32.of_double (F64.mul (F64.lit 8 10) (cos arg)))
                            (Level1.sin_wave sin (F64.lit 2 10) (F64.lit 8 1000) t))
                   (Level1.sin_wave sin (F64.lit 5 100) (F64.lit 45 100) t))
            (10500008 / 10000000)) as S2 by sum_bound (10500008 / 10000000)%R S1 W3.
  sum_bound (11501 / 10000)%R S2 Hn.
Qed.

Lemma simulate_accel_z_range t s :
  Z.abs t <= 2147483648 ->
  within (fst (Level1.simulate_accel_z RAND_MAX S rand sin t s))
    (97299 / 10000) (98901 / 10000).
Proof.
  intros Ht. unfold Level1.simulate_accel_z.
  assert (fin32 (fst (Level1.noise RAND_MAX S rand (Level1.flt 5 100) s)) (500001 / 10000000))
    as Hn by noise_lit.
  destruct (Level1.noise RAND_MAX S rand (Level1.flt 5 100) s) as [n s']. cbn [fst] in *.
  assert (fin32 (Level1.sin_wave sin (F64.lit 3 100) (F64.lit 40 100) t) (3000001 / 100000000))
    as W by sin_w (30000001 / 1000000000)%R.
  assert (fin32 (Level1.flt 981 100) (9810001 / 1000000)) as G by fin32_lit.
  assert (9809999 / 1000000 <= B2R (Level1.flt 981 100) <= 9810001 / 1000000)%R
    as [G0 G1] by (split; lit_value).
  destruct (fin32_add _ _ _ _ (985 / 100) G W) as [S1 E1]; [unfold_consts; lra|lra|].
  destruct (fin32_add _ _ _ _ (991 / 100) S1 Hn) as [(V & F & B) E2];
    [unfold_consts; lra|lra|].
  split; [exact V|]. split; [exact F|].
  destruct W as (_ & _ & W). destruct Hn as (_ & _ & Hn).
  apply Rabs_le_inv in E1, E2, W, Hn.
  revert E1 E2. unfold_consts. intros. lra.
Qed.

(** The sum [rotation + drift + spike + noise(...)] of the gyroscope channels. *)
Lemma gyro_sum rotation drift spike n (r d sp c : R) :
  fin32 rotation r -> fin32 drift d -> fin32 spike sp ->
  fin32 n (2000003 / 10000000) ->
  (0 <= r <= 50)%R -> (0 <= d <= 50)%R -> (0 <= sp <= 2)%R ->
  (r + d + sp + 20003 / 100000 <= c)%R -> (c <= 1000)%R ->
  fin32 (F32.add (F32.add (F32.add rotation drift) spike) n) c.
Proof.
  intros Hr Hd Hs Hn Br Bd Bs Hc Small.
  assert (fin32 (F32.add rotation drift) (r + d + 7 / 1000000)) as S1
    by sum_bound (r + d + 7 / 1000000)%R Hr Hd.
  assert (fin32 (F32.add (F32.add rotation drift) spike) (r + d + sp + 14 / 1000000)) as S2
    by sum_bound (r + d + sp + 14 / 1000000)%R S1 Hs.
  sum_bound c S2 Hn.
Qed.

Lemma spike_fin (p : Z) t amp s (sp : R) :
  F32.valid amp = true -> is_finite amp = true -> (0 <= B2R amp)%R ->
  (B2R amp * (1 + / 1048576) + / 1000000000 <= sp)%R -> (sp <= 2)%R ->
  fin32 (fst (if Z.rem t p =? 0 then Level1.noise RAND_MAX S rand amp s
              else (F32.of_int 0, s))) sp.
Proof.
  intros Va Fa Ba Hsp Small. destruct (Z.rem t p =? 0).
  - apply noise_l1_term; assumption.
  - cbn [fst]. split; [reflexivity|]. split; [reflexivity|].
    simpl B2R. rewrite Rabs_R0. lra.
Qed.

Lemma simulate_gyro_x_range t s :
  Z.abs t <= 2147483648 ->
  fin32 (fst (Level1.simulate_gyro_x RAND_MAX S rand sin t s)) (44001 / 10000).
Proof.
  intros Ht. unfold Level1.simulate_gyro_x.
  pose proof (spike_fin 500 t (Level1.flt 1 1) s (1000002 / 1000000)) as Hs.
  destruct (if Z.rem t 500 =? 0 then Level1.noise RAND_MAX S rand (Level1.flt 1 1) s
            else (F32.of_int 0, s)) as [spike s1]. cbn [fst] in Hs.
  assert (fin32 (fst (Level1.noise RAND_MAX S rand (Level1.flt 2 10) s1)) (2000003 / 10000000))
    as Hn by noise_lit.
  destruct (Level1.noise RAND_MAX S rand (Level1.flt 2 10) s1) as [n s2]. cbn [fst] in *.
  apply (gyro_sum _ _ _ _ (3000001 / 1000000) (2000001 / 10000000) (1000002 / 1000000));
    try lra; try assumption.
  - sin_w (30000001 / 10000000)%R.
  - sin_w (20000001 / 100000000)%R.
  - apply Hs; [reflexivity|reflexivity|lit_value|lit_value|lra].
Qed.

Lemma simulate_gyro_y_range t s :
  Z.abs t <= 2147483648 ->
  fin32 (fst (Level1.simulate_gyro_y RAND_MAX S rand sin cos t s)) (42001 / 10000).
Proof.
  intros Ht. unfold Level1.simulate_gyro_y.
  pose proof (spike_fin 700 t (Level1.flt 8 10) s (800002 / 1000000)) as Hs.
  destruct (if Z.rem t 700 =? 0 then Level1.noise RAND_MAX S rand (Level1.flt 8 10) s
            else (F32.of_int 0, s)) as [spike s1]. cbn [fst] in Hs.
  assert (fin32 (fst (Level1.noise RAND_MAX S rand (Level1.flt 2 10) s1)) (2000003 / 10000000))
    as Hn by noise_lit.
  destruct (Level1.noise RAND_MAX S rand (Level1.flt 2 10) s1) as [n s2]. cbn [fst] in *.
  apply (gyro_sum _ _ _ _ (3000001 / 1000000) (2000001 / 10000000) (800002 / 1000000));
    try lra; try assumption.
  - cos_w (30000001 / 10000000)%R.
  - sin_w (20000001 / 100000000)%R.
  - apply Hs; [reflexivity|reflexivity|lit_value|lit_value|lra].
Qed.

Lemma simulate_gyro_z_range t s :
  Z.abs t <= 2147483648 ->
  fin32 (fst (Level1.simulate_gyro_z RAND_MAX S rand sin t s)) (208001 / 10000).
Proof.
  intros Ht. unfold Level1.simulate_gyro_z.
  assert (fin32 (fst (Level1.noise RAND_MAX S rand (Level1.flt 3 10) s)) (3000004 / 10000000))
    as Hn by noise_lit.
  destruct (Level1.noise RAND_MAX S rand (Level1.flt 3 10) s) as [n s']. cbn [fst] in *.
  assert (fin32 (Level1.sin_wave sin (F64.lit 20 1) (F64.lit 1 100) t) (20000003 / 1000000))
    as W1 by sin_w (20000000 / 1000000)%R.
  assert (fin32 (Level1.sin_wave sin (F64.lit 5 10) (F64.lit 4 10000) t) (5000001 / 10000000))
    as W2 by sin_w (50000001 / 100000000)%R.
  assert (fin32 (F32.add (Level1.sin_wave sin (F64.lit 20 1) (F64.lit 1 100) t)
                   (Level1.sin_wave sin (F64.lit 5 10) (F64.lit 4 10000) t))
            (20500005 / 1000000)) as S1 by sum_bound (20500005 / 1000000)%R W1 W2.
  sum_bound (208001 / 10000)%R S1 Hn.
Qed.


(** A positive factor known up to an interval. *)
Lemma scale_band (x k k1 k2 : R) :
  (0 <= k1 <= k)%R -> (k <= k2)%R ->
  (k1 * x <= x * k <= k2 * x \/ k2 * x <= x * k <= k1 * x)%R.
Proof.
  intros H1 H2. destruct (Rle_dec 0 x) as [P|N]; [left|right]; split; nra.
Qed.

(** A rounding to nearest, as an interval around a value that is not
    below [- lo]. *)
Lemma rel_band (x y lo : R) :
  (0 <= lo)%R -> (- lo <= x)%R ->
  (Rabs (y - x) <= u32 * Rabs x + eta32)%R ->
  (x * (1 - u32) - 2 * u32 * lo - eta32 <= y
   <= x * (1 + u32) + 2 * u32 * lo + eta32)%R.
Proof.
  intros Hlo Hx E. apply Rabs_le_inv in E. revert E. unfold_consts.
  unfold Rabs. destruct (Rcase_abs x); intros; lra.
Qed.

Lemma tick_double t :
  0 <= t <= 2147483647 ->
  fin64 (Level1.F64_of_int t) 2147483649
  /\ (Rabs (B2R (Level1.F64_of_int t) - IZR t) <= / 400000)%R
  /\ (0 <= IZR t <= 2147483647)%R.
Proof.
  intros Ht. destruct (fin64_of_int t ltac:(lia)) as [H E].
  assert (0 <= IZR t <= 2147483647)%R as T by (split; apply IZR_le; lia).
  split; [exact H|]. split; [|exact T].
  rewrite (Rabs_pos_eq (IZR t)) in E by lra. lra.
Qed.

Lemma relative_add x y a b :
  fin32 x a -> fin32 y b ->
  ((a + b) * (1 + u32) + eta32 <= 1000000000000)%R ->
  F32.valid (F32.add x y) = true /\ is_finite (F32.add x y) = true
  /\ (Rabs (B2R (F32.add x y) - (B2R x + B2R y))
      <= u32 * Rabs (B2R x + B2R y) + eta32)%R.
Proof.
  intros Hx Hy Small.
  destruct (fin32_add _ _ _ _ ((a + b) * (1 + u32) + eta32) Hx Hy) as [(V & F & _) _];
    [lra|lra|].
  split; [exact V|]. split; [exact F|].
  pose proof (SFadd_error 24 128 prec24_pos x y F) as E.
  now rewrite u_of_24, eta_of_32 in E.
Qed.

Lemma relative_of_double x a :
  fin64 x a -> (a <= 1000000000)%R ->
  F32.valid (F32.of_double x) = true /\ is_finite (F32.of_double x) = true
  /\ (Rabs (B2R (F32.of_double x) - B2R x) <= u32 * Rabs (B2R x) + eta32)%R.
Proof.
  intros (V & F & B) Small.
  destruct (of_double_error x F) as (F' & V' & E).
  { apply Rle_lt_trans with a; [exact B|]. apply small_lt_bpow_127. lra. }
  rewrite u_of_24, eta_of_32 in E. auto.
Qed.

Lemma simulate_altitude_range t s :
  0 <= t <= 2147483647 ->
  within (fst (Level1.simulate_altitude RAND_MAX S rand sin t s))
    (9949 / 100 + 199 / 10000 * IZR t) (10051 / 100 + 201 / 10000 * IZR t).
Proof.
  intros Ht. unfold Level1.simulate_altitude.
  assert (fin32 (fst (Level1.noise RAND_MAX S rand (Level1.flt 2 10) s)) (2000003 / 10000000))
    as Hn by noise_lit.
  destruct (Level1.noise RAND_MAX S rand (Level1.flt 2 10) s) as [n s']. cbn [fst] in *.
  assert (fin32 (Level1.sin_wave sin (F64.lit 3 10) (F64.lit 4 100) t) (3000001 / 10000000))
    as W by sin_w (30000001 / 100000000)%R.
  destruct (tick_double t Ht) as (Hd & Ed & HT).
  assert (fin64 (F64.lit 2 100) (21 / 1000)) as Hk by fin64_lit.
  assert (2 / 100 - / 1000000000000000 <= B2R (F64.lit 2 100)
          <= 2 / 100 + / 1000000000000000)%R as [K0 K1] by (split; lit_value).
  destruct (fin64_mul _ _ _ _ 45100000 Hd Hk) as [Hm Em]; [lra|lra|].
  assert (fin64 (Level1.F64_of_int 100) 100) as Hh by fin64_lit.
  assert (B2R (Level1.F64_of_int 100) = 100%R) as Vh by lit_value.
  destruct (fin64_add _ _ _ _ 45100200 Hh Hm) as [Hc Ec]; [lra|lra|].
  rewrite Vh in Ec.
  destruct (relative_of_double _ _ Hc ltac:(lra)) as (Vcl & Fcl & Ecl).
  assert (fin32 (F32.of_double (Level1.F64_add (Level1.F64_of_int 100)
                                  (F64.mul (Level1.F64_of_int t) (F64.lit 2 100))))
            45100300) as Hcl
    by (refine (proj1 (fin32_of_double _ _ _ Hc _ _)); unfold_consts; lra).
  destruct (relative_add _ _ _ _ Hcl W) as (V1 & F1 & E1); [unfold_consts; lra|].
  assert (fin32 (F32.add (F32.of_double (Level1.F64_add (Level1.F64_of_int 100)
                                          (F64.mul (Level1.F64_of_int t) (F64.lit 2 100))))
                   (Level1.sin_wave sin (F64.lit 3 10) (F64.lit 4 100) t)) 45100400) as H1
    by sum_bound 45100400%R Hcl W.
  destruct (relative_add _ _ _ _ H1 Hn) as (V2 & F2 & E2); [unfold_consts; lra|].
  split; [exact V2|]. split; [exact F2|].
  destruct W as (_ & _ & W). destruct Hn as (_ & _ & Hn).
  set (alt := B2R (F32.add _ n)) in *.
  set (s1 := B2R (F32.add _ (Level1.sin_wave sin (F64.lit 3 10) (F64.lit 4 100) t))) in *.
  set (climb := B2R (F32.of_double _)) in *.
  set (c1 := B2R (Level1.F64_add _ _)) in *.
  set (m := B2R (F64.mul _ _)) in *.
  set (td := B2R (Level1.F64_of_int t)) in *.
  set (k := B2R (F64.lit 2 100)) in *.
  set (w := B2R (Level1.sin_wave sin (F64.lit 3 10) (F64.lit 4 100) t)) in *.
  set (T := IZR t) in *. set (n' := B2R n) in *.
  clearbody alt s1 climb c1 m td k w T n'.
  apply Rabs_le_inv in Ed, Em, Ec, W, Hn.
  assert (100 + 2 / 100 * T - / 1000 <= c1 <= 100 + 2 / 100 * T + / 1000)%R as [C0 C1].
  { destruct (scale_band td k (2 / 100 - / 1000000000000000)
                (2 / 100 + / 1000000000000000) ltac:(lra) ltac:(lra))
      as [[P0 P1]|[P0 P1]]; lra. }
  pose proof (rel_band c1 climb 0 ltac:(lra) ltac:(lra) Ecl) as L.
  pose proof (rel_band (climb + w) s1 0 ltac:(lra)
                ltac:(revert L; unfold_consts; intros; lra) E1) as A.
  pose proof (rel_band (s1 + n') alt 0 ltac:(lra)
                ltac:(revert L A; unfold_consts; intros; lra) E2) as B.
  revert L A B. unfold_consts. intros. lra.
Qed.


Lemma simulate_temperature_range t prev s :
  0 <= t <= 2147483647 ->
  within prev (2979 / 100) (3021 / 100 + IZR t / 1000) ->
  within (fst (Level1.simulate_temperature RAND_MAX S rand t prev s))
    (2979 / 100) (3021 / 100 + IZR t / 1000).
Proof.
  intros Ht (Vp & Fp & Bp). unfold Level1.simulate_temperature.
  assert (fin32 (fst (Level1.noise RAND_MAX S rand (Level1.flt 2 10) s)) (2000003 / 10000000))
    as Hn by noise_lit.
  destruct (Level1.noise RAND_MAX S rand (Level1.flt 2 10) s) as [fluct s']. cbn [fst] in *.
  destruct (tick_double t Ht) as (Hd & Ed & HT).
  (* heating *)
  assert (fin64 (F64.lit 8 10000) (/ 1000)) as Hk by fin64_lit.
  assert (8 / 10000 - / 1000000000000000000 <= B2R (F64.lit 8 10000)
          <= 8 / 10000 + / 1000000000000000000)%R as [K0 K1] by (split; lit_value).
  destruct (fin64_mul _ _ _ _ 2200000 Hk Hd) as [Hh Eh]; [lra|lra|].
  rewrite (Rmult_comm (B2R (F64.lit 8 10000))) in Eh.
  destruct (relative_of_double _ _ Hh ltac:(lra)) as (Vh & Fh & Eh32).
  assert (fin32 (F32.of_double (F64.mul (F64.lit 8 10000) (Level1.F64_of_int t))) 2200001)
    as Hh32 by (refine (proj1 (fin32_of_double _ _ _ Hh _ _)); unfold_consts; lra).
  (* raw *)
  assert (fin32 (Level1.flt 30 1) 30) as Hb by fin32_lit.
  assert (B2R (Level1.flt 30 1) = 30%R) as Vb by lit_value.
  destruct (relative_add _ _ _ _ Hb Hh32) as (V1 & F1 & E1); [unfold_consts; lra|].
  rewrite Vb in E1.
  assert (fin32 (F32.add (Level1.flt 30 1)
                   (F32.of_double (F64.mul (F64.lit 8 10000) (Level1.F64_of_int t))))
            2200040) as H1 by sum_bound 2200040%R Hb Hh32.
  destruct (relative_add _ _ _ _ H1 Hn) as (V2 & F2 & E2); [unfold_consts; lra|].
  assert (fin32 (F32.add (F32.add (Level1.flt 30 1)
                            (F32.of_double (F64.mul (F64.lit 8 10000) (Level1.F64_of_int t))))
                   fluct) 2200050) as H2 by sum_bound 2200050%R H1 Hn.
  (* the filter *)
  assert (fin32 prev 2200000) as Hp.
  { split; [exact Vp|]. split; [exact Fp|]. apply Rabs_le. lra. }
  destruct (fin64_of_float _ _ 2200001 Hp) as [Hpd Epd]; [lra|lra|].
  destruct (fin64_of_float _ _ 2200051 H2) as [Hrd Erd]; [lra|lra|].
  assert (fin64 (F64.lit 95 100) 1) as Hk95 by fin64_lit.
  assert (95 / 100 - / 1000000000000000 <= B2R (F64.lit 95 100)
          <= 95 / 100 + / 1000000000000000)%R as [K95a K95b] by (split; lit_value).
  assert (fin64 (F64.lit 5 100) (/ 10)) as Hk05 by fin64_lit.
  assert (5 / 100 - / 1000000000000000 <= B2R (F64.lit 5 100)
          <= 5 / 100 + / 1000000000000000)%R as [K05a K05b] by (split; lit_value).
  destruct (fin64_mul _ _ _ _ 2200002 Hpd Hk95) as [Ha1 Ea1]; [lra|lra|].
  destruct (fin64_mul _ _ _ _ 220006 Hrd Hk05) as [Ha2 Ea2]; [lra|lra|].
  destruct (fin64_add _ _ _ _ 2500000 Ha1 Ha2) as [Hsm Esm]; [lra|lra|].
  destruct (relative_of_double _ _ Hsm ltac:(lra)) as (Vo & Fo & Eo).
  split; [exact Vo|]. split; [exact Fo|].
  destruct Hn as (_ & _ & Hn).
  set (out := B2R (F32.of_double (Level1.F64_add _ _))) in *.
  set (sm := B2R (Level1.F64_add _ _)) in *.
  set (a1 := B2R (F64.mul (F64.of_float prev) _)) in *.
  set (a2 := B2R (F64.mul (F64.of_float (F32.add _ fluct)) (F64.lit 5 100))) in *.
  set (pd := B2R (F64.of_float prev)) in *.
  set (rd := B2R (F64.of_float (F32.add _ fluct))) in *.
  set (raw := B2R (F32.add _ fluct)) in *.
  set (s1 := B2R (F32.add (Level1.flt 30 1) _)) in *.
  set (h32 := B2R (F32.of_double _)) in *.
  set (hd := B2R (F64.mul (F64.lit 8 10000) _)) in *.
  set (td := B2R (Level1.F64_of_int t)) in *.
  set (k := B2R (F64.lit 8 10000)) in *.
  set (k95 := B2R (F64.lit 95 100)) in *.
  set (k05 := B2R (F64.lit 5 100)) in *.
  set (T := IZR t) in *. set (p := B2R prev) in *. set (fl := B2R fluct) in *.
  clearbody out sm a1 a2 pd rd raw s1 h32 hd td k k95 k05 T p fl.
  apply Rabs_le_inv in Ed, Eh, Epd, Erd, Ea1, Ea2, Esm, Hn.
  assert (8 / 10000 * T - / 100000 <= hd <= 8 / 10000 * T + / 100000)%R as [D0 D1].
  { destruct (scale_band td k (8 / 10000 - / 1000000000000000000)
                (8 / 10000 + / 1000000000000000000) ltac:(lra) ltac:(lra))
      as [[P0 P1]|[P0 P1]]; lra. }
  pose proof (rel_band hd h32 (/ 100000) ltac:(lra) ltac:(lra) Eh32) as G.
  pose proof (rel_band (30 + h32) s1 0 ltac:(lra)
                ltac:(revert G; unfold_consts; intros; lra) E1) as S1.
  pose proof (rel_band (s1 + fl) raw 0 ltac:(lra)
                ltac:(revert G S1; unfold_consts; intros; lra) E2) as R1.
  clear Eh32 E1 E2.
  assert (297999 / 10000 <= raw <= 302001 / 10000 + 80001 / 100000000 * T)%R as [R0 R2]
    by (revert G S1 R1; unfold_consts; intros; lra).
  assert (95 / 100 * p - / 100000 <= a1 <= 95 / 100 * p + / 100000)%R as [A0 A1].
  { destruct (scale_band pd k95 (95 / 100 - / 1000000000000000)
                (95 / 100 + / 1000000000000000) ltac:(lra) ltac:(lra))
      as [[P0 P1]|[P0 P1]]; lra. }
  assert (5 / 100 * raw - / 100000 <= a2 <= 5 / 100 * raw + / 100000)%R as [B0 B1].
  { destruct (scale_band rd k05 (5 / 100 - / 1000000000000000)
                (5 / 100 + / 1000000000000000) ltac:(lra) ltac:(lra))
      as [[P0 P1]|[P0 P1]]; lra. }
  pose proof (rel_band sm out 0 ltac:(lra) ltac:(lra) Eo) as O.
  clear G S1 R1 Eo. revert O. unfold_consts. intros. lra.
Qed.

End RangesL1.

(** ** Level 1: what the simulated sensors return and what [main] writes *)

(** A stand-in for [sin] and [cos] that meets what is asked of them. *)
Lemma zero_wave_bounded :
  forall x : spec_float, is_finite x = true -> fin64 ((fun _ => S754_zero false) x) 1.
Proof.
  intros x _. split; [reflexivity|]. split; [reflexivity|].
  simpl B2R. rewrite Rabs_R0. lra.
Qed.

(** X21: the six motion channels of Level 1 are finite and bounded by the sum of
    their amplitudes, for every [int] tick, when [sin] and [cos] return
    well-formed finite values of magnitude at most 1 on finite arguments and
    [rand] returns values between 0 and [RAND_MAX]. *)
Theorem l1_motion_ranges (RAND_MAX : Z) (S : Type) (rand : S -> Z * S)
    (sin cos : spec_float -> spec_float) (t : Z) (s : S) :
  32767 <= RAND_MAX <= 2147483647 -> (forall s, 0 <= fst (rand s) <= RAND_MAX) ->
  (forall x, is_finite x = true -> fin64 (sin x) 1) ->
  (forall x, is_finite x = true -> fin64 (cos x) 1) ->
  - 2147483648 <= t <= 2147483647 ->
  fin32 (fst (Level1.simulate_accel_x RAND_MAX S rand sin t s)) (12501 / 10000)
  /\ fin32 (fst (Level1.simulate_accel_y RAND_MAX S rand sin cos t s)) (11501 / 10000)
  /\ within (fst (Level1.simulate_accel_z RAND_MAX S rand sin t s))
       (97299 / 10000) (98901 / 10000)
  /\ fin32 (fst (Level1.simulate_gyro_x RAND_MAX S rand sin t s)) (44001 / 10000)
  /\ fin32 (fst (Level1.simulate_gyro_y RAND_MAX S rand sin cos t s)) (42001 / 10000)
  /\ fin32 (fst (Level1.simulate_gyro_z RAND_MAX S rand sin t s)) (208001 / 10000).
Proof.
  intros HM Hr Hs Hc Ht.
  assert (Z.abs t <= 2147483648) as Ha by lia.
  split; [now apply simulate_accel_x_range|].
  split; [now apply simulate_accel_y_range|].
  split; [now apply simulate_accel_z_range|].
  split; [now apply simulate_gyro_x_range|].
  split; [now apply simulate_gyro_y_range|].
  now apply simulate_gyro_z_range.
Qed.

Lemma l1_motion_ranges_witness :
  fin32 (fst (Level1.simulate_accel_x 32767 Z rand_example (fun _ => S754_zero false) 500 1))
    (12501 / 10000)
  /\ fin32 (fst (Level1.simulate_accel_y 32767 Z rand_example (fun _ => S754_zero false)
                   (fun _ => S754_zero false) 500 1)) (11501 / 10000)
  /\ within (fst (Level1.simulate_accel_z 32767 Z rand_example (fun _ => S754_zero false)
                    500 1)) (97299 / 10000) (98901 / 10000)
  /\ fin32 (fst (Level1.simulate_gyro_x 32767 Z rand_example (fun _ => S754_zero false)
                   500 1)) (44001 / 10000)
  /\ fin32 (fst (Level1.simulate_gyro_y 32767 Z rand_example (fun _ => S754_zero false)
                   (fun _ => S754_zero false) 500 1)) (42001 / 10000)
  /\ fin32 (fst (Level1.simulate_gyro_z 32767 Z rand_example (fun _ => S754_zero false)
                   500 1)) (208001 / 10000).
Proof.
  apply (l1_motion_ranges 32767 Z rand_example (fun _ => S754_zero false)
           (fun _ => S754_zero false) 500 1).
  - lia.
  - apply rand_example_range.
  - exact zero_wave_bounded.
  - exact zero_wave_bounded.
  - lia.
Defined.

(** X22: the altitude follows the climb 100 + 0.02 t within half a metre and a
    relative 0.5 %, and the low-pass filter of the temperature keeps a value
    between 29.79 and 30.21 + t / 1000 in that band, for every tick from 0
    to [INT_MAX]. *)
Theorem l1_slow_channels (RAND_MAX : Z) (S : Type) (rand : S -> Z * S)
    (sin : spec_float -> spec_float) (t : Z) (prev_temp : spec_float) (s : S) :
  32767 <= RAND_MAX <= 2147483647 -> (forall s, 0 <= fst (rand s) <= RAND_MAX) ->
  (forall x, is_finite x = true -> fin64 (sin x) 1) ->
  0 <= t <= 2147483647 ->
  within prev_temp (2979 / 100) (3021 / 100 + IZR t / 1000) ->
  within (fst (Level1.simulate_altitude RAND_MAX S rand sin t s))
    (9949 / 100 + 199 / 10000 * IZR t) (10051 / 100 + 201 / 10000 * IZR t)
  /\ within (fst (Level1.simulate_temperature RAND_MAX S rand t prev_temp s))
       (2979 / 100) (3021 / 100 + IZR t / 1000).
Proof.
  intros HM Hr Hs Ht Hp. split.
  - now apply simulate_altitude_range.
  - now apply simulate_temperature_range.
Qed.

Lemma l1_slow_channels_witness :
  within (fst (Level1.simulate_altitude 32767 Z rand_example (fun _ => S754_zero false) 7 1))
    (9949 / 100 + 199 / 10000 * IZR 7) (10051 / 100 + 201 / 10000 * IZR 7)
  /\ within (fst (Level1.simulate_temperature 32767 Z rand_example 7 (Level1.flt 30 1) 1))
       (2979 / 100) (3021 / 100 + IZR 7 / 1000).
Proof.
  apply (l1_slow_channels 32767 Z rand_example (fun _ => S754_zero false) 7
           (Level1.flt 30 1) 1).
  - lia.
  - apply rand_example_range.
  - exact zero_wave_bounded.
  - lia.
  - split; [reflexivity|]. split; [reflexivity|]. split; lit_value.
Defined.

Section LoopL1.

Variable RAND_MAX : Z.
Variable S : Type.
Variable rand : S -> Z * S.
Variables sin cos : spec_float -> spec_float.
Variable char_signed : bool.
Variable nan_sign : Z -> nat -> bool.
Hypothesis RAND_MAX_range : 32767 <= RAND_MAX <= 2147483647.
Hypothesis rand_range : forall s, 0 <= fst (rand s) <= RAND_MAX.
Hypothesis sin_bounded : forall x, is_finite x = true -> fin64 (sin x) 1.
Hypothesis cos_bounded : forall x, is_finite x = true -> fin64 (cos x) 1.

Lemma reading_fin x (a : R) :
  fin32 x a -> (a <= 1000000000)%R ->
  is_finite x = true /\ (Rabs (B2R x) <= 1000000000)%R.
Proof. intros (_ & F & B) H. split; [exact F|lra]. Qed.

Lemma reading_within x (lo hi : R) :
  within x lo hi -> (- 1000000000 <= lo)%R -> (hi <= 1000000000)%R ->
  is_finite x = true /\ (Rabs (B2R x) <= 1000000000)%R.
Proof. intros (_ & F & B) L H. split; [exact F|]. apply Rabs_le. lra. Qed.

Lemma l1_iteration t temp s :
  0 <= t <= 42949672 ->
  within temp (2979 / 100) (3021 / 100 + IZR t / 1000) ->
  let it := Level1.main_iteration RAND_MAX S rand sin cos char_signed nan_sign (t, temp, s) in
  (exists payload,
      fst it
      = Some ("$"%byte :: payload
                ++ "*"%byte :: [digit_char (calculate_checksum char_signed payload / 16);
                                digit_char (calculate_checksum char_signed payload mod 16)]
                ++ ["010"%byte])
      /\ (List.length payload <= 149)%nat)
  /\ fst (fst (snd it)) = t + 1
  /\ within (snd (fst (snd it))) (2979 / 100) (3021 / 100 + IZR (t + 1) / 1000).
Proof.
  intros Ht Hp. unfold Level1.main_iteration.
  assert (Z.abs t <= 2147483648) as Ha by lia.
  assert (0 <= IZR t <= 42949672)%R as HT by (split; apply IZR_le; lia).
  pose proof (simulate_accel_x_range RAND_MAX S rand sin RAND_MAX_range rand_range
                sin_bounded t s Ha) as Hax.
  destruct (Level1.simulate_accel_x RAND_MAX S rand sin t s) as [ax s1].
  pose proof (simulate_accel_y_range RAND_MAX S rand sin cos RAND_MAX_range rand_range
                sin_bounded cos_bounded t s1 Ha) as Hay.
  destruct (Level1.simulate_accel_y RAND_MAX S rand sin cos t s1) as [ay s2].
  pose proof (simulate_accel_z_range RAND_MAX S rand sin RAND_MAX_range rand_range
                sin_bounded t s2 Ha) as Haz.
  destruct (Level1.simulate_accel_z RAND_MAX S rand sin t s2) as [az s3].
  pose proof (simulate_gyro_x_range RAND_MAX S rand sin RAND_MAX_range rand_range
                sin_bounded t s3 Ha) as Hgx.
  destruct (Level1.simulate_gyro_x RAND_MAX S rand sin t s3) as [gx s4].
  pose proof (simulate_gyro_y_range RAND_MAX S rand sin cos RAND_MAX_range rand_range
                sin_bounded cos_bounded t s4 Ha) as Hgy.
  destruct (Level1.simulate_gyro_y RAND_MAX S rand sin cos t s4) as [gy s5].
  pose proof (simulate_gyro_z_range RAND_MAX S rand sin RAND_MAX_range rand_range
                sin_bounded t s5 Ha) as Hgz.
  destruct (Level1.simulate_gyro_z RAND_MAX S rand sin t s5) as [gz s6].
  pose proof (simulate_altitude_range RAND_MAX S rand sin RAND_MAX_range rand_range
                sin_bounded t s6 ltac:(lia)) as Halt.
  destruct (Level1.simulate_altitude RAND_MAX S rand sin t s6) as [alt s7].
  pose proof (simulate_temperature_range RAND_MAX S rand RAND_MAX_range rand_range
                t temp s7 ltac:(lia) Hp) as Htemp.
  destruct (Level1.simulate_temperature RAND_MAX S rand t temp s7) as [temp' s8].
  cbn [fst snd] in *.
  destruct (l1_frame_shape char_signed (nan_sign t) t ax ay az gx gy gz alt temp' ltac:(lia))
    as (E & _ & Len & _).
  { repeat (apply Forall_cons; [|]); try apply Forall_nil.
    - apply (reading_fin _ _ Hax). lra.
    - apply (reading_fin _ _ Hay). lra.
    - apply (reading_within _ _ _ Haz); lra.
    - apply (reading_fin _ _ Hgx). lra.
    - apply (reading_fin _ _ Hgy). lra.
    - apply (reading_fin _ _ Hgz). lra.
    - apply (reading_within _ _ _ Halt); lra.
    - apply (reading_within _ _ _ Htemp); lra. }
  split; [|split; [reflexivity|]].
  - eexists. split; [exact E|exact Len].
  - destruct Htemp as (V & F & B). split; [exact V|]. split; [exact F|].
    rewrite plus_IZR. lra.
Qed.

Lemma l1_loop n : forall t temp s,
  0 <= t -> t + Z.of_nat n <= 42949673 ->
  within temp (2979 / 100) (3021 / 100 + IZR t / 1000) ->
  Forall (fun it =>
            (exists payload,
                fst it
                = Some ("$"%byte :: payload
                          ++ "*"%byte
                             :: [digit_char (calculate_checksum char_signed payload / 16);
                                 digit_char (calculate_checksum char_signed payload mod 16)]
                          ++ ["010"%byte])
                /\ (List.length payload <= 149)%nat)
            /\ within (snd (fst (snd it))) (2979 / 100)
                 (3021 / 100 + IZR (fst (fst (snd it))) / 1000))
    (Level1.main_loop RAND_MAX S rand sin cos char_signed nan_sign n (t, temp, s)).
Proof.
  induction n as [|n IH]; intros t temp s Ht Hn Hp; [constructor|].
  cbn [Level1.main_loop].
  destruct (l1_iteration t temp s ltac:(lia) Hp) as (Fr & Et & Hw).
  destruct (Level1.main_iteration RAND_MAX S rand sin cos char_signed nan_sign (t, temp, s))
    as [frame [[t' temp'] s']].
  cbn [fst snd] in *. subst t'.
  constructor.
  - cbn [fst snd]. split; assumption.
  - apply IH; [lia|lia|exact Hw].
Qed.

End LoopL1.

(** X23: for its first 42 949 673 iterations (while the timestamp [t * 50] is an
    [int]) the Level-1 loop writes a complete line on every iteration: no
    [sprintf] overruns its buffer, the line is '$', a payload of at most 149
    characters, '*', the two hexadecimal digits of the XOR checksum of that
    payload and a newline; and the filtered temperature stays between 29.79
    and 30.21 + t / 1000. *)
Theorem l1_main_loop_frames (RAND_MAX : Z) (S : Type) (rand : S -> Z * S)
    (sin cos : spec_float -> spec_float) (char_signed : bool)
    (nan_sign : Z -> nat -> bool) (n : nat) (s0 : S) :
  32767 <= RAND_MAX <= 2147483647 -> (forall s, 0 <= fst (rand s) <= RAND_MAX) ->
  (forall x, is_finite x = true -> fin64 (sin x) 1) ->
  (forall x, is_finite x = true -> fin64 (cos x) 1) ->
  Z.of_nat n <= 42949673 ->
  Forall (fun it =>
            (exists payload,
                fst it
                = Some ("$"%byte :: payload
                          ++ "*"%byte
                             :: [digit_char (calculate_checksum char_signed payload / 16);
                                 digit_char (calculate_checksum char_signed payload mod 16)]
                          ++ ["010"%byte])
                /\ (List.length payload <= 149)%nat)
            /\ within (snd (fst (snd it))) (2979 / 100)
                 (3021 / 100 + IZR (fst (fst (snd it))) / 1000))
    (Level1.main_loop RAND_MAX S rand sin cos char_signed nan_sign n (Level1.main_init s0)).
Proof.
  intros HM Hr Hs Hc Hn. unfold Level1.main_init.
  apply l1_loop; try assumption; try lia.
  split; [reflexivity|]. split; [reflexivity|]. split; lit_value.
Qed.

Lemma l1_main_loop_frames_witness :
  Forall (fun it =>
            (exists payload,
                fst it
                = Some ("$"%byte :: payload
                          ++ "*"%byte
                             :: [digit_char (calculate_checksum true payload / 16);
                                 digit_char (calculate_checksum true payload mod 16)]
                          ++ ["010"%byte])
                /\ (List.length payload <= 149)%nat)
            /\ within (snd (fst (snd it))) (2979 / 100)
                 (3021 / 100 + IZR (fst (fst (snd it))) / 1000))
    (Level1.main_loop 32767 Z rand_example (fun _ => S754_zero false)
       (fun _ => S754_zero false) true (fun _ _ => false) 2 (Level1.main_init 1)).
Proof.
  apply (l1_main_loop_frames 32767 Z rand_example (fun _ => S754_zero false)
           (fun _ => S754_zero false) true (fun _ _ => false) 2 1).
  - lia.
  - apply rand_example_range.
  - exact zero_wave_bounded.
  - exact zero_wave_bounded.
  - simpl. lia.
Defined.

(** ** Level 1: the lines of acc.c *)

Lemma dec_text_one_digit n : 0 <= n < 10 -> List.length (dec_text n) = 1%nat.
Proof.
  intros H. pose proof (dec_text_length n 1 ltac:(simpl; lia) ltac:(lia)) as L.
  pose proof (dec_text_nonempty n) as NE.
  destruct (dec_text n) as [|c r]; [congruence|]. simpl in *. lia.
Qed.

Lemma thousandths_band m e (lo hi : Z) :
  (IZR lo - / 2 < 1000 * (IZR (Zpos m) * bpow e))%R ->
  (1000 * (IZR (Zpos m) * bpow e) < IZR hi + / 2)%R ->
  lo <= thousandths m e <= hi.
Proof.
  intros L H. pose proof (thousandths_accuracy m e) as A. apply Rabs_le_inv in A.
  split.
  - apply Z.lt_succ_r. apply lt_IZR. rewrite succ_IZR. lra.
  - apply Z.lt_succ_r. apply lt_IZR. rewrite succ_IZR. lra.
Qed.

(** [%.3f] of a finite value below 9.9995 in magnitude: an optional sign,
    one digit, the point and three digits. *)
Lemma fmt_3f_narrow (neg : bool) x :
  is_finite x = true -> (Rabs (B2R x) <= 9999 / 1000)%R ->
  (5 <= List.length (fmt_3f neg x) <= 6)%nat.
Proof.
  assert (forall s h, 0 <= h <= 9999 ->
            (5 <= List.length (fixed3_text s h) <= 6)%nat) as F.
  { intros s h Hh. unfold fixed3_text. rewrite !length_app. cbn [List.length].
    pose proof (sign_text_length s).
    rewrite dec_text_one_digit; [lia|].
    split; [apply Z.div_pos; lia|]. apply Z.div_lt_upper_bound; lia. }
  destruct x as [s|s| |s m e]; try discriminate; intros _ B; cbn [fmt_3f].
  - apply F. lia.
  - apply F. rewrite B2R_abs_finite in B.
    pose proof (thousandths_nonneg m e).
    destruct (thousandths_band m e 0 9999); simpl IZR; try lia.
    + pose proof (bpow_pos e). assert (0 < IZR (Zpos m))%R by (apply IZR_lt; lia). nra.
    + lra.
Qed.

(** [%.3f] of a value between 9.7299 and 9.8901. *)
Lemma fmt_3f_gravity (neg : bool) x :
  within x (97299 / 10000) (98901 / 10000) ->
  exists h, 9730 <= h <= 9890
    /\ fmt_3f neg x = cstr "9." ++ [digit_char (h mod 1000 / 100);
                                digit_char (h mod 100 / 10); digit_char (h mod 10)].
Proof.
  intros (_ & F & B). destruct x as [s|s| |s m e]; try discriminate.
  - simpl B2R in B. lra.
  - destruct s.
    + exfalso. rewrite B2R_finite in B. simpl sign_factor in B.
      pose proof (bpow_pos e). assert (0 < IZR (Zpos m))%R by (apply IZR_lt; lia). nra.
    + rewrite B2R_finite in B. simpl sign_factor in B. rewrite Rmult_1_l in B.
      exists (thousandths m e).
      assert (9730 <= thousandths m e <= 9890) as H
        by (apply thousandths_band; simpl IZR; lra).
      split; [exact H|]. cbn [fmt_3f]. unfold fixed3_text.
      replace (thousandths m e / 1000) with 9
        by (apply Z.div_unique with (thousandths m e - 9000); lia).
      reflexivity.
Qed.

(** X24: every line written by acc.c is "AX: ", a number, "  AY: ", a number,
    "  AZ: 9.", three digits and a newline: the two numbers are a sign (when
    negative), one digit, the point and three digits, the third is between
    9.730 and 9.890, and the line has 32 to 34 bytes.  This holds for every
    [int] tick below [INT_MAX] when [sin] and [cos] return well-formed finite
    values of magnitude at most 1 on finite arguments and [rand] returns
    values between 0 and [RAND_MAX]. *)
Theorem acc_line_layout (RAND_MAX : Z) (S : Type) (rand : S -> Z * S)
    (sin cos : spec_float -> spec_float) (nan_sign : Z -> nat -> bool)
    (t : Z) (s : S) :
  32767 <= RAND_MAX <= 2147483647 -> (forall s, 0 <= fst (rand s) <= RAND_MAX) ->
  (forall x, is_finite x = true -> fin64 (sin x) 1) ->
  (forall x, is_finite x = true -> fin64 (cos x) 1) ->
  - 2147483648 <= t < 2147483647 ->
  exists a b h,
    fst (Acc.main_iteration RAND_MAX S rand sin cos nan_sign (t, s))
    = cstr "AX: " ++ a ++ cstr "  AY: " ++ b ++ cstr "  AZ: 9."
        ++ [digit_char (h mod 1000 / 100); digit_char (h mod 100 / 10);
            digit_char (h mod 10)] ++ ["010"%byte]
    /\ is_fixed3 a = true /\ (5 <= List.length a <= 6)%nat
    /\ is_fixed3 b = true /\ (5 <= List.length b <= 6)%nat
    /\ 9730 <= h <= 9890
    /\ (32 <= List.length (fst (Acc.main_iteration RAND_MAX S rand sin cos nan_sign (t, s)))
        <= 34)%nat.
Proof.
  intros HM Hr Hs Hc Ht. unfold Acc.main_iteration.
  assert (Z.abs t <= 2147483648) as Ha by lia.
  pose proof (simulate_accel_x_range RAND_MAX S rand sin HM Hr Hs t s Ha) as Hax.
  destruct (Level1.simulate_accel_x RAND_MAX S rand sin t s) as [ax s1].
  pose proof (simulate_accel_y_range RAND_MAX S rand sin cos HM Hr Hs Hc t s1 Ha) as Hay.
  destruct (Level1.simulate_accel_y RAND_MAX S rand sin cos t s1) as [ay s2].
  pose proof (simulate_accel_z_range RAND_MAX S rand sin HM Hr Hs t s2 Ha) as Haz.
  destruct (Level1.simulate_accel_z RAND_MAX S rand sin t s2) as [az s3].
  cbn [fst] in *.
  destruct Hax as (_ & Fx & Bx). destruct Hay as (_ & Fy & By).
  destruct (fmt_3f_gravity (nan_sign t 2%nat) az Haz) as (h & Hh & Ez).
  pose proof (fmt_3f_narrow (nan_sign t 0%nat) ax Fx ltac:(lra)) as Lx.
  pose proof (fmt_3f_narrow (nan_sign t 1%nat) ay Fy ltac:(lra)) as Ly.
  exists (fmt_3f (nan_sign t 0%nat) ax), (fmt_3f (nan_sign t 1%nat) ay), h.
  assert (Acc.acc_line (nan_sign t) ax ay az
          = cstr "AX: " ++ fmt_3f (nan_sign t 0%nat) ax ++ cstr "  AY: "
            ++ fmt_3f (nan_sign t 1%nat) ay ++ cstr "  AZ: 9."
              ++ [digit_char (h mod 1000 / 100); digit_char (h mod 100 / 10);
                  digit_char (h mod 10)] ++ ["010"%byte]) as E.
  { unfold Acc.acc_line. rewrite Ez. rewrite <- !app_assoc. reflexivity. }
  split; [exact E|].
  split; [now apply fmt_3f_is_fixed3|]. split; [exact Lx|].
  split; [now apply fmt_3f_is_fixed3|]. split; [exact Ly|].
  split; [exact Hh|].
  rewrite E. rewrite !length_app. cbn [List.length cstr]. simpl List.length. lia.
Qed.

Lemma acc_line_layout_witness :
  exists a b h,
    fst (Acc.main_iteration 32767 Z rand_example (fun _ => S754_zero false)
           (fun _ => S754_zero false) (fun _ _ => false) (0, 1))
    = cstr "AX: " ++ a ++ cstr "  AY: " ++ b ++ cstr "  AZ: 9."
        ++ [digit_char (h mod 1000 / 100); digit_char (h mod 100 / 10);
            digit_char (h mod 10)] ++ ["010"%byte]
    /\ is_fixed3 a = true /\ (5 <= List.length a <= 6)%nat
    /\ is_fixed3 b = true /\ (5 <= List.length b <= 6)%nat
    /\ 9730 <= h <= 9890
    /\ (32 <= List.length (fst (Acc.main_iteration 32767 Z rand_example
                                  (fun _ => S754_zero false)
                                  (fun _ => S754_zero false) (fun _ _ => false)
                                  (0%Z, 1%Z))) <= 34)%nat.
Proof.
  apply (acc_line_layout 32767 Z rand_example (fun _ => S754_zero false)
           (fun _ => S754_zero false) (fun _ _ => false) 0 1).
  - lia.
  - apply rand_example_range.
  - exact zero_wave_bounded.
  - exact zero_wave_bounded.
  - lia.
Defined.
